(** * Half-edge mesh engine (MeshLib): shallow embedding and verification

    Embeds [core/Mesh/mesh.h] (CBaseMesh and its entity classes),
    [core/Mesh/dynamicmesh.h] (CDynamicMesh) and [core/Mesh/boundary.h]
    (CLoop, CBoundary) as state-passing functions over an explicit store.

    - Objects live in four stores, one per entity class, keyed by address.
      A pointer is [option positive]; [None] is the C++ [NULL].
    - [new] takes an address that is not allocated in the store of its class,
      [delete] removes the object; touching a freed or null address is
      undefined behaviour and shows as [Fault].
    - [assert] is governed by [NDEBUG], as in <assert.h>: when it is off a
      failing assertion stops the program ([Abort], carrying the store as it
      is at that moment); when it is on the assertion is not evaluated.
    - Loops that walk the pointer graph are run for as many rounds as the
      walk has states in the store, plus one; a walk that is still going
      after that is in a cycle and never leaves it ([Diverge]).
    - Geometry (points, normals, texture coordinates), trait strings and the
      client payload of the template parameters V, E, F, H carry no topology
      and are left out.  Lengths ([double] in the source) are integers: only
      their order and their left-to-right accumulation are used. *)

From stdpp Require Import gmap list strings pretty sorting.
From Stdlib Require Import ZArith Lia.

Open Scope Z_scope.

(** ** Entities *)

Abbreviation addr := positive (only parsing).
Abbreviation ptr := (option positive) (only parsing).
Abbreviation NULL := (@None positive) (only parsing).

(** [CBaseMesh::CVertex].  [m_edges] and [m_halfedges] are the lazily filled
    adjacency vectors behind [edges()] and [halfedges()]; [m_ledges] is the
    list [create_edge] and [edge] search. *)
Record CVertex := mkVertex {
  v_id : Z;
  v_halfedge : ptr;
  v_boundary : bool;
  v_edges : list ptr;
  v_halfedges : list ptr;
  v_ledges : list ptr;
  v_dangling : bool
}.

(** [CBaseMesh::CEdge]: [m_halfedge[0]], [m_halfedge[1]] and [m_length]. *)
Record CEdge := mkEdge {
  e_halfedge0 : ptr;
  e_halfedge1 : ptr;
  e_length : Z
}.

(** [CBaseMesh::CFace]. *)
Record CFace := mkFace {
  f_id : Z;
  f_halfedge : ptr
}.

(** [CBaseMesh::CHalfEdge]. *)
Record CHalfEdge := mkHalfEdge {
  h_edge : ptr;
  h_face : ptr;
  h_vertex : ptr;
  h_prev : ptr;
  h_next : ptr
}.

(** [CBaseMesh] with the two counters of [CDynamicMesh], the four object
    stores, and the text written to [std::cout] / [std::cerr]. *)
Record Mesh := mkMesh {
  hv : gmap positive CVertex;
  he : gmap positive CEdge;
  hf : gmap positive CFace;
  hh : gmap positive CHalfEdge;
  m_edges : list ptr;
  m_halfedges : list ptr;
  m_verts : list ptr;
  m_faces : list ptr;
  m_map_vert : gmap Z ptr;
  m_map_face : gmap Z ptr;
  m_vertex_id : Z;
  m_face_id : Z;
  out : list string
}.

Definition empty_mesh : Mesh :=
  mkMesh ∅ ∅ ∅ ∅ [] [] [] [] ∅ ∅ 0 0 [].

Definition num_vertices (m : Mesh) : nat := length (m_verts m).
Definition num_edges (m : Mesh) : nat := length (m_edges m).
Definition num_faces (m : Mesh) : nat := length (m_faces m).

(** ** Outcomes and the state monad *)

Inductive Res (A : Type) : Type :=
| Ok (a : A) (m : Mesh)
| Abort (m : Mesh)
| Fault
| Diverge.
Arguments Ok {A} a m.
Arguments Abort {A} m.
Arguments Fault {A}.
Arguments Diverge {A}.

Definition M (A : Type) : Type := Mesh → Res A.

Definition ret {A} (a : A) : M A := fun m => Ok a m.

Definition bind {A B} (c : M A) (k : A → M B) : M B :=
  fun m => match c m with
           | Ok a m' => k a m'
           | Abort m' => Abort m'
           | Fault => Fault
           | Diverge => Diverge
           end.

#[global] Instance M_ret : MRet M := @ret.
#[global] Instance M_bind : MBind M := fun A B k c => bind c k.

Definition fault {A} : M A := fun _ => Fault.
Definition diverge {A} : M A := fun _ => Diverge.
Definition get : M Mesh := fun m => Ok m m.
Definition modify (f : Mesh → Mesh) : M unit := fun m => Ok tt (f m).

(** [std::cout << s << std::endl] and [std::cerr << s << std::endl]. *)
Definition print (s : string) : M unit :=
  modify (fun m => mkMesh (hv m) (he m) (hf m) (hh m) (m_edges m) (m_halfedges m)
                     (m_verts m) (m_faces m) (m_map_vert m) (m_map_face m)
                     (m_vertex_id m) (m_face_id m) (out m ++ [s])).

(** ** Store access *)

Definition set_hv (f : gmap positive CVertex → gmap positive CVertex) (m : Mesh) : Mesh :=
  mkMesh (f (hv m)) (he m) (hf m) (hh m) (m_edges m) (m_halfedges m)
         (m_verts m) (m_faces m) (m_map_vert m) (m_map_face m)
         (m_vertex_id m) (m_face_id m) (out m).
Definition set_he (f : gmap positive CEdge → gmap positive CEdge) (m : Mesh) : Mesh :=
  mkMesh (hv m) (f (he m)) (hf m) (hh m) (m_edges m) (m_halfedges m)
         (m_verts m) (m_faces m) (m_map_vert m) (m_map_face m)
         (m_vertex_id m) (m_face_id m) (out m).
Definition set_hf (f : gmap positive CFace → gmap positive CFace) (m : Mesh) : Mesh :=
  mkMesh (hv m) (he m) (f (hf m)) (hh m) (m_edges m) (m_halfedges m)
         (m_verts m) (m_faces m) (m_map_vert m) (m_map_face m)
         (m_vertex_id m) (m_face_id m) (out m).
Definition set_hh (f : gmap positive CHalfEdge → gmap positive CHalfEdge) (m : Mesh) : Mesh :=
  mkMesh (hv m) (he m) (hf m) (f (hh m)) (m_edges m) (m_halfedges m)
         (m_verts m) (m_faces m) (m_map_vert m) (m_map_face m)
         (m_vertex_id m) (m_face_id m) (out m).
Definition set_m_edges (f : list ptr → list ptr) (m : Mesh) : Mesh :=
  mkMesh (hv m) (he m) (hf m) (hh m) (f (m_edges m)) (m_halfedges m)
         (m_verts m) (m_faces m) (m_map_vert m) (m_map_face m)
         (m_vertex_id m) (m_face_id m) (out m).
Definition set_m_halfedges (f : list ptr → list ptr) (m : Mesh) : Mesh :=
  mkMesh (hv m) (he m) (hf m) (hh m) (m_edges m) (f (m_halfedges m))
         (m_verts m) (m_faces m) (m_map_vert m) (m_map_face m)
         (m_vertex_id m) (m_face_id m) (out m).
Definition set_m_verts (f : list ptr → list ptr) (m : Mesh) : Mesh :=
  mkMesh (hv m) (he m) (hf m) (hh m) (m_edges m) (m_halfedges m)
         (f (m_verts m)) (m_faces m) (m_map_vert m) (m_map_face m)
         (m_vertex_id m) (m_face_id m) (out m).
Definition set_m_faces (f : list ptr → list ptr) (m : Mesh) : Mesh :=
  mkMesh (hv m) (he m) (hf m) (hh m) (m_edges m) (m_halfedges m)
         (m_verts m) (f (m_faces m)) (m_map_vert m) (m_map_face m)
         (m_vertex_id m) (m_face_id m) (out m).
Definition set_m_map_vert (f : gmap Z ptr → gmap Z ptr) (m : Mesh) : Mesh :=
  mkMesh (hv m) (he m) (hf m) (hh m) (m_edges m) (m_halfedges m)
         (m_verts m) (m_faces m) (f (m_map_vert m)) (m_map_face m)
         (m_vertex_id m) (m_face_id m) (out m).
Definition set_m_map_face (f : gmap Z ptr → gmap Z ptr) (m : Mesh) : Mesh :=
  mkMesh (hv m) (he m) (hf m) (hh m) (m_edges m) (m_halfedges m)
         (m_verts m) (m_faces m) (m_map_vert m) (f (m_map_face m))
         (m_vertex_id m) (m_face_id m) (out m).
Definition set_m_vertex_id (z : Z) (m : Mesh) : Mesh :=
  mkMesh (hv m) (he m) (hf m) (hh m) (m_edges m) (m_halfedges m)
         (m_verts m) (m_faces m) (m_map_vert m) (m_map_face m)
         z (m_face_id m) (out m).
Definition set_m_face_id (z : Z) (m : Mesh) : Mesh :=
  mkMesh (hv m) (he m) (hf m) (hh m) (m_edges m) (m_halfedges m)
         (m_verts m) (m_faces m) (m_map_vert m) (m_map_face m)
         (m_vertex_id m) z (out m).

(** Reading through a pointer: [p->...]. *)
Definition rdV (p : ptr) : M CVertex :=
  fun m => match p with
           | Some a => match hv m !! a with Some x => Ok x m | None => Fault end
           | None => Fault
           end.
Definition rdE (p : ptr) : M CEdge :=
  fun m => match p with
           | Some a => match he m !! a with Some x => Ok x m | None => Fault end
           | None => Fault
           end.
Definition rdF (p : ptr) : M CFace :=
  fun m => match p with
           | Some a => match hf m !! a with Some x => Ok x m | None => Fault end
           | None => Fault
           end.
Definition rdH (p : ptr) : M CHalfEdge :=
  fun m => match p with
           | Some a => match hh m !! a with Some x => Ok x m | None => Fault end
           | None => Fault
           end.

(** Writing through a pointer: [p->field = ...]. *)
Definition wrV (p : ptr) (f : CVertex → CVertex) : M unit :=
  x ← rdV p;
  match p with
  | Some a => modify (set_hv (insert a (f x)))
  | None => fault
  end.
Definition wrE (p : ptr) (f : CEdge → CEdge) : M unit :=
  x ← rdE p;
  match p with
  | Some a => modify (set_he (insert a (f x)))
  | None => fault
  end.
Definition wrF (p : ptr) (f : CFace → CFace) : M unit :=
  x ← rdF p;
  match p with
  | Some a => modify (set_hf (insert a (f x)))
  | None => fault
  end.
Definition wrH (p : ptr) (f : CHalfEdge → CHalfEdge) : M unit :=
  x ← rdH p;
  match p with
  | Some a => modify (set_hh (insert a (f x)))
  | None => fault
  end.

(** Field updates. *)
Definition with_v_id (z : Z) (x : CVertex) : CVertex :=
  mkVertex z (v_halfedge x) (v_boundary x) (v_edges x) (v_halfedges x) (v_ledges x) (v_dangling x).
Definition with_v_halfedge (p : ptr) (x : CVertex) : CVertex :=
  mkVertex (v_id x) p (v_boundary x) (v_edges x) (v_halfedges x) (v_ledges x) (v_dangling x).
Definition with_v_boundary (b : bool) (x : CVertex) : CVertex :=
  mkVertex (v_id x) (v_halfedge x) b (v_edges x) (v_halfedges x) (v_ledges x) (v_dangling x).
Definition with_v_edges (l : list ptr) (x : CVertex) : CVertex :=
  mkVertex (v_id x) (v_halfedge x) (v_boundary x) l (v_halfedges x) (v_ledges x) (v_dangling x).
Definition with_v_halfedges (l : list ptr) (x : CVertex) : CVertex :=
  mkVertex (v_id x) (v_halfedge x) (v_boundary x) (v_edges x) l (v_ledges x) (v_dangling x).
Definition with_v_ledges (l : list ptr) (x : CVertex) : CVertex :=
  mkVertex (v_id x) (v_halfedge x) (v_boundary x) (v_edges x) (v_halfedges x) l (v_dangling x).
Definition with_v_dangling (b : bool) (x : CVertex) : CVertex :=
  mkVertex (v_id x) (v_halfedge x) (v_boundary x) (v_edges x) (v_halfedges x) (v_ledges x) b.

Definition with_e_halfedge0 (p : ptr) (x : CEdge) : CEdge :=
  mkEdge p (e_halfedge1 x) (e_length x).
Definition with_e_halfedge1 (p : ptr) (x : CEdge) : CEdge :=
  mkEdge (e_halfedge0 x) p (e_length x).
Definition with_e_length (z : Z) (x : CEdge) : CEdge :=
  mkEdge (e_halfedge0 x) (e_halfedge1 x) z.

Definition with_f_id (z : Z) (x : CFace) : CFace := mkFace z (f_halfedge x).
Definition with_f_halfedge (p : ptr) (x : CFace) : CFace := mkFace (f_id x) p.

Definition with_h_edge (p : ptr) (x : CHalfEdge) : CHalfEdge :=
  mkHalfEdge p (h_face x) (h_vertex x) (h_prev x) (h_next x).
Definition with_h_face (p : ptr) (x : CHalfEdge) : CHalfEdge :=
  mkHalfEdge (h_edge x) p (h_vertex x) (h_prev x) (h_next x).
Definition with_h_vertex (p : ptr) (x : CHalfEdge) : CHalfEdge :=
  mkHalfEdge (h_edge x) (h_face x) p (h_prev x) (h_next x).
Definition with_h_prev (p : ptr) (x : CHalfEdge) : CHalfEdge :=
  mkHalfEdge (h_edge x) (h_face x) (h_vertex x) p (h_next x).
Definition with_h_next (p : ptr) (x : CHalfEdge) : CHalfEdge :=
  mkHalfEdge (h_edge x) (h_face x) (h_vertex x) (h_prev x) p.

(** [new CVertex()]: [m_halfedge = NULL; m_boundary = false]. *)
Definition new_CVertex : M ptr :=
  fun m => let a := fresh (dom (hv m)) in
           Ok (Some a) (set_hv (insert a (mkVertex 0 NULL false [] [] [] false)) m).
(** [new CEdge()]: both half-edge slots [NULL]. *)
Definition new_CEdge : M ptr :=
  fun m => let a := fresh (dom (he m)) in
           Ok (Some a) (set_he (insert a (mkEdge NULL NULL 0)) m).
(** [new CFace()]: [m_halfedge = NULL]. *)
Definition new_CFace : M ptr :=
  fun m => let a := fresh (dom (hf m)) in
           Ok (Some a) (set_hf (insert a (mkFace 0 NULL)) m).
(** [new CHalfEdge()]: all five pointers [NULL]. *)
Definition new_CHalfEdge : M ptr :=
  fun m => let a := fresh (dom (hh m)) in
           Ok (Some a) (set_hh (insert a (mkHalfEdge NULL NULL NULL NULL NULL)) m).

(** [delete p]. *)
Definition delete_CVertex (p : ptr) : M unit :=
  match p with Some a => rdV p ;; modify (set_hv (delete a)) | None => ret tt end.
Definition delete_CEdge (p : ptr) : M unit :=
  match p with Some a => rdE p ;; modify (set_he (delete a)) | None => ret tt end.
Definition delete_CFace (p : ptr) : M unit :=
  match p with Some a => rdF p ;; modify (set_hf (delete a)) | None => ret tt end.
Definition delete_CHalfEdge (p : ptr) : M unit :=
  match p with Some a => rdH p ;; modify (set_hh (delete a)) | None => ret tt end.

Definition ptr_eqb (p q : ptr) : bool := bool_decide (p = q).

(** [std::list::remove(x)]: erases every element equal to [x]. *)
Definition list_remove (x : ptr) (l : list ptr) : list ptr :=
  filter (fun y => y ≠ x) l.

(** [std::list::erase] at the first position holding [x] (as found by the
    scanning loop of [swapEdge]); [None] when [x] is not there. *)
Fixpoint list_erase_first (x : ptr) (l : list ptr) : option (list ptr) :=
  match l with
  | [] => None
  | y :: l' => if ptr_eqb y x then Some l'
               else match list_erase_first x l' with
                    | Some r => Some (y :: r)
                    | None => None
                    end
  end.

(** [v[i]] on a [std::vector] or a C array: out of range is undefined. *)
Definition idx (l : list ptr) (i : nat) : M ptr :=
  match l !! i with Some p => ret p | None => fault end.

(** [for (x : l) body]. *)
Fixpoint for_each {A} (l : list A) (body : A → M unit) : M unit :=
  match l with
  | [] => ret tt
  | x :: l' => body x;; for_each l' body
  end.

(** [INT_MAX]; [++i] on an [int] that holds it is undefined. *)
Definition INT_MAX : Z := 2147483647.

(** ** [mesh.h]: entity methods *)

Section Code.

(** Whether the translation unit is compiled with [NDEBUG]. *)
Variable NDEBUG : bool.

(** [assert(c)]. *)
Definition assert_ (c : M bool) : M unit :=
  if NDEBUG then ret tt
  else b ← c; if (b : bool) then ret tt else (fun m => Abort m).

(** *** CHalfEdge *)

(** [CHalfEdge::target()], [vertex()]. *)
Definition target (h : ptr) : M ptr := x ← rdH h; ret (h_vertex x).
(** [CHalfEdge::source()]: [m_prev->vertex()]. *)
Definition source (h : ptr) : M ptr := x ← rdH h; p ← rdH (h_prev x); ret (h_vertex p).
(** [CHalfEdge::prev()], [next()], [edge()], [face()]. *)
Definition prev (h : ptr) : M ptr := x ← rdH h; ret (h_prev x).
Definition next (h : ptr) : M ptr := x ← rdH h; ret (h_next x).
Definition edge_of (h : ptr) : M ptr := x ← rdH h; ret (h_edge x).
Definition face_of (h : ptr) : M ptr := x ← rdH h; ret (h_face x).

(** [CEdge::other(he)]:
    [(he != m_halfedge[0]) ? m_halfedge[0] : m_halfedge[1]]. *)
Definition other (e : ptr) (h : ptr) : M ptr :=
  x ← rdE e;
  ret (if ptr_eqb h (e_halfedge0 x) then e_halfedge1 x else e_halfedge0 x).

(** [CHalfEdge::dual()]: [m_edge->other(this)]. *)
Definition dual (h : ptr) : M ptr := x ← rdH h; other (h_edge x) h.

(** [CHalfEdge::ccw_rotate_about_target()]:
    [this->dual() ? this->dual()->prev() : NULL]. *)
Definition ccw_rotate_about_target (h : ptr) : M ptr :=
  d ← dual h;
  match d with Some _ => prev d | None => ret NULL end.
(** [CHalfEdge::clw_rotate_about_target()]: [this->next()->dual()]. *)
Definition clw_rotate_about_target (h : ptr) : M ptr := n ← next h; dual n.
(** [CHalfEdge::ccw_rotate_about_source()]: [this->prev()->dual()]. *)
Definition ccw_rotate_about_source (h : ptr) : M ptr := p ← prev h; dual p.
(** [CHalfEdge::clw_rotate_about_source()]:
    [this->dual() ? this->dual()->next() : NULL]. *)
Definition clw_rotate_about_source (h : ptr) : M ptr :=
  d ← dual h;
  match d with Some _ => next d | None => ret NULL end.

(** *** CEdge *)

(** [CEdge::halfedge(0)], [CEdge::halfedge(1)]. *)
Definition halfedge0 (e : ptr) : M ptr := x ← rdE e; ret (e_halfedge0 x).
Definition halfedge1 (e : ptr) : M ptr := x ← rdE e; ret (e_halfedge1 x).

(** [CEdge::vertex1()]:
    [assert(m_halfedge[0] != NULL); return m_halfedge[0]->source();] *)
Definition vertex1 (e : ptr) : M ptr :=
  x ← rdE e;
  assert_ (ret (negb (ptr_eqb (e_halfedge0 x) NULL)));;
  source (e_halfedge0 x).
(** [CEdge::vertex2()]:
    [assert(m_halfedge[0] != NULL); return m_halfedge[0]->target();] *)
Definition vertex2 (e : ptr) : M ptr :=
  x ← rdE e;
  assert_ (ret (negb (ptr_eqb (e_halfedge0 x) NULL)));;
  target (e_halfedge0 x).

(** [CEdge::boundary()]:
    [(m_halfedge[0] == NULL) || (m_halfedge[1] == NULL)]. *)
Definition edge_boundary (e : ptr) : M bool :=
  x ← rdE e;
  ret (ptr_eqb (e_halfedge0 x) NULL || ptr_eqb (e_halfedge1 x) NULL).

(** *** CVertex *)

Definition vertex_id (v : ptr) : M Z := x ← rdV v; ret (v_id x).
Definition vertex_halfedge (v : ptr) : M ptr := x ← rdV v; ret (v_halfedge x).

(** The [while (he != NULL) { m_halfedge = he; he = m_halfedge->rot(); }]
    loops of [most_ccw_in_halfedge] and [most_clw_in_halfedge]. *)
Fixpoint seat_loop (rot : ptr → M ptr) (fuel : nat) (v he : ptr) : M unit :=
  match he with
  | None => ret tt
  | Some _ =>
      match fuel with
      | O => diverge
      | S fuel' =>
          wrV v (with_v_halfedge he);;
          he' ← rot he;
          seat_loop rot fuel' v he'
      end
  end.

(** The [while (ne != NULL) { he = ne; ne = he->rot(); }] loops of
    [most_ccw_out_halfedge] and [most_clw_out_halfedge]; yields [he]. *)
Fixpoint walk_loop (rot : ptr → M ptr) (fuel : nat) (he ne : ptr) : M ptr :=
  match ne with
  | None => ret he
  | Some _ =>
      match fuel with
      | O => diverge
      | S fuel' =>
          ne' ← rot ne;
          walk_loop rot fuel' ne ne'
      end
  end.

(** Number of rounds after which a walk over half-edges has repeated a
    position. *)
Definition walk_fuel : M nat := m ← get; ret (S (size (hh m))).

(** [CVertex::most_ccw_in_halfedge()]. *)
Definition most_ccw_in_halfedge (v : ptr) : M ptr :=
  x ← rdV v;
  if negb (v_boundary x) then ret (v_halfedge x)
  else
    he ← ccw_rotate_about_target (v_halfedge x);
    fuel ← walk_fuel;
    seat_loop ccw_rotate_about_target fuel v he;;
    vertex_halfedge v.

(** [CVertex::most_clw_in_halfedge()]. *)
Definition most_clw_in_halfedge (v : ptr) : M ptr :=
  x ← rdV v;
  if negb (v_boundary x) then
    h ← most_ccw_in_halfedge v; ccw_rotate_about_target h
  else
    he ← clw_rotate_about_target (v_halfedge x);
    fuel ← walk_fuel;
    seat_loop clw_rotate_about_target fuel v he;;
    vertex_halfedge v.

(** [CVertex::most_ccw_out_halfedge()]. *)
Definition most_ccw_out_halfedge (v : ptr) : M ptr :=
  x ← rdV v;
  if negb (v_boundary x) then
    h ← most_ccw_in_halfedge v; dual h
  else
    he ← next (v_halfedge x);
    ne ← ccw_rotate_about_source he;
    fuel ← walk_fuel;
    walk_loop ccw_rotate_about_source fuel he ne.

(** [CVertex::most_clw_out_halfedge()]. *)
Definition most_clw_out_halfedge (v : ptr) : M ptr :=
  x ← rdV v;
  if negb (v_boundary x) then
    h ← most_ccw_out_halfedge v; ccw_rotate_about_source h
  else
    he ← next (v_halfedge x);
    ne ← clw_rotate_about_source he;
    fuel ← walk_fuel;
    walk_loop clw_rotate_about_source fuel he ne.

(** The collecting loop of [CVertex::halfedges()], out direction:
    [while (he) { he = he->ccw_rotate_about_source();
                  if (!he || he == he0) break; m_halfedges.push_back(he); }] *)
Fixpoint collect_loop (fuel : nat) (v he0 he : ptr) : M unit :=
  match he with
  | None => ret tt
  | Some _ =>
      match fuel with
      | O => diverge
      | S fuel' =>
          he' ← ccw_rotate_about_source he;
          if ptr_eqb he' NULL || ptr_eqb he' he0 then ret tt
          else
            x ← rdV v;
            wrV v (with_v_halfedges (v_halfedges x ++ [he']));;
            collect_loop fuel' v he0 he'
      end
  end.

(** [CVertex::halfedges(direction = 1)].  [halfedge_direction] is
    initialised to 1 and never assigned, and every call in the modelled code
    passes the default, so the cached vector is returned whenever it is not
    empty. *)
Definition vertex_halfedges (v : ptr) : M (list ptr) :=
  x ← rdV v;
  if negb (bool_decide (v_halfedges x = [])) then ret (v_halfedges x)
  else
    wrV v (with_v_halfedges []);;
    he0 ← most_clw_out_halfedge v;
    x1 ← rdV v;
    wrV v (with_v_halfedges (v_halfedges x1 ++ [he0]));;
    fuel ← walk_fuel;
    collect_loop fuel v he0 he0;;
    x2 ← rdV v;
    ret (v_halfedges x2).

(** [CVertex::edges()]: fills [m_edges] on first use. *)
Definition vertex_edges (v : ptr) : M (list ptr) :=
  x ← rdV v;
  (if bool_decide (v_edges x = []) then
     hs ← vertex_halfedges v;
     wrV v (with_v_halfedges hs);;
     for_each hs (fun h =>
       e ← edge_of h;
       y ← rdV v;
       wrV v (with_v_edges (v_edges y ++ [e])));;
     y ← rdV v;
     if v_boundary y then
       h ← most_ccw_in_halfedge v;
       e ← edge_of h;
       z ← rdV v;
       wrV v (with_v_edges (v_edges z ++ [e]))
     else ret tt
   else ret tt);;
  x' ← rdV v;
  ret (v_edges x').

(** ** [mesh.h]: CBaseMesh *)

(** [CBaseMesh::vertex(id)]: [m_map_vert[id]]; [operator[]] binds a missing
    key to [NULL]. *)
Definition vertex (id : Z) : M ptr :=
  m ← get;
  match m_map_vert m !! id with
  | Some p => ret p
  | None => modify (set_m_map_vert (insert id NULL));; ret NULL
  end.

(** [CBaseMesh::face(id)]: [m_map_face[id]]. *)
Definition face (id : Z) : M ptr :=
  m ← get;
  match m_map_face m !! id with
  | Some p => ret p
  | None => modify (set_m_map_face (insert id NULL));; ret NULL
  end.

(** [std::map::insert(pair)]: keeps the binding that is already there. *)
Definition map_insert_new (k : Z) (p : ptr) (mp : gmap Z ptr) : gmap Z ptr :=
  match mp !! k with
  | Some _ => mp
  | None => <[k := p]> mp
  end.

(** [CBaseMesh::create_vertex(id)]. *)
Definition create_vertex (id : Z) : M ptr :=
  v ← new_CVertex;
  wrV v (with_v_id id);;
  modify (set_m_verts (fun l => l ++ [v]));;
  modify (set_m_map_vert (map_insert_new id v));;
  ret v.

(** The scan shared by [CBaseMesh::edge] and [CBaseMesh::create_edge]:
    the first edge of the list whose slot-0 half-edge runs from [v1] to [v2]
    or from [v2] to [v1]. *)
Fixpoint find_edge (v1 v2 : ptr) (ledges : list ptr) : M ptr :=
  match ledges with
  | [] => ret NULL
  | pE :: rest =>
      pH ← halfedge0 pE;
      s ← source pH;
      t ← target pH;
      if ptr_eqb s v1 && ptr_eqb t v2 then ret pE
      else if ptr_eqb s v2 && ptr_eqb t v1 then ret pE
      else find_edge v1 v2 rest
  end.

(** [CVertex * pV = (v1->id() < v2->id()) ? v1 : v2;] *)
Definition smaller_id (v1 v2 : ptr) : M ptr :=
  i1 ← vertex_id v1;
  i2 ← vertex_id v2;
  ret (if i1 <? i2 then v1 else v2).

(** [CBaseMesh::edge(v0, v1)]. *)
Definition edge (v0 v1 : ptr) : M ptr :=
  pV ← smaller_id v0 v1;
  x ← rdV pV;
  find_edge v0 v1 (v_ledges x).

(** [CBaseMesh::create_edge(v1, v2)]. *)
Definition create_edge (v1 v2 : ptr) : M ptr :=
  pV ← smaller_id v1 v2;
  x ← rdV pV;
  found ← find_edge v1 v2 (v_ledges x);
  match found with
  | Some _ => ret found
  | None =>
      e ← new_CEdge;
      modify (set_m_edges (fun l => l ++ [e]));;
      y ← rdV pV;
      wrV pV (with_v_ledges (v_ledges y ++ [e]));;
      ret e
  end.

(** The first loop of [create_face]: one half-edge per vertex of [vs],
    in order; yields the vector [hes]. *)
Fixpoint create_face_halfedges (vs : list ptr) (hes : list ptr) : M (list ptr) :=
  match vs with
  | [] => ret hes
  | v :: vs' =>
      h ← new_CHalfEdge;
      wrH h (with_h_vertex v);;
      wrV v (with_v_halfedge h);;
      x ← rdV v;
      wrV v (with_v_halfedges (v_halfedges x ++ [h]));;
      modify (set_m_halfedges (fun l => l ++ [h]));;
      create_face_halfedges vs' (hes ++ [h])
  end.

(** [CBaseMesh::create_face(vs, id)]. *)
Definition create_face (vs : list ptr) (id : Z) : M ptr :=
  f ← new_CFace;
  wrF f (with_f_id id);;
  modify (set_m_faces (fun l => l ++ [f]));;
  modify (set_m_map_face (map_insert_new id f));;
  (* create halfedges *)
  hes ← create_face_halfedges vs [];
  let n := length hes in
  (* linking to each other *)
  for_each (seq 0 n) (fun i =>
    hi ← idx hes i;
    hn ← idx hes ((i + 1) mod n)%nat;
    wrH hi (with_h_next hn);;
    hp ← idx hes ((i + n - 1) mod n)%nat;
    wrH hi (with_h_prev hp));;
  (* linking to face *)
  for_each (seq 0 n) (fun i =>
    hi ← idx hes i;
    wrH hi (with_h_face f);;
    wrF f (with_f_halfedge hi));;
  (* connecting with edge *)
  for_each (seq 0 n) (fun i =>
    vi ← idx vs i;
    vp ← idx vs ((i + n - 1) mod n)%nat;
    hi ← idx hes i;
    e ← create_edge vi vp;
    e0 ← halfedge0 e;
    (if ptr_eqb e0 NULL then
       wrE e (with_e_halfedge0 hi)
     else
       assert_ (e1 ← halfedge1 e; ret (ptr_eqb e1 NULL));;
       e1 ← halfedge1 e;
       (if negb (ptr_eqb e1 NULL)
        then print ("Illegal Face Construction " +:+ pretty id)
        else ret tt);;
       wrE e (with_e_halfedge1 hi));;
    wrH hi (with_h_edge e));;
  ret f.

(** [CBaseMesh::delete_face(pFace)]. *)
Definition delete_face (pFace : ptr) : M unit :=
  fx ← rdF pFace;
  modify (set_m_map_face (delete (f_id fx)));;
  modify (set_m_faces (list_remove pFace));;
  let h0 := f_halfedge fx in
  h1 ← next h0;
  h2 ← next h1;
  let hes := [h0; h1; h2] in
  for_each hes (fun pH =>
    (* connection to target *)
    pV ← target pH;
    r ← vertex_halfedge pV;
    if ptr_eqb r pH then
      n ← next pH;
      d ← dual n;
      if negb (ptr_eqb d NULL) then
        n' ← next pH; d' ← dual n';
        wrV pV (with_v_halfedge d')
      else
        assert_ (s ← dual pH; ret (negb (ptr_eqb s NULL)));;
        n' ← next pH; d' ← dual n';
        wrV pV (with_v_halfedge d')
    else ret tt);;
  for_each hes (fun pH =>
    (* connection with edge *)
    pS ← dual pH;
    pE ← edge_of pH;
    wrE pE (with_e_halfedge0 pS);;
    wrE pE (with_e_halfedge1 NULL);;
    if ptr_eqb pS NULL then
      modify (set_m_edges (list_remove pE));;
      v0 ← source pH;
      v1 ← target pH;
      delete_CEdge pE
    else ret tt);;
  (* remove half edges *)
  for_each hes delete_CHalfEdge;;
  delete_CFace pFace.

(** [CBaseMesh::label_boundary()]. *)
Definition label_boundary : M unit :=
  m ← get;
  for_each (m_edges m) (fun e =>
    he0 ← halfedge0 e;
    he1 ← halfedge1 e;
    assert_ (ret (negb (ptr_eqb he0 NULL)));;
    if negb (ptr_eqb he1 NULL) then
      assert_ (t0 ← target he0; s1 ← source he1;
               if ptr_eqb t0 s1
               then s0 ← source he0; t1 ← target he1; ret (ptr_eqb s0 t1)
               else ret false);;
      t0 ← target he0; id_t ← vertex_id t0;
      s0 ← source he0; id_s ← vertex_id s0;
      (if id_t <? id_s then
         wrE e (with_e_halfedge0 he1);;
         wrE e (with_e_halfedge1 he0)
       else ret tt);;
      assert_ (a ← vertex1 e; ia ← vertex_id a;
               b ← vertex2 e; ib ← vertex_id b;
               ret (ia <? ib))
    else
      v ← target he0;
      wrV v (with_v_boundary true);;
      p ← prev he0;
      w ← target p;
      wrV w (with_v_boundary true));;
  m1 ← get;
  (* dangling vertices *)
  dangling_verts ←
    (fix scan (l : list ptr) (acc : list ptr) : M (list ptr) :=
       match l with
       | [] => ret acc
       | v :: l' =>
           r ← vertex_halfedge v;
           if negb (ptr_eqb r NULL) then scan l' acc
           else scan l' (acc ++ [v])
       end) (m_verts m1) [];
  for_each dangling_verts (fun v =>
    modify (set_m_verts (list_remove v));;
    wrV v (with_v_dangling true);;
    delete_CVertex v).

(** ** [dynamicmesh.h]: CDynamicMesh *)

(** [++m_vertex_id] and [++m_face_id]. *)
Definition incr_vertex_id : M Z :=
  m ← get;
  if bool_decide (m_vertex_id m = INT_MAX) then fault
  else modify (set_m_vertex_id (m_vertex_id m + 1));; ret (m_vertex_id m + 1).
Definition incr_face_id : M Z :=
  m ← get;
  if bool_decide (m_face_id m = INT_MAX) then fault
  else modify (set_m_face_id (m_face_id m + 1));; ret (m_face_id m + 1).

(** [CDynamicMesh::__attach_halfedge_to_edge(he0, he1, e)]. *)
Definition attach_halfedge_to_edge (he0 he1 e : ptr) : M unit :=
  wrE e (with_e_halfedge0 he0);;
  wrE e (with_e_halfedge1 he1);;
  wrH he0 (with_h_edge e);;
  wrH he1 (with_h_edge e).

(** The block that [splitFace] and [splitEdge] repeat for each new face:
    a face with the next face id, appended to [m_faces], and three fresh
    half-edges linked into a cycle and to the face. *)
Definition new_triangle : M (ptr * (ptr * ptr * ptr)) :=
  f ← new_CFace;
  id ← incr_face_id;
  wrF f (with_f_id id);;
  modify (set_m_faces (fun l => l ++ [f]));;
  (* create halfedges *)
  a ← new_CHalfEdge;
  b ← new_CHalfEdge;
  c ← new_CHalfEdge;
  (* linking to each other *)
  wrH a (with_h_next b);; wrH a (with_h_prev c);;
  wrH b (with_h_next c);; wrH b (with_h_prev a);;
  wrH c (with_h_next a);; wrH c (with_h_prev b);;
  (* linking to face *)
  wrH a (with_h_face f);; wrF f (with_f_halfedge a);;
  wrH b (with_h_face f);; wrF f (with_f_halfedge b);;
  wrH c (with_h_face f);; wrF f (with_f_halfedge c);;
  ret (f, (a, b, c)).

(** The [for (i < 3) { e[i] = new CEdge(); m_edges.push_back(e[i]); }] of
    both split operators. *)
Definition new_edge_listed : M ptr :=
  e ← new_CEdge;
  modify (set_m_edges (fun l => l ++ [e]));;
  ret e.

(** [CDynamicMesh::splitFace(pFace)]. *)
Definition splitFace (pFace : ptr) : M ptr :=
  id ← incr_vertex_id;
  pV ← create_vertex id;
  h0 ← (fx ← rdF pFace; ret (f_halfedge fx));
  h1 ← next h0;
  h2 ← next h1;
  v0 ← target h0; eg0 ← edge_of h0; hs0 ← dual h0;
  v1 ← target h1; eg1 ← edge_of h1; hs1 ← dual h1;
  v2 ← target h2; eg2 ← edge_of h2; hs2 ← dual h2;
  '(_, (hes0, hes1, hes2)) ← new_triangle;
  '(_, (hes20, hes21, hes22)) ← new_triangle;
  e0 ← new_edge_listed;
  e1 ← new_edge_listed;
  e2 ← new_edge_listed;
  attach_halfedge_to_edge h1 hes0 e0;;
  attach_halfedge_to_edge hes2 hes21 e1;;
  attach_halfedge_to_edge h2 hes20 e2;;
  attach_halfedge_to_edge h0 hs0 eg0;;
  attach_halfedge_to_edge hes1 hs1 eg1;;
  attach_halfedge_to_edge hes22 hs2 eg2;;
  wrV pV (with_v_halfedge h1);;
  wrH h1 (with_h_vertex pV);;
  wrH h2 (with_h_vertex v2);;
  wrH hes0 (with_h_vertex v0);;
  wrH hes1 (with_h_vertex v1);;
  wrH hes2 (with_h_vertex pV);;
  wrH hes20 (with_h_vertex pV);;
  wrH hes21 (with_h_vertex v1);;
  wrH hes22 (with_h_vertex v2);;
  for_each [(v0, hs0); (v1, hs1); (v2, hs2)] (fun '(v, hs) =>
    d ← dual hs;
    wrV v (with_v_halfedge d));;
  ret pV.

(** The scan over [wedges] that [swapEdge] and [swapable] share: whether
    some edge of the list runs between [pv0] and [pv2]. *)
Fixpoint scan_wedges (pv0 pv2 : ptr) (stop_at_first : bool) (wedges : list ptr) : M bool :=
  match wedges with
  | [] => ret false
  | pE :: rest =>
      v1 ← vertex1 pE;
      v2 ← vertex2 pE;
      if (ptr_eqb v1 pv0 && ptr_eqb v2 pv2) || (ptr_eqb v1 pv2 && ptr_eqb v2 pv0) then
        print "DynamicMesh::SwapEdge::Warning Two edges share same both end vertices";;
        if stop_at_first then ret true
        else scan_wedges pv0 pv2 stop_at_first rest
      else scan_wedges pv0 pv2 stop_at_first rest
  end.

(** The slot test of [swapEdge]:
    [if (pe->halfedge(0) == he) pi = 0;
     else { assert(pe->halfedge(1) == he); pi = 1; }] *)
Definition slot_of (pe he : ptr) : M bool :=
  s0 ← halfedge0 pe;
  if ptr_eqb s0 he then ret false
  else assert_ (s1 ← halfedge1 pe; ret (ptr_eqb s1 he));; ret true.

(** [pe->halfedge(pi) = h]. *)
Definition set_slot (pe : ptr) (pi : bool) (h : ptr) : M unit :=
  if pi then wrE pe (with_e_halfedge1 h) else wrE pe (with_e_halfedge0 h).

(** A [std::list<CEdge*> &] bound by [(std::list<CEdge*> &) v->edges()].
    [CVertex::edges()] fills and returns the [std::vector<CEdge*>]
    [m_edges] of the vertex, by reference; the cast makes the new
    reference name that vector object as a list.  The binding itself
    reads nothing. *)
Inductive cast_list : Type := vector_as_list (v : ptr).

(** The uses of such a reference: the walk from [l.begin()] to [l.end()],
    [l.erase(pos)] and [l.push_back(e)].  Each one reads the words of a
    vector object as the head node of a list: the behaviour is undefined,
    whatever the vector holds. *)
Definition cast_list_elements (l : cast_list) : M (list ptr) := fault.
Definition cast_list_erase (l : cast_list) (e : ptr) : M unit := fault.
Definition cast_list_push_back (l : cast_list) (e : ptr) : M unit := fault.

(** [CDynamicMesh::swapEdge(edge)].

    The source binds [ledges] and [wedges] with
    [(std::list<CEdge*> &) vb->edges()] and [(std::list<CEdge*> &) wb->edges()];
    the candidate list [m_ledges] is not what it names.  Both calls of
    [edges()] run; the first use of [wedges] is the scan that follows. *)
Definition swapEdge (edge : ptr) : M unit :=
  he_left ← halfedge0 edge;
  he_right ← halfedge1 edge;
  if ptr_eqb he_right NULL then ret tt
  else
    let ph0 := he_left in
    ph1 ← next ph0;
    ph2 ← next ph1;
    let ph3 := he_right in
    ph4 ← next ph3;
    ph5 ← next ph4;
    pv0 ← target ph0;
    pv1 ← target ph1;
    pv2 ← target ph2;
    pv3 ← target ph4;
    pe0 ← edge_of ph0; pi0 ← slot_of pe0 ph0;
    pe1 ← edge_of ph1; pi1 ← slot_of pe1 ph1;
    pe2 ← edge_of ph2; pi2 ← slot_of pe2 ph2;
    pe3 ← edge_of ph3; pi3 ← slot_of pe3 ph3;
    pe4 ← edge_of ph4; pi4 ← slot_of pe4 ph4;
    pe5 ← edge_of ph5; pi5 ← slot_of pe5 ph5;
    (* remove edge from edge list of the original vertex *)
    vb ← smaller_id pv0 pv2;
    vertex_edges vb;;
    let ledges := vector_as_list vb in
    (* add edge to the edge list of the new vertex *)
    wb ← smaller_id pv1 pv3;
    vertex_edges wb;;
    let wedges := vector_as_list wb in
    ws ← cast_list_elements wedges;
    scan_wedges pv0 pv2 false ws;;
    (* relink the vertices *)
    wrH ph0 (with_h_vertex pv1);;
    wrH ph1 (with_h_vertex pv2);;
    wrH ph2 (with_h_vertex pv3);;
    wrH ph3 (with_h_vertex pv3);;
    wrH ph4 (with_h_vertex pv0);;
    wrH ph5 (with_h_vertex pv1);;
    for_each [ph0; ph1; ph2; ph3; ph4; ph5] (fun h =>
      v ← target h;
      wrV v (with_v_halfedge h));;
    (* relink the edge-halfedge pointers *)
    wrH ph1 (with_h_edge pe2);; set_slot pe2 pi2 ph1;;
    wrH ph2 (with_h_edge pe4);; set_slot pe4 pi4 ph2;;
    wrH ph4 (with_h_edge pe5);; set_slot pe5 pi5 ph4;;
    wrH ph5 (with_h_edge pe1);; set_slot pe1 pi1 ph5;;
    (* remove edge from edge list of the original vertex *)
    ls ← cast_list_elements ledges;
    match list_erase_first edge ls with
    | None => print "Error"
    | Some _ => cast_list_erase ledges edge
    end;;
    (* add edge to the edge list of the new vertex *)
    cast_list_push_back wedges edge;;
    for_each [ph0; ph1; ph2; ph3; ph4; ph5] (fun h =>
      sh ← dual h;
      assert_ (t ← target h; p ← prev sh; tp ← target p; ret (ptr_eqb t tp));;
      assert_ (p ← prev h; tp ← target p; ts ← target sh; ret (ptr_eqb tp ts))).

(** [CDynamicMesh::swapable(edge)]; [ledges] and [wedges] are bound as
    in [swapEdge], and [wedges] is walked next. *)
Definition swapable (edge : ptr) : M bool :=
  he_left ← halfedge0 edge;
  he_right ← halfedge1 edge;
  if ptr_eqb he_right NULL then ret false
  else
    let ph0 := he_left in
    ph1 ← next ph0;
    ph2 ← next ph1;
    let ph3 := he_right in
    ph4 ← next ph3;
    ph5 ← next ph4;
    pv0 ← target ph0;
    pv1 ← target ph1;
    pv2 ← target ph2;
    pv3 ← target ph4;
    pe0 ← edge_of ph0; slot_of pe0 ph0;;
    pe1 ← edge_of ph1; slot_of pe1 ph1;;
    pe2 ← edge_of ph2; slot_of pe2 ph2;;
    pe3 ← edge_of ph3; slot_of pe3 ph3;;
    pe4 ← edge_of ph4; slot_of pe4 ph4;;
    pe5 ← edge_of ph5; slot_of pe5 ph5;;
    vb ← smaller_id pv0 pv2;
    vertex_edges vb;;
    wb ← smaller_id pv1 pv3;
    vertex_edges wb;;
    let wedges := vector_as_list wb in
    ws ← cast_list_elements wedges;
    found ← scan_wedges pv0 pv2 true ws;
    ret (negb found).

(** [CDynamicMesh::splitEdge(pEdge)]. *)
Definition splitEdge (pEdge : ptr) : M ptr :=
  id ← incr_vertex_id;
  pV ← create_vertex id;
  h0 ← halfedge0 pEdge;
  h1 ← next h0;
  h2 ← next h1;
  h3 ← halfedge1 pEdge;
  h4 ← next h3;
  h5 ← next h4;
  f0 ← face_of h0;
  f1 ← face_of h3;
  eg0 ← edge_of h0; v0 ← target h0; s0 ← dual h0;
  eg1 ← edge_of h1; v1 ← target h1; s1 ← dual h1;
  eg2 ← edge_of h2; v2 ← target h2; s2 ← dual h2;
  eg3 ← edge_of h3; v3 ← target h3; s3 ← dual h3;
  eg4 ← edge_of h4; v4 ← target h4; s4 ← dual h4;
  eg5 ← edge_of h5; v5 ← target h5; s5 ← dual h5;
  '(f2, (h6, h7, h8)) ← new_triangle;
  '(f3, (h9, h10, h11)) ← new_triangle;
  e0 ← new_edge_listed;
  e1 ← new_edge_listed;
  e2 ← new_edge_listed;
  attach_halfedge_to_edge h2 h6 e0;;
  attach_halfedge_to_edge h8 h9 e1;;
  attach_halfedge_to_edge h4 h11 e2;;
  attach_halfedge_to_edge h0 h3 eg0;;
  attach_halfedge_to_edge h1 s1 eg1;;
  attach_halfedge_to_edge h5 s5 eg5;;
  attach_halfedge_to_edge h7 s2 eg2;;
  attach_halfedge_to_edge h10 s4 eg4;;
  wrH h0 (with_h_vertex v0);;
  wrH h1 (with_h_vertex v1);;
  wrH h2 (with_h_vertex pV);;
  wrH h3 (with_h_vertex pV);;
  wrH h4 (with_h_vertex v4);;
  wrH h5 (with_h_vertex v5);;
  wrH h6 (with_h_vertex v1);;
  wrH h7 (with_h_vertex v2);;
  wrH h8 (with_h_vertex pV);;
  wrH h9 (with_h_vertex v2);;
  wrH h10 (with_h_vertex v4);;
  wrH h11 (with_h_vertex pV);;
  wrV v0 (with_v_halfedge h0);;
  wrV v1 (with_v_halfedge h1);;
  wrV v2 (with_v_halfedge h7);;
  wrV v4 (with_v_halfedge h4);;
  wrV pV (with_v_halfedge h3);;
  for_each [f0; f1; f2; f3] (fun f =>
    pH ← (fx ← rdF f; ret (f_halfedge fx));
    a1 ← (assert_ (t ← target pH; d ← dual pH; p ← prev d; tp ← target p;
                   ret (ptr_eqb t tp));; next pH);
    a2 ← (assert_ (t ← target a1; d ← dual a1; p ← prev d; tp ← target p;
                   ret (ptr_eqb t tp));; next a1);
    assert_ (t ← target a2; d ← dual a2; p ← prev d; tp ← target p;
             ret (ptr_eqb t tp));;
    next a2;;
    ret tt);;
  ret pV.

(** ** [boundary.h] *)

(** [CLoop]: [m_length], [m_pHalfedge], [m_halfedges], and [m_segments],
    each segment being the [m_halfedges] vector of a [CLoopSegment]. *)
Record CLoop := mkLoop {
  l_length : Z;
  l_pHalfedge : ptr;
  l_halfedges : list ptr;
  l_segments : list (list ptr)
}.

(** The [do { ... } while (he != m_pHalfedge)] of the [CLoop] constructor,
    entered with the half-edges pushed and the length summed so far. *)
Fixpoint trace_loop (fuel : nat) (pH he : ptr) (hs : list ptr) (len : Z)
  : M (list ptr * Z) :=
  match fuel with
  | O => diverge
  | S fuel' =>
      v ← target he;
      he' ← most_clw_out_halfedge v;
      e ← edge_of he';
      x ← rdE e;
      let hs' := hs ++ [he'] in
      let len' := len + e_length x in
      if negb (ptr_eqb he' pH) then trace_loop fuel' pH he' hs' len'
      else ret (hs', len')
  end.

(** [CLoop::CLoop(pMesh, pH)]. *)
Definition CLoop_trace (pH : ptr) : M CLoop :=
  fuel ← walk_fuel;
  '(hs, len) ← trace_loop fuel pH pH [] 0;
  ret (mkLoop len pH hs []).

(** One pass of the inner [for (j = 0; j < numLength - 1; j++)] of
    [_bubble_sort], seen from position [j]: [a] is [loops[j]] as it is now
    and [l] the vector after it; yields the vector from [j] on after the
    pass, with whether a swap happened. *)
Fixpoint bubble_from (a : CLoop) (l : list CLoop) : list CLoop * bool :=
  match l with
  | [] => ([a], false)
  | b :: l' =>
      if l_length a <? l_length b
      then let '(r, _) := bubble_from a l' in (b :: r, true)
      else let '(r, flag) := bubble_from b l' in (a :: r, flag)
  end.

Definition bubble_pass (l : list CLoop) : list CLoop * bool :=
  match l with
  | [] => ([], false)
  | a :: l' => bubble_from a l'
  end.

(** The outer [for (i = 1; (i <= numLength) && flag; i++)]; [passes] counts
    the values of [i] that are left. *)
Fixpoint bubble_outer (passes : nat) (l : list CLoop) : list CLoop :=
  match passes with
  | O => l
  | S passes' =>
      let '(r, flag) := bubble_pass l in
      if flag then bubble_outer passes' r else r
  end.

(** [CBoundary::_bubble_sort(loops)]. *)
Definition bubble_sort (loops : list CLoop) : list CLoop :=
  bubble_outer (length loops) loops.

(** [std::set<CHalfEdge*>]: the elements in increasing address order, each
    once; [NULL] is below every address. *)
Definition ptr_ltb (p q : ptr) : bool :=
  match p, q with
  | None, None => false
  | None, Some _ => true
  | Some _, None => false
  | Some a, Some b => Pos.ltb a b
  end.

Fixpoint set_insert (x : ptr) (s : list ptr) : list ptr :=
  match s with
  | [] => [x]
  | y :: s' => if ptr_eqb x y then s
               else if ptr_ltb x y then x :: s
               else y :: set_insert x s'
  end.

(** [find] + [erase] on the set: nothing happens for an absent element. *)
Definition set_erase (x : ptr) (s : list ptr) : list ptr :=
  filter (fun y => y ≠ x) s.

(** The seeding loop of the [CBoundary] constructor. *)
Fixpoint collect_boundary_hes (edges : list ptr) (s : list ptr) : M (list ptr) :=
  match edges with
  | [] => ret s
  | e :: rest =>
      b ← edge_boundary e;
      if negb b then collect_boundary_hes rest s
      else h ← halfedge0 e; collect_boundary_hes rest (set_insert h s)
  end.

(** The [while (!boundary_hes.empty())] of the [CBoundary] constructor. *)
Fixpoint trace_all (fuel : nat) (boundary_hes : list ptr) (loops : list CLoop)
  : M (list CLoop) :=
  match boundary_hes with
  | [] => ret loops
  | h :: _ =>
      match fuel with
      | O => diverge
      | S fuel' =>
          pL ← CLoop_trace h;
          trace_all fuel' (foldl (fun s x => set_erase x s) boundary_hes (l_halfedges pL))
                    (loops ++ [pL])
      end
  end.

(** [CBoundary::CBoundary(pMesh)]; yields [m_loops]. *)
Definition CBoundary : M (list CLoop) :=
  m ← get;
  boundary_hes ← collect_boundary_hes (m_edges m) [];
  loops ← trace_all (S (length boundary_hes)) boundary_hes [];
  ret (bubble_sort loops).

(** The rotation loop of [CLoop::divide]; yields the queue and [n]. *)
Fixpoint divide_rotate (fuel : nat) (queue : list ptr) (markers : list ptr) (n : nat)
  : M (list ptr * nat) :=
  match fuel with
  | O => diverge
  | S fuel' =>
      match queue with
      | [] => fault                       (* queue.front() of an empty deque *)
      | pH :: rest =>
          s ← source pH;
          m0 ← idx markers 0;
          if ptr_eqb s m0 then ret (queue, n)
          else
            let queue' := rest ++ [pH] in
            let n' := S n in
            if (length queue' <? n')%nat then ret (queue', n')
            else divide_rotate fuel' queue' markers n'
      end
  end.

(** The inner [while (ph->target() != markers[(i + 1) % markers.size()])] of
    [CLoop::divide]; yields the segment and the rest of the queue, or
    [None] when the error branch returns from [divide]. *)
Fixpoint divide_take (fuel : nat) (ph : ptr) (nextm : ptr) (hes queue : list ptr)
  : M (option (list ptr * list ptr)) :=
  match fuel with
  | O => diverge
  | S fuel' =>
      t ← target ph;
      if negb (ptr_eqb t nextm) then
        match queue with
        | [] => print "CLoop::divide error";; ret None
        | ph' :: queue' => divide_take fuel' ph' nextm (hes ++ [ph']) queue'
        end
      else ret (Some (hes, queue))
  end.

(** The [for (i < markers.size())] of [CLoop::divide] from index [i] on. *)
Fixpoint divide_segments (todo : list nat) (markers queue : list ptr)
    (segments : list (list ptr)) : M (list (list ptr)) :=
  match todo with
  | [] => ret segments
  | i :: todo' =>
      match queue with
      | [] => fault                       (* queue.front() of an empty deque *)
      | ph :: queue1 =>
          assert_ (s ← source ph; mi ← idx markers i; ret (ptr_eqb s mi));;
          nextm ← idx markers ((i + 1) mod length markers)%nat;
          r ← divide_take (S (length queue1)) ph nextm [ph] queue1;
          match r with
          | None => ret segments
          | Some (hes, queue2) =>
              divide_segments todo' markers queue2 (segments ++ [hes])
          end
      end
  end.

(** [CLoop::divide(markers)]; yields the loop with its [m_segments]. *)
Definition divide (L : CLoop) (markers : list ptr) : M CLoop :=
  let queue := l_halfedges L in
  '(queue1, n) ← divide_rotate (S (S (length queue))) queue markers 0;
  if (length queue1 <? n)%nat then
    print "CLoop::divide: can not find the starting vertex ";;
    ret L
  else
    segs ← divide_segments (seq 0 (length markers)) markers queue1 (l_segments L);
    ret (mkLoop (l_length L) (l_pHalfedge L) (l_halfedges L) segs).

End Code.

(** ** Concrete meshes used by the witnesses *)

(** [vertex(id)] for each id of a face record, as the readers do. *)
Fixpoint vertices_of_ids (ids : list Z) : M (list ptr) :=
  match ids with
  | [] => ret []
  | i :: ids' => v ← vertex i; vs ← vertices_of_ids ids'; ret (v :: vs)
  end.

(** What the readers do for the records of a file: [create_vertex] for ids
    [1..n], [create_face] for each face record (ids [1..]), and
    [label_boundary]. *)
Fixpoint load_faces (NDEBUG : bool) (faces : list (list Z)) (fid : Z) : M unit :=
  match faces with
  | [] => ret tt
  | ids :: faces' =>
      vs ← vertices_of_ids ids;
      create_face NDEBUG vs fid;;
      load_faces NDEBUG faces' (fid + 1)
  end.

Definition load (NDEBUG : bool) (n : nat) (faces : list (list Z)) : M unit :=
  for_each (seq 1 n) (fun i => create_vertex (Z.of_nat i);; ret tt);;
  load_faces NDEBUG faces 1;;
  label_boundary NDEBUG.

(** The state a computation ends in, when it ends. *)
Definition state_after {A} (c : M A) (m : Mesh) : option Mesh :=
  match c m with Ok _ m' => Some m' | _ => None end.

(** Two triangles [(1,2,3)] and [(1,3,4)] sharing the diagonal [1-3]. *)
Definition quad_mesh : Mesh :=
  Eval vm_compute in
    default empty_mesh (state_after (load false 4 [[1;2;3]; [1;3;4]]) empty_mesh).

(** ** The invariants of the data model *)

(** What a read-only computation yields, when it yields. *)
Definition val {A} (r : Res A) : option A :=
  match r with Ok a _ => Some a | _ => None end.

(** Invariant 1 at the half-edge stored at [a]: [h.next.prev == h],
    [h.prev.next == h], and [next] comes back to [h] after three steps and
    not before. *)
Definition cycle_at (m : Mesh) (a : positive) : Prop :=
  let h := Some a in
  ∃ n n2 p,
    val (next h m) = Some (Some n) ∧
    val (prev (Some n) m) = Some h ∧
    val (prev h m) = Some (Some p) ∧
    val (next (Some p) m) = Some h ∧
    val (next (Some n) m) = Some (Some n2) ∧
    val (next (Some n2) m) = Some h ∧
    n ≠ a ∧ n2 ≠ a.

(** Invariant 2 at the edge stored at [a], when both slots are filled. *)
Definition dual_at (m : Mesh) (a : positive) : Prop :=
  ∀ x h0 h1,
    he m !! a = Some x → e_halfedge0 x = Some h0 → e_halfedge1 x = Some h1 →
    val (dual (Some h0) m) = Some (Some h1) ∧
    val (dual (Some h1) m) = Some (Some h0) ∧
    (∃ v, val (target (Some h0) m) = Some v ∧ val (source (Some h1) m) = Some v) ∧
    (∃ v, val (target (Some h1) m) = Some v ∧ val (source (Some h0) m) = Some v).

(** Invariants 1 and 2 over every half-edge and every edge in the store. *)
Definition next_prev_cycle (m : Mesh) : Prop :=
  ∀ a, is_Some (hh m !! a) → cycle_at m a.
Definition dual_pairing (m : Mesh) : Prop :=
  ∀ a, is_Some (he m !! a) → dual_at m a.
Definition core_invariants (m : Mesh) : Prop :=
  next_prev_cycle m ∧ dual_pairing m.

(** The readers up to the last face record, before [label_boundary]. *)
Definition build (NDEBUG : bool) (n : nat) (faces : list (list Z)) : M unit :=
  for_each (seq 1 n) (fun i => create_vertex (Z.of_nat i);; ret tt);;
  load_faces NDEBUG faces 1.

(** One triangle [(1,2,3)] among four vertices, during bulk construction
    (before [label_boundary]). *)
Definition one_triangle : Mesh :=
  Eval vm_compute in
    default empty_mesh (state_after (build false 4 [[1;2;3]]) empty_mesh).

(** Two triangles [(1,2,3)] and [(2,1,4)] sharing the edge [1-2], and a
    fifth vertex, during bulk construction. *)
Definition two_triangles : Mesh :=
  Eval vm_compute in
    default empty_mesh (state_after (build false 5 [[1;2;3]; [2;1;4]]) empty_mesh).
(** Three triangles [(1,2,3)], [(2,4,5)] and [(2,1,4)] around vertex 2,
    loaded and boundary-labelled. *)
Definition three_triangles : Mesh :=
  Eval vm_compute in
    default empty_mesh
      (state_after (load false 5 [[1;2;3]; [2;4;5]; [2;1;4]]) empty_mesh).

(** Two vertices, ids 1 and 2, and nothing else. *)
Definition two_vertices : Mesh :=
  Eval vm_compute in
    default empty_mesh (state_after (build false 2 []) empty_mesh).

(** The boundary loop of [quad_mesh], as [CBoundary] records it. *)
Definition quad_loop : CLoop :=
  Eval vm_compute in
    default (mkLoop 0 None [] [])
      (match CBoundary quad_mesh with Ok (L :: _) _ => Some L | _ => None end).

(** ** Vocabulary of the statements *)

(** A computation that, when it yields, leaves the state as it found it. *)
Definition read_only {A} (c : M A) : Prop :=
  ∀ m, match c m with Ok _ m' => m' = m | _ => True end.

(** The scan of a candidate list can read edge [e]: its slot 0 holds a live
    half-edge whose predecessor is live. *)
Definition scannable (m : Mesh) (e : ptr) : Prop :=
  ∃ h s t, val (halfedge0 e m) = Some (Some h) ∧
           val (source (Some h) m) = Some s ∧
           val (target (Some h) m) = Some t.

(** The slot-0 half-edge of [e] runs from [v1] to [v2] or from [v2] to
    [v1]: the test of the scan in [edge] and [create_edge]. *)
Definition joins (m : Mesh) (e v1 v2 : ptr) : Prop :=
  ∃ h s t, val (halfedge0 e m) = Some (Some h) ∧
           val (source (Some h) m) = Some s ∧
           val (target (Some h) m) = Some t ∧
           ((s = v1 ∧ t = v2) ∨ (s = v2 ∧ t = v1)).

(** The objects behind a pointer, if any. *)
Definition vertex_at (m : Mesh) (p : ptr) : option CVertex := a ← p; hv m !! a.
Definition edge_at (m : Mesh) (p : ptr) : option CEdge := a ← p; he m !! a.
Definition face_at (m : Mesh) (p : ptr) : option CFace := a ← p; hf m !! a.
Definition halfedge_at (m : Mesh) (p : ptr) : option CHalfEdge := a ← p; hh m !! a.

(** The state [create_edge] leaves when it allocates edge [a] for the
    candidate list of vertex [pV]. *)
Definition with_new_edge (pV a : positive) (x : CVertex) (m : Mesh) : Mesh :=
  set_hv (insert pV (with_v_ledges (v_ledges x ++ [Some a]) x))
    (set_m_edges (fun l => l ++ [Some a])
       (set_he (insert a (mkEdge None None 0)) m)).

(** Filling slot 0 of edge [a], as [create_face] does next. *)
Definition with_slot0 (a : positive) (h : ptr) (m : Mesh) : Mesh :=
  set_he (insert a (mkEdge h None 0)) m.

(** [c] started in [m] returns, with a value and a state that satisfy [Q]. *)
Definition wp {A} (c : M A) (Q : A → Mesh → Prop) (m : Mesh) : Prop :=
  ∃ a m', c m = Ok a m' ∧ Q a m'.
(** ** Well-formed meshes

    The invariants of the data model together with the validity of the
    pointers they speak about: invariants 1 and 2; every half-edge sits in
    a slot of its edge and every filled slot points to a half-edge of that
    edge; slot 1 is filled only after slot 0, with another half-edge; every
    half-edge points to a live vertex; no half-edge starts and ends at the
    same vertex; every entry of the edge list is a live edge. *)
Record well_formed (m : Mesh) : Prop := {
  wf_cycle : next_prev_cycle m;
  wf_dual : dual_pairing m;
  wf_edge_of : ∀ a x, hh m !! a = Some x →
    ∃ e y, h_edge x = Some e ∧ he m !! e = Some y ∧
           (e_halfedge0 y = Some a ∨ e_halfedge1 y = Some a);
  wf_slot : ∀ e y a, he m !! e = Some y →
    e_halfedge0 y = Some a ∨ e_halfedge1 y = Some a →
    ∃ x, hh m !! a = Some x ∧ h_edge x = Some e;
  wf_slots_ne : ∀ e y, he m !! e = Some y → e_halfedge1 y ≠ None →
    e_halfedge0 y ≠ None ∧ e_halfedge0 y ≠ e_halfedge1 y;
  wf_target : ∀ a x, hh m !! a = Some x →
    ∃ v, h_vertex x = Some v ∧ is_Some (hv m !! v);
  wf_no_loop : ∀ a x p xp, hh m !! a = Some x → h_prev x = Some p →
    hh m !! p = Some xp → h_vertex xp ≠ h_vertex x;
  wf_listed : ∀ e, e ∈ m_edges m → is_Some (edge_at m e)
}.

(** ** What [splitFace] leaves

    [h0 h1 h2] are the half-edges of the face, [hs0 hs1 hs2] their duals,
    [v0 v1 v2] their targets and [eg0 eg1 eg2] their edges, with the records
    they have before the call; [pV], [n1 .. n6], [f1 f2] and [e0 e1 e2] are
    the new vertex, half-edges, faces and edges. *)
Section SplitFaceState.
Variable m : Mesh.
Variables h0 h1 h2 hs0 hs1 hs2 v0 v1 v2 eg0 eg1 eg2 : positive.
Variables x0 x1 x2 xs0 xs1 xs2 : CHalfEdge.
Variables y0 y1 y2 : CEdge.
Variables xv0 xv1 xv2 : CVertex.
Variables pV n1 n2 n3 n4 n5 n6 f1 f2 e0 e1 e2 : positive.

Definition splitFace_hh : gmap positive CHalfEdge :=
  <[h0 := with_h_edge (Some eg0) x0]>
  (<[h1 := with_h_vertex (Some pV) (with_h_edge (Some e0) x1)]>
  (<[h2 := with_h_vertex (Some v2) (with_h_edge (Some e2) x2)]>
  (<[hs0 := with_h_edge (Some eg0) xs0]>
  (<[hs1 := with_h_edge (Some eg1) xs1]>
  (<[hs2 := with_h_edge (Some eg2) xs2]>
  (<[n1 := mkHalfEdge (Some e0) (Some f1) (Some v0) (Some n3) (Some n2)]>
  (<[n2 := mkHalfEdge (Some eg1) (Some f1) (Some v1) (Some n1) (Some n3)]>
  (<[n3 := mkHalfEdge (Some e1) (Some f1) (Some pV) (Some n2) (Some n1)]>
  (<[n4 := mkHalfEdge (Some e2) (Some f2) (Some pV) (Some n6) (Some n5)]>
  (<[n5 := mkHalfEdge (Some e1) (Some f2) (Some v1) (Some n4) (Some n6)]>
  (<[n6 := mkHalfEdge (Some eg2) (Some f2) (Some v2) (Some n5) (Some n4)]>
     (hh m)))))))))))).

Definition splitFace_he : gmap positive CEdge :=
  <[e0 := mkEdge (Some h1) (Some n1) 0]>
  (<[e1 := mkEdge (Some n3) (Some n5) 0]>
  (<[e2 := mkEdge (Some h2) (Some n4) 0]>
  (<[eg0 := mkEdge (Some h0) (Some hs0) (e_length y0)]>
  (<[eg1 := mkEdge (Some n2) (Some hs1) (e_length y1)]>
  (<[eg2 := mkEdge (Some n6) (Some hs2) (e_length y2)]>
     (he m)))))).

Definition splitFace_hv : gmap positive CVertex :=
  <[pV := mkVertex (m_vertex_id m + 1) (Some h1) false [] [] [] false]>
  (<[v0 := with_v_halfedge (Some h0) xv0]>
  (<[v1 := with_v_halfedge (Some n2) xv1]>
  (<[v2 := with_v_halfedge (Some n6) xv2]>
     (hv m)))).

Definition splitFace_hf : gmap positive CFace :=
  <[f1 := mkFace (m_face_id m + 1) (Some n3)]>
  (<[f2 := mkFace (m_face_id m + 1 + 1) (Some n6)]>
     (hf m)).

Definition splitFace_state : Mesh :=
  mkMesh splitFace_hv splitFace_he splitFace_hf splitFace_hh
         (m_edges m ++ [Some e0; Some e1; Some e2])
         (m_halfedges m)
         (m_verts m ++ [Some pV])
         (m_faces m ++ [Some f1; Some f2])
         (map_insert_new (m_vertex_id m + 1) (Some pV) (m_map_vert m))
         (m_map_face m)
         (m_vertex_id m + 1)
         (m_face_id m + 1 + 1)
         (out m).
End SplitFaceState.

(** ** Edges as vertex pairs, and degree *)

(** The vertices of an edge, as [CEdge::vertex1()] and [CEdge::vertex2()]
    derive them from the slot-0 half-edge. *)
Definition endpoints (m : Mesh) (e : ptr) : option (ptr * ptr) :=
  s ← val (vertex1 true e m); t ← val (vertex2 true e m); Some (s, t).

(** Edge [e] has vertex [v] at one end. *)
Definition incident (m : Mesh) (v e : ptr) : Prop :=
  match endpoints m e with
  | Some (s, t) => s = v ∨ t = v
  | None => False
  end.

#[global] Instance incident_dec m v e : Decision (incident m v e).
Proof. unfold incident. destruct (endpoints m e) as [[s t] |]; apply _. Defined.

(** Number of edges of the mesh's edge list incident to [v]. *)
Definition degree (m : Mesh) (v : ptr) : nat :=
  length (filter (incident m v) (m_edges m)).

(** Edge [e] joins [v] and [w]. *)
Definition connects (m : Mesh) (e v w : ptr) : Prop :=
  endpoints m e = Some (v, w) ∨ endpoints m e = Some (w, v).

(** ** The neighbourhood of a face that [splitFace] works on *)

(** [f] is a live face with half-edges [h0 h1 h2] in [next] order; [hs0 hs1
    hs2] are their duals, [v0 v1 v2] their targets, [eg0 eg1 eg2] their
    edges; the other arguments are the records of these objects. *)
Definition splitFace_pre (m : Mesh)
    (f h0 h1 h2 hs0 hs1 hs2 v0 v1 v2 eg0 eg1 eg2 : positive)
    (x0 x1 x2 xs0 xs1 xs2 : CHalfEdge) (y0 y1 y2 : CEdge)
    (xv0 xv1 xv2 : CVertex) : Prop :=
  (f_halfedge <$> hf m !! f = Some (Some h0)) ∧
  (hh m !! h0 = Some x0 ∧ hh m !! h1 = Some x1 ∧ hh m !! h2 = Some x2) ∧
  (h_edge x0 = Some eg0 ∧ h_vertex x0 = Some v0 ∧
   h_prev x0 = Some h2 ∧ h_next x0 = Some h1) ∧
  (h_edge x1 = Some eg1 ∧ h_vertex x1 = Some v1 ∧
   h_prev x1 = Some h0 ∧ h_next x1 = Some h2) ∧
  (h_edge x2 = Some eg2 ∧ h_vertex x2 = Some v2 ∧
   h_prev x2 = Some h1 ∧ h_next x2 = Some h0) ∧
  (he m !! eg0 = Some y0 ∧ he m !! eg1 = Some y1 ∧ he m !! eg2 = Some y2) ∧
  ((if ptr_eqb (Some h0) (e_halfedge0 y0) then e_halfedge1 y0 else e_halfedge0 y0)
     = Some hs0 ∧
   (if ptr_eqb (Some h1) (e_halfedge0 y1) then e_halfedge1 y1 else e_halfedge0 y1)
     = Some hs1 ∧
   (if ptr_eqb (Some h2) (e_halfedge0 y2) then e_halfedge1 y2 else e_halfedge0 y2)
     = Some hs2) ∧
  (hh m !! hs0 = Some xs0 ∧ hh m !! hs1 = Some xs1 ∧ hh m !! hs2 = Some xs2) ∧
  (h_edge xs0 = Some eg0 ∧ h_edge xs1 = Some eg1 ∧ h_edge xs2 = Some eg2) ∧
  (hv m !! v0 = Some xv0 ∧ hv m !! v1 = Some xv1 ∧ hv m !! v2 = Some xv2) ∧
  NoDup [h0; h1; h2; hs0; hs1; hs2] ∧ NoDup [eg0; eg1; eg2] ∧ NoDup [v0; v1; v2].

(** The objects [splitFace] allocates are new to the stores. *)
Definition splitFace_fresh (m : Mesh)
    (pV n1 n2 n3 n4 n5 n6 f1 f2 e0 e1 e2 : positive) : Prop :=
  hv m !! pV = None ∧
  (hf m !! f1 = None ∧ hf m !! f2 = None ∧ f1 ≠ f2) ∧
  (Forall (fun a => hh m !! a = None) [n1; n2; n3; n4; n5; n6] ∧
   NoDup [n1; n2; n3; n4; n5; n6]) ∧
  (Forall (fun a => he m !! a = None) [e0; e1; e2] ∧ NoDup [e0; e1; e2]).

(** A closed surface: the tetrahedron on vertices [1 .. 4], every edge
    interior. *)
Definition tetrahedron : Mesh :=
  Eval vm_compute in
    default empty_mesh
      (state_after (load false 4 [[1;2;3]; [1;3;4]; [1;4;2]; [2;4;3]]) empty_mesh).

(** ** Runs that may stop at an assertion *)

(** [c] started in [m] either returns with [Q] or stops at a failed
    assertion in a state with [R]; it neither faults nor diverges. *)
Definition wpa {A} (c : M A) (Q : A → Mesh → Prop) (R : Mesh → Prop) (m : Mesh) : Prop :=
  match c m with
  | Ok a m' => Q a m'
  | Abort m' => R m'
  | _ => False
  end.

(** ** What [create_face] keeps of the mesh it starts from *)

(** [m] comes from [m0] by steps of [create_face]: the half-edges of [m0]
    are as they were; its vertices keep their ids, and their candidate
    lists are only appended to; an edge of [m0] keeps a filled slot 0, and
    a filled slot 1 stays filled; the output is only appended to. *)
Record grows (m0 m : Mesh) : Prop := {
  gr_hh : ∀ a x, hh m0 !! a = Some x → hh m !! a = Some x;
  gr_hv : ∀ a x, hv m0 !! a = Some x →
    ∃ x', hv m !! a = Some x' ∧ v_id x' = v_id x ∧
          ∃ l, v_ledges x' = v_ledges x ++ l;
  gr_he : ∀ a y, he m0 !! a = Some y →
    ∃ y', he m !! a = Some y' ∧
          (e_halfedge0 y ≠ None → e_halfedge0 y' = e_halfedge0 y) ∧
          (e_halfedge1 y ≠ None → e_halfedge1 y' ≠ None);
  gr_out : ∀ s, s ∈ out m0 → s ∈ out m
}.

(** No vertex is new and no candidate list has changed. *)
Definition same_lists (m0 m : Mesh) : Prop :=
  ∀ a x', hv m !! a = Some x' →
    ∃ x, hv m0 !! a = Some x ∧ v_ledges x' = v_ledges x.

(** One round of the edge loop of [create_face] over the half-edges [hes]:
    a filled slot 0 is kept, slot 1 is kept or set to one of [hes];
    half-edges keep their target and predecessor. *)
Record links (hes : list ptr) (m m' : Mesh) : Prop := {
  ln_he : ∀ a y, he m !! a = Some y →
    ∃ y', he m' !! a = Some y' ∧
          (e_halfedge0 y ≠ None → e_halfedge0 y' = e_halfedge0 y) ∧
          (e_halfedge1 y' = e_halfedge1 y ∨ e_halfedge1 y' ∈ hes);
  ln_hh : ∀ a x, hh m !! a = Some x →
    ∃ x', hh m' !! a = Some x' ∧ h_vertex x' = h_vertex x ∧ h_prev x' = h_prev x;
  ln_out : ∀ s, s ∈ out m → s ∈ out m'
}.

(** What the edge loop of [create_face] relies on: the vertices of the
    face are live, its half-edges are live and have a live predecessor,
    and every candidate list can be scanned. *)
Record linking (vs hes : list ptr) (m : Mesh) : Prop := {
  lk_vs : Forall (fun v => is_Some (vertex_at m v)) vs;
  lk_hes : Forall (fun h => is_Some (val (source h m))) hes;
  lk_scan : ∀ a x, hv m !! a = Some x → Forall (scannable m) (v_ledges x)
}.

(** The line [create_face] writes for face [id]. *)
Definition illegal_face (id : Z) : string :=
  "Illegal Face Construction " +:+ pretty id.

(** The state of [create_face] before its edge loop, from [m0]: the new
    face [f] is listed and live, the half-edges [hes] are new and live, no
    edge and no candidate list has changed. *)
Record building (m0 : Mesh) (F : list ptr) (f : ptr) (hes : list ptr) (m : Mesh)
  : Prop := {
  bd_grows : grows m0 m;
  bd_lists : same_lists m0 m;
  bd_he : he m = he m0;
  bd_faces : m_faces m = F;
  bd_face : is_Some (face_at m f);
  bd_hes : Forall (fun h => ∃ a, h = Some a ∧ hh m0 !! a = None ∧ is_Some (hh m !! a)) hes
}.

(** Half-edge [h] is live and its predecessor is one of [hes]. *)
Definition has_prev_in (hes : list ptr) (m : Mesh) (h : ptr) : Prop :=
  ∃ a x, h = Some a ∧ hh m !! a = Some x ∧ h_prev x ∈ hes.

(** Slot 1 of edge [e] holds one of [hes]. *)
Definition slot1_in (hes : list ptr) (m : Mesh) (e : positive) : Prop :=
  ∃ y, he m !! e = Some y ∧ e_halfedge1 y ∈ hes.

(** [edge(v1, v2)] is [e], and both slots of [e] are occupied. *)
Definition full_edge (m : Mesh) (v1 v2 : ptr) (e : positive) : Prop :=
  val (edge v1 v2 m) = Some (Some e) ∧
  ∃ y, he m !! e = Some y ∧ e_halfedge0 y ≠ None ∧ e_halfedge1 y ≠ None.

(** [std::cout << s << std::endl], as a state. *)
Definition printed (s : string) (m : Mesh) : Mesh :=
  mkMesh (hv m) (he m) (hf m) (hh m) (m_edges m) (m_halfedges m)
         (m_verts m) (m_faces m) (m_map_vert m) (m_map_face m)
         (m_vertex_id m) (m_face_id m) (out m ++ [s]).

(** ** The boundary the tracer works on *)

(** [a] is at least as long as [b]. *)
Definition longer (a b : CLoop) : Prop := l_length b ≤ l_length a.

(** What the tracer takes after [h]: the most clockwise out half-edge of
    the target of [h]. *)
Definition boundary_next (m : Mesh) (h : ptr) : option ptr :=
  val ((v ← target h; most_clw_out_halfedge v) m).

(** The candidate that edge [e] gives: its slot-0 half-edge, when [e] is
    a boundary edge. *)
Definition seed_of (m : Mesh) (e : ptr) : option ptr :=
  y ← edge_at m e;
  if ptr_eqb (e_halfedge0 y) NULL || ptr_eqb (e_halfedge1 y) NULL
  then Some (e_halfedge0 y) else None.

(** The candidates, in the order of the edge list. *)
Definition seeds (m : Mesh) : list ptr := omap (seed_of m) (m_edges m).

(** The length of the edge of [h]. *)
Definition length_of (m : Mesh) (h : ptr) : option Z :=
  x ← halfedge_at m h; y ← edge_at m (h_edge x); Some (e_length y).

(** [l] is what the tracer pushes when it starts after [h]: each entry is
    taken after the one before. *)
Fixpoint chain (m : Mesh) (h : ptr) (l : list ptr) : Prop :=
  match l with
  | [] => True
  | h' :: l' => boundary_next m h = Some h' ∧ chain m h' l'
  end.

(** The lengths of the edges of [l], summed. *)
Fixpoint total_length (m : Mesh) (l : list ptr) : Z :=
  match l with
  | [] => 0
  | h :: l' => default 0 (length_of m h) + total_length m l'
  end.

(** [L] is the loop traced from its starting half-edge: the chain after
    it up to the first time it comes back, with the summed length and no
    segments. *)
Definition traced (m : Mesh) (L : CLoop) : Prop :=
  chain m (l_pHalfedge L) (l_halfedges L) ∧
  last (l_halfedges L) = Some (l_pHalfedge L) ∧
  (l_pHalfedge L ∉ removelast (l_halfedges L)) ∧
  l_length L = total_length m (l_halfedges L) ∧
  l_segments L = [].

(** The boundary can be traced: every listed edge is live; no two boundary
    edges give the same candidate; the half-edge taken after a candidate
    is a candidate with a live edge, and is taken after no other one. *)
Record traceable (m : Mesh) : Prop := {
  tr_listed : Forall (fun e => is_Some (edge_at m e)) (m_edges m);
  tr_nodup : NoDup (seeds m);
  tr_length : ∀ h, h ∈ seeds m → is_Some (length_of m h);
  tr_next : ∀ h, h ∈ seeds m → ∃ h', boundary_next m h = Some h' ∧ h' ∈ seeds m;
  tr_inj : ∀ h1 h2, h1 ∈ seeds m → h2 ∈ seeds m →
           boundary_next m h1 = boundary_next m h2 → h1 = h2
}.

(** Two triangles [(1,2,3)] and [(1,4,5)] that meet in vertex 1 only. *)
Definition bowtie : Mesh :=
  Eval vm_compute in
    default empty_mesh (state_after (load false 5 [[1;2;3]; [1;4;5]]) empty_mesh).

(** ** Code without assertions and loops *)

(** [c] stops at no assertion and goes round no loop: started anywhere, it
    returns or it faults. *)
Definition straight {A} (c : M A) : Prop :=
  ∀ m, match c m with Ok _ _ | Fault => True | _ => False end.

(** ** Rotation about a boundary vertex *)

(** The half-edges that the rotation [rot] yields one after the other
    from [h], up to the first time it yields [NULL]. *)
Fixpoint rot_path (rot : ptr → option ptr) (h : ptr) (l : list positive) : Prop :=
  match l with
  | [] => rot h = Some NULL
  | a :: l' => rot h = Some (Some a) ∧ rot_path rot (Some a) l'
  end.

(** Where a rotation along [l] from [h] stops. *)
Definition rot_end (h : ptr) (l : list positive) : ptr :=
  match last l with Some b => Some b | None => h end.

(** [v->halfedge() = h], as a state. *)
Definition seated (v : positive) (x : CVertex) (h : ptr) (m : Mesh) : Mesh :=
  set_hv (insert v (with_v_halfedge h x)) m.

(** ** Segments of a loop *)

(** [ph :: rest] runs up to the first half-edge whose target is [to]:
    that half-edge is the last one. *)
Fixpoint run_to (m : Mesh) (to : ptr) (ph : ptr) (rest : list ptr) : Prop :=
  match rest with
  | [] => val (target ph m) = Some to
  | ph' :: rest' =>
      (∃ t, val (target ph m) = Some t ∧ t ≠ to) ∧ run_to m to ph' rest'
  end.

(** [seg] starts at a half-edge out of [from] and runs up to the first
    half-edge into [to]. *)
Definition segment_to (m : Mesh) (from to : ptr) (seg : list ptr) : Prop :=
  ∃ ph rest, seg = ph :: rest ∧ val (source ph m) = Some from ∧ run_to m to ph rest.

(** The half-edge [h] starts somewhere, but not at [v]. *)
Definition starts_off (m : Mesh) (v : ptr) (h : ptr) : Prop :=
  ∃ s, val (source h m) = Some s ∧ s ≠ v.

(** The half-edge [h] ends somewhere, but not at [v]. *)
Definition ends_off (m : Mesh) (v : ptr) (h : ptr) : Prop :=
  ∃ t, val (target h m) = Some t ∧ t ≠ v.

(** The triangle [(1,2,3)] read together with a fourth vertex that no
    face uses: [label_boundary] deletes vertex 4 as dangling and leaves
    its entry in [m_map_vert]. *)
Definition lone_vertex : Mesh :=
  Eval vm_compute in
    default empty_mesh (state_after (load false 4 [[1;2;3]]) empty_mesh).

(** * Verification *)

(** ** Running the monad *)

Lemma bind_Ok {A B} (c : M A) (k : A → M B) m a m' :
  c m = Ok a m' → (x ← c; k x) m = k a m'.
Proof. intros H. unfold mbind, M_bind, bind. by rewrite H. Qed.

Lemma rdV_Ok m a x : hv m !! a = Some x → rdV (Some a) m = Ok x m.
Proof. intros H. unfold rdV. by rewrite H. Qed.
Lemma rdE_Ok m a x : he m !! a = Some x → rdE (Some a) m = Ok x m.
Proof. intros H. unfold rdE. by rewrite H. Qed.
Lemma rdF_Ok m a x : hf m !! a = Some x → rdF (Some a) m = Ok x m.
Proof. intros H. unfold rdF. by rewrite H. Qed.
Lemma rdH_Ok m a x : hh m !! a = Some x → rdH (Some a) m = Ok x m.
Proof. intros H. unfold rdH. by rewrite H. Qed.

(** ** Checking a property at every address of a concrete store *)

Lemma store_all {A} (P : positive → Prop) (s : gmap positive A) :
  map_Forall (fun a _ => P a) s → ∀ a, is_Some (s !! a) → P a.
Proof. intros H a [x Hx]. exact (H a x Hx). Qed.

Ltac by_store s P :=
  let a := fresh "a" in let Ha := fresh "Ha" in
  intros a Ha; revert a Ha;
  apply (store_all P s); apply map_Forall_to_list;
  vm_compute map_to_list;
  repeat first [apply Forall_nil_2 | apply Forall_cons_2; [cbv [uncurry fst snd] |]].

Lemma one_triangle_cycles : next_prev_cycle one_triangle.
Proof.
  by_store (hh one_triangle) (cycle_at one_triangle);
    (unfold cycle_at; eexists _, _, _; repeat split;
     [vm_compute; reflexivity .. | | ]; done).
Qed.

Lemma one_triangle_pairing : dual_pairing one_triangle.
Proof.
  by_store (he one_triangle) (dual_at one_triangle);
    intros x h0 h1 Hx; vm_compute in Hx; injection Hx as <-; cbn; discriminate.
Qed.

(** ** C10: [create_vertex] on an id that is already registered *)

Ltac munfold :=
  unfold mbind, M_bind, bind, mret, M_ret, ret, modify, get, fault, diverge.

(** C10, counter-example.  In [lone_vertex] id 4 is bound to the address
    of the vertex that [label_boundary] deleted.  [create_vertex 4]
    allocates its object at that address: the map, unchanged, now yields
    the new vertex. *)
Lemma create_vertex_reuses_freed_address :
  m_map_vert lone_vertex !! 4 = Some (Some 4%positive) ∧
  hv lone_vertex !! 4%positive = None ∧
  m_verts lone_vertex = [Some 1; Some 2; Some 3]%positive ∧
  ∃ m', create_vertex 4 lone_vertex = Ok (Some 4%positive) m' ∧
        v_id <$> hv m' !! 4%positive = Some 4 ∧
        m_verts m' = m_verts lone_vertex ++ [Some 4%positive] ∧
        m_map_vert m' = m_map_vert lone_vertex ∧
        vertex 4 m' = Ok (Some 4%positive) m'.
Proof.
  split; [vm_compute; reflexivity |].
  split; [vm_compute; reflexivity |].
  split; [vm_compute; reflexivity |].
  eexists. split; [vm_compute; reflexivity |].
  repeat split; vm_compute; reflexivity.
Qed.

(** C10, as amended.  When [id] is bound in [m_map_vert] to a pointer
    [v0], [create_vertex id] allocates a vertex object that was not there,
    gives it the id, leaves every other object alone and appends it to
    [m_verts] (so [num_vertices] grows by one); the map is as it was and
    [vertex id] still yields [v0].  [v0] is not the new vertex when it is
    [NULL] or points to a live object. *)
Theorem create_vertex_registered_id (m : Mesh) (id : Z) (v0 : ptr) :
  m_map_vert m !! id = Some v0 →
  ∃ a x m', create_vertex id m = Ok (Some a) m' ∧
            hv m !! a = None ∧
            hv m' !! a = Some x ∧ v_id x = id ∧
            (∀ b, b ≠ a → hv m' !! b = hv m !! b) ∧
            m_verts m' = m_verts m ++ [Some a] ∧
            num_vertices m' = S (num_vertices m) ∧
            m_map_vert m' = m_map_vert m ∧
            vertex id m' = Ok v0 m' ∧
            (v0 = NULL ∨ is_Some (vertex_at m v0) → v0 ≠ Some a).
Proof.
  intros Hreg.
  pose proof (is_fresh (dom (hv m))) as Hf.
  exists (fresh (dom (hv m))). eexists _, _. split.
  { unfold create_vertex, new_CVertex, wrV, rdV. munfold. cbn.
    rewrite lookup_insert_eq. cbn. reflexivity. }
  cbn. split; [by apply not_elem_of_dom |].
  split; [by rewrite lookup_insert_eq |]. split; [reflexivity |].
  split; [intros b Hb; by rewrite !lookup_insert_ne |].
  split; [reflexivity |].
  split; [unfold num_vertices; cbn; rewrite length_app; cbn; lia |].
  split; [unfold map_insert_new; by rewrite Hreg |].
  split.
  - unfold vertex. munfold. cbn. unfold map_insert_new. rewrite Hreg. cbn.
    rewrite Hreg. reflexivity.
  - intros [-> | [x Hx]]; [done |]. intros ->. cbn in Hx.
    apply Hf. apply elem_of_dom. eauto.
Qed.

Lemma create_vertex_registered_id_witness :
  m_map_vert quad_mesh !! 3 = Some (Some 3%positive) ∧
  ∃ a x m', create_vertex 3 quad_mesh = Ok (Some a) m' ∧
            hv quad_mesh !! a = None ∧
            hv m' !! a = Some x ∧ v_id x = 3 ∧
            (∀ b, b ≠ a → hv m' !! b = hv quad_mesh !! b) ∧
            m_verts m' = m_verts quad_mesh ++ [Some a] ∧
            num_vertices m' = S (num_vertices quad_mesh) ∧
            m_map_vert m' = m_map_vert quad_mesh ∧
            vertex 3 m' = Ok (Some 3%positive) m' ∧
            (Some 3%positive = NULL ∨ is_Some (vertex_at quad_mesh (Some 3%positive)) →
             Some 3%positive ≠ Some a).
Proof.
  split; [reflexivity | apply (create_vertex_registered_id quad_mesh 3); reflexivity].
Defined.

(** ** C9: [swapEdge] on a boundary edge *)

(** C9.  On an edge whose second half-edge slot is empty, [swapEdge]
    returns at once: the outcome is [Ok] with the very state it was given,
    whatever [NDEBUG] is. *)
Theorem swapEdge_boundary_noop (nd : bool) (m : Mesh) (e : positive) (x : CEdge) :
  he m !! e = Some x → e_halfedge1 x = None →
  swapEdge nd (Some e) m = Ok tt m.
Proof.
  intros He H1. destruct x as [s0 s1 len]; simpl in H1; subst s1.
  unfold swapEdge, halfedge0, halfedge1, rdE. munfold.
  cbn. rewrite He. cbn. rewrite He. reflexivity.
Qed.

Lemma swapEdge_boundary_noop_witness :
  he quad_mesh !! 2%positive = Some (mkEdge (Some 2%positive) None 0) ∧
  swapEdge false (Some 2%positive) quad_mesh = Ok tt quad_mesh.
Proof.
  split; [reflexivity |].
  apply (swapEdge_boundary_noop false quad_mesh 2 (mkEdge (Some 2%positive) None 0));
    reflexivity.
Defined.

(** ** Concrete runs of the operations *)

(** C1, failing input.  [one_triangle], the state of the loader after the
    face [(1,2,3)], satisfies invariants 1 and 2.  [create_face] on
    [(1,2,4)] completes on it, under either setting of [NDEBUG]: it finds
    the edge between vertices 1 and 2 with slot 1 empty and fills it,
    without looking at the direction of the half-edge in slot 0.  Edge 2 is
    left with two half-edges that both run from 1 to 2: invariant 2 fails.
    With [NDEBUG] the whole loader completes on the two faces and hands
    out that mesh; without it the loader stops in [label_boundary], at the
    assertion [he[0]->target() == he[1]->source()]. *)
Lemma create_face_same_direction_breaks_pairing :
  core_invariants one_triangle ∧
  (∀ nd, ∃ f m',
    create_face nd [Some 1; Some 2; Some 4]%positive 2 one_triangle = Ok f m' ∧
    he m' !! 2%positive = Some (mkEdge (Some 2%positive) (Some 5%positive) 0) ∧
    val (target (Some 2%positive) m') = Some (Some 2%positive) ∧
    val (source (Some 5%positive) m') = Some (Some 1%positive) ∧
    ¬ dual_pairing m') ∧
  (∃ m', load true 4 [[1;2;3]; [1;2;4]] empty_mesh = Ok tt m' ∧ ¬ dual_pairing m') ∧
  (∃ m', load false 4 [[1;2;3]; [1;2;4]] empty_mesh = Abort m').
Proof.
  split; [split; [apply one_triangle_cycles | apply one_triangle_pairing] |].
  assert (∀ m', he m' !! 2%positive = Some (mkEdge (Some 2%positive) (Some 5%positive) 0) →
                val (target (Some 2%positive) m') = Some (Some 2%positive) →
                val (source (Some 5%positive) m') = Some (Some 1%positive) →
                ¬ dual_pairing m') as Hbad.
  { intros m' He Ht Hs Hp.
    destruct (Hp 2%positive (ex_intro _ _ He) _ 2%positive 5%positive He eq_refl eq_refl)
      as (_ & _ & (v & Hv1 & Hv2) & _).
    rewrite Ht in Hv1. rewrite Hs in Hv2. congruence. }
  split; [| split].
  - intros nd.
    assert (∃ f m', create_face nd [Some 1; Some 2; Some 4]%positive 2 one_triangle = Ok f m'
                    ∧ he m' !! 2%positive = Some (mkEdge (Some 2%positive) (Some 5%positive) 0)
                    ∧ val (target (Some 2%positive) m') = Some (Some 2%positive)
                    ∧ val (source (Some 5%positive) m') = Some (Some 1%positive))
      as (f & m' & Hrun & He & Ht & Hs).
    { destruct nd; eexists _, _; (split; [vm_compute; reflexivity |]);
        repeat split; vm_compute; reflexivity. }
    exists f, m'. repeat split; try assumption. by apply Hbad.
  - assert (∃ m', load true 4 [[1;2;3]; [1;2;4]] empty_mesh = Ok tt m'
                  ∧ he m' !! 2%positive = Some (mkEdge (Some 2%positive) (Some 5%positive) 0)
                  ∧ val (target (Some 2%positive) m') = Some (Some 2%positive)
                  ∧ val (source (Some 5%positive) m') = Some (Some 1%positive))
      as (m' & Hrun & He & Ht & Hs).
    { eexists; (split; [vm_compute; reflexivity |]); repeat split; vm_compute; reflexivity. }
    exists m'. split; [assumption | by apply Hbad].
  - eexists. vm_compute. reflexivity.
Qed.

(** C3, counter-example.  On two bare vertices [create_edge] allocates an
    edge with both slots empty and puts it in the candidate list of the
    vertex with the smaller id only; the other endpoint's list stays empty.
    A second call with the same pair reads [halfedge(0)] of that edge, which
    is still [NULL], and dereferences it. *)
Lemma create_edge_one_list_and_second_call :
  ∃ m1, create_edge (Some 1%positive) (Some 2%positive) two_vertices
          = Ok (Some 1%positive) m1 ∧
        he m1 !! 1%positive = Some (mkEdge None None 0) ∧
        v_ledges <$> hv m1 !! 1%positive = Some [Some 1%positive] ∧
        v_ledges <$> hv m1 !! 2%positive = Some [] ∧
        create_edge (Some 1%positive) (Some 2%positive) m1 = Fault.
Proof.
  eexists. split; [vm_compute; reflexivity |].
  repeat split; vm_compute; reflexivity.
Qed.

(** C5, counter-example.  In [two_triangles] the edge between vertices 2 and
    1 has both slots filled.  [create_face] on [(1,2,5)] with assertions
    compiled out prints one line, overwrites slot 1 of that edge and returns
    the new face; with assertions compiled in it stops at the assertion, the
    face, its half-edges and a new edge being already in the mesh. *)
Lemma create_face_full_edge_outcomes :
  val (edge (Some 2%positive) (Some 1%positive) two_triangles) = Some (Some 2%positive) ∧
  he two_triangles !! 2%positive = Some (mkEdge (Some 2%positive) (Some 5%positive) 0) ∧
  (∃ m', create_face true [Some 1; Some 2; Some 5]%positive 3 two_triangles
           = Ok (Some 3%positive) m' ∧
         out m' = ["Illegal Face Construction 3"%string] ∧
         he m' !! 2%positive = Some (mkEdge (Some 2%positive) (Some 8%positive) 0) ∧
         num_faces m' = S (num_faces two_triangles) ∧
         length (m_halfedges m') = (length (m_halfedges two_triangles) + 3)%nat) ∧
  (∃ m', create_face false [Some 1; Some 2; Some 5]%positive 3 two_triangles
           = Abort m' ∧
         out m' = [] ∧
         num_faces m' = S (num_faces two_triangles) ∧
         num_edges m' = S (num_edges two_triangles) ∧
         length (m_halfedges m') = (length (m_halfedges two_triangles) + 3)%nat).
Proof.
  split; [vm_compute; reflexivity |].
  split; [vm_compute; reflexivity |].
  split; (eexists; split; [vm_compute; reflexivity |]; repeat split; vm_compute; reflexivity).
Qed.

(** C4, failing input.  Deleting face 3, [(2,1,4)], of [three_triangles]
    completes under either setting of [NDEBUG].  Edge 7, between vertices 1
    and 4, is left with no half-edge: it is taken off [m_edges] and freed,
    yet it stays in the candidate list of vertex 1.  The representative of
    vertex 1 pointed into the face and ends as [NULL], although half-edge 1
    of face 1 still enters vertex 1.  The freed half-edges 7, 8, 9 stay in
    [m_halfedges]. *)
Lemma delete_face_three_triangles :
  ∀ nd, ∃ m',
    delete_face nd (Some 3%positive) three_triangles = Ok tt m' ∧
    m_faces m' = [Some 1; Some 2]%positive ∧
    hf m' !! 3%positive = None ∧
    m_edges three_triangles = [Some 1; Some 2; Some 3; Some 4; Some 5; Some 6; Some 7]%positive ∧
    m_edges m' = [Some 1; Some 2; Some 3; Some 4; Some 5; Some 6]%positive ∧
    he m' !! 7%positive = None ∧
    v_ledges <$> hv m' !! 1%positive = Some [Some 1; Some 2; Some 7]%positive ∧
    v_halfedge <$> hv three_triangles !! 1%positive = Some (Some 8%positive) ∧
    v_halfedge <$> hv m' !! 1%positive = Some None ∧
    val (target (Some 1%positive) m') = Some (Some 1%positive) ∧
    val (face_of (Some 1%positive) m') = Some (Some 1%positive) ∧
    hh m' !! 7%positive = None ∧ hh m' !! 8%positive = None ∧ hh m' !! 9%positive = None ∧
    m_halfedges m' = m_halfedges three_triangles.
Proof.
  intros nd. destruct nd; (eexists; split; [vm_compute; reflexivity |]);
    repeat split; vm_compute; reflexivity.
Qed.

(** C2, failing input.  Edge 1 of [quad_mesh] is the diagonal, interior,
    between vertices 1 and 3; every pointer the call reads before the
    scan is valid.  [swapEdge] binds [wedges] to the adjacency vector of
    vertex 2 through the cast to a list and walks it: with and without
    [NDEBUG] the call does not complete, and no half-edge is relinked. *)
Lemma swapEdge_quad_diagonal :
  val (vertex1 true (Some 1%positive) quad_mesh) = Some (Some 1%positive) ∧
  val (vertex2 true (Some 1%positive) quad_mesh) = Some (Some 3%positive) ∧
  val (edge (Some 1%positive) (Some 3%positive) quad_mesh) = Some (Some 1%positive) ∧
  val (halfedge0 (Some 1%positive) quad_mesh) = Some (Some 5%positive) ∧
  val (halfedge1 (Some 1%positive) quad_mesh) = Some (Some 1%positive) ∧
  val (smaller_id (Some 2%positive) (Some 4%positive) quad_mesh) = Some (Some 2%positive) ∧
  (∃ l m', vertex_edges (Some 2%positive) quad_mesh = Ok l m') ∧
  ∀ nd, swapEdge nd (Some 1%positive) quad_mesh = Fault.
Proof.
  split; [vm_compute; reflexivity |].
  split; [vm_compute; reflexivity |].
  split; [vm_compute; reflexivity |].
  split; [vm_compute; reflexivity |].
  split; [vm_compute; reflexivity |].
  split; [vm_compute; reflexivity |].
  split; [eexists _, _; vm_compute; reflexivity |].
  intros nd. destruct nd; vm_compute; reflexivity.
Qed.

(** C6, failing input.  [quad_loop] is the boundary loop of [quad_mesh]:
    half-edges 3, 6, 4, 2 through vertices 2, 3, 4, 1.  With the marker list
    [(1, 1)] the first segment takes the whole loop (it ends where vertex 1
    is reached again); the second round then calls [front()] on the empty
    queue.  No error line is written. *)
Lemma divide_repeated_first_marker :
  l_halfedges quad_loop = [Some 3; Some 6; Some 4; Some 2]%positive ∧
  ∀ nd, divide nd quad_loop [Some 1; Some 1]%positive quad_mesh = Fault.
Proof.
  split; [reflexivity |]. intros nd. destruct nd; vm_compute; reflexivity.
Qed.

(** ** Read-only computations *)

Lemma read_only_val {A} (c : M A) m a :
  read_only c → val (c m) = Some a → c m = Ok a m.
Proof.
  intros Hc Hv. specialize (Hc m). destruct (c m); simpl in Hv; try discriminate.
  congruence.
Qed.

Lemma read_only_ret {A} (a : A) : read_only (mret a).
Proof. intros m. reflexivity. Qed.

Lemma read_only_bind {A B} (c : M A) (k : A → M B) :
  read_only c → (∀ a, read_only (k a)) → read_only (x ← c; k x).
Proof.
  intros Hc Hk m. unfold mbind, M_bind, bind. specialize (Hc m).
  destruct (c m) as [a m1| | |]; try exact I. subst m1. apply Hk.
Qed.

Lemma read_only_rdV p : read_only (rdV p).
Proof. intros m. unfold rdV. destruct p; [destruct (hv m !! _) |]; done. Qed.
Lemma read_only_rdE p : read_only (rdE p).
Proof. intros m. unfold rdE. destruct p; [destruct (he m !! _) |]; done. Qed.
Lemma read_only_rdF p : read_only (rdF p).
Proof. intros m. unfold rdF. destruct p; [destruct (hf m !! _) |]; done. Qed.
Lemma read_only_rdH p : read_only (rdH p).
Proof. intros m. unfold rdH. destruct p; [destruct (hh m !! _) |]; done. Qed.

Create HintDb ro discriminated.
#[export] Hint Resolve read_only_ret read_only_rdV read_only_rdE read_only_rdF
  read_only_rdH : ro.
#[export] Hint Extern 1 (read_only (mbind _ _)) =>
  apply read_only_bind; [| intros ?] : ro.
#[export] Hint Extern 2 (read_only (match ?x with _ => _ end)) => destruct x : ro.

Ltac ro := auto 20 with ro.

Lemma read_only_target h : read_only (target h).
Proof. unfold target. ro. Qed.
Lemma read_only_source h : read_only (source h).
Proof. unfold source. ro. Qed.
Lemma read_only_prev h : read_only (prev h).
Proof. unfold prev. ro. Qed.
Lemma read_only_next h : read_only (next h).
Proof. unfold next. ro. Qed.
Lemma read_only_edge_of h : read_only (edge_of h).
Proof. unfold edge_of. ro. Qed.
Lemma read_only_face_of h : read_only (face_of h).
Proof. unfold face_of. ro. Qed.
Lemma read_only_other e h : read_only (other e h).
Proof. unfold other. ro. Qed.
#[export] Hint Resolve read_only_target read_only_source read_only_prev read_only_next
  read_only_edge_of read_only_face_of read_only_other : ro.
Lemma read_only_dual h : read_only (dual h).
Proof. unfold dual. ro. Qed.
Lemma read_only_halfedge0 e : read_only (halfedge0 e).
Proof. unfold halfedge0. ro. Qed.
Lemma read_only_halfedge1 e : read_only (halfedge1 e).
Proof. unfold halfedge1. ro. Qed.
Lemma read_only_vertex_id v : read_only (vertex_id v).
Proof. unfold vertex_id. ro. Qed.
Lemma read_only_vertex_halfedge v : read_only (vertex_halfedge v).
Proof. unfold vertex_halfedge. ro. Qed.
#[export] Hint Resolve read_only_dual read_only_halfedge0 read_only_halfedge1
  read_only_vertex_id read_only_vertex_halfedge : ro.
Lemma read_only_smaller_id v1 v2 : read_only (smaller_id v1 v2).
Proof. unfold smaller_id. ro. Qed.
Lemma read_only_ccw_rotate_about_target h : read_only (ccw_rotate_about_target h).
Proof. unfold ccw_rotate_about_target. ro. Qed.
Lemma read_only_clw_rotate_about_target h : read_only (clw_rotate_about_target h).
Proof. unfold clw_rotate_about_target. ro. Qed.
Lemma read_only_ccw_rotate_about_source h : read_only (ccw_rotate_about_source h).
Proof. unfold ccw_rotate_about_source. ro. Qed.
Lemma read_only_clw_rotate_about_source h : read_only (clw_rotate_about_source h).
Proof. unfold clw_rotate_about_source. ro. Qed.
#[export] Hint Resolve read_only_smaller_id read_only_ccw_rotate_about_target
  read_only_clw_rotate_about_target read_only_ccw_rotate_about_source
  read_only_clw_rotate_about_source : ro.

Lemma read_only_find_edge v1 v2 l : read_only (find_edge v1 v2 l).
Proof. induction l as [| e l IH]; simpl; ro. Qed.
#[export] Hint Resolve read_only_find_edge : ro.

Lemma read_only_edge v0 v1 : read_only (edge v0 v1).
Proof. unfold edge. ro. Qed.
(** ** C3: [create_edge] *)

Ltac psimpl :=
  cbn [hv he hf hh m_edges m_halfedges m_verts m_faces m_map_vert m_map_face
       m_vertex_id m_face_id out].

Lemma find_edge_step (m : Mesh) (v1 v2 e : ptr) (l : list ptr) h s t :
  val (halfedge0 e m) = Some (Some h) →
  val (source (Some h) m) = Some s →
  val (target (Some h) m) = Some t →
  find_edge v1 v2 (e :: l) m =
    if ptr_eqb s v1 && ptr_eqb t v2 then Ok e m
    else if ptr_eqb s v2 && ptr_eqb t v1 then Ok e m
    else find_edge v1 v2 l m.
Proof.
  intros H0 Hs Ht. cbn [find_edge].
  rewrite (bind_Ok _ _ _ _ _ (read_only_val _ _ _ (read_only_halfedge0 e) H0)).
  rewrite (bind_Ok _ _ _ _ _ (read_only_val _ _ _ (read_only_source _) Hs)).
  rewrite (bind_Ok _ _ _ _ _ (read_only_val _ _ _ (read_only_target _) Ht)).
  destruct (ptr_eqb s v1 && ptr_eqb t v2); [reflexivity |].
  destruct (ptr_eqb s v2 && ptr_eqb t v1); reflexivity.
Qed.

Lemma ptr_eqb_true p q : ptr_eqb p q = true ↔ p = q.
Proof. unfold ptr_eqb. apply bool_decide_eq_true. Qed.
Lemma ptr_eqb_false p q : ptr_eqb p q = false ↔ p ≠ q.
Proof. unfold ptr_eqb. apply bool_decide_eq_false. Qed.
Lemma ptr_eqb_refl p : ptr_eqb p p = true.
Proof. by apply ptr_eqb_true. Qed.

Lemma find_edge_skip (m : Mesh) (v1 v2 e : ptr) (l : list ptr) :
  scannable m e → ¬ joins m e v1 v2 →
  find_edge v1 v2 (e :: l) m = find_edge v1 v2 l m.
Proof.
  intros (h & s & t & H0 & Hs & Ht) Hn.
  rewrite (find_edge_step m v1 v2 e l h s t H0 Hs Ht).
  destruct (ptr_eqb s v1 && ptr_eqb t v2) eqn:E1.
  { apply andb_true_iff in E1 as [?%ptr_eqb_true ?%ptr_eqb_true].
    exfalso. apply Hn. exists h, s, t. tauto. }
  destruct (ptr_eqb s v2 && ptr_eqb t v1) eqn:E2; [| reflexivity].
  apply andb_true_iff in E2 as [?%ptr_eqb_true ?%ptr_eqb_true].
  exfalso. apply Hn. exists h, s, t. tauto.
Qed.

Lemma find_edge_hit (m : Mesh) (v1 v2 e : ptr) (l : list ptr) :
  joins m e v1 v2 → find_edge v1 v2 (e :: l) m = Ok e m.
Proof.
  intros (h & s & t & H0 & Hs & Ht & Hj).
  rewrite (find_edge_step m v1 v2 e l h s t H0 Hs Ht).
  destruct Hj as [[-> ->] | [-> ->]]; rewrite !ptr_eqb_refl; cbn.
  - reflexivity.
  - destruct (ptr_eqb v2 v1 && ptr_eqb v1 v2); reflexivity.
Qed.

Lemma find_edge_found (m : Mesh) (v1 v2 e : ptr) (l1 l2 : list ptr) :
  Forall (scannable m) l1 → Forall (fun e' => ¬ joins m e' v1 v2) l1 →
  joins m e v1 v2 →
  find_edge v1 v2 (l1 ++ e :: l2) m = Ok e m.
Proof.
  intros Hs Hn Hj. induction l1 as [| e' l1 IH]; cbn [app].
  - by apply find_edge_hit.
  - apply Forall_cons in Hs as [Hs1 Hs]. apply Forall_cons in Hn as [Hn1 Hn].
    rewrite find_edge_skip by assumption. by apply IH.
Qed.

Lemma find_edge_none (m : Mesh) (v1 v2 : ptr) (l : list ptr) :
  Forall (scannable m) l → Forall (fun e' => ¬ joins m e' v1 v2) l →
  find_edge v1 v2 l m = Ok None m.
Proof.
  intros Hs Hn. induction l as [| e' l IH].
  - reflexivity.
  - apply Forall_cons in Hs as [Hs1 Hs]. apply Forall_cons in Hn as [Hn1 Hn].
    rewrite find_edge_skip by assumption. by apply IH.
Qed.

Lemma smaller_id_inv (m : Mesh) (v1 v2 : ptr) r :
  val (smaller_id v1 v2 m) = Some r →
  ∃ a1 a2 x1 x2, v1 = Some a1 ∧ v2 = Some a2 ∧
                 hv m !! a1 = Some x1 ∧ hv m !! a2 = Some x2 ∧
                 r = if v_id x1 <? v_id x2 then v1 else v2.
Proof.
  unfold smaller_id, vertex_id, rdV. munfold.
  destruct v1 as [a1 |]; [| discriminate].
  destruct (hv m !! a1) as [x1 |] eqn:E1; [| discriminate].
  destruct v2 as [a2 |]; [| discriminate].
  destruct (hv m !! a2) as [x2 |] eqn:E2; [| discriminate].
  cbn. intros [= <-]. eauto 10.
Qed.

(** *** The getters, as lookups *)

Lemma val_rdH m p : val (rdH p m) = halfedge_at m p.
Proof. unfold rdH, halfedge_at. destruct p as [a |]; [cbn; destruct (hh m !! a) |]; done. Qed.
Lemma val_rdE m p : val (rdE p m) = edge_at m p.
Proof. unfold rdE, edge_at. destruct p as [a |]; [cbn; destruct (he m !! a) |]; done. Qed.
Lemma val_rdV m p : val (rdV p m) = vertex_at m p.
Proof. unfold rdV, vertex_at. destruct p as [a |]; [cbn; destruct (hv m !! a) |]; done. Qed.
Lemma val_rdF m p : val (rdF p m) = face_at m p.
Proof. unfold rdF, face_at. destruct p as [a |]; [cbn; destruct (hf m !! a) |]; done. Qed.

Lemma val_bind {A B} (c : M A) (k : A → M B) m :
  read_only c → val ((x ← c; k x) m) = a ← val (c m); val (k a m).
Proof.
  intros Hc. specialize (Hc m). unfold mbind at 1, M_bind, bind.
  destruct (c m); cbn; try done. by subst.
Qed.

Lemma val_target m h : val (target h m) = h_vertex <$> halfedge_at m h.
Proof.
  unfold target. rewrite val_bind by ro. rewrite val_rdH.
  by destruct (halfedge_at m h).
Qed.
Lemma val_prev m h : val (prev h m) = h_prev <$> halfedge_at m h.
Proof.
  unfold prev. rewrite val_bind by ro. rewrite val_rdH.
  by destruct (halfedge_at m h).
Qed.
Lemma val_next m h : val (next h m) = h_next <$> halfedge_at m h.
Proof.
  unfold next. rewrite val_bind by ro. rewrite val_rdH.
  by destruct (halfedge_at m h).
Qed.
Lemma val_edge_of m h : val (edge_of h m) = h_edge <$> halfedge_at m h.
Proof.
  unfold edge_of. rewrite val_bind by ro. rewrite val_rdH.
  by destruct (halfedge_at m h).
Qed.
Lemma val_face_of m h : val (face_of h m) = h_face <$> halfedge_at m h.
Proof.
  unfold face_of. rewrite val_bind by ro. rewrite val_rdH.
  by destruct (halfedge_at m h).
Qed.
Lemma val_source m h :
  val (source h m) = x ← halfedge_at m h; h_vertex <$> halfedge_at m (h_prev x).
Proof.
  unfold source. rewrite val_bind by ro. rewrite val_rdH.
  destruct (halfedge_at m h) as [x |]; [cbn | done].
  rewrite val_bind by ro. rewrite val_rdH.
  by destruct (halfedge_at m (h_prev x)).
Qed.
Lemma val_halfedge0 m e : val (halfedge0 e m) = e_halfedge0 <$> edge_at m e.
Proof.
  unfold halfedge0. rewrite val_bind by ro. rewrite val_rdE.
  by destruct (edge_at m e).
Qed.
Lemma val_halfedge1 m e : val (halfedge1 e m) = e_halfedge1 <$> edge_at m e.
Proof.
  unfold halfedge1. rewrite val_bind by ro. rewrite val_rdE.
  by destruct (edge_at m e).
Qed.
Lemma val_other m e h :
  val (other e h m) =
    (fun y => if ptr_eqb h (e_halfedge0 y) then e_halfedge1 y else e_halfedge0 y)
      <$> edge_at m e.
Proof.
  unfold other. rewrite val_bind by ro. rewrite val_rdE.
  by destruct (edge_at m e).
Qed.
Lemma val_dual m h :
  val (dual h m) =
    x ← halfedge_at m h;
    (fun y => if ptr_eqb h (e_halfedge0 y) then e_halfedge1 y else e_halfedge0 y)
      <$> edge_at m (h_edge x).
Proof.
  unfold dual. rewrite val_bind by ro. rewrite val_rdH.
  destruct (halfedge_at m h) as [x |]; [cbn | done]. apply val_other.
Qed.
Lemma val_vertex_id m v : val (vertex_id v m) = v_id <$> vertex_at m v.
Proof.
  unfold vertex_id. rewrite val_bind by ro. rewrite val_rdV.
  by destruct (vertex_at m v).
Qed.

(** *** The theorem *)

Lemma joins_frame (m m' : Mesh) (e v1 v2 : ptr) :
  edge_at m' e = edge_at m e → hh m' = hh m →
  joins m' e v1 v2 ↔ joins m e v1 v2.
Proof.
  intros He Hh. unfold joins.
  setoid_rewrite val_halfedge0. setoid_rewrite val_source. setoid_rewrite val_target.
  unfold halfedge_at. rewrite He, Hh. reflexivity.
Qed.

Lemma scannable_frame (m m' : Mesh) (e : ptr) :
  edge_at m' e = edge_at m e → hh m' = hh m →
  scannable m' e ↔ scannable m e.
Proof.
  intros He Hh. unfold scannable.
  setoid_rewrite val_halfedge0. setoid_rewrite val_source. setoid_rewrite val_target.
  unfold halfedge_at. rewrite He, Hh. reflexivity.
Qed.

Lemma scannable_live (m : Mesh) (e : ptr) :
  scannable m e → ∃ a y, e = Some a ∧ he m !! a = Some y.
Proof.
  intros (h & s & t & H0 & _). rewrite val_halfedge0 in H0.
  destruct e as [a |]; [| discriminate]. cbn in H0.
  destruct (he m !! a) as [y |] eqn:E; [| discriminate]. eauto.
Qed.

(** C3, as amended.  [create_edge(v1, v2)] scans the candidate list of the
    vertex with the smaller id ([v2] on a tie), and no other list.  If the
    list holds an edge whose slot-0 half-edge runs between [v1] and [v2],
    the first such edge is returned and the mesh is unchanged.  If it holds
    none, a new edge with both slots empty is allocated, appended to
    [m_edges] and to that one candidate list.  Once slot 0 of the new edge
    holds a half-edge between [v1] and [v2], a further call returns the same
    edge and changes nothing. *)
Theorem create_edge_spec (m : Mesh) (v1 v2 : ptr) (pV : positive) (x : CVertex) :
  val (smaller_id v1 v2 m) = Some (Some pV) →
  hv m !! pV = Some x →
  Forall (scannable m) (v_ledges x) →
  (∀ l1 e l2, v_ledges x = l1 ++ e :: l2 →
              Forall (fun e' => ¬ joins m e' v1 v2) l1 → joins m e v1 v2 →
              create_edge v1 v2 m = Ok e m) ∧
  (Forall (fun e' => ¬ joins m e' v1 v2) (v_ledges x) →
   ∃ a, he m !! a = None ∧
        create_edge v1 v2 m = Ok (Some a) (with_new_edge pV a x m) ∧
        (∀ h, joins (with_slot0 a h (with_new_edge pV a x m)) (Some a) v1 v2 →
              create_edge v1 v2 (with_slot0 a h (with_new_edge pV a x m))
              = Ok (Some a) (with_slot0 a h (with_new_edge pV a x m)))).
Proof.
  intros Hsm Hx Hscan.
  pose proof (read_only_val _ _ _ (read_only_smaller_id v1 v2) Hsm) as Hsm'.
  split.
  - intros l1 e l2 Hl Hn Hj. unfold create_edge.
    rewrite (bind_Ok _ _ _ _ _ Hsm').
    rewrite (bind_Ok _ _ _ _ _ (rdV_Ok _ _ _ Hx)).
    rewrite Hl in Hscan |- *. apply Forall_app in Hscan as [Hs1 _].
    rewrite (bind_Ok _ _ _ _ _ (find_edge_found m v1 v2 e l1 l2 Hs1 Hn Hj)).
    destruct Hj as (h & s & t & H0 & _). rewrite val_halfedge0 in H0.
    destruct e; [reflexivity | discriminate].
  - intros Hn. exists (fresh (dom (he m))).
    assert (he m !! fresh (dom (he m)) = None) as Hfresh.
    { apply not_elem_of_dom. apply is_fresh. }
    split; [exact Hfresh |]. split.
    + unfold create_edge.
      rewrite (bind_Ok _ _ _ _ _ Hsm').
      rewrite (bind_Ok _ _ _ _ _ (rdV_Ok _ _ _ Hx)).
      rewrite (bind_Ok _ _ _ _ _ (find_edge_none m v1 v2 _ Hscan Hn)).
      unfold new_CEdge, wrV, rdV, with_new_edge, set_m_edges, set_he, set_hv.
      munfold. cbn. rewrite Hx. cbn. rewrite Hx. reflexivity.
    + intros h Hj.
      set (a := fresh (dom (he m))) in *.
      set (m2 := with_slot0 a h (with_new_edge pV a x m)) in *.
      assert (hh m2 = hh m) as Hhh by reflexivity.
      assert (∀ e', scannable m e' → edge_at m2 e' = edge_at m e') as Hedge.
      { intros e' (b & y & -> & Hb)%scannable_live. unfold edge_at, m2. cbn.
        rewrite !lookup_insert_ne; [done | congruence ..]. }
      unfold create_edge.
      assert (smaller_id v1 v2 m2 = Ok (Some pV) m2) as Hsm2.
      { apply read_only_val; [ro |].
        apply smaller_id_inv in Hsm as (a1 & a2 & x1 & x2 & -> & -> & H1 & H2 & Hr).
        unfold smaller_id. rewrite val_bind by ro. rewrite val_vertex_id.
        assert (∀ b xb, hv m !! b = Some xb →
                        v_id <$> vertex_at m2 (Some b) = Some (v_id xb)) as Hid.
        { intros b xb Hb. unfold vertex_at, m2. cbn.
          destruct (decide (pV = b)) as [-> | Hne].
          - rewrite lookup_insert_eq. cbn. congruence.
          - rewrite lookup_insert_ne by done. by rewrite Hb. }
        rewrite (Hid _ _ H1). cbn. rewrite val_bind by ro. rewrite val_vertex_id.
        rewrite (Hid _ _ H2). cbn. by rewrite Hr. }
      rewrite (bind_Ok _ _ _ _ _ Hsm2).
      assert (rdV (Some pV) m2 = Ok (with_v_ledges (v_ledges x ++ [Some a]) x) m2) as Hrd.
      { apply rdV_Ok. unfold m2. cbn. apply lookup_insert_eq. }
      rewrite (bind_Ok _ _ _ _ _ Hrd). cbn [with_v_ledges v_ledges].
      assert (Forall (scannable m2) (v_ledges x)) as Hs2.
      { eapply Forall_impl; [exact Hscan |]. intros e' He'.
        apply (scannable_frame m m2); auto. }
      assert (Forall (fun e' => ¬ joins m2 e' v1 v2) (v_ledges x)) as Hn2.
      { apply Forall_forall. intros e' Hin.
        rewrite Forall_forall in Hn, Hscan.
        rewrite (joins_frame m m2); auto. }
      rewrite (bind_Ok _ _ _ _ _ (find_edge_found m2 v1 v2 (Some a) (v_ledges x) [] Hs2 Hn2 Hj)).
      reflexivity.
Qed.

Lemma create_edge_spec_witness :
  let m := one_triangle in
  let v1 := Some 1%positive in
  let v2 := Some 2%positive in
  let x := mkVertex 1 (Some 1%positive) false [] [Some 1%positive]
                    [Some 1%positive; Some 2%positive] false in
  val (smaller_id v1 v2 m) = Some (Some 1%positive) ∧
  hv m !! 1%positive = Some x ∧
  Forall (scannable m) (v_ledges x) ∧
  (∀ l1 e l2, v_ledges x = l1 ++ e :: l2 →
              Forall (fun e' => ¬ joins m e' v1 v2) l1 → joins m e v1 v2 →
              create_edge v1 v2 m = Ok e m) ∧
  (Forall (fun e' => ¬ joins m e' v1 v2) (v_ledges x) →
   ∃ a, he m !! a = None ∧
        create_edge v1 v2 m = Ok (Some a) (with_new_edge 1 a x m) ∧
        (∀ h, joins (with_slot0 a h (with_new_edge 1 a x m)) (Some a) v1 v2 →
              create_edge v1 v2 (with_slot0 a h (with_new_edge 1 a x m))
              = Ok (Some a) (with_slot0 a h (with_new_edge 1 a x m)))).
Proof.
  intros m v1 v2 x.
  assert (val (smaller_id v1 v2 m) = Some (Some 1%positive)) as H1 by reflexivity.
  assert (hv m !! 1%positive = Some x) as H2 by reflexivity.
  assert (Forall (scannable m) (v_ledges x)) as H3.
  { repeat apply Forall_cons_2; [| | apply Forall_nil_2];
      (eexists _, _, _; repeat split; vm_compute; reflexivity). }
  split; [exact H1 |]. split; [exact H2 |]. split; [exact H3 |].
  exact (create_edge_spec m v1 v2 1%positive x H1 H2 H3).
Defined.

(** ** Stepping through a computation *)

Lemma wp_bind {A B} (c : M A) (k : A → M B) Q m :
  wp c (fun a m' => wp (k a) Q m') m → wp (x ← c; k x) Q m.
Proof.
  intros (a & m1 & Hc & b & m2 & Hk & HQ). exists b, m2.
  split; [| exact HQ]. by rewrite (bind_Ok _ _ _ _ _ Hc).
Qed.
Lemma wp_ret {A} (a : A) (Q : A → Mesh → Prop) m : Q a m → wp (mret a) Q m.
Proof. intros HQ. by exists a, m. Qed.
Lemma wp_get (Q : Mesh → Mesh → Prop) m : Q m m → wp get Q m.
Proof. intros HQ. by exists m, m. Qed.
Lemma wp_modify f (Q : unit → Mesh → Prop) m : Q tt (f m) → wp (modify f) Q m.
Proof. intros HQ. by exists tt, (f m). Qed.
Lemma wp_print s (Q : unit → Mesh → Prop) m :
  Q tt (mkMesh (hv m) (he m) (hf m) (hh m) (m_edges m) (m_halfedges m)
               (m_verts m) (m_faces m) (m_map_vert m) (m_map_face m)
               (m_vertex_id m) (m_face_id m) (out m ++ [s])) →
  wp (print s) Q m.
Proof. intros HQ. by eexists tt, _. Qed.

Lemma wp_rdV a x (Q : CVertex → Mesh → Prop) m :
  hv m !! a = Some x → Q x m → wp (rdV (Some a)) Q m.
Proof. intros H HQ. exists x, m. by rewrite (rdV_Ok _ _ _ H). Qed.
Lemma wp_rdE a x (Q : CEdge → Mesh → Prop) m :
  he m !! a = Some x → Q x m → wp (rdE (Some a)) Q m.
Proof. intros H HQ. exists x, m. by rewrite (rdE_Ok _ _ _ H). Qed.
Lemma wp_rdF a x (Q : CFace → Mesh → Prop) m :
  hf m !! a = Some x → Q x m → wp (rdF (Some a)) Q m.
Proof. intros H HQ. exists x, m. by rewrite (rdF_Ok _ _ _ H). Qed.
Lemma wp_rdH a x (Q : CHalfEdge → Mesh → Prop) m :
  hh m !! a = Some x → Q x m → wp (rdH (Some a)) Q m.
Proof. intros H HQ. exists x, m. by rewrite (rdH_Ok _ _ _ H). Qed.

Lemma wp_wrV a f x (Q : unit → Mesh → Prop) m :
  hv m !! a = Some x → Q tt (set_hv (insert a (f x)) m) → wp (wrV (Some a) f) Q m.
Proof.
  intros H HQ. unfold wrV. apply wp_bind. eapply wp_rdV; [exact H |].
  by apply wp_modify.
Qed.
Lemma wp_wrE a f x (Q : unit → Mesh → Prop) m :
  he m !! a = Some x → Q tt (set_he (insert a (f x)) m) → wp (wrE (Some a) f) Q m.
Proof.
  intros H HQ. unfold wrE. apply wp_bind. eapply wp_rdE; [exact H |].
  by apply wp_modify.
Qed.
Lemma wp_wrF a f x (Q : unit → Mesh → Prop) m :
  hf m !! a = Some x → Q tt (set_hf (insert a (f x)) m) → wp (wrF (Some a) f) Q m.
Proof.
  intros H HQ. unfold wrF. apply wp_bind. eapply wp_rdF; [exact H |].
  by apply wp_modify.
Qed.
Lemma wp_wrH a f x (Q : unit → Mesh → Prop) m :
  hh m !! a = Some x → Q tt (set_hh (insert a (f x)) m) → wp (wrH (Some a) f) Q m.
Proof.
  intros H HQ. unfold wrH. apply wp_bind. eapply wp_rdH; [exact H |].
  by apply wp_modify.
Qed.

Lemma wp_new_CVertex (Q : ptr → Mesh → Prop) m :
  (∀ a, hv m !! a = None →
        Q (Some a) (set_hv (insert a (mkVertex 0 None false [] [] [] false)) m)) →
  wp new_CVertex Q m.
Proof.
  intros HQ. eexists _, _. split; [reflexivity |]. apply HQ.
  apply not_elem_of_dom, is_fresh.
Qed.
Lemma wp_new_CEdge (Q : ptr → Mesh → Prop) m :
  (∀ a, he m !! a = None → Q (Some a) (set_he (insert a (mkEdge None None 0)) m)) →
  wp new_CEdge Q m.
Proof.
  intros HQ. eexists _, _. split; [reflexivity |]. apply HQ.
  apply not_elem_of_dom, is_fresh.
Qed.
Lemma wp_new_CFace (Q : ptr → Mesh → Prop) m :
  (∀ a, hf m !! a = None → Q (Some a) (set_hf (insert a (mkFace 0 None)) m)) →
  wp new_CFace Q m.
Proof.
  intros HQ. eexists _, _. split; [reflexivity |]. apply HQ.
  apply not_elem_of_dom, is_fresh.
Qed.
Lemma wp_new_CHalfEdge (Q : ptr → Mesh → Prop) m :
  (∀ a, hh m !! a = None →
        Q (Some a) (set_hh (insert a (mkHalfEdge None None None None None)) m)) →
  wp new_CHalfEdge Q m.
Proof.
  intros HQ. eexists _, _. split; [reflexivity |]. apply HQ.
  apply not_elem_of_dom, is_fresh.
Qed.

Lemma wp_mono {A} (c : M A) (Q Q' : A → Mesh → Prop) m :
  wp c Q m → (∀ a m', Q a m' → Q' a m') → wp c Q' m.
Proof. intros (a & m' & H & HQ) Himp. exists a, m'. auto. Qed.

(** A read-only computation whose value is known. *)
Lemma wp_val {A} (c : M A) a (Q : A → Mesh → Prop) m :
  read_only c → val (c m) = Some a → Q a m → wp c Q m.
Proof. intros Hro Hv HQ. exists a, m. split; [by apply read_only_val | done]. Qed.
(** Getters, stepped. *)
Lemma wp_next a x (Q : ptr → Mesh → Prop) m :
  hh m !! a = Some x → Q (h_next x) m → wp (next (Some a)) Q m.
Proof. intros H HQ. unfold next. apply wp_bind. eapply wp_rdH; [exact H |]. by apply wp_ret. Qed.
Lemma wp_prev a x (Q : ptr → Mesh → Prop) m :
  hh m !! a = Some x → Q (h_prev x) m → wp (prev (Some a)) Q m.
Proof. intros H HQ. unfold prev. apply wp_bind. eapply wp_rdH; [exact H |]. by apply wp_ret. Qed.
Lemma wp_target a x (Q : ptr → Mesh → Prop) m :
  hh m !! a = Some x → Q (h_vertex x) m → wp (target (Some a)) Q m.
Proof. intros H HQ. unfold target. apply wp_bind. eapply wp_rdH; [exact H |]. by apply wp_ret. Qed.
Lemma wp_edge_of a x (Q : ptr → Mesh → Prop) m :
  hh m !! a = Some x → Q (h_edge x) m → wp (edge_of (Some a)) Q m.
Proof. intros H HQ. unfold edge_of. apply wp_bind. eapply wp_rdH; [exact H |]. by apply wp_ret. Qed.
Lemma wp_face_of a x (Q : ptr → Mesh → Prop) m :
  hh m !! a = Some x → Q (h_face x) m → wp (face_of (Some a)) Q m.
Proof. intros H HQ. unfold face_of. apply wp_bind. eapply wp_rdH; [exact H |]. by apply wp_ret. Qed.
Lemma wp_halfedge0 a y (Q : ptr → Mesh → Prop) m :
  he m !! a = Some y → Q (e_halfedge0 y) m → wp (halfedge0 (Some a)) Q m.
Proof. intros H HQ. unfold halfedge0. apply wp_bind. eapply wp_rdE; [exact H |]. by apply wp_ret. Qed.
Lemma wp_halfedge1 a y (Q : ptr → Mesh → Prop) m :
  he m !! a = Some y → Q (e_halfedge1 y) m → wp (halfedge1 (Some a)) Q m.
Proof. intros H HQ. unfold halfedge1. apply wp_bind. eapply wp_rdE; [exact H |]. by apply wp_ret. Qed.
Lemma wp_vertex_id a x (Q : Z → Mesh → Prop) m :
  hv m !! a = Some x → Q (v_id x) m → wp (vertex_id (Some a)) Q m.
Proof. intros H HQ. unfold vertex_id. apply wp_bind. eapply wp_rdV; [exact H |]. by apply wp_ret. Qed.
Lemma wp_vertex_halfedge a x (Q : ptr → Mesh → Prop) m :
  hv m !! a = Some x → Q (v_halfedge x) m → wp (vertex_halfedge (Some a)) Q m.
Proof.
  intros H HQ. unfold vertex_halfedge. apply wp_bind. eapply wp_rdV; [exact H |].
  by apply wp_ret.
Qed.
Lemma wp_dual a x e y (Q : ptr → Mesh → Prop) m :
  hh m !! a = Some x → h_edge x = Some e → he m !! e = Some y →
  Q (if ptr_eqb (Some a) (e_halfedge0 y) then e_halfedge1 y else e_halfedge0 y) m →
  wp (dual (Some a)) Q m.
Proof.
  intros H He Hy HQ. unfold dual, other. apply wp_bind. eapply wp_rdH; [exact H |].
  rewrite He. apply wp_bind. eapply wp_rdE; [exact Hy |]. by apply wp_ret.
Qed.
Lemma wp_source a x p xp (Q : ptr → Mesh → Prop) m :
  hh m !! a = Some x → h_prev x = Some p → hh m !! p = Some xp →
  Q (h_vertex xp) m → wp (source (Some a)) Q m.
Proof.
  intros H Hp Hxp HQ. unfold source. apply wp_bind. eapply wp_rdH; [exact H |].
  rewrite Hp. apply wp_bind. eapply wp_rdH; [exact Hxp |]. by apply wp_ret.
Qed.

Ltac st_simpl :=
  cbv beta iota delta
      [hv he hf hh m_edges m_halfedges m_verts m_faces m_map_vert m_map_face
       m_vertex_id m_face_id out
       set_hv set_he set_hf set_hh set_m_edges set_m_halfedges set_m_verts
       set_m_faces set_m_map_vert set_m_map_face set_m_vertex_id set_m_face_id].
Ltac st_simpl_in H :=
  cbv beta iota delta
      [hv he hf hh m_edges m_halfedges m_verts m_faces m_map_vert m_map_face
       m_vertex_id m_face_id out
       set_hv set_he set_hf set_hh set_m_edges set_m_halfedges set_m_verts
       set_m_faces set_m_map_vert set_m_map_face set_m_vertex_id set_m_face_id] in H.

Ltac fld_simpl :=
  cbn [h_edge h_face h_vertex h_prev h_next e_halfedge0 e_halfedge1 e_length
       f_id f_halfedge v_id v_halfedge v_boundary v_edges v_halfedges v_ledges
       v_dangling
       with_h_edge with_h_face with_h_vertex with_h_prev with_h_next
       with_e_halfedge0 with_e_halfedge1 with_e_length with_f_id with_f_halfedge
       with_v_id with_v_halfedge with_v_boundary with_v_edges with_v_halfedges
       with_v_ledges with_v_dangling for_each negb andb orb fst snd].

(** Disequalities that stand among the hypotheses, in either direction. *)
Ltac ne := first [assumption | apply not_eq_sym; assumption].

(** Lookups in a store after a series of writes. *)
Ltac lkg :=
  lazymatch goal with
  | |- <[?a:=_]> _ !! ?b = _ =>
      first [ constr_eq a b; apply lookup_insert_eq
            | etrans; [apply lookup_insert_ne; ne | lkg] ]
  | |- _ => eassumption
  end.
Ltac lookup_now := st_simpl; lkg.

Lemma lookup_None_Some_ne {A} (s : gmap positive A) a b x :
  s !! a = None → s !! b = Some x → a ≠ b.
Proof. congruence. Qed.

(** What a fresh address is known to differ from: the keys written so far,
    and every address known to be live in the store it is fresh for. *)
Ltac note_ne a b H :=
  lazymatch goal with
  | _ : a ≠ b |- _ => idtac
  | _ : b ≠ a |- _ => idtac
  | _ => pose proof H
  end.
Ltac fresh_facts H :=
  st_simpl_in H;
  repeat match type of H with
         | <[?k:=_]> _ !! ?a = None =>
             let Hn := fresh "Hne" in
             apply lookup_insert_None in H as [H Hn];
             lazymatch goal with
             | _ : k ≠ a, _ : k ≠ a |- _ => clear Hn
             | _ => idtac
             end
         end;
  match type of H with
  | ?s !! ?a = None =>
      repeat match goal with
             | Hb : s !! ?b = Some _ |- _ =>
                 lazymatch goal with
                 | _ : a ≠ b |- _ => fail
                 | _ : b ≠ a |- _ => fail
                 | _ => pose proof (lookup_None_Some_ne s a b _ H Hb)
                 end
             end
  end.

Lemma ptr_eqb_Some a b : ptr_eqb (Some a) (Some b) = bool_decide (a = b).
Proof.
  unfold ptr_eqb. destruct (decide (a = b)) as [-> | Hne].
  - by rewrite !bool_decide_eq_true_2.
  - rewrite !bool_decide_eq_false_2; [done | done | congruence].
Qed.
Lemma ptr_eqb_Some_ne a b : a ≠ b → ptr_eqb (Some a) (Some b) = false.
Proof. intros. apply ptr_eqb_false. congruence. Qed.
Lemma ptr_eqb_Some_None a : ptr_eqb (Some a) None = false.
Proof. reflexivity. Qed.
Lemma ptr_eqb_None_Some a : ptr_eqb None (Some a) = false.
Proof. reflexivity. Qed.

Ltac eqb_simpl :=
  repeat first
    [ rewrite ptr_eqb_refl
    | rewrite ptr_eqb_Some_None
    | rewrite ptr_eqb_None_Some
    | rewrite ptr_eqb_Some_ne by ne ].

Ltac wp_step :=
  lazymatch goal with
  | |- wp (mbind _ _) _ _ => apply wp_bind
  | |- wp (mret _) _ _ => apply wp_ret
  | |- wp (ret _) _ _ => apply wp_ret
  | |- wp get _ _ => apply wp_get
  | |- wp (modify _) _ _ => apply wp_modify
  | |- wp (print _) _ _ => apply wp_print
  | |- wp (rdV (Some _)) _ _ => eapply wp_rdV; [lookup_now |]
  | |- wp (rdE (Some _)) _ _ => eapply wp_rdE; [lookup_now |]
  | |- wp (rdF (Some _)) _ _ => eapply wp_rdF; [lookup_now |]
  | |- wp (rdH (Some _)) _ _ => eapply wp_rdH; [lookup_now |]
  | |- wp (wrV (Some _) _) _ _ => eapply wp_wrV; [lookup_now |]
  | |- wp (wrE (Some _) _) _ _ => eapply wp_wrE; [lookup_now |]
  | |- wp (wrF (Some _) _) _ _ => eapply wp_wrF; [lookup_now |]
  | |- wp (wrH (Some _) _) _ _ => eapply wp_wrH; [lookup_now |]
  | |- wp (next (Some _)) _ _ => eapply wp_next; [lookup_now |]
  | |- wp (prev (Some _)) _ _ => eapply wp_prev; [lookup_now |]
  | |- wp (target (Some _)) _ _ => eapply wp_target; [lookup_now |]
  | |- wp (edge_of (Some _)) _ _ => eapply wp_edge_of; [lookup_now |]
  | |- wp (face_of (Some _)) _ _ => eapply wp_face_of; [lookup_now |]
  | |- wp (halfedge0 (Some _)) _ _ => eapply wp_halfedge0; [lookup_now |]
  | |- wp (halfedge1 (Some _)) _ _ => eapply wp_halfedge1; [lookup_now |]
  | |- wp (vertex_id (Some _)) _ _ => eapply wp_vertex_id; [lookup_now |]
  | |- wp (vertex_halfedge (Some _)) _ _ => eapply wp_vertex_halfedge; [lookup_now |]
  | |- wp (dual (Some _)) _ _ =>
      eapply wp_dual; [lookup_now | fld_simpl; reflexivity | lookup_now |]
  | |- wp (source (Some _)) _ _ =>
      eapply wp_source; [lookup_now | fld_simpl; reflexivity | lookup_now |]
  | |- wp new_CVertex _ _ =>
      let a := fresh "a" in let H := fresh "Hfr" in
      apply wp_new_CVertex; intros a H; fresh_facts H
  | |- wp new_CEdge _ _ =>
      let a := fresh "a" in let H := fresh "Hfr" in
      apply wp_new_CEdge; intros a H; fresh_facts H
  | |- wp new_CFace _ _ =>
      let a := fresh "a" in let H := fresh "Hfr" in
      apply wp_new_CFace; intros a H; fresh_facts H
  | |- wp new_CHalfEdge _ _ =>
      let a := fresh "a" in let H := fresh "Hfr" in
      apply wp_new_CHalfEdge; intros a H; fresh_facts H
  | |- wp new_triangle _ _ => unfold new_triangle
  | |- wp new_edge_listed _ _ => unfold new_edge_listed
  | |- wp (attach_halfedge_to_edge _ _ _) _ _ => unfold attach_halfedge_to_edge
  | |- wp (create_vertex _) _ _ => unfold create_vertex
  | |- wp incr_vertex_id _ _ => unfold incr_vertex_id
  | |- wp incr_face_id _ _ => unfold incr_face_id
  | |- wp (if bool_decide ?P then _ else _) _ _ =>
      first [ rewrite (bool_decide_eq_false_2 P) by (st_simpl; first [assumption | lia])
            | rewrite (bool_decide_eq_true_2 P) by (st_simpl; first [assumption | lia]) ]
  | |- wp (set_slot _ _ _) _ _ => unfold set_slot
  end.

Ltac use_duals :=
  repeat match goal with
         | H : (if ptr_eqb _ _ then _ else _) = _ |- _ => rewrite H
         end.

Ltac wp_go :=
  repeat first
    [ wp_step
    | progress cbv beta iota zeta
    | progress fld_simpl
    | progress st_simpl
    | progress use_duals
    | progress eqb_simpl ].

(** Pairwise distinctness out of [NoDup]. *)
Ltac nodup_facts H :=
  repeat (apply NoDup_cons in H as [?%not_elem_of_cons H]);
  repeat match goal with
         | H' : _ ≠ _ ∧ _ |- _ => destruct H' as [? H']
         | H' : _ ∉ [] |- _ => clear H'
         | H' : _ ∉ _ :: _ |- _ => apply not_elem_of_cons in H'
         end;
  clear H.

(** Two stores built by writes over the same base agree: by cases on the
    key, against every key written. *)
Ltac split_key k :=
  match goal with
  | |- context [<[?a:=_]> _ !! k] =>
      lazymatch goal with
      | _ : k ≠ a |- _ => fail
      | _ : a ≠ k |- _ => fail
      | _ => destruct (decide (k = a)) as [-> | ?]
      end
  end.
Ltac lk :=
  repeat first [ rewrite lookup_insert_eq
               | rewrite lookup_insert_ne by ne ].
Ltac by_keys k :=
  repeat first [progress lk | split_key k]; fld_simpl; try reflexivity.

Ltac nodup_solve :=
  repeat (apply NoDup_cons_2;
          [ repeat (apply not_elem_of_cons; split; [ne |]); apply not_elem_of_nil | ]);
  apply NoDup_nil_2.
Ltac forall_solve :=
  repeat (apply Forall_cons_2; [assumption |]); apply Forall_nil_2.
Section SplitFace.
Variables (hv0 : gmap positive CVertex) (he0 : gmap positive CEdge)
          (hf0 : gmap positive CFace) (hh0 : gmap positive CHalfEdge).
Variables (edges0 halfedges0 verts0 faces0 : list ptr).
Variables (mapv0 mapf0 : gmap Z ptr) (vid0 fid0 : Z) (out0 : list string).
Let m := mkMesh hv0 he0 hf0 hh0 edges0 halfedges0 verts0 faces0 mapv0 mapf0
                vid0 fid0 out0.

Variables f h0 h1 h2 hs0 hs1 hs2 v0 v1 v2 eg0 eg1 eg2 : positive.
Variables (i_f : Z) (fa0 fa1 fa2 fs0 fs1 fs2 : ptr).
Variables (ts0 ts1 ts2 ps0 ps1 ps2 ns0 ns1 ns2 : ptr).
Variables (s00 s01 s10 s11 s20 s21 : ptr) (len0 len1 len2 : Z).
Variables xv0 xv1 xv2 : CVertex.

Let x0 := mkHalfEdge (Some eg0) fa0 (Some v0) (Some h2) (Some h1).
Let x1 := mkHalfEdge (Some eg1) fa1 (Some v1) (Some h0) (Some h2).
Let x2 := mkHalfEdge (Some eg2) fa2 (Some v2) (Some h1) (Some h0).
Let xs0 := mkHalfEdge (Some eg0) fs0 ts0 ps0 ns0.
Let xs1 := mkHalfEdge (Some eg1) fs1 ts1 ps1 ns1.
Let xs2 := mkHalfEdge (Some eg2) fs2 ts2 ps2 ns2.
Let y0 := mkEdge s00 s01 len0.
Let y1 := mkEdge s10 s11 len1.
Let y2 := mkEdge s20 s21 len2.

Hypothesis Hf : hf0 !! f = Some (mkFace i_f (Some h0)).
Hypothesis H0 : hh0 !! h0 = Some x0.
Hypothesis H1 : hh0 !! h1 = Some x1.
Hypothesis H2 : hh0 !! h2 = Some x2.
Hypothesis Hy0 : he0 !! eg0 = Some y0.
Hypothesis Hy1 : he0 !! eg1 = Some y1.
Hypothesis Hy2 : he0 !! eg2 = Some y2.
Hypothesis Hd0 : (if ptr_eqb (Some h0) s00 then s01 else s00) = Some hs0.
Hypothesis Hd1 : (if ptr_eqb (Some h1) s10 then s11 else s10) = Some hs1.
Hypothesis Hd2 : (if ptr_eqb (Some h2) s20 then s21 else s20) = Some hs2.
Hypothesis Hs0 : hh0 !! hs0 = Some xs0.
Hypothesis Hs1 : hh0 !! hs1 = Some xs1.
Hypothesis Hs2 : hh0 !! hs2 = Some xs2.
Hypothesis Hxv0 : hv0 !! v0 = Some xv0.
Hypothesis Hxv1 : hv0 !! v1 = Some xv1.
Hypothesis Hxv2 : hv0 !! v2 = Some xv2.
Hypothesis Hdh : NoDup [h0; h1; h2; hs0; hs1; hs2].
Hypothesis Hde : NoDup [eg0; eg1; eg2].
Hypothesis Hdv : NoDup [v0; v1; v2].
Hypothesis Hvid : vid0 ≠ INT_MAX.
Hypothesis Hfid1 : fid0 ≠ INT_MAX.
Hypothesis Hfid2 : fid0 + 1 ≠ INT_MAX.

Lemma splitFace_run :
  wp (splitFace (Some f))
     (fun p m' =>
        ∃ pV n1 n2 n3 n4 n5 n6 f1 f2 e0 e1 e2,
          hv0 !! pV = None ∧
          (hf0 !! f1 = None ∧ hf0 !! f2 = None ∧ f1 ≠ f2) ∧
          (Forall (fun a => hh0 !! a = None) [n1; n2; n3; n4; n5; n6] ∧
           NoDup [n1; n2; n3; n4; n5; n6]) ∧
          (Forall (fun a => he0 !! a = None) [e0; e1; e2] ∧ NoDup [e0; e1; e2]) ∧
          p = Some pV ∧
          m' = splitFace_state m h0 h1 h2 hs0 hs1 hs2 v0 v1 v2 eg0 eg1 eg2
                 x0 x1 x2 xs0 xs1 xs2 y0 y1 y2 xv0 xv1 xv2
                 pV n1 n2 n3 n4 n5 n6 f1 f2 e0 e1 e2) m.
Proof.
  pose proof Hdh as Hdh'. pose proof Hde as Hde'. pose proof Hdv as Hdv'.
  nodup_facts Hdh'. nodup_facts Hde'. nodup_facts Hdv'.
  unfold splitFace.
  subst m x0 x1 x2 xs0 xs1 xs2 y0 y1 y2.
  wp_go.
  lazymatch goal with
  | _ : hv0 !! ?pV = None,
    _ : hf0 !! ?f1 = None, _ : hf0 !! ?f2 = None, _ : ?f1 ≠ ?f2,
    _ : hh0 !! ?n1 = None, _ : hh0 !! ?n2 = None, _ : hh0 !! ?n3 = None,
    _ : hh0 !! ?n4 = None, _ : hh0 !! ?n5 = None, _ : hh0 !! ?n6 = None,
    _ : ?n1 ≠ ?n2, _ : ?n2 ≠ ?n3, _ : ?n3 ≠ ?n4, _ : ?n4 ≠ ?n5, _ : ?n5 ≠ ?n6,
    _ : he0 !! ?e0 = None, _ : he0 !! ?e1 = None, _ : he0 !! ?e2 = None,
    _ : ?e0 ≠ ?e1, _ : ?e1 ≠ ?e2 |- _ =>
      exists pV, n1, n2, n3, n4, n5, n6, f1, f2, e0, e1, e2
  end.
  split; [assumption |]. split; [auto |].
  split; [split; [forall_solve | nodup_solve] |].
  split; [split; [forall_solve | nodup_solve] |].
  split; [reflexivity |].
  unfold splitFace_state, splitFace_hv, splitFace_he, splitFace_hf, splitFace_hh.
  st_simpl. f_equal.
  - apply map_eq. intros k. by_keys k.
  - apply map_eq. intros k. by_keys k.
  - apply map_eq. intros k. by_keys k.
  - apply map_eq. intros k. by_keys k.
  - rewrite <- !app_assoc. reflexivity.
  - rewrite <- !app_assoc. reflexivity.
Qed.
End SplitFace.

(** ** Consequences of well-formedness *)

Lemma halfedge_at_Some m a : halfedge_at m (Some a) = hh m !! a.
Proof. reflexivity. Qed.
Lemma edge_at_Some m a : edge_at m (Some a) = he m !! a.
Proof. reflexivity. Qed.
Lemma vertex_at_Some m a : vertex_at m (Some a) = hv m !! a.
Proof. reflexivity. Qed.

Lemma cycle_at_lookup m a :
  cycle_at m a ↔
  ∃ n n2 p x xn xn2 xp,
    hh m !! a = Some x ∧ hh m !! n = Some xn ∧ hh m !! n2 = Some xn2 ∧
    hh m !! p = Some xp ∧
    h_next x = Some n ∧ h_prev xn = Some a ∧ h_prev x = Some p ∧
    h_next xp = Some a ∧ h_next xn = Some n2 ∧ h_next xn2 = Some a ∧
    n ≠ a ∧ n2 ≠ a.
Proof.
  unfold cycle_at. setoid_rewrite val_next. setoid_rewrite val_prev.
  setoid_rewrite halfedge_at_Some. split.
  - intros (n & n2 & p & H1 & H2 & H3 & H4 & H5 & H6 & Hn & Hn2).
    destruct (hh m !! a) as [x |] eqn:Ea; [| discriminate].
    destruct (hh m !! n) as [xn |] eqn:En; [| discriminate].
    destruct (hh m !! p) as [xp |] eqn:Ep; [| discriminate].
    destruct (hh m !! n2) as [xn2 |] eqn:En2; [| discriminate].
    cbn in *. exists n, n2, p, x, xn, xn2, xp.
    repeat split; try congruence.
  - intros (n & n2 & p & x & xn & xn2 & xp & Ha & Hn & Hn2 & Hp & F1 & F2 & F3 & F4
            & F5 & F6 & N1 & N2).
    exists n, n2, p. rewrite Ha, Hn, Hn2, Hp. cbn. repeat split; congruence.
Qed.

(** The three half-edges of the face of a live half-edge. *)
Lemma wf_triangle m a x :
  well_formed m → hh m !! a = Some x →
  ∃ n n2 xn xn2,
    hh m !! n = Some xn ∧ hh m !! n2 = Some xn2 ∧
    h_next x = Some n ∧ h_prev x = Some n2 ∧
    h_next xn = Some n2 ∧ h_prev xn = Some a ∧
    h_next xn2 = Some a ∧ h_prev xn2 = Some n ∧
    a ≠ n ∧ a ≠ n2 ∧ n ≠ n2.
Proof.
  intros Hwf Ha.
  destruct (proj1 (cycle_at_lookup m a) (wf_cycle m Hwf a (ex_intro _ _ Ha)))
    as (n & n2 & p & x' & xn & xn2 & xp & Ha' & Hn & Hn2 & Hp & F1 & F2 & F3 & F4
        & F5 & F6 & N1 & N2).
  assert (x' = x) as -> by congruence.
  destruct (proj1 (cycle_at_lookup m n2) (wf_cycle m Hwf n2 (ex_intro _ _ Hn2)))
    as (k & k2 & q & y & yk & yk2 & yq & Hy & Hk & Hk2 & Hq & G1 & G2 & G3 & G4
        & G5 & G6 & M1 & M2).
  assert (y = xn2) as -> by congruence.
  assert (k = a) as -> by congruence.
  assert (yk = x) as -> by congruence.
  assert (p = n2) as -> by congruence.
  destruct (proj1 (cycle_at_lookup m n) (wf_cycle m Hwf n (ex_intro _ _ Hn)))
    as (j & j2 & r & z & zj & zj2 & zr & Hz & Hj & Hj2 & Hr & K1 & K2 & K3 & K4
        & K5 & K6 & L1 & L2).
  assert (z = xn) as -> by congruence.
  assert (j = n2) as -> by congruence.
  assert (zj = xn2) as -> by congruence.
  exists n, n2, xn, xn2. repeat split; try congruence.
Qed.

(** The edge of a live half-edge, the half-edge across it when the edge is
    interior, and what invariant 2 says of the pair. *)
Lemma wf_edge_slots m a x :
  well_formed m → hh m !! a = Some x →
  ∃ e y, h_edge x = Some e ∧ he m !! e = Some y ∧
         ((e_halfedge0 y = Some a ∧ e_halfedge1 y ≠ Some a) ∨
          (e_halfedge1 y = Some a ∧ e_halfedge0 y ≠ Some a ∧ e_halfedge0 y ≠ None)).
Proof.
  intros Hwf Ha.
  destruct (wf_edge_of m Hwf a x Ha) as (e & y & He & Hy & Hs).
  exists e, y. split; [done |]. split; [done |].
  destruct Hs as [H0 | H1].
  - left. split; [done |]. intros H1.
    destruct (wf_slots_ne m Hwf e y Hy) as [_ Hne]; [congruence | congruence].
  - right. destruct (wf_slots_ne m Hwf e y Hy) as [Hnn Hne]; [congruence |].
    repeat split; congruence.
Qed.

Lemma wf_dual_slots m a x d :
  well_formed m → hh m !! a = Some x →
  val (dual (Some a) m) = Some (Some d) →
  ∃ e y xd,
    h_edge x = Some e ∧ he m !! e = Some y ∧
    hh m !! d = Some xd ∧ h_edge xd = Some e ∧ d ≠ a ∧
    (if ptr_eqb (Some a) (e_halfedge0 y) then e_halfedge1 y else e_halfedge0 y) = Some d ∧
    ((e_halfedge0 y = Some a ∧ e_halfedge1 y = Some d) ∨
     (e_halfedge0 y = Some d ∧ e_halfedge1 y = Some a)).
Proof.
  intros Hwf Ha Hd.
  destruct (wf_edge_slots m a x Hwf Ha) as (e & y & He & Hy & Hs).
  rewrite val_dual, halfedge_at_Some, Ha in Hd. cbn in Hd.
  rewrite He, edge_at_Some, Hy in Hd. cbn in Hd. injection Hd as Hd.
  assert ((e_halfedge0 y = Some a ∧ e_halfedge1 y = Some d) ∨
          (e_halfedge0 y = Some d ∧ e_halfedge1 y = Some a)) as Hcase.
  { destruct Hs as [[H0 H1] | (H1 & H0 & Hn)].
    - left. rewrite H0, ptr_eqb_refl in Hd. done.
    - right. rewrite (proj2 (ptr_eqb_false _ _)) in Hd by congruence. done. }
  assert (d ≠ a) as Hne.
  { intros ->. destruct Hcase as [[H0 H1] | [H0 H1]];
      destruct (wf_slots_ne m Hwf e y Hy) as [_ Hne]; congruence. }
  destruct (wf_slot m Hwf e y d Hy) as (xd & Hxd & Hed); [tauto |].
  exists e, y, xd. repeat split; try done.
Qed.

(** Source and target, as lookups. *)
Lemma wf_pair m e y a d :
  well_formed m → he m !! e = Some y →
  e_halfedge0 y = Some a → e_halfedge1 y = Some d →
  ∃ xa xd pa pd xpa xpd,
    hh m !! a = Some xa ∧ hh m !! d = Some xd ∧
    h_prev xa = Some pa ∧ h_prev xd = Some pd ∧
    hh m !! pa = Some xpa ∧ hh m !! pd = Some xpd ∧
    h_vertex xa = h_vertex xpd ∧ h_vertex xd = h_vertex xpa.
Proof.
  intros Hwf Hy H0 H1.
  destruct (wf_dual m Hwf e (ex_intro _ _ Hy) y a d Hy H0 H1)
    as (_ & _ & (v & Hv1 & Hv2) & (w & Hw1 & Hw2)).
  rewrite val_target, halfedge_at_Some in Hv1, Hw1.
  rewrite val_source, halfedge_at_Some in Hv2, Hw2.
  destruct (hh m !! a) as [xa |] eqn:Ea; [| discriminate].
  destruct (hh m !! d) as [xd |] eqn:Ed; [| discriminate].
  cbn in *.
  destruct (h_prev xa) as [pa |] eqn:Epa; [| discriminate].
  destruct (h_prev xd) as [pd |] eqn:Epd; [| discriminate].
  rewrite halfedge_at_Some in Hv2, Hw2.
  destruct (hh m !! pa) as [xpa |] eqn:Expa; [| discriminate].
  destruct (hh m !! pd) as [xpd |] eqn:Expd; [| discriminate].
  cbn in *. exists xa, xd, pa, pd, xpa, xpd. repeat split; congruence.
Qed.
(** ** [splitFace] on a well-formed mesh *)

Lemma splitFace_runs m f h0 h1 h2 hs0 hs1 hs2 v0 v1 v2 eg0 eg1 eg2
      x0 x1 x2 xs0 xs1 xs2 y0 y1 y2 xv0 xv1 xv2 :
  splitFace_pre m f h0 h1 h2 hs0 hs1 hs2 v0 v1 v2 eg0 eg1 eg2
                x0 x1 x2 xs0 xs1 xs2 y0 y1 y2 xv0 xv1 xv2 →
  m_vertex_id m ≠ INT_MAX → m_face_id m ≠ INT_MAX → m_face_id m + 1 ≠ INT_MAX →
  ∃ pV n1 n2 n3 n4 n5 n6 f1 f2 e0 e1 e2,
    splitFace_fresh m pV n1 n2 n3 n4 n5 n6 f1 f2 e0 e1 e2 ∧
    splitFace (Some f) m =
      Ok (Some pV)
         (splitFace_state m h0 h1 h2 hs0 hs1 hs2 v0 v1 v2 eg0 eg1 eg2
            x0 x1 x2 xs0 xs1 xs2 y0 y1 y2 xv0 xv1 xv2
            pV n1 n2 n3 n4 n5 n6 f1 f2 e0 e1 e2).
Proof.
  intros (Hf & (H0 & H1 & H2) & (E0 & V0 & P0 & N0) & (E1 & V1 & P1 & N1)
          & (E2 & V2 & P2 & N2) & (Y0 & Y1 & Y2) & (D0 & D1 & D2)
          & (S0 & S1 & S2) & (SE0 & SE1 & SE2) & (XV0 & XV1 & XV2)
          & Hdh & Hde & Hdv) Hvid Hfid1 Hfid2.
  destruct m as [hv0 he0 hf0 hh0 ed0 hl0 vl0 fl0 mv0 mf0 vid0 fid0 out0].
  cbn [hv he hf hh m_vertex_id m_face_id] in *.
  destruct (hf0 !! f) as [[i_f fh] |] eqn:Ef; [| discriminate].
  cbn in Hf. injection Hf as ->.
  destruct x0 as [c01 fa0 c02 c03 c04], x1 as [c11 fa1 c12 c13 c14],
           x2 as [c21 fa2 c22 c23 c24].
  destruct xs0 as [c31 fs0 ts0 ps0 ns0], xs1 as [c41 fs1 ts1 ps1 ns1],
           xs2 as [c51 fs2 ts2 ps2 ns2].
  destruct y0 as [s00 s01 len0], y1 as [s10 s11 len1], y2 as [s20 s21 len2].
  cbn [h_edge h_vertex h_prev h_next e_halfedge0 e_halfedge1] in *. subst.
  destruct (splitFace_run hv0 he0 hf0 hh0 ed0 hl0 vl0 fl0 mv0 mf0 vid0 fid0 out0
              f h0 h1 h2 hs0 hs1 hs2 v0 v1 v2 eg0 eg1 eg2 i_f
              fa0 fa1 fa2 fs0 fs1 fs2 ts0 ts1 ts2 ps0 ps1 ps2 ns0 ns1 ns2
              s00 s01 s10 s11 s20 s21 len0 len1 len2 xv0 xv1 xv2)
    as (p & m' & Hrun & pV & n1 & n2 & n3 & n4 & n5 & n6 & f1 & f2 & e0 & e1 & e2
        & F1 & F2 & F3 & F4 & -> & ->); try assumption.
  exists pV, n1, n2, n3, n4, n5, n6, f1, f2, e0, e1, e2.
  split; [repeat split; assumption || apply F2 || apply F3 || apply F4 |].
  exact Hrun.
Qed.
(** Two consecutive half-edges of a face lie on different edges. *)
Lemma wf_next_edge_ne m a x n xn :
  well_formed m → hh m !! a = Some x → h_next x = Some n → hh m !! n = Some xn →
  h_edge x ≠ h_edge xn.
Proof.
  intros Hwf Ha Hn Hxn Heq.
  destruct (wf_triangle m a x Hwf Ha)
    as (n' & n2 & xn' & xn2 & Hn' & Hn2 & F1 & F2 & F3 & F4 & F5 & F6 & N1 & N2 & N3).
  assert (n' = n) as -> by congruence. assert (xn' = xn) as -> by congruence.
  destruct (wf_edge_slots m a x Hwf Ha) as (e & y & He & Hy & Hs).
  destruct (wf_edge_slots m n xn Hwf Hxn) as (e' & y' & He' & Hy' & Hs').
  assert (e' = e) as -> by congruence. assert (y' = y) as -> by congruence.
  pose proof (wf_no_loop m Hwf n2 xn2 n xn Hn2 F6 Hxn) as Hloop.
  assert (e_halfedge0 y = Some a ∧ e_halfedge1 y = Some n ∨
          e_halfedge0 y = Some n ∧ e_halfedge1 y = Some a) as [[S0 S1] | [S0 S1]].
  { destruct Hs as [[? ?] | (? & ? & ?)], Hs' as [[? ?] | (? & ? & ?)];
      try (left; split; congruence); try (right; split; congruence); congruence. }
  - destruct (wf_pair m e y a n Hwf Hy S0 S1)
      as (xa & xd & pa & pd & xpa & xpd & A1 & A2 & A3 & A4 & A5 & A6 & A7 & A8).
    assert (xa = x) as -> by congruence. assert (xd = xn) as -> by congruence.
    assert (pa = n2) as -> by congruence. congruence.
  - destruct (wf_pair m e y n a Hwf Hy S0 S1)
      as (xa & xd & pa & pd & xpa & xpd & A1 & A2 & A3 & A4 & A5 & A6 & A7 & A8).
    assert (xa = xn) as -> by congruence. assert (xd = x) as -> by congruence.
    assert (pd = n2) as -> by congruence. congruence.
Qed.

Lemma splitFace_pre_of_wf m f h0 h1 h2 :
  well_formed m →
  f_halfedge <$> hf m !! f = Some (Some h0) →
  val (next (Some h0) m) = Some (Some h1) →
  val (next (Some h1) m) = Some (Some h2) →
  (∀ h, h ∈ [h0; h1; h2] → ∃ d, val (dual (Some h) m) = Some (Some d)) →
  ∃ hs0 hs1 hs2 v0 v1 v2 eg0 eg1 eg2 x0 x1 x2 xs0 xs1 xs2 y0 y1 y2 xv0 xv1 xv2,
    splitFace_pre m f h0 h1 h2 hs0 hs1 hs2 v0 v1 v2 eg0 eg1 eg2
                  x0 x1 x2 xs0 xs1 xs2 y0 y1 y2 xv0 xv1 xv2.
Proof.
  intros Hwf Hf Hn0 Hn1 Hint.
  rewrite val_next, halfedge_at_Some in Hn0, Hn1.
  destruct (hh m !! h0) as [x0 |] eqn:H0; [| discriminate].
  destruct (hh m !! h1) as [x1 |] eqn:H1; [| discriminate].
  cbn in Hn0, Hn1. injection Hn0 as Hn0. injection Hn1 as Hn1.
  destruct (wf_triangle m h0 x0 Hwf H0)
    as (n & n2 & xn & x2 & Hn & H2 & F1 & F2 & F3 & F4 & F5 & F6 & N1 & N2 & N3).
  assert (n = h1) as -> by congruence. assert (xn = x1) as -> by congruence.
  assert (n2 = h2) as -> by congruence. clear Hn F1 F3.
  destruct (Hint h0) as [hs0 D0]; [set_solver |].
  destruct (Hint h1) as [hs1 D1]; [set_solver |].
  destruct (Hint h2) as [hs2 D2]; [set_solver |].
  destruct (wf_dual_slots m h0 x0 hs0 Hwf H0 D0)
    as (eg0 & y0 & xs0 & E0 & Y0 & S0 & SE0 & NE0 & I0 & _).
  destruct (wf_dual_slots m h1 x1 hs1 Hwf H1 D1)
    as (eg1 & y1 & xs1 & E1 & Y1 & S1 & SE1 & NE1 & I1 & _).
  destruct (wf_dual_slots m h2 x2 hs2 Hwf H2 D2)
    as (eg2 & y2 & xs2 & E2 & Y2 & S2 & SE2 & NE2 & I2 & _).
  destruct (wf_target m Hwf h0 x0 H0) as (v0 & V0 & [xv0 XV0]).
  destruct (wf_target m Hwf h1 x1 H1) as (v1 & V1 & [xv1 XV1]).
  destruct (wf_target m Hwf h2 x2 H2) as (v2 & V2 & [xv2 XV2]).
  pose proof (wf_next_edge_ne m h0 x0 h1 x1 Hwf H0 Hn0 H1) as NE01.
  pose proof (wf_next_edge_ne m h1 x1 h2 x2 Hwf H1 Hn1 H2) as NE12.
  pose proof (wf_next_edge_ne m h2 x2 h0 x0 Hwf H2 F5 H0) as NE20.
  pose proof (wf_no_loop m Hwf h0 x0 h2 x2 H0 F2 H2) as L0.
  pose proof (wf_no_loop m Hwf h1 x1 h0 x0 H1 F4 H0) as L1.
  pose proof (wf_no_loop m Hwf h2 x2 h1 x1 H2 F6 H1) as L2.
  exists hs0, hs1, hs2, v0, v1, v2, eg0, eg1, eg2, x0, x1, x2, xs0, xs1, xs2,
         y0, y1, y2, xv0, xv1, xv2.
  unfold splitFace_pre. repeat split; try assumption.
  - repeat (apply NoDup_cons_2;
            [ repeat (apply not_elem_of_cons; split; [congruence |]);
              apply not_elem_of_nil | ]).
    apply NoDup_nil_2.
  - repeat (apply NoDup_cons_2;
            [ repeat (apply not_elem_of_cons; split; [congruence |]);
              apply not_elem_of_nil | ]).
    apply NoDup_nil_2.
  - repeat (apply NoDup_cons_2;
            [ repeat (apply not_elem_of_cons; split; [congruence |]);
              apply not_elem_of_nil | ]).
    apply NoDup_nil_2.
Qed.

(** ** Edges as vertex pairs *)

Lemma endpoints_lookup m e :
  endpoints m e =
    y ← edge_at m e; x ← halfedge_at m (e_halfedge0 y);
    xp ← halfedge_at m (h_prev x); Some (h_vertex xp, h_vertex x).
Proof.
  unfold endpoints, vertex1, vertex2, assert_.
  rewrite !val_bind by ro. rewrite val_rdE.
  destruct (edge_at m e) as [y |]; [| done]. cbn.
  rewrite !val_bind by ro. cbn. rewrite val_source, val_target.
  destruct (halfedge_at m (e_halfedge0 y)) as [x |]; [| done]. cbn.
  by destruct (halfedge_at m (h_prev x)).
Qed.

Lemma endpoints_intro m e y a x p xp :
  he m !! e = Some y → e_halfedge0 y = Some a → hh m !! a = Some x →
  h_prev x = Some p → hh m !! p = Some xp →
  endpoints m (Some e) = Some (h_vertex xp, h_vertex x).
Proof.
  intros Hy Ha Hx Hp Hxp. rewrite endpoints_lookup, edge_at_Some, Hy. cbn.
  rewrite Ha, halfedge_at_Some, Hx. cbn. by rewrite Hp, halfedge_at_Some, Hxp.
Qed.

Lemma endpoints_empty_slot m e y :
  he m !! e = Some y → e_halfedge0 y = None → endpoints m (Some e) = None.
Proof.
  intros Hy Ha. rewrite endpoints_lookup, edge_at_Some, Hy. cbn. by rewrite Ha.
Qed.

Lemma endpoints_inv m e s t :
  endpoints m e = Some (s, t) →
  ∃ e' y a x p xp,
    e = Some e' ∧ he m !! e' = Some y ∧ e_halfedge0 y = Some a ∧
    hh m !! a = Some x ∧ h_prev x = Some p ∧ hh m !! p = Some xp ∧
    s = h_vertex xp ∧ t = h_vertex x.
Proof.
  rewrite endpoints_lookup. destruct e as [e' |]; [| done].
  rewrite edge_at_Some. destruct (he m !! e') as [y |] eqn:Hy; [| done]. cbn.
  destruct (e_halfedge0 y) as [a |] eqn:Ha; [| done]. rewrite halfedge_at_Some.
  destruct (hh m !! a) as [x |] eqn:Hx; [| done]. cbn.
  destruct (h_prev x) as [p |] eqn:Hp; [| done]. rewrite halfedge_at_Some.
  destruct (hh m !! p) as [xp |] eqn:Hxp; [| done]. cbn.
  intros [= <- <-]. by exists e', y, a, x, p, xp.
Qed.

(** The two ends of an edge of a well-formed mesh are live vertices. *)
Lemma wf_endpoints_live m e s t :
  well_formed m → endpoints m e = Some (s, t) →
  ∃ a b, s = Some a ∧ t = Some b ∧ is_Some (hv m !! a) ∧ is_Some (hv m !! b).
Proof.
  intros Hwf (e' & y & a & x & p & xp & -> & Hy & Ha & Hx & Hp & Hxp & -> & ->)
         %endpoints_inv.
  destruct (wf_target m Hwf a x Hx) as (b & Hb & Lb).
  destruct (wf_target m Hwf p xp Hxp) as (c & Hc & Lc).
  by exists c, b.
Qed.

(** An interior edge read from either of its half-edges. *)
Lemma wf_endpoints_pair m a x e p xp d :
  well_formed m → hh m !! a = Some x → h_edge x = Some e →
  h_prev x = Some p → hh m !! p = Some xp →
  val (dual (Some a) m) = Some (Some d) →
  endpoints m (Some e) = Some (h_vertex xp, h_vertex x) ∨
  endpoints m (Some e) = Some (h_vertex x, h_vertex xp).
Proof.
  intros Hwf Hx He Hp Hxp Hd.
  destruct (wf_dual_slots m a x d Hwf Hx Hd)
    as (e' & y & xd & He' & Hy & Hxd & Hed & Hne & _ & [[S0 S1] | [S0 S1]]).
  - left. assert (e' = e) as -> by congruence.
    exact (endpoints_intro m e y a x p xp Hy S0 Hx Hp Hxp).
  - right. assert (e' = e) as -> by congruence.
    destruct (wf_pair m e y d a Hwf Hy S0 S1)
      as (xa & xd' & pa & pd & xpa & xpd & A1 & A2 & A3 & A4 & A5 & A6 & A7 & A8).
    assert (xd' = x) as -> by congruence. assert (xa = xd) as -> by congruence.
    assert (pd = p) as -> by congruence. assert (xpd = xp) as -> by congruence.
    rewrite (endpoints_intro m e y d xd pa xpa Hy S0 Hxd A3 A5). congruence.
Qed.

Lemma incident_pair m v e s t :
  endpoints m e = Some (s, t) → incident m v e ↔ s = v ∨ t = v.
Proof. intros H. unfold incident. by rewrite H. Qed.

Lemma incident_none m v e : endpoints m e = None → ¬ incident m v e.
Proof. intros H Hi. unfold incident in Hi. by rewrite H in Hi. Qed.
(** ** The state [splitFace] leaves, edge by edge *)

Ltac forall_facts H :=
  repeat (apply Forall_cons in H as [? H]); clear H.

Lemma filter_iff_in {A} (P1 P2 : A → Prop)
    `{!∀ x, Decision (P1 x)} `{!∀ x, Decision (P2 x)} (l : list A) :
  (∀ x, x ∈ l → P1 x ↔ P2 x) → filter P1 l = filter P2 l.
Proof.
  induction l as [| a l IH]; intros Hl; [done |].
  rewrite !filter_cons.
  rewrite IH by (intros x Hx; apply Hl; by right).
  pose proof (Hl a (list_elem_of_here a l)) as Ha.
  destruct (decide (P1 a)) as [H1 | H1], (decide (P2 a)) as [H2 | H2];
    try done; tauto.
Qed.

Lemma filter_nil_in {A} (P : A → Prop) `{!∀ x, Decision (P x)} (l : list A) :
  (∀ x, x ∈ l → ¬ P x) → filter P l = [].
Proof.
  induction l as [| a l IH]; intros Hl; [done |].
  rewrite filter_cons. rewrite IH by (intros x Hx; apply Hl; by right).
  destruct (decide (P a)) as [H1 | H1]; [| done].
  destruct (Hl a (list_elem_of_here a l) H1).
Qed.

Section SplitFaceFacts.
Variable m : Mesh.
Variables f h0 h1 h2 hs0 hs1 hs2 v0 v1 v2 eg0 eg1 eg2 : positive.
Variables x0 x1 x2 xs0 xs1 xs2 : CHalfEdge.
Variables y0 y1 y2 : CEdge.
Variables xv0 xv1 xv2 : CVertex.
Variables pV n1 n2 n3 n4 n5 n6 f1 f2 e0 e1 e2 : positive.
Hypothesis Hwf : well_formed m.
Hypothesis Hpre :
  splitFace_pre m f h0 h1 h2 hs0 hs1 hs2 v0 v1 v2 eg0 eg1 eg2
                x0 x1 x2 xs0 xs1 xs2 y0 y1 y2 xv0 xv1 xv2.
Hypothesis Hfresh : splitFace_fresh m pV n1 n2 n3 n4 n5 n6 f1 f2 e0 e1 e2.

Local Abbreviation m' :=
  (splitFace_state m h0 h1 h2 hs0 hs1 hs2 v0 v1 v2 eg0 eg1 eg2
     x0 x1 x2 xs0 xs1 xs2 y0 y1 y2 xv0 xv1 xv2
     pV n1 n2 n3 n4 n5 n6 f1 f2 e0 e1 e2).

Ltac sf_open :=
  let Hp := fresh "Hp" in let Hq := fresh "Hq" in
  pose proof Hpre as Hp; pose proof Hfresh as Hq;
  destruct Hp as (Hf & (H0 & H1 & H2) & (E0 & V0 & P0 & N0) & (E1 & V1 & P1 & N1)
        & (E2 & V2 & P2 & N2) & (Y0 & Y1 & Y2) & (D0 & D1 & D2)
        & (S0 & S1 & S2) & (SE0 & SE1 & SE2) & (XV0 & XV1 & XV2)
        & Hdh & Hde & Hdv);
  destruct Hq as (FV & (FF1 & FF2 & FFne) & (FH & FHd) & (FE & FEd));
  nodup_facts Hdh; nodup_facts Hde; nodup_facts Hdv;
  nodup_facts FHd; nodup_facts FEd;
  forall_facts FH; forall_facts FE;
  repeat match goal with
         | Hn : ?s !! ?a = None, Hb : ?s !! ?b = Some _ |- _ =>
             lazymatch goal with
             | _ : a ≠ b |- _ => fail
             | _ : b ≠ a |- _ => fail
             | _ => pose proof (lookup_None_Some_ne s a b _ Hn Hb)
             end
         end.

Ltac sf_lookup :=
  unfold splitFace_state, splitFace_hh, splitFace_he, splitFace_hv, splitFace_hf;
  st_simpl; lkg.

(** Half-edges outside the face and its three neighbours keep their
    records. *)
Lemma splitFace_hh_other a x :
  hh m !! a = Some x → a ∉ [h0; h1; h2; hs0; hs1; hs2] → hh m' !! a = Some x.
Proof.
  intros Ha Hn. sf_open.
  repeat (apply not_elem_of_cons in Hn as [? Hn]). sf_lookup.
Qed.

(** Only [h1] changes its target, and no old half-edge changes its
    [prev] or [next]. *)
Lemma splitFace_hh_vertex a x :
  hh m !! a = Some x → a ≠ h1 →
  ∃ x', hh m' !! a = Some x' ∧ h_vertex x' = h_vertex x ∧
        h_prev x' = h_prev x ∧ h_next x' = h_next x.
Proof.
  intros Ha Hn. sf_open.
  destruct (decide (a = h0)) as [-> | ?];
    [assert (x = x0) as -> by congruence; eexists; split; [sf_lookup | done] |].
  destruct (decide (a = h2)) as [-> | ?];
    [assert (x = x2) as -> by congruence; eexists; split; [sf_lookup |];
     fld_simpl; by rewrite V2 |].
  destruct (decide (a = hs0)) as [-> | ?];
    [assert (x = xs0) as -> by congruence; eexists; split; [sf_lookup | done] |].
  destruct (decide (a = hs1)) as [-> | ?];
    [assert (x = xs1) as -> by congruence; eexists; split; [sf_lookup | done] |].
  destruct (decide (a = hs2)) as [-> | ?];
    [assert (x = xs2) as -> by congruence; eexists; split; [sf_lookup | done] |].
  exists x. split; [sf_lookup | done].
Qed.

Lemma splitFace_he_other e y :
  he m !! e = Some y → e ∉ [eg0; eg1; eg2] → he m' !! e = Some y.
Proof.
  intros Ha Hn. sf_open.
  repeat (apply not_elem_of_cons in Hn as [? Hn]). sf_lookup.
Qed.

(** Edges other than the three of the face run between the same
    vertices as before. *)
Lemma splitFace_endpoints_other e y :
  he m !! e = Some y → e ∉ [eg0; eg1; eg2] →
  endpoints m' (Some e) = endpoints m (Some e).
Proof.
  intros Hy Hn. pose proof (splitFace_he_other e y Hy Hn) as Hy'.
  destruct (e_halfedge0 y) as [a |] eqn:Ha;
    [| by rewrite (endpoints_empty_slot m e y), (endpoints_empty_slot m' e y)].
  destruct (wf_slot m Hwf e y a Hy (or_introl Ha)) as (x & Hx & He).
  destruct (wf_triangle m a x Hwf Hx)
    as (n & p & xn & xp & Hxn & Hxp & F1 & F2 & F3 & F4 & F5 & F6 & M1 & M2 & M3).
  sf_open. repeat (apply not_elem_of_cons in Hn as [? Hn]).
  assert (a ∉ [h0; h1; h2; hs0; hs1; hs2]) as Hna.
  { repeat (apply not_elem_of_cons; split; [congruence |]). apply not_elem_of_nil. }
  pose proof (splitFace_hh_other a x Hx Hna) as Hx'.
  assert (p ≠ h1) as Hp by (intros ->; congruence).
  destruct (splitFace_hh_vertex p xp Hxp Hp) as (xp' & Hxp' & Hv & _).
  rewrite (endpoints_intro m e y a x p xp Hy Ha Hx F2 Hxp).
  rewrite (endpoints_intro m' e y a x p xp' Hy' Ha Hx' F2 Hxp').
  by rewrite Hv.
Qed.

Lemma splitFace_dual0 : val (dual (Some h0) m) = Some (Some hs0).
Proof.
  sf_open. rewrite val_dual, halfedge_at_Some, H0. cbn.
  rewrite E0, edge_at_Some, Y0. cbn. by rewrite D0.
Qed.
Lemma splitFace_dual1 : val (dual (Some h1) m) = Some (Some hs1).
Proof.
  sf_open. rewrite val_dual, halfedge_at_Some, H1. cbn.
  rewrite E1, edge_at_Some, Y1. cbn. by rewrite D1.
Qed.
Lemma splitFace_dual2 : val (dual (Some h2) m) = Some (Some hs2).
Proof.
  sf_open. rewrite val_dual, halfedge_at_Some, H2. cbn.
  rewrite E2, edge_at_Some, Y2. cbn. by rewrite D2.
Qed.

(** The three edges of the face keep their ends. *)
Lemma splitFace_endpoints_eg0 :
  endpoints m' (Some eg0) = Some (Some v2, Some v0) ∧
  (endpoints m (Some eg0) = Some (Some v2, Some v0) ∨
   endpoints m (Some eg0) = Some (Some v0, Some v2)).
Proof.
  pose proof splitFace_dual0 as Hd. sf_open. split.
  - erewrite (endpoints_intro m' eg0 _ h0 _ h2); [| sf_lookup | reflexivity
      | sf_lookup | fld_simpl; exact P0 | sf_lookup ].
    fld_simpl. by rewrite ?V0, ?V1, ?V2.
  - rewrite <- V0, <- V2.
    exact (wf_endpoints_pair m h0 x0 eg0 h2 x2 hs0 Hwf H0 E0 P0 H2 Hd).
Qed.
Lemma splitFace_endpoints_eg1 :
  endpoints m' (Some eg1) = Some (Some v0, Some v1) ∧
  (endpoints m (Some eg1) = Some (Some v0, Some v1) ∨
   endpoints m (Some eg1) = Some (Some v1, Some v0)).
Proof.
  pose proof splitFace_dual1 as Hd. sf_open. split.
  - erewrite (endpoints_intro m' eg1 _ n2 _ n1); [| sf_lookup | reflexivity
      | sf_lookup | reflexivity | sf_lookup ].
    reflexivity.
  - rewrite <- V0, <- V1.
    exact (wf_endpoints_pair m h1 x1 eg1 h0 x0 hs1 Hwf H1 E1 P1 H0 Hd).
Qed.
Lemma splitFace_endpoints_eg2 :
  endpoints m' (Some eg2) = Some (Some v1, Some v2) ∧
  (endpoints m (Some eg2) = Some (Some v1, Some v2) ∨
   endpoints m (Some eg2) = Some (Some v2, Some v1)).
Proof.
  pose proof splitFace_dual2 as Hd. sf_open. split.
  - erewrite (endpoints_intro m' eg2 _ n6 _ n5); [| sf_lookup | reflexivity
      | sf_lookup | reflexivity | sf_lookup ].
    reflexivity.
  - rewrite <- V1, <- V2.
    exact (wf_endpoints_pair m h2 x2 eg2 h1 x1 hs2 Hwf H2 E2 P2 H1 Hd).
Qed.

(** The three new edges join the new vertex to the corners. *)
Lemma splitFace_endpoints_e0 : endpoints m' (Some e0) = Some (Some v0, Some pV).
Proof.
  sf_open.
  erewrite (endpoints_intro m' e0 _ h1 _ h0); [| sf_lookup | reflexivity
    | sf_lookup | fld_simpl; exact P1 | sf_lookup ].
  fld_simpl. by rewrite ?V0, ?V1, ?V2.
Qed.
Lemma splitFace_endpoints_e1 : endpoints m' (Some e1) = Some (Some v1, Some pV).
Proof.
  sf_open.
  erewrite (endpoints_intro m' e1 _ n3 _ n2); [| sf_lookup | reflexivity
    | sf_lookup | reflexivity | sf_lookup ].
  reflexivity.
Qed.
Lemma splitFace_endpoints_e2 : endpoints m' (Some e2) = Some (Some pV, Some v2).
Proof.
  sf_open.
  erewrite (endpoints_intro m' e2 _ h2 _ h1); [| sf_lookup | reflexivity
    | sf_lookup | fld_simpl; exact P2 | sf_lookup ].
  reflexivity.
Qed.

Lemma splitFace_incident_old v e :
  e ∈ m_edges m → incident m' v e ↔ incident m v e.
Proof.
  intros He. destruct (wf_listed m Hwf e He) as [y Hy].
  destruct e as [e |]; [| done]. rewrite edge_at_Some in Hy.
  destruct (decide (e = eg0)) as [-> | ?].
  { destruct splitFace_endpoints_eg0 as [Hn [Ho | Ho]];
      rewrite (incident_pair _ _ _ _ _ Hn), (incident_pair _ _ _ _ _ Ho); tauto. }
  destruct (decide (e = eg1)) as [-> | ?].
  { destruct splitFace_endpoints_eg1 as [Hn [Ho | Ho]];
      rewrite (incident_pair _ _ _ _ _ Hn), (incident_pair _ _ _ _ _ Ho); tauto. }
  destruct (decide (e = eg2)) as [-> | ?].
  { destruct splitFace_endpoints_eg2 as [Hn [Ho | Ho]];
      rewrite (incident_pair _ _ _ _ _ Hn), (incident_pair _ _ _ _ _ Ho); tauto. }
  unfold incident. rewrite (splitFace_endpoints_other e y Hy); [done |].
  repeat (apply not_elem_of_cons; split; [done |]). apply not_elem_of_nil.
Qed.

(** The degree of a vertex grows by the new edges that reach it. *)
Lemma splitFace_degree v :
  degree m' v =
    (degree m v + length (filter (incident m' v) [Some e0; Some e1; Some e2]))%nat.
Proof.
  unfold degree.
  change (m_edges m') with (m_edges m ++ [Some e0; Some e1; Some e2]).
  rewrite filter_app, length_app. f_equal. f_equal.
  apply filter_iff_in. intros e He. by apply splitFace_incident_old.
Qed.

(** No old edge reaches the new vertex. *)
Lemma splitFace_degree_fresh : degree m (Some pV) = 0%nat.
Proof.
  unfold degree. apply length_zero_iff_nil, filter_nil_in. intros e _ Hi.
  unfold incident in Hi.
  destruct (endpoints m e) as [[s t] |] eqn:He; [| done].
  destruct (wf_endpoints_live m e s t Hwf He) as (a & b & -> & -> & [xa La] & [xb Lb]).
  destruct Hfresh as (FV & _).
  destruct Hi as [[= ->] | [= ->]]; congruence.
Qed.

Lemma splitFace_degrees :
  degree m' (Some v0) = S (degree m (Some v0)) ∧
  degree m' (Some v1) = S (degree m (Some v1)) ∧
  degree m' (Some v2) = S (degree m (Some v2)) ∧
  degree m' (Some pV) = 3%nat.
Proof.
  pose proof splitFace_endpoints_e0 as A0.
  pose proof splitFace_endpoints_e1 as A1.
  pose proof splitFace_endpoints_e2 as A2.
  rewrite !splitFace_degree, splitFace_degree_fresh.
  sf_open.
  assert (∀ a : positive, Some a = Some pV ↔ a = pV) as Inj
    by (intros a; split; congruence).
  repeat split.
  all: rewrite !filter_cons, filter_nil.
  all: repeat match goal with
         | |- context [decide (incident ?m ?v ?e)] =>
             let Hi := fresh "Hi" in
             destruct (decide (incident m v e)) as [Hi | Hi];
             first [ rewrite (incident_pair _ _ _ _ _ A0) in Hi
                   | rewrite (incident_pair _ _ _ _ _ A1) in Hi
                   | rewrite (incident_pair _ _ _ _ _ A2) in Hi ]
         end.
  all: cbn [length];
    first [ reflexivity | apply Nat.add_1_r
          | exfalso;
            repeat match goal with
                   | H : _ ∨ _ |- _ => destruct H as [H | H]
                   | H : Some _ = Some _ |- _ => injection H as H
                   | H : ¬ (_ ∨ _) |- _ => apply Decidable.not_or in H as [? ?]
                   end; congruence ].
Qed.
End SplitFaceFacts.
(** ** Well-formedness of concrete meshes *)

Lemma store_all_records {A} (P : positive → A → Prop) (s : gmap positive A) :
  Forall (uncurry P) (map_to_list s) → ∀ a x, s !! a = Some x → P a x.
Proof. intros H. by apply map_Forall_to_list. Qed.

Ltac by_records :=
  refine (store_all_records _ _ _); vm_compute map_to_list;
  repeat first [apply Forall_nil_2 | apply Forall_cons_2; [cbv [uncurry fst snd] |]].

Ltac wf_by_compute m :=
  split;
  [ by_store (hh m) (cycle_at m);
      (unfold cycle_at; eexists _, _, _; repeat split;
       [vm_compute; reflexivity .. | | ]; done)
  | by_store (he m) (dual_at m);
      (intros x h0 h1 Hx; vm_compute in Hx; injection Hx as <-; cbn;
       first [ discriminate
             | intros [= <-] [= <-]; repeat split;
               try (eexists; split); vm_compute; reflexivity ])
  | by_records;
      (eexists _, _; split; [reflexivity |]; split;
       [vm_compute; reflexivity | first [by left | by right]])
  | intros e y a Hy; revert a; revert e y Hy; by_records;
      (intros a [[= <-] | [= <-]]; eexists; split; vm_compute; reflexivity)
  | by_records; (cbn; intros Hn; first [done | split; discriminate])
  | by_records; (eexists; split; [reflexivity | vm_compute; eexists; reflexivity])
  | intros a x p xp Hx; revert p xp; revert a x Hx; by_records;
      (intros p xp [= <-] Hp; vm_compute in Hp; injection Hp as <-; discriminate)
  | intros e He; vm_compute in He;
      repeat (apply elem_of_cons in He as [-> | He]; [vm_compute; by eexists |]);
      by apply elem_of_nil in He ].

Lemma tetrahedron_well_formed : well_formed tetrahedron.
Proof. wf_by_compute tetrahedron. Qed.

Lemma quad_mesh_well_formed : well_formed quad_mesh.
Proof. wf_by_compute quad_mesh. Qed.
(** ** C8: [splitFace] *)

(** On a triangle with a boundary edge the call does not return: the dual
    of the boundary half-edge is NULL and [__attach_halfedge_to_edge]
    writes through it.  Face 1 of the two-triangle square is such a
    triangle of a well-formed mesh. *)
Lemma splitFace_boundary_triangle_faults :
  well_formed quad_mesh ∧
  f_halfedge <$> hf quad_mesh !! 1%positive = Some (Some 3%positive) ∧
  cycle_at quad_mesh 3 ∧
  splitFace (Some 1%positive) quad_mesh = Fault ∧
  ¬ (∃ p m', splitFace (Some 1%positive) quad_mesh = Ok p m' ∧
             num_faces m' = (num_faces quad_mesh + 2)%nat).
Proof.
  assert (splitFace (Some 1%positive) quad_mesh = Fault) as HF
    by (vm_compute; reflexivity).
  split; [exact quad_mesh_well_formed |].
  split; [vm_compute; reflexivity |].
  split; [apply (wf_cycle _ quad_mesh_well_formed); vm_compute; by eexists |].
  split; [exact HF |].
  intros (p & m' & Hr & _). rewrite HF in Hr. discriminate.
Qed.

(** C8, as amended.  Let [f] be a triangle of a well-formed mesh with
    half-edges [h0 h1 h2] (in [next] order) that end at [v0 v1 v2], every
    one of them with a dual (no edge of [f] is a boundary edge), and let
    the id counters leave room for one vertex and two faces.  Then
    [splitFace f] returns a new vertex [p]; [num_faces] grows by exactly 2,
    [num_vertices] by exactly 1 and [num_edges] by exactly 3; the degree of
    each of [v0 v1 v2] grows by exactly 1; [p], which no edge reached
    before, has degree 3, and for each corner the edge list holds an edge
    that joins [p] to it. *)
Theorem splitFace_interior_triangle m f h0 h1 h2 v0 v1 v2 :
  well_formed m →
  f_halfedge <$> hf m !! f = Some (Some h0) →
  val (next (Some h0) m) = Some (Some h1) →
  val (next (Some h1) m) = Some (Some h2) →
  val (target (Some h0) m) = Some (Some v0) →
  val (target (Some h1) m) = Some (Some v1) →
  val (target (Some h2) m) = Some (Some v2) →
  (∀ h, h ∈ [h0; h1; h2] → ∃ d, val (dual (Some h) m) = Some (Some d)) →
  m_vertex_id m < INT_MAX → m_face_id m + 1 < INT_MAX →
  ∃ p m',
    splitFace (Some f) m = Ok (Some p) m' ∧
    num_faces m' = (num_faces m + 2)%nat ∧
    num_vertices m' = (num_vertices m + 1)%nat ∧
    num_edges m' = (num_edges m + 3)%nat ∧
    Forall (fun v => degree m' (Some v) = S (degree m (Some v))) [v0; v1; v2] ∧
    degree m (Some p) = 0%nat ∧ degree m' (Some p) = 3%nat ∧
    Forall (fun v => ∃ e, e ∈ m_edges m' ∧ connects m' e (Some p) (Some v))
           [v0; v1; v2].
Proof.
  intros Hwf Hf Hn0 Hn1 Ht0 Ht1 Ht2 Hint Hvid Hfid.
  destruct (splitFace_pre_of_wf m f h0 h1 h2 Hwf Hf Hn0 Hn1 Hint)
    as (hs0 & hs1 & hs2 & w0 & w1 & w2 & eg0 & eg1 & eg2 & x0 & x1 & x2
        & xs0 & xs1 & xs2 & y0 & y1 & y2 & xv0 & xv1 & xv2 & Hpre).
  assert (w0 = v0 ∧ w1 = v1 ∧ w2 = v2) as (-> & -> & ->).
  { destruct Hpre as (_ & (H0 & H1 & H2) & (_ & V0 & _) & (_ & V1 & _)
                      & (_ & V2 & _) & _).
    rewrite val_target, halfedge_at_Some in Ht0, Ht1, Ht2.
    rewrite H0 in Ht0. rewrite H1 in Ht1. rewrite H2 in Ht2.
    cbn in Ht0, Ht1, Ht2. repeat split; congruence. }
  destruct (splitFace_runs m f h0 h1 h2 hs0 hs1 hs2 v0 v1 v2 eg0 eg1 eg2
              x0 x1 x2 xs0 xs1 xs2 y0 y1 y2 xv0 xv1 xv2 Hpre)
    as (pV & n1 & n2 & n3 & n4 & n5 & n6 & f1 & f2 & e0 & e1 & e2 & Hfresh & Hrun);
    [unfold INT_MAX in *; lia .. |].
  eexists pV, _. split; [exact Hrun |].
  pose proof (splitFace_degrees m f h0 h1 h2 hs0 hs1 hs2 v0 v1 v2 eg0 eg1 eg2
                x0 x1 x2 xs0 xs1 xs2 y0 y1 y2 xv0 xv1 xv2
                pV n1 n2 n3 n4 n5 n6 f1 f2 e0 e1 e2 Hwf Hpre Hfresh)
    as (G0 & G1 & G2 & G3).
  pose proof (splitFace_endpoints_e0 m f h0 h1 h2 hs0 hs1 hs2 v0 v1 v2 eg0 eg1 eg2
                x0 x1 x2 xs0 xs1 xs2 y0 y1 y2 xv0 xv1 xv2
                pV n1 n2 n3 n4 n5 n6 f1 f2 e0 e1 e2 Hpre Hfresh) as A0.
  pose proof (splitFace_endpoints_e1 m f h0 h1 h2 hs0 hs1 hs2 v0 v1 v2 eg0 eg1 eg2
                x0 x1 x2 xs0 xs1 xs2 y0 y1 y2 xv0 xv1 xv2
                pV n1 n2 n3 n4 n5 n6 f1 f2 e0 e1 e2 Hpre Hfresh) as A1.
  pose proof (splitFace_endpoints_e2 m f h0 h1 h2 hs0 hs1 hs2 v0 v1 v2 eg0 eg1 eg2
                x0 x1 x2 xs0 xs1 xs2 y0 y1 y2 xv0 xv1 xv2
                pV n1 n2 n3 n4 n5 n6 f1 f2 e0 e1 e2 Hpre Hfresh) as A2.
  unfold num_faces, num_vertices, num_edges.
  split; [cbn [m_faces splitFace_state]; by rewrite length_app |].
  split; [cbn [m_verts splitFace_state]; by rewrite length_app |].
  split; [cbn [m_edges splitFace_state]; by rewrite length_app |].
  split; [repeat (apply Forall_cons_2; [assumption |]); apply Forall_nil_2 |].
  split.
  { exact (splitFace_degree_fresh m pV n1 n2 n3 n4 n5 n6 f1 f2 e0 e1 e2 Hwf Hfresh). }
  split; [exact G3 |].
  repeat apply Forall_cons_2; [| | | apply Forall_nil_2].
  - exists (Some e0). split; [| by right].
    cbn [m_edges splitFace_state]. apply elem_of_app. right. set_solver.
  - exists (Some e1). split; [| by right].
    cbn [m_edges splitFace_state]. apply elem_of_app. right. set_solver.
  - exists (Some e2). split; [| by left].
    cbn [m_edges splitFace_state]. apply elem_of_app. right. set_solver.
Qed.

Lemma splitFace_interior_triangle_witness :
  ∃ p m',
    splitFace (Some 1%positive) tetrahedron = Ok (Some p) m' ∧
    num_faces m' = (num_faces tetrahedron + 2)%nat ∧
    num_vertices m' = (num_vertices tetrahedron + 1)%nat ∧
    num_edges m' = (num_edges tetrahedron + 3)%nat ∧
    Forall (fun v => degree m' (Some v) = S (degree tetrahedron (Some v)))
           [3; 1; 2]%positive ∧
    degree tetrahedron (Some p) = 0%nat ∧ degree m' (Some p) = 3%nat ∧
    Forall (fun v => ∃ e, e ∈ m_edges m' ∧ connects m' e (Some p) (Some v))
           [3; 1; 2]%positive.
Proof.
  apply (splitFace_interior_triangle tetrahedron 1 3 1 2 3 1 2).
  - exact tetrahedron_well_formed.
  - vm_compute; reflexivity.
  - vm_compute; reflexivity.
  - vm_compute; reflexivity.
  - vm_compute; reflexivity.
  - vm_compute; reflexivity.
  - vm_compute; reflexivity.
  - intros h Hh.
    repeat (apply elem_of_cons in Hh as [-> | Hh];
            [eexists; vm_compute; reflexivity |]).
    by apply elem_of_nil in Hh.
  - vm_compute; reflexivity.
  - vm_compute; reflexivity.
Defined.

(** ** Rules for runs that may stop at an assertion *)

Lemma wpa_bind {A B} (c : M A) (k : A → M B) Q R m :
  wpa c (fun a m' => wpa (k a) Q R m') R m → wpa (x ← c; k x) Q R m.
Proof.
  unfold wpa, mbind, M_bind, bind. destruct (c m) as [a m1 | m1 | |]; done.
Qed.

Lemma wpa_ret {A} (a : A) (Q : A → Mesh → Prop) R m : Q a m → wpa (mret a) Q R m.
Proof. done. Qed.

Lemma wpa_mono {A} (c : M A) (Q Q' : A → Mesh → Prop) (R R' : Mesh → Prop) m :
  wpa c Q R m → (∀ a m', Q a m' → Q' a m') → (∀ m', R m' → R' m') → wpa c Q' R' m.
Proof. unfold wpa. destruct (c m); auto. Qed.

Lemma wp_wpa {A} (c : M A) (Q : A → Mesh → Prop) R m : wp c Q m → wpa c Q R m.
Proof. intros (a & m' & H & HQ). unfold wpa. by rewrite H. Qed.

Lemma wpa_Ok {A} (c : M A) (Q : A → Mesh → Prop) m :
  wpa c Q (fun _ => False) m → ∃ a m', c m = Ok a m' ∧ Q a m'.
Proof. unfold wpa. destruct (c m) as [a m' | | |]; try done. eauto. Qed.

Lemma wpa_Abort {A} (c : M A) (R : Mesh → Prop) m :
  wpa c (fun _ _ => False) R m → ∃ m', c m = Abort m' ∧ R m'.
Proof. unfold wpa. destruct (c m) as [| m' | |]; try done. eauto. Qed.

(** A loop with an invariant over the part of the list still to run. *)
Lemma wpa_for_each {X} (I : list X → Mesh → Prop) (R : Mesh → Prop)
    (body : X → M unit) (l : list X) m :
  I l m →
  (∀ x l' m1, I (x :: l') m1 → wpa (body x) (fun _ m2 => I l' m2) R m1) →
  wpa (for_each l body) (fun _ m' => I [] m') R m.
Proof.
  intros HI Hstep. revert m HI. induction l as [| x l IH]; intros m HI.
  - exact HI.
  - cbn [for_each]. apply wpa_bind.
    eapply wpa_mono; [apply Hstep, HI | | done].
    intros [] m1 H1. by apply IH.
Qed.

Lemma wp_for_each {X} (I : list X → Mesh → Prop)
    (body : X → M unit) (l : list X) m :
  I l m →
  (∀ x l' m1, I (x :: l') m1 → wp (body x) (fun _ m2 => I l' m2) m1) →
  wp (for_each l body) (fun _ m' => I [] m') m.
Proof.
  intros HI Hstep. revert m HI. induction l as [| x l IH]; intros m HI.
  - by apply wp_ret.
  - cbn [for_each]. apply wp_bind.
    eapply wp_mono; [apply Hstep, HI |].
    intros [] m1 H1. by apply IH.
Qed.

Lemma wp_idx (l : list ptr) i p (Q : ptr → Mesh → Prop) m :
  l !! i = Some p → Q p m → wp (idx l i) Q m.
Proof. intros H HQ. unfold idx. rewrite H. by apply wp_ret. Qed.
(** ** What the scan of a candidate list depends on *)

Lemma scannable_lookup m e :
  scannable m e ↔
  ∃ a y h x p xp, e = Some a ∧ he m !! a = Some y ∧ e_halfedge0 y = Some h ∧
                  hh m !! h = Some x ∧ h_prev x = Some p ∧ hh m !! p = Some xp.
Proof.
  unfold scannable. setoid_rewrite val_halfedge0. setoid_rewrite val_source.
  setoid_rewrite val_target. split.
  - intros (h & s & t & H0 & Hs & Ht).
    destruct e as [a |]; [| done]. rewrite edge_at_Some in H0.
    destruct (he m !! a) as [y |] eqn:Hy; [| done]. cbn in H0. injection H0 as H0.
    rewrite halfedge_at_Some in Hs.
    destruct (hh m !! h) as [x |] eqn:Hx; [| done]. cbn in Hs.
    destruct (h_prev x) as [p |] eqn:Hp; [| done]. rewrite halfedge_at_Some in Hs.
    destruct (hh m !! p) as [xp |] eqn:Hxp; [| done].
    by exists a, y, h, x, p, xp.
  - intros (a & y & h & x & p & xp & -> & Hy & H0 & Hx & Hp & Hxp).
    exists h, (h_vertex xp), (h_vertex x).
    rewrite edge_at_Some, Hy, halfedge_at_Some, Hx. cbn.
    rewrite H0, Hp, halfedge_at_Some, Hxp. done.
Qed.

Lemma joins_lookup m e v1 v2 :
  joins m e v1 v2 ↔
  ∃ a y h x p xp, e = Some a ∧ he m !! a = Some y ∧ e_halfedge0 y = Some h ∧
                  hh m !! h = Some x ∧ h_prev x = Some p ∧ hh m !! p = Some xp ∧
                  ((h_vertex xp = v1 ∧ h_vertex x = v2) ∨
                   (h_vertex xp = v2 ∧ h_vertex x = v1)).
Proof.
  unfold joins. setoid_rewrite val_halfedge0. setoid_rewrite val_source.
  setoid_rewrite val_target. split.
  - intros (h & s & t & H0 & Hs & Ht & Hj).
    destruct e as [a |]; [| done]. rewrite edge_at_Some in H0.
    destruct (he m !! a) as [y |] eqn:Hy; [| done]. cbn in H0. injection H0 as H0.
    rewrite halfedge_at_Some in Hs, Ht.
    destruct (hh m !! h) as [x |] eqn:Hx; [| done]. cbn in Hs, Ht.
    destruct (h_prev x) as [p |] eqn:Hp; [| done]. rewrite halfedge_at_Some in Hs.
    destruct (hh m !! p) as [xp |] eqn:Hxp; [| done]. cbn in Hs.
    injection Hs as <-. injection Ht as <-.
    by exists a, y, h, x, p, xp.
  - intros (a & y & h & x & p & xp & -> & Hy & H0 & Hx & Hp & Hxp & Hj).
    exists h, (h_vertex xp), (h_vertex x).
    rewrite edge_at_Some, Hy, halfedge_at_Some, Hx. cbn.
    rewrite H0, Hp, halfedge_at_Some, Hxp. done.
Qed.

Lemma source_lookup m h :
  is_Some (val (source h m)) ↔
  ∃ a x p xp, h = Some a ∧ hh m !! a = Some x ∧ h_prev x = Some p ∧
              hh m !! p = Some xp.
Proof.
  rewrite val_source. split.
  - intros [s Hs]. destruct h as [a |]; [| done]. rewrite halfedge_at_Some in Hs.
    destruct (hh m !! a) as [x |] eqn:Hx; [| done]. cbn in Hs.
    destruct (h_prev x) as [p |] eqn:Hp; [| done]. rewrite halfedge_at_Some in Hs.
    destruct (hh m !! p) as [xp |] eqn:Hxp; [| done].
    by exists a, x, p, xp.
  - intros (a & x & p & xp & -> & Hx & Hp & Hxp).
    rewrite halfedge_at_Some, Hx. cbn. rewrite Hp, halfedge_at_Some, Hxp. by eexists.
Qed.

(** ** [grows] *)

Lemma grows_refl m : grows m m.
Proof.
  split; [done | | | done].
  - intros a x H. exists x. split; [done |]. split; [done |]. exists [].
    by rewrite app_nil_r.
  - intros a y H. by exists y.
Qed.

Lemma grows_step m0 m m' :
  grows m0 m →
  (∀ a x, hh m0 !! a = Some x → hh m !! a = Some x → hh m' !! a = Some x) →
  (∀ a x, hv m !! a = Some x →
     ∃ x', hv m' !! a = Some x' ∧ v_id x' = v_id x ∧
           ∃ l, v_ledges x' = v_ledges x ++ l) →
  (∀ a y, he m !! a = Some y →
     ∃ y', he m' !! a = Some y' ∧
           (e_halfedge0 y ≠ None → e_halfedge0 y' = e_halfedge0 y) ∧
           (e_halfedge1 y ≠ None → e_halfedge1 y' ≠ None)) →
  (∀ s, s ∈ out m → s ∈ out m') →
  grows m0 m'.
Proof.
  intros [G1 G2 G3 G4] S1 S2 S3 S4. split.
  - intros a x H. apply S1; auto.
  - intros a x H. destruct (G2 a x H) as (x1 & H1 & I1 & l1 & L1).
    destruct (S2 a x1 H1) as (x2 & H2 & I2 & l2 & L2).
    exists x2. split; [done |]. split; [congruence |]. exists (l1 ++ l2).
    by rewrite L2, L1, app_assoc.
  - intros a y H. destruct (G3 a y H) as (y1 & H1 & A1 & B1).
    destruct (S3 a y1 H1) as (y2 & H2 & A2 & B2).
    exists y2. split; [done |]. split.
    + intros Hn. rewrite <- (A1 Hn). apply A2. by rewrite (A1 Hn).
    + intros Hn. apply B2. by apply B1.
  - auto.
Qed.

Lemma grows_scannable m0 m e : grows m0 m → scannable m0 e → scannable m e.
Proof.
  intros G. rewrite !scannable_lookup.
  intros (a & y & h & x & p & xp & -> & Hy & H0 & Hx & Hp & Hxp).
  destruct (gr_he _ _ G a y Hy) as (y' & Hy' & A & _).
  exists a, y', h, x, p, xp. split; [done |]. split; [done |].
  split; [rewrite A; [done | congruence] |].
  split; [by apply (gr_hh _ _ G) |]. split; [done |]. by apply (gr_hh _ _ G).
Qed.

Lemma grows_joins m0 m e v1 v2 :
  grows m0 m → scannable m0 e → joins m e v1 v2 ↔ joins m0 e v1 v2.
Proof.
  intros G. rewrite scannable_lookup, !joins_lookup.
  intros (a & y & h & x & p & xp & -> & Hy & H0 & Hx & Hp & Hxp).
  destruct (gr_he _ _ G a y Hy) as (y' & Hy' & A & _).
  assert (e_halfedge0 y' = Some h) as H0' by (rewrite A; [done | congruence]).
  pose proof (gr_hh _ _ G h x Hx) as Hx'.
  pose proof (gr_hh _ _ G p xp Hxp) as Hxp'.
  split.
  - intros (a1 & y1 & h1 & x1 & p1 & xp1 & [= <-] & Hy1 & H01 & Hx1 & Hp1 & Hxp1 & Hj).
    assert (y1 = y') as -> by congruence. assert (h1 = h) as -> by congruence.
    assert (x1 = x) as -> by congruence. assert (p1 = p) as -> by congruence.
    assert (xp1 = xp) as -> by congruence.
    by exists a, y, h, x, p, xp.
  - intros (a1 & y1 & h1 & x1 & p1 & xp1 & [= <-] & Hy1 & H01 & Hx1 & Hp1 & Hxp1 & Hj).
    assert (y1 = y) as -> by congruence. assert (h1 = h) as -> by congruence.
    assert (x1 = x) as -> by congruence. assert (p1 = p) as -> by congruence.
    assert (xp1 = xp) as -> by congruence.
    by exists a, y', h, x, p, xp.
Qed.

Lemma grows_vertex_at m0 m v :
  grows m0 m → is_Some (vertex_at m0 v) → is_Some (vertex_at m v).
Proof.
  intros G [x Hx]. destruct v as [a |]; [| done]. rewrite vertex_at_Some in Hx.
  destruct (gr_hv _ _ G a x Hx) as (x' & Hx' & _). by exists x'.
Qed.

(** ** [links] *)

Lemma links_refl hes m : links hes m m.
Proof.
  split; [| | done].
  - intros a y H. exists y. split; [done |]. split; [done |]. by left.
  - intros a x H. by exists x.
Qed.

Lemma links_trans hes m1 m2 m3 : links hes m1 m2 → links hes m2 m3 → links hes m1 m3.
Proof.
  intros [A1 B1 C1] [A2 B2 C2]. split.
  - intros a y H. destruct (A1 a y H) as (y1 & H1 & P1 & Q1).
    destruct (A2 a y1 H1) as (y2 & H2 & P2 & Q2).
    exists y2. split; [done |]. split.
    + intros Hn. rewrite <- (P1 Hn). apply P2. by rewrite (P1 Hn).
    + destruct Q2 as [Q2 | Q2]; [rewrite Q2; exact Q1 | by right].
  - intros a x H. destruct (B1 a x H) as (x1 & H1 & P1 & Q1).
    destruct (B2 a x1 H1) as (x2 & H2 & P2 & Q2).
    exists x2. split; [done |]. split; congruence.
  - auto.
Qed.

Lemma links_source hes m m' h :
  links hes m m' → is_Some (val (source h m)) → is_Some (val (source h m')).
Proof.
  intros L. rewrite !source_lookup. intros (a & x & p & xp & -> & Hx & Hp & Hxp).
  destruct (ln_hh _ _ _ L a x Hx) as (x' & Hx' & _ & P).
  destruct (ln_hh _ _ _ L p xp Hxp) as (xp' & Hxp' & _).
  exists a, x', p, xp'. split; [done |]. split; [done |]. split; [congruence | done].
Qed.

Lemma links_scannable hes m m' e : links hes m m' → scannable m e → scannable m' e.
Proof.
  intros L. rewrite !scannable_lookup.
  intros (a & y & h & x & p & xp & -> & Hy & H0 & Hx & Hp & Hxp).
  destruct (ln_he _ _ _ L a y Hy) as (y' & Hy' & A & _).
  destruct (ln_hh _ _ _ L h x Hx) as (x' & Hx' & _ & P).
  destruct (ln_hh _ _ _ L p xp Hxp) as (xp' & Hxp' & _).
  exists a, y', h, x', p, xp'. split; [done |]. split; [done |].
  split; [rewrite A; [done | congruence] |].
  split; [done |]. split; [congruence | done].
Qed.
(** ** [create_face] before its edge loop *)

Ltac st_red :=
  cbn [hv he hf hh m_edges m_halfedges m_verts m_faces m_map_vert m_map_face
       m_vertex_id m_face_id out
       with_new_edge with_slot0 printed
       set_hv set_he set_hf set_hh set_m_edges set_m_halfedges set_m_verts
       set_m_faces set_m_map_vert set_m_map_face].

Lemma keep_vertices (m : Mesh) :
  ∀ a x, hv m !! a = Some x →
    ∃ x', hv m !! a = Some x' ∧ v_id x' = v_id x ∧ ∃ l, v_ledges x' = v_ledges x ++ l.
Proof.
  intros a x H. exists x. split; [done |]. split; [done |]. exists [].
  by rewrite app_nil_r.
Qed.

Lemma keep_edges (m : Mesh) :
  ∀ a y, he m !! a = Some y →
    ∃ y', he m !! a = Some y' ∧
          (e_halfedge0 y ≠ None → e_halfedge0 y' = e_halfedge0 y) ∧
          (e_halfedge1 y ≠ None → e_halfedge1 y' ≠ None).
Proof. intros a y H. by exists y. Qed.

Section Building.
Variables (m0 : Mesh) (F : list ptr) (f : ptr).

Lemma building_hes_live hes m h :
  building m0 F f hes m → h ∈ hes → ∃ a x, h = Some a ∧ hh m !! a = Some x.
Proof.
  intros B Hh. pose proof (bd_hes _ _ _ _ _ B) as Hs.
  rewrite Forall_forall in Hs. destruct (Hs h Hh) as (a & -> & _ & [x Hx]).
  by exists a, x.
Qed.

(** [new CHalfEdge()]. *)
Lemma building_alloc hes m a x :
  building m0 F f hes m → hh m !! a = None →
  building m0 F f (hes ++ [Some a]) (set_hh (insert a x) m).
Proof.
  intros [G L E Fs Ff Hs] Ha.
  assert (hh m0 !! a = None) as Ha0.
  { destruct (hh m0 !! a) as [x0 |] eqn:E0; [| done].
    rewrite (gr_hh _ _ G a x0 E0) in Ha. done. }
  split; try done.
  - apply (grows_step m0 m); [done | | exact (keep_vertices m) | exact (keep_edges m) | done].
    intros b y Hb0 Hb. st_red. rewrite lookup_insert_ne; [done | congruence].
  - apply Forall_app. split.
    + eapply Forall_impl; [exact Hs |]. intros h (b & -> & Hb0 & Hb).
      exists b. split; [done |]. split; [done |]. st_red.
      by apply lookup_insert_is_Some'; right.
    + apply Forall_cons_2; [| apply Forall_nil_2]. exists a.
      split; [done |]. split; [done |]. st_red. rewrite lookup_insert_eq. by eexists.
Qed.

(** A write to one of the new half-edges. *)
Lemma building_wrH hes m a x :
  building m0 F f hes m → Some a ∈ hes →
  building m0 F f hes (set_hh (insert a x) m).
Proof.
  intros [G L E Fs Ff Hs] Ha.
  assert (hh m0 !! a = None) as Ha0.
  { rewrite Forall_forall in Hs. destruct (Hs _ Ha) as (b & [= <-] & Hb & _). done. }
  split; try done.
  - apply (grows_step m0 m); [done | | exact (keep_vertices m) | exact (keep_edges m) | done].
    intros b y Hb0 Hb. st_red. rewrite lookup_insert_ne; [done | congruence].
  - eapply Forall_impl; [exact Hs |]. intros h (b & -> & Hb0 & Hb).
    exists b. split; [done |]. split; [done |]. st_red.
    by apply lookup_insert_is_Some'; right.
Qed.

(** A write to a vertex that keeps its id and its candidate list. *)
Lemma building_wrV hes m b xb x' :
  building m0 F f hes m → hv m !! b = Some xb →
  v_id x' = v_id xb → v_ledges x' = v_ledges xb →
  building m0 F f hes (set_hv (insert b x') m).
Proof.
  intros [G L E Fs Ff Hs] Hb Hid Hl. split; try done.
  - apply (grows_step m0 m); [done | done | | exact (keep_edges m) | done].
    intros c xc Hc. st_red. destruct (decide (b = c)) as [-> | Hne].
    + rewrite lookup_insert_eq. exists x'. split; [done |].
      assert (xc = xb) as -> by congruence. split; [done |]. exists [].
      by rewrite app_nil_r.
    + rewrite lookup_insert_ne by done. by apply (keep_vertices m).
  - intros c xc. st_red. destruct (decide (b = c)) as [-> | Hne].
    + rewrite lookup_insert_eq. intros [= <-].
      destruct (L c xb Hb) as (x0 & H0 & L0). exists x0. split; [done | congruence].
    + rewrite lookup_insert_ne by done. apply L.
Qed.

(** A write to a face. *)
Lemma building_wrF hes m a x :
  building m0 F f hes m → building m0 F f hes (set_hf (insert a x) m).
Proof.
  intros [G L E Fs Ff Hs]. split; try done.
  - apply (grows_step m0 m); [done | done | exact (keep_vertices m) | exact (keep_edges m) | done].
  - destruct f as [b |]; [| by destruct Ff]. unfold face_at in *. cbn [mbind option_bind] in *. st_red.
    by apply lookup_insert_is_Some'; right.
Qed.

Lemma building_halfedges hes m g :
  building m0 F f hes m → building m0 F f hes (set_m_halfedges g m).
Proof.
  intros [G L E Fs Ff Hs]. split; try done.
  apply (grows_step m0 m); [done | done | exact (keep_vertices m) | exact (keep_edges m) | done].
Qed.

Lemma building_vertex_live hes m v :
  building m0 F f hes m → is_Some (vertex_at m0 v) →
  ∃ b xb, v = Some b ∧ hv m !! b = Some xb.
Proof.
  intros B Hv. destruct (grows_vertex_at m0 m v (bd_grows _ _ _ _ _ B) Hv) as [x Hx].
  destruct v as [b |]; [| done]. by exists b, x.
Qed.

(** The first loop: one new half-edge per vertex. *)
Lemma create_face_halfedges_spec vs :
  ∀ hes m,
    Forall (fun v => is_Some (vertex_at m0 v)) vs → building m0 F f hes m →
    wp (create_face_halfedges vs hes)
       (fun hes' m' => building m0 F f hes' m' ∧
                       length hes' = (length hes + length vs)%nat) m.
Proof.
  induction vs as [| v vs IH]; intros hes m Hvs B; cbn [create_face_halfedges].
  - apply wp_ret. split; [done |]. cbn. lia.
  - apply Forall_cons in Hvs as [Hv Hvs].
    apply wp_bind, wp_new_CHalfEdge. intros a Ha.
    pose proof (building_alloc hes m a (mkHalfEdge None None None None None) B Ha) as B1.
    apply wp_bind. eapply wp_wrH; [st_red; apply lookup_insert_eq |].
    assert (Some a ∈ hes ++ [Some a]) as Hin by (apply elem_of_app; right; by left).
    pose proof (building_wrH _ _ a
                  (with_h_vertex v (mkHalfEdge None None None None None)) B1 Hin) as B2.
    destruct (building_vertex_live _ _ v B2 Hv) as (b & xb & -> & Hb).
    apply wp_bind. eapply wp_wrV; [exact Hb |].
    pose proof (building_wrV _ _ b xb (with_v_halfedge (Some a) xb) B2 Hb
                  eq_refl eq_refl) as B3.
    apply wp_bind. eapply wp_rdV; [st_red; apply lookup_insert_eq |].
    apply wp_bind. eapply wp_wrV; [st_red; apply lookup_insert_eq |].
    apply wp_bind, wp_modify.
    eapply wp_mono; [apply IH; [exact Hvs |] |].
    + apply building_halfedges.
      eapply building_wrV; [exact B3 | st_red; apply lookup_insert_eq | done | done].
    + intros hes' m' [B' Hlen]. split; [done |]. rewrite Hlen, length_app. cbn. lia.
Qed.
End Building.
Section Linking.
Variables (m0 : Mesh) (F : list ptr) (f : ptr) (hes : list ptr).

Lemma hes_index i :
  (i < length hes)%nat → ∃ h, hes !! i = Some h ∧ h ∈ hes.
Proof.
  intros Hi. destruct (lookup_lt_is_Some_2 hes i Hi) as [h Hh].
  exists h. split; [done |]. by eapply list_elem_of_lookup_2.
Qed.

Lemma has_prev_in_insert_ne m a x h :
  has_prev_in hes m h → h ≠ Some a → has_prev_in hes (set_hh (insert a x) m) h.
Proof.
  intros (b & y & -> & Hb & Hp) Hne. exists b, y. split; [done |].
  split; [| done]. st_red. rewrite lookup_insert_ne; [done | congruence].
Qed.

Lemma has_prev_in_insert m a x h :
  has_prev_in hes m h → h_prev x ∈ hes → has_prev_in hes (set_hh (insert a x) m) h.
Proof.
  intros Hh Hx. destruct (decide (h = Some a)) as [-> | Hne].
  - exists a, x. split; [done |]. split; [| done]. st_red. apply lookup_insert_eq.
  - by apply has_prev_in_insert_ne.
Qed.

Lemma has_prev_in_wrF m a x h :
  has_prev_in hes m h → has_prev_in hes (set_hf (insert a x) m) h.
Proof. intros (b & y & -> & Hb & Hp). by exists b, y. Qed.

(** One round of the loop that sets [next] and [prev]. *)
Lemma link_next_prev_step m i :
  building m0 F f hes m → (i < length hes)%nat →
  wp (hi ← idx hes i;
      hn ← idx hes ((i + 1) mod length hes)%nat;
      wrH hi (with_h_next hn);;
      hp ← idx hes ((i + length hes - 1) mod length hes)%nat;
      wrH hi (with_h_prev hp))
     (fun _ m' => building m0 F f hes m' ∧
                  ∀ h, has_prev_in hes m h ∨ hes !! i = Some h →
                       has_prev_in hes m' h) m.
Proof.
  intros B Hi. assert (length hes ≠ 0)%nat as Hn by lia.
  destruct (hes_index i Hi) as (hi & Ei & Hin).
  destruct (hes_index ((i + 1) mod length hes)) as (hn & En & _);
    [by apply Nat.mod_upper_bound |].
  destruct (hes_index ((i + length hes - 1) mod length hes)) as (hp & Ep & Hpin);
    [by apply Nat.mod_upper_bound |].
  destruct (building_hes_live m0 F f hes m hi B Hin) as (a & x & -> & Hx).
  apply wp_bind. eapply wp_idx; [exact Ei |].
  apply wp_bind. eapply wp_idx; [exact En |].
  apply wp_bind. eapply wp_wrH; [exact Hx |].
  apply wp_bind. eapply wp_idx; [exact Ep |].
  eapply wp_wrH; [st_red; apply lookup_insert_eq |].
  split.
  - apply building_wrH; [| done]. by apply building_wrH.
  - intros h [Hh | Hh].
    + apply has_prev_in_insert; [| done].
      destruct (decide (h = Some a)) as [-> | Hne].
      * destruct Hh as (b & y & [= <-] & Hb & Hp).
        exists a, (with_h_next hn x). split; [done |]. split.
        -- st_red. apply lookup_insert_eq.
        -- assert (y = x) as -> by congruence. done.
      * by apply has_prev_in_insert_ne.
    + assert (h = Some a) as -> by congruence.
      exists a, (with_h_prev hp (with_h_next hn x)). split; [done |]. split.
      * st_red. apply lookup_insert_eq.
      * done.
Qed.

(** The loop that sets [next] and [prev]. *)
Lemma link_next_prev m :
  building m0 F f hes m →
  wp (for_each (seq 0 (length hes)) (fun i =>
        hi ← idx hes i;
        hn ← idx hes ((i + 1) mod length hes)%nat;
        wrH hi (with_h_next hn);;
        hp ← idx hes ((i + length hes - 1) mod length hes)%nat;
        wrH hi (with_h_prev hp)))
     (fun _ m' => building m0 F f hes m' ∧ Forall (has_prev_in hes m') hes) m.
Proof.
  intros B.
  eapply wp_mono.
  - apply (wp_for_each
             (fun l m' => building m0 F f hes m' ∧
                          Forall (fun j => j < length hes)%nat l ∧
                          ∀ j h, hes !! j = Some h → j ∉ l → has_prev_in hes m' h)).
    + split; [done |]. split.
      * apply Forall_forall. intros j Hj. apply elem_of_seq in Hj. lia.
      * intros j h Hj Hnot. exfalso. apply Hnot. apply elem_of_seq.
        apply lookup_lt_Some in Hj. lia.
    + intros i l m1 (B1 & Hl & Hdone). apply Forall_cons in Hl as [Hi Hl].
      eapply wp_mono; [apply link_next_prev_step; [exact B1 | exact Hi] |].
      intros [] m2 (B2 & Hkeep). split; [done |]. split; [done |].
      intros j h Hj Hnot. apply Hkeep.
      destruct (decide (j = i)) as [-> | Hne]; [by right | left].
      apply (Hdone j h Hj). intros [-> | Hin]%elem_of_cons; done.
  - intros [] m' (B' & _ & Hdone). split; [done |].
    apply Forall_forall. intros h Hh.
    apply list_elem_of_lookup_1 in Hh as [j Hj]. apply (Hdone j h Hj).
    apply not_elem_of_nil.
Qed.

(** The loop that sets [face]. *)
Lemma link_face m :
  building m0 F f hes m → Forall (has_prev_in hes m) hes →
  wp (for_each (seq 0 (length hes)) (fun i =>
        hi ← idx hes i;
        wrH hi (with_h_face f);;
        wrF f (with_f_halfedge hi)))
     (fun _ m' => building m0 F f hes m' ∧ Forall (has_prev_in hes m') hes) m.
Proof.
  intros B HP.
  eapply wp_mono.
  - apply (wp_for_each
             (fun l m' => building m0 F f hes m' ∧
                          Forall (fun j => j < length hes)%nat l ∧
                          Forall (has_prev_in hes m') hes)).
    + split; [done |]. split; [| done].
      apply Forall_forall. intros j Hj. apply elem_of_seq in Hj. lia.
    + intros i l m1 (B1 & Hl & HP1). apply Forall_cons in Hl as [Hi Hl].
      destruct (hes_index i Hi) as (hi & Ei & Hin).
      destruct (building_hes_live m0 F f hes m1 hi B1 Hin) as (a & x & -> & Hx).
      pose proof (bd_face _ _ _ _ _ B1) as [xf Hf].
      destruct f as [fa |]; [| done].
      apply wp_bind. eapply wp_idx; [exact Ei |].
      apply wp_bind. eapply wp_wrH; [exact Hx |].
      eapply wp_wrF; [st_red; exact Hf |].
      split; [apply building_wrF; by apply building_wrH |]. split; [done |].
      eapply Forall_impl; [exact HP1 |]. intros h Hh.
      apply has_prev_in_wrF.
      destruct (decide (h = Some a)) as [-> | Hne].
      * destruct Hh as (b & y & [= <-] & Hb & Hp).
        exists a, (with_h_face (Some fa) x). split; [done |]. split.
        -- st_red. apply lookup_insert_eq.
        -- assert (y = x) as -> by congruence. done.
      * by apply has_prev_in_insert_ne.
  - intros [] m' (B' & _ & HP'). done.
Qed.
End Linking.

(** The state after the face is allocated and registered. *)
Lemma building_init m0 a id g :
  hf m0 !! a = None →
  building m0 (m_faces m0 ++ [Some a]) (Some a) []
    (set_m_map_face g
       (set_m_faces (fun l => l ++ [Some a])
          (set_hf (insert a (with_f_id id (mkFace 0 None)))
             (set_hf (insert a (mkFace 0 None)) m0)))).
Proof.
  intros Ha. split.
  - apply (grows_step m0 m0); [apply grows_refl | done | exact (keep_vertices m0)
                              | exact (keep_edges m0) | done].
  - intros b x Hb. by exists x.
  - done.
  - done.
  - unfold face_at. cbn [mbind option_bind]. st_red. rewrite lookup_insert_eq. by eexists.
  - apply Forall_nil_2.
Qed.
(** ** The scan of a candidate list, in full *)

Lemma find_edge_total m v1 v2 l :
  Forall (scannable m) l →
  (find_edge v1 v2 l m = Ok None m ∧ Forall (fun e => ¬ joins m e v1 v2) l) ∨
  (∃ l1 e l2, l = l1 ++ e :: l2 ∧ find_edge v1 v2 l m = Ok e m ∧
              joins m e v1 v2 ∧ Forall (fun e' => ¬ joins m e' v1 v2) l1).
Proof.
  induction l as [| e l IH]; intros Hs.
  - left. split; [reflexivity | apply Forall_nil_2].
  - apply Forall_cons in Hs as [He Hs].
    pose proof He as (h & s & t & H0 & Hsrc & Htgt).
    assert (joins m e v1 v2 ∨ ¬ joins m e v1 v2) as [Hj | Hn].
    { destruct (decide ((s = v1 ∧ t = v2) ∨ (s = v2 ∧ t = v1))) as [Hd | Hd].
      - left. by exists h, s, t.
      - right. intros (h' & s' & t' & H0' & Hs' & Ht' & Hj). apply Hd.
        assert (h' = h) as -> by congruence.
        assert (s' = s) as -> by congruence.
        assert (t' = t) as -> by congruence. done. }
    + right. exists [], e, l. split; [done |]. split; [by apply find_edge_hit |].
      split; [done | apply Forall_nil_2].
    + rewrite (find_edge_skip m v1 v2 e l He Hn).
      destruct (IH Hs) as [[Hr Hall] | (l1 & e' & l2 & -> & Hr & Hj & Hall)].
      * left. split; [done |]. by apply Forall_cons_2.
      * right. exists (e :: l1), e', l2. split; [done |]. split; [done |].
        split; [done |]. by apply Forall_cons_2.
Qed.

(** What a successful scan says about the list. *)
Lemma find_edge_Some_inv m v1 v2 l e :
  val (find_edge v1 v2 l m) = Some (Some e) →
  ∃ l1 l2, l = l1 ++ Some e :: l2 ∧ Forall (scannable m) l1 ∧
           Forall (fun e' => ¬ joins m e' v1 v2) l1 ∧ joins m (Some e) v1 v2.
Proof.
  induction l as [| e' l IH]; intros Hv; [discriminate |].
  cbn [find_edge] in Hv. rewrite val_bind in Hv by ro.
  destruct (val (halfedge0 e' m)) as [h |] eqn:H0; [| discriminate]. cbn in Hv.
  rewrite val_bind in Hv by ro.
  destruct (val (source h m)) as [s |] eqn:Hs; [| discriminate]. cbn in Hv.
  rewrite val_bind in Hv by ro.
  destruct (val (target h m)) as [t |] eqn:Ht; [| discriminate]. cbn in Hv.
  assert (∃ a, h = Some a) as [a ->].
  { rewrite val_target in Ht. destruct h as [a |]; [by exists a | discriminate]. }
  assert (scannable m e') as Hsc by (by exists a, s, t).
  destruct (ptr_eqb s v1 && ptr_eqb t v2) eqn:E1.
  { apply andb_true_iff in E1 as [->%ptr_eqb_true ->%ptr_eqb_true].
    cbn in Hv. injection Hv as ->. exists [], l. split; [done |].
    split; [apply Forall_nil_2 |]. split; [apply Forall_nil_2 |].
    exists a, v1, v2. tauto. }
  destruct (ptr_eqb s v2 && ptr_eqb t v1) eqn:E2.
  { apply andb_true_iff in E2 as [->%ptr_eqb_true ->%ptr_eqb_true].
    cbn in Hv. injection Hv as ->. exists [], l. split; [done |].
    split; [apply Forall_nil_2 |]. split; [apply Forall_nil_2 |].
    exists a, v2, v1. tauto. }
  destruct (IH Hv) as (l1 & l2 & -> & Hs1 & Hn1 & Hj).
  exists (e' :: l1), l2. split; [done |].
  split; [by apply Forall_cons_2 |]. split; [| done].
  apply Forall_cons_2; [| done].
  intros (h' & s' & t' & H0' & Hs' & Ht' & Hj').
  assert (h' = a) as -> by congruence.
  assert (s' = s) as -> by congruence.
  assert (t' = t) as -> by congruence.
  apply andb_false_iff in E1, E2.
  destruct Hj' as [[-> ->] | [-> ->]].
  - destruct E1 as [E | E]; by rewrite ptr_eqb_refl in E.
  - destruct E2 as [E | E]; by rewrite ptr_eqb_refl in E.
Qed.

(** What [edge(v1, v2)] returning [e] says about the mesh. *)
Lemma edge_inv m v1 v2 e :
  val (edge v1 v2 m) = Some (Some e) →
  ∃ a1 a2 x1 x2 pV x l1 l2,
    v1 = Some a1 ∧ v2 = Some a2 ∧ hv m !! a1 = Some x1 ∧ hv m !! a2 = Some x2 ∧
    pV = (if v_id x1 <? v_id x2 then a1 else a2) ∧ hv m !! pV = Some x ∧
    v_ledges x = l1 ++ Some e :: l2 ∧ Forall (scannable m) l1 ∧
    Forall (fun e' => ¬ joins m e' v1 v2) l1 ∧ joins m (Some e) v1 v2.
Proof.
  intros Hv. unfold edge in Hv. rewrite val_bind in Hv by ro.
  destruct (val (smaller_id v1 v2 m)) as [r |] eqn:Hsm; [| discriminate].
  cbn in Hv. rewrite val_bind in Hv by ro. rewrite val_rdV in Hv.
  apply smaller_id_inv in Hsm as (a1 & a2 & x1 & x2 & -> & -> & H1 & H2 & ->).
  destruct (vertex_at m _) as [x |] eqn:Hx; [| discriminate]. cbn in Hv.
  destruct (find_edge_Some_inv m _ _ _ _ Hv) as (l1 & l2 & Hl & Hs & Hn & Hj).
  exists a1, a2, x1, x2, (if v_id x1 <? v_id x2 then a1 else a2), x, l1, l2.
  repeat split; try done.
  destruct (v_id x1 <? v_id x2); exact Hx.
Qed.
(** ** One round of the edge loop of [create_face] *)

Lemma grows_round m0 hes m m' :
  Forall (fun h => ∃ a, h = Some a ∧ hh m0 !! a = None) hes →
  grows m0 m → links hes m m' →
  (∀ a x, hh m !! a = Some x → hh m' !! a = Some x ∨ Some a ∈ hes) →
  (∀ a x, hv m !! a = Some x →
     ∃ x', hv m' !! a = Some x' ∧ v_id x' = v_id x ∧
           ∃ l, v_ledges x' = v_ledges x ++ l) →
  grows m0 m'.
Proof.
  intros Hfresh G L Hh Hv.
  rewrite Forall_forall in Hfresh.
  apply (grows_step m0 m); [done | | done | | apply (ln_out _ _ _ L)].
  - intros a x H0 H. destruct (Hh a x H) as [H' | Hin]; [done |].
    destruct (Hfresh _ Hin) as (b & [= <-] & Hb). congruence.
  - intros a y H. destruct (ln_he _ _ _ L a y H) as (y' & H' & A & B).
    exists y'. split; [done |]. split; [done |]. intros Hn.
    destruct B as [B | B]; [by rewrite B |].
    destruct (Hfresh _ B) as (b & -> & _). done.
Qed.

Lemma linking_round vs hes m m' :
  linking vs hes m → links hes m m' →
  (∀ b x, hv m !! b = Some x → is_Some (hv m' !! b)) →
  (∀ b x', hv m' !! b = Some x' →
     ∃ x l, hv m !! b = Some x ∧ v_ledges x' = v_ledges x ++ l ∧
            Forall (scannable m') l) →
  linking vs hes m'.
Proof.
  intros [K1 K2 K3] L Hlive Hlists. split.
  - eapply Forall_impl; [exact K1 |]. intros v [x Hx].
    destruct v as [b |]; [| done]. apply (Hlive b x Hx).
  - eapply Forall_impl; [exact K2 |]. intros h. apply (links_source hes m m' h L).
  - intros b x' Hb. destruct (Hlists b x' Hb) as (x & l & Hx & -> & Hl).
    apply Forall_app. split; [| done].
    eapply Forall_impl; [exact (K3 b x Hx) |]. intros e.
    apply (links_scannable hes m m' e L).
Qed.

(** The slot-1 branch: [e->halfedge(1) = hes[i]; hes[i]->edge() = e]. *)
Lemma attach_slot1 hes m m1 a x ea y :
  hv m1 = hv m → he m1 = he m → hh m1 = hh m → (∀ s, s ∈ out m → s ∈ out m1) →
  hh m !! a = Some x → Some a ∈ hes → he m !! ea = Some y →
  let m' := set_hh (insert a (with_h_edge (Some ea) x))
              (set_he (insert ea (with_e_halfedge1 (Some a) y)) m1) in
  links hes m m' ∧
  (∀ b xb, hh m !! b = Some xb → hh m' !! b = Some xb ∨ Some b ∈ hes) ∧
  hv m' = hv m ∧ slot1_in hes m' ea.
Proof.
  intros Ev Ee Eh Eo Hx Hin Hy m'. subst m'. split; [| split; [| split]].
  - split.
    + intros b yb Hb. st_red. rewrite Ee. destruct (decide (ea = b)) as [-> | Hne].
      * rewrite lookup_insert_eq. eexists. split; [done |].
        assert (yb = y) as -> by congruence. split; [done |]. by right.
      * rewrite lookup_insert_ne by done. exists yb. split; [done |].
        split; [done |]. by left.
    + intros b xb Hb. st_red. rewrite Eh. destruct (decide (a = b)) as [-> | Hne].
      * rewrite lookup_insert_eq. eexists. split; [done |].
        assert (xb = x) as -> by congruence. done.
      * rewrite lookup_insert_ne by done. by exists xb.
    + exact Eo.
  - intros b xb Hb. st_red. rewrite Eh. destruct (decide (a = b)) as [-> | Hne].
    + by right.
    + left. by rewrite lookup_insert_ne.
  - exact Ev.
  - eexists. split; [st_red; apply lookup_insert_eq | done].
Qed.

(** The slot-0 branch on a new edge:
    [e->halfedge(0) = hes[i]; hes[i]->edge() = e]. *)
Lemma attach_new_edge hes m a x p xp b xb a' :
  hh m !! a = Some x → h_prev x = Some p → hh m !! p = Some xp → Some a ∈ hes →
  hv m !! b = Some xb → he m !! a' = None →
  let m' := set_hh (insert a (with_h_edge (Some a') x))
              (set_he (insert a' (with_e_halfedge0 (Some a) (mkEdge None None 0)))
                 (with_new_edge b a' xb m)) in
  links hes m m' ∧
  (∀ c xc, hh m !! c = Some xc → hh m' !! c = Some xc ∨ Some c ∈ hes) ∧
  hv m' = <[b := with_v_ledges (v_ledges xb ++ [Some a']) xb]> (hv m) ∧
  scannable m' (Some a').
Proof.
  intros Hx Hp Hxp Hin Hb Ha' m'. subst m'. split; [| split; [| split]].
  - split.
    + intros c yc Hc. st_red. rewrite !lookup_insert_ne by congruence.
      exists yc. split; [done |]. split; [done |]. by left.
    + intros c xc Hc. st_red. destruct (decide (a = c)) as [-> | Hne].
      * rewrite lookup_insert_eq. eexists. split; [done |].
        assert (xc = x) as -> by congruence. done.
      * rewrite lookup_insert_ne by done. by exists xc.
    + done.
  - intros c xc Hc. st_red. destruct (decide (a = c)) as [-> | Hne].
    + by right.
    + left. by rewrite lookup_insert_ne.
  - reflexivity.
  - apply scannable_lookup.
    destruct (decide (a = p)) as [-> | Hne].
    + exists a', (with_e_halfedge0 (Some p) (mkEdge None None 0)), p,
             (with_h_edge (Some a') x), p, (with_h_edge (Some a') x).
      split; [done |]. split; [st_red; apply lookup_insert_eq |].
      split; [done |]. split; [st_red; apply lookup_insert_eq |].
      split; [done |]. st_red. apply lookup_insert_eq.
    + exists a', (with_e_halfedge0 (Some a) (mkEdge None None 0)), a,
             (with_h_edge (Some a') x), p, xp.
      split; [done |]. split; [st_red; apply lookup_insert_eq |].
      split; [done |]. split; [st_red; apply lookup_insert_eq |].
      split; [done |]. st_red. by rewrite lookup_insert_ne.
Qed.

Lemma smaller_id_Ok m a1 a2 x1 x2 :
  hv m !! a1 = Some x1 → hv m !! a2 = Some x2 →
  smaller_id (Some a1) (Some a2) m =
    Ok (Some (if v_id x1 <? v_id x2 then a1 else a2)) m.
Proof.
  intros H1 H2. apply read_only_val; [ro |].
  unfold smaller_id. rewrite val_bind by ro. rewrite val_vertex_id, vertex_at_Some, H1.
  cbn. rewrite val_bind by ro. rewrite val_vertex_id, vertex_at_Some, H2. cbn.
  by destruct (v_id x1 <? v_id x2).
Qed.

(** [create_edge] on live vertices whose candidate lists can be scanned:
    an edge of the list, the mesh unchanged, or a new edge. *)
Lemma create_edge_run m v1 v2 :
  is_Some (vertex_at m v1) → is_Some (vertex_at m v2) →
  (∀ a x, hv m !! a = Some x → Forall (scannable m) (v_ledges x)) →
  (∃ ea, create_edge v1 v2 m = Ok (Some ea) m ∧ scannable m (Some ea)) ∨
  (∃ b xb a', hv m !! b = Some xb ∧ he m !! a' = None ∧
              create_edge v1 v2 m = Ok (Some a') (with_new_edge b a' xb m)).
Proof.
  intros [x1 H1] [x2 H2] Hscan.
  destruct v1 as [a1 |]; [| done]. destruct v2 as [a2 |]; [| done].
  rewrite vertex_at_Some in H1, H2.
  set (b := if v_id x1 <? v_id x2 then a1 else a2).
  pose proof (smaller_id_Ok m a1 a2 x1 x2 H1 H2) as Hsm. fold b in Hsm.
  assert (∃ xb, hv m !! b = Some xb) as [xb Hb].
  { unfold b. destruct (v_id x1 <? v_id x2); eauto. }
  unfold create_edge. rewrite (bind_Ok _ _ _ _ _ Hsm).
  rewrite (bind_Ok _ _ _ _ _ (rdV_Ok _ _ _ Hb)).
  destruct (find_edge_total m (Some a1) (Some a2) (v_ledges xb) (Hscan b xb Hb))
    as [[Hr Hall] | (l1 & e & l2 & Hl & Hr & Hj & Hall)].
  - right. exists b, xb, (fresh (dom (he m))).
    split; [done |]. split; [apply not_elem_of_dom, is_fresh |].
    rewrite (bind_Ok _ _ _ _ _ Hr).
    unfold new_CEdge, wrV, rdV, with_new_edge, set_m_edges, set_he, set_hv.
    munfold. cbn. rewrite Hb. cbn. rewrite Hb. reflexivity.
  - left. rewrite (bind_Ok _ _ _ _ _ Hr).
    assert (scannable m e) as Hsc.
    { pose proof (Hscan b xb Hb) as Hs. rewrite Hl in Hs.
      apply Forall_app in Hs as [_ Hs]. by apply Forall_cons in Hs as [Hs _]. }
    destruct (scannable_live m e Hsc) as (ea & y & -> & Hy).
    exists ea. done.
Qed.

(** On a pair with a full edge in the mesh [create_face] started from,
    [create_edge] finds that edge again. *)
Lemma create_edge_full m0 m v1 v2 e :
  grows m0 m → full_edge m0 v1 v2 e →
  create_edge v1 v2 m = Ok (Some e) m ∧
  ∃ y h0 h1, he m !! e = Some y ∧ e_halfedge0 y = Some h0 ∧ e_halfedge1 y = Some h1.
Proof.
  intros G (He & y0 & Hy0 & Hs0 & Hs1).
  destruct (edge_inv m0 v1 v2 e He)
    as (a1 & a2 & x1 & x2 & pV & x & l1 & l2 & -> & -> & H1 & H2 & HpV & Hx & Hl
        & Hsc & Hn & Hj).
  destruct (gr_hv _ _ G a1 x1 H1) as (x1' & H1' & I1 & _).
  destruct (gr_hv _ _ G a2 x2 H2) as (x2' & H2' & I2 & _).
  destruct (gr_hv _ _ G pV x Hx) as (x' & Hx' & _ & l & Hl').
  destruct (gr_he _ _ G e y0 Hy0) as (y & Hy & A & B).
  assert (smaller_id (Some a1) (Some a2) m = Ok (Some pV) m) as Hsm.
  { rewrite (smaller_id_Ok m a1 a2 x1' x2' H1' H2'). by rewrite I1, I2, HpV. }
  assert (scannable m0 (Some e)) as Hse.
  { destruct Hj as (h & s & t & J0 & Js & Jt & _). by exists h, s, t. }
  split.
  - unfold create_edge. rewrite (bind_Ok _ _ _ _ _ Hsm).
    rewrite (bind_Ok _ _ _ _ _ (rdV_Ok _ _ _ Hx')).
    rewrite Hl', Hl, <- app_assoc. cbn [app].
    assert (Forall (scannable m) l1) as Hsc'.
    { eapply Forall_impl; [exact Hsc |]. intros e'. apply grows_scannable, G. }
    assert (Forall (fun e' => ¬ joins m e' (Some a1) (Some a2)) l1) as Hn'.
    { rewrite Forall_forall in Hsc, Hn. apply Forall_forall. intros e' He' Hj'.
      apply (Hn e' He'). by apply (grows_joins m0 m e' _ _ G (Hsc e' He')). }
    assert (joins m (Some e) (Some a1) (Some a2)) as Hj'
      by (by apply (grows_joins m0 m (Some e) _ _ G Hse)).
    by rewrite (bind_Ok _ _ _ _ _
                  (find_edge_found m (Some a1) (Some a2) (Some e) l1 (l2 ++ l)
                     Hsc' Hn' Hj')).
  - specialize (A Hs0). specialize (B Hs1).
    destruct (e_halfedge0 y) as [h0 |] eqn:E0; [| congruence].
    destruct (e_halfedge1 y) as [h1 |] eqn:E1; [| done].
    by exists y, h0, h1.
Qed.
Lemma wpa_eq {A} (c : M A) (Q : A → Mesh → Prop) R m a m' :
  c m = Ok a m' → Q a m' → wpa c Q R m.
Proof. intros H HQ. unfold wpa. by rewrite H. Qed.

Section EdgeLoop.
Variables (nd : bool) (m0 : Mesh) (F : list ptr) (vs hes : list ptr) (id : Z).
Hypothesis Hlen : length vs = length hes.
Hypothesis Hfresh : Forall (fun h => ∃ a, h = Some a ∧ hh m0 !! a = None) hes.

Lemma round_same_vertices m m' :
  hv m' = hv m → links hes m m' →
  (∀ b xb, hh m !! b = Some xb → hh m' !! b = Some xb ∨ Some b ∈ hes) →
  grows m0 m → linking vs hes m →
  grows m0 m' ∧ linking vs hes m'.
Proof.
  intros Ev L Hh G K. split.
  - apply (grows_round m0 hes m m' Hfresh G L Hh). rewrite Ev.
    exact (keep_vertices m).
  - apply (linking_round vs hes m m' K L).
    + intros b x Hb. rewrite Ev. by eexists.
    + intros b x' Hb. rewrite Ev in Hb. exists x', [].
      split; [done |]. split; [by rewrite app_nil_r | apply Forall_nil_2].
Qed.

Lemma round_new_edge m m' b xb a' :
  hv m' = <[b := with_v_ledges (v_ledges xb ++ [Some a']) xb]> (hv m) →
  hv m !! b = Some xb → scannable m' (Some a') → links hes m m' →
  (∀ c xc, hh m !! c = Some xc → hh m' !! c = Some xc ∨ Some c ∈ hes) →
  grows m0 m → linking vs hes m →
  grows m0 m' ∧ linking vs hes m'.
Proof.
  intros Ev Hb Hsc L Hh G K. split.
  - apply (grows_round m0 hes m m' Hfresh G L Hh). intros c xc Hc. rewrite Ev.
    destruct (decide (b = c)) as [-> | Hne].
    + rewrite lookup_insert_eq. eexists. split; [done |].
      assert (xc = xb) as -> by congruence. split; [done |]. by exists [Some a'].
    + rewrite lookup_insert_ne by done. by apply (keep_vertices m).
  - apply (linking_round vs hes m m' K L).
    + intros c x Hc. rewrite Ev. by apply lookup_insert_is_Some'; right.
    + intros c x' Hc. rewrite Ev in Hc. destruct (decide (b = c)) as [-> | Hne].
      * rewrite lookup_insert_eq in Hc. injection Hc as <-.
        exists xb, [Some a']. split; [done |]. split; [done |].
        by apply Forall_cons_2; [| apply Forall_nil_2].
      * rewrite lookup_insert_ne in Hc by done. exists x', [].
        split; [done |]. split; [by rewrite app_nil_r | apply Forall_nil_2].
Qed.

(** One round of the edge loop. *)
Lemma connect_edge_step m i :
  grows m0 m → linking vs hes m → m_faces m = F → (i < length hes)%nat →
  wpa (vi ← idx vs i;
       vp ← idx vs ((i + length hes - 1) mod length hes)%nat;
       hi ← idx hes i;
       e ← create_edge vi vp;
       e0 ← halfedge0 e;
       (if ptr_eqb e0 NULL then wrE e (with_e_halfedge0 hi)
        else
          assert_ nd (e1 ← halfedge1 e; ret (ptr_eqb e1 NULL));;
          e1 ← halfedge1 e;
          (if negb (ptr_eqb e1 NULL)
           then print ("Illegal Face Construction " +:+ pretty id)
           else ret tt);;
          wrE e (with_e_halfedge1 hi));;
       wrH hi (with_h_edge e))
      (fun _ m' =>
         grows m0 m' ∧ linking vs hes m' ∧ m_faces m' = F ∧ links hes m m' ∧
         ∀ vi vp e,
           vs !! i = Some vi →
           vs !! ((i + length hes - 1) mod length hes)%nat = Some vp →
           full_edge m0 vi vp e →
           nd = true ∧ illegal_face id ∈ out m' ∧ slot1_in hes m' e)
      (fun m' => nd = false ∧ m_faces m' = F) m.
Proof.
  intros G K HF Hi. assert (length hes ≠ 0)%nat as Hn by lia.
  destruct (lookup_lt_is_Some_2 vs i) as [vi Evi]; [lia |].
  destruct (lookup_lt_is_Some_2 vs ((i + length hes - 1) mod length hes)) as [vp Evp];
    [rewrite Hlen; by apply Nat.mod_upper_bound |].
  destruct (lookup_lt_is_Some_2 hes i Hi) as [hi Ehi].
  assert (hi ∈ hes) as Hin by (by eapply list_elem_of_lookup_2).
  pose proof (lk_vs _ _ _ K) as Kvs. rewrite Forall_forall in Kvs.
  pose proof (lk_hes _ _ _ K) as Khes. rewrite Forall_forall in Khes.
  destruct (proj1 (source_lookup m hi) (Khes hi Hin)) as (a & x & p & xp & -> & Hx & Hp & Hxp).
  apply wpa_bind, wp_wpa. eapply wp_idx; [exact Evi |].
  apply wpa_bind, wp_wpa. eapply wp_idx; [exact Evp |].
  apply wpa_bind, wp_wpa. eapply wp_idx; [exact Ehi |].
  apply wpa_bind.
  destruct (create_edge_run m vi vp) as [(ea & Hce & Hsc) | (b & xb & a' & Hb & Ha' & Hce)].
  { apply Kvs. by eapply list_elem_of_lookup_2. }
  { apply Kvs. by eapply list_elem_of_lookup_2. }
  { apply (lk_scan _ _ _ K). }
  - (* an edge of the candidate list *)
    apply (wpa_eq _ _ _ _ _ _ Hce).
    destruct (proj1 (scannable_lookup m (Some ea)) Hsc)
      as (ea' & y & h & xh & ph & xph & [= <-] & Hy & H0 & _).
    apply wpa_bind, wp_wpa. eapply wp_halfedge0; [exact Hy |].
    rewrite H0, ptr_eqb_Some_None.
    apply wpa_bind. apply wpa_bind.
    destruct (e_halfedge1 y) as [h1 |] eqn:E1.
    + (* slot 1 is occupied *)
      destruct nd.
      * apply wpa_ret. apply wpa_bind, wp_wpa. eapply wp_halfedge1; [exact Hy |].
        rewrite E1, ptr_eqb_Some_None. cbn [negb].
        apply wpa_bind, wp_wpa, wp_print. fold (printed (illegal_face id) m).
        apply wp_wpa. eapply wp_wrE; [exact Hy |].
        apply wp_wpa. eapply wp_wrH; [exact Hx |].
        destruct (attach_slot1 hes m (printed (illegal_face id) m) a x ea y)
          as (L & Hh & Ev & Hs1); try done.
        { intros s Hs. st_red. apply elem_of_app. by left. }
        destruct (round_same_vertices m _ Ev L Hh G K) as [G' K'].
        split; [done |]. split; [done |]. split; [done |]. split; [done |].
        intros vi' vp' e Ei Ep Hfull.
        assert (vi' = vi) as -> by congruence. assert (vp' = vp) as -> by congruence.
        destruct (create_edge_full m0 m vi vp e G Hfull) as [Hce' _].
        assert (e = ea) as -> by congruence.
        split; [done |]. split; [| done].
        st_red. apply elem_of_app. right. by left.
      * unfold assert_. apply wpa_bind. apply wpa_bind, wp_wpa.
        eapply wp_halfedge1; [exact Hy |]. apply wpa_ret.
        rewrite E1, ptr_eqb_Some_None. unfold wpa. done.
    + (* slot 1 is empty *)
      assert (wpa (assert_ nd (e1 ← halfedge1 (Some ea); mret (ptr_eqb e1 NULL)))
                  (fun _ m' => m' = m) (fun m' => nd = false ∧ m_faces m' = F) m) as Has.
      { unfold assert_. destruct nd; [done |].
        apply wpa_bind. apply wpa_bind, wp_wpa.
        eapply wp_halfedge1; [exact Hy |]. apply wpa_ret.
        rewrite E1. done. }
      eapply wpa_mono; [exact Has | | done]. intros [] m1 ->.
      apply wpa_bind, wp_wpa. eapply wp_halfedge1; [exact Hy |].
      rewrite E1. cbn [ptr_eqb negb]. rewrite ptr_eqb_refl. cbn [negb].
      apply wpa_bind, wpa_ret.
      apply wp_wpa. eapply wp_wrE; [exact Hy |].
      apply wp_wpa. eapply wp_wrH; [exact Hx |].
      destruct (attach_slot1 hes m m a x ea y) as (L & Hh & Ev & Hs1); try done.
      destruct (round_same_vertices m _ Ev L Hh G K) as [G' K'].
      split; [done |]. split; [done |]. split; [done |]. split; [done |].
      intros vi' vp' e Ei Ep Hfull.
      assert (vi' = vi) as -> by congruence. assert (vp' = vp) as -> by congruence.
      destruct (create_edge_full m0 m vi vp e G Hfull)
        as [Hce' (y' & g0 & g1 & Hy' & _ & Hg1)].
      assert (e = ea) as -> by congruence. congruence.
  - (* a new edge *)
    apply (wpa_eq _ _ _ _ _ _ Hce).
    apply wpa_bind, wp_wpa. eapply wp_halfedge0; [st_red; apply lookup_insert_eq |].
    cbn [e_halfedge0]. rewrite ptr_eqb_refl.
    apply wpa_bind, wp_wpa. eapply wp_wrE; [st_red; apply lookup_insert_eq |].
    apply wp_wpa. eapply wp_wrH; [st_red; exact Hx |].
    destruct (attach_new_edge hes m a x p xp b xb a') as (L & Hh & Ev & Hs); try done.
    destruct (round_new_edge m _ b xb a' Ev Hb Hs L Hh G K) as [G' K'].
    split; [done |]. split; [done |]. split; [done |]. split; [done |].
    intros vi' vp' e Ei Ep Hfull.
    assert (vi' = vi) as -> by congruence. assert (vp' = vp) as -> by congruence.
    destruct (create_edge_full m0 m vi vp e G Hfull)
      as [Hce' (y' & g0 & g1 & Hy' & _)].
    assert (e = a') as -> by congruence. congruence.
Qed.

(** The edge loop. *)
Lemma connect_edges m :
  grows m0 m → linking vs hes m → m_faces m = F →
  wpa (for_each (seq 0 (length hes)) (fun i =>
         vi ← idx vs i;
         vp ← idx vs ((i + length hes - 1) mod length hes)%nat;
         hi ← idx hes i;
         e ← create_edge vi vp;
         e0 ← halfedge0 e;
         (if ptr_eqb e0 NULL then wrE e (with_e_halfedge0 hi)
          else
            assert_ nd (e1 ← halfedge1 e; ret (ptr_eqb e1 NULL));;
            e1 ← halfedge1 e;
            (if negb (ptr_eqb e1 NULL)
             then print ("Illegal Face Construction " +:+ pretty id)
             else ret tt);;
            wrE e (with_e_halfedge1 hi));;
         wrH hi (with_h_edge e)))
      (fun _ m' =>
         grows m0 m' ∧ m_faces m' = F ∧
         ∀ i vi vp e,
           vs !! i = Some vi →
           vs !! ((i + length hes - 1) mod length hes)%nat = Some vp →
           full_edge m0 vi vp e →
           nd = true ∧ illegal_face id ∈ out m' ∧ slot1_in hes m' e)
      (fun m' => nd = false ∧ m_faces m' = F) m.
Proof.
  intros G K HF.
  eapply wpa_mono.
  - apply (wpa_for_each
             (fun l m' =>
                grows m0 m' ∧ linking vs hes m' ∧ m_faces m' = F ∧
                Forall (fun j => j < length hes)%nat l ∧
                ∀ i vi vp e,
                  i ∉ l → vs !! i = Some vi →
                  vs !! ((i + length hes - 1) mod length hes)%nat = Some vp →
                  full_edge m0 vi vp e →
                  nd = true ∧ illegal_face id ∈ out m' ∧ slot1_in hes m' e)).
    + split; [done |]. split; [done |]. split; [done |]. split.
      * apply Forall_forall. intros j Hj. apply elem_of_seq in Hj. lia.
      * intros i vi vp e Hnot Ei. exfalso. apply Hnot. apply elem_of_seq.
        apply lookup_lt_Some in Ei. lia.
    + intros i l m1 (G1 & K1 & F1 & Hl & Hdone). apply Forall_cons in Hl as [Hi Hl].
      eapply wpa_mono; [apply (connect_edge_step m1 i G1 K1 F1 Hi) | | done].
      intros [] m2 (G2 & K2 & F2 & L & Hnew).
      split; [done |]. split; [done |]. split; [done |]. split; [done |].
      intros j vj vq e Hnot Ej Eq Hfull.
      destruct (decide (j = i)) as [-> | Hne]; [by apply (Hnew vj vq e) |].
      destruct (Hdone j vj vq e) as (Hnd & Hout & (y & Hy & Hs)); try done.
      { intros [-> | Hin]%elem_of_cons; done. }
      split; [done |]. split; [by apply (ln_out _ _ _ L) |].
      destruct (ln_he _ _ _ L e y Hy) as (y' & Hy' & _ & [B | B]).
      * exists y'. split; [done |]. by rewrite B.
      * by exists y'.
  - intros [] m' (G' & _ & F' & _ & Hdone). split; [done |]. split; [done |].
    intros i vi vp e. apply Hdone, not_elem_of_nil.
  - done.
Qed.
End EdgeLoop.

(** ** C5: [create_face] over a full edge *)

Lemma create_face_outcome nd m vs id i vi vp e :
  Forall (fun v => is_Some (vertex_at m v)) vs →
  (∀ a x, hv m !! a = Some x → Forall (scannable m) (v_ledges x)) →
  vs !! i = Some vi →
  vs !! ((i + length vs - 1) mod length vs)%nat = Some vp →
  full_edge m vi vp e →
  wpa (create_face nd vs id)
      (fun p m' =>
         nd = true ∧
         ∃ f, p = Some f ∧ hf m !! f = None ∧ m_faces m' = m_faces m ++ [Some f] ∧
              illegal_face id ∈ out m' ∧
              ∃ y h, he m' !! e = Some y ∧ e_halfedge1 y = Some h ∧ hh m !! h = None)
      (fun m' =>
         nd = false ∧
         ∃ f, hf m !! f = None ∧ m_faces m' = m_faces m ++ [Some f]) m.
Proof.
  intros Hvs Hscan Ei Ep Hfull. unfold create_face.
  apply wpa_bind, wp_wpa, wp_new_CFace. intros a Ha.
  apply wpa_bind, wp_wpa. eapply wp_wrF; [st_red; apply lookup_insert_eq |].
  apply wpa_bind, wp_wpa, wp_modify.
  apply wpa_bind, wp_wpa, wp_modify.
  pose proof (building_init m a id (map_insert_new id (Some a)) Ha) as B0.
  apply wpa_bind, wp_wpa.
  eapply wp_mono; [apply (create_face_halfedges_spec m _ _ vs [] _ Hvs B0) |].
  intros hes m1 [B1 Hlen]. cbn [length Nat.add] in Hlen. cbv zeta.
  apply wpa_bind, wp_wpa.
  eapply wp_mono; [apply (link_next_prev m _ _ hes m1 B1) |].
  intros [] m2 [B2 HP2].
  apply wpa_bind, wp_wpa.
  eapply wp_mono; [apply (link_face m _ _ hes m2 B2 HP2) |].
  intros [] m3 [B3 HP3].
  pose proof (bd_grows _ _ _ _ _ B3) as G3.
  assert (Forall (fun h => ∃ b, h = Some b ∧ hh m !! b = None) hes) as Hfresh.
  { eapply Forall_impl; [exact (bd_hes _ _ _ _ _ B3) |].
    intros h (b & -> & Hb & _). by exists b. }
  assert (linking vs hes m3) as K3.
  { split.
    - eapply Forall_impl; [exact Hvs |]. intros v. by apply grows_vertex_at.
    - rewrite Forall_forall in HP3 |- *. intros h Hh.
      destruct (HP3 h Hh) as (b & x & -> & Hx & Hp).
      destruct (building_hes_live m _ _ hes m3 _ B3 Hp) as (p & xp & Hp' & Hxp).
      apply source_lookup. by exists b, x, p, xp.
    - intros b x' Hb. destruct (bd_lists _ _ _ _ _ B3 b x' Hb) as (x & Hx & ->).
      eapply Forall_impl; [exact (Hscan b x Hx) |]. intros e'.
      by apply grows_scannable. }
  apply wpa_bind.
  eapply wpa_mono;
    [apply (connect_edges nd m (m_faces m ++ [Some a]) vs hes id (eq_sym Hlen) Hfresh m3
              G3 K3 (bd_faces _ _ _ _ _ B3)) | | ].
  - intros [] m4 (G4 & F4 & Hdone). apply wpa_ret.
    rewrite Hlen in Hdone.
    destruct (Hdone i vi vp e Ei Ep Hfull) as (Hnd & Hout & (y & Hy & Hs)).
    split; [done |]. exists a. split; [done |]. split; [done |]. split; [done |].
    split; [done |].
    rewrite Forall_forall in Hfresh. destruct (Hfresh _ Hs) as (h & Hh & Hnew).
    by exists y, h.
  - intros m4 [Hnd F4]. split; [done |]. by exists a.
Qed.

(** C5, as amended.  Let every vertex of [vs] be live, every candidate
    list be one the scan can read, and let position [i] hold a pair
    whose edge [e] (the one [edge] finds) has both slots occupied.
    Compiled with [NDEBUG], [create_face] writes the line
    [Illegal Face Construction <id>] to standard output and goes on: it
    returns the new face, now in [m_faces], and slot 1 of [e] holds one of
    the new half-edges.  Compiled without, it stops at the assertion, the
    new face being already in [m_faces]. *)
Theorem create_face_full_edge m vs id i vi vp e :
  Forall (fun v => is_Some (vertex_at m v)) vs →
  (∀ a x, hv m !! a = Some x → Forall (scannable m) (v_ledges x)) →
  vs !! i = Some vi →
  vs !! ((i + length vs - 1) mod length vs)%nat = Some vp →
  full_edge m vi vp e →
  (∃ f m', create_face true vs id m = Ok (Some f) m' ∧
           hf m !! f = None ∧ m_faces m' = m_faces m ++ [Some f] ∧
           illegal_face id ∈ out m' ∧
           ∃ y h, he m' !! e = Some y ∧ e_halfedge1 y = Some h ∧ hh m !! h = None) ∧
  (∃ f m', create_face false vs id m = Abort m' ∧
           hf m !! f = None ∧ m_faces m' = m_faces m ++ [Some f]).
Proof.
  intros Hvs Hscan Ei Ep Hfull. split.
  - pose proof (create_face_outcome true m vs id i vi vp e Hvs Hscan Ei Ep Hfull) as H.
    unfold wpa in H.
    destruct (create_face true vs id m) as [p m' | m' | |]; try done.
    + destruct H as (_ & f & -> & H). by exists f, m'.
    + by destruct H.
  - pose proof (create_face_outcome false m vs id i vi vp e Hvs Hscan Ei Ep Hfull) as H.
    unfold wpa in H.
    destruct (create_face false vs id m) as [p m' | m' | |]; try done.
    + by destruct H.
    + destruct H as (_ & f & H). by exists f, m'.
Qed.

Lemma create_face_full_edge_witness :
  (∃ f m', create_face true [Some 1; Some 2; Some 5]%positive 3 two_triangles
             = Ok (Some f) m' ∧
           hf two_triangles !! f = None ∧
           m_faces m' = m_faces two_triangles ++ [Some f] ∧
           illegal_face 3 ∈ out m' ∧
           ∃ y h, he m' !! 2%positive = Some y ∧ e_halfedge1 y = Some h ∧
                  hh two_triangles !! h = None) ∧
  (∃ f m', create_face false [Some 1; Some 2; Some 5]%positive 3 two_triangles
             = Abort m' ∧
           hf two_triangles !! f = None ∧
           m_faces m' = m_faces two_triangles ++ [Some f]).
Proof.
  apply (create_face_full_edge two_triangles [Some 1; Some 2; Some 5]%positive 3 1
           (Some 2%positive) (Some 1%positive) 2).
  - repeat (apply Forall_cons_2; [vm_compute; by eexists |]). apply Forall_nil_2.
  - refine (store_all_records _ _ _). vm_compute map_to_list.
    repeat first [apply Forall_nil_2 | apply Forall_cons_2; [cbv [uncurry fst snd] |]];
      (apply scannable_lookup; eexists _, _, _, _, _, _;
       repeat split; vm_compute; reflexivity).
  - reflexivity.
  - reflexivity.
  - split; [vm_compute; reflexivity |].
    eexists. split; [vm_compute; reflexivity |]. split; discriminate.
Defined.

(** ** [_bubble_sort] *)

#[local] Instance longer_trans : Transitive longer.
Proof. intros a b c. unfold longer. lia. Qed.

Lemma bubble_from_perm a l : (bubble_from a l).1 ≡ₚ a :: l.
Proof.
  revert a. induction l as [| b l IH]; intros a; cbn [bubble_from]; [done |].
  destruct (l_length a <? l_length b).
  - specialize (IH a). destruct (bubble_from a l) as [r fl]. cbn in *.
    rewrite IH. apply Permutation_swap.
  - specialize (IH b). destruct (bubble_from b l) as [r fl]. cbn in *.
    by rewrite IH.
Qed.

(** A pass over a vector that is in order swaps nothing. *)
Lemma bubble_from_sorted a l :
  StronglySorted longer (a :: l) → bubble_from a l = (a :: l, false).
Proof.
  revert a. induction l as [| b l IH]; intros a Hs; cbn [bubble_from]; [done |].
  apply StronglySorted_inv in Hs as [Hs Ha].
  apply Forall_cons in Ha as [Hab _]. unfold longer in Hab.
  destruct (l_length a <? l_length b) eqn:E; [apply Z.ltb_lt in E; lia |].
  by rewrite (IH b Hs).
Qed.

(** A pass that swaps nothing ran over a vector that is in order. *)
Lemma bubble_from_no_swap a l :
  (bubble_from a l).2 = false →
  (bubble_from a l).1 = a :: l ∧ StronglySorted longer (a :: l).
Proof.
  revert a. induction l as [| b l IH]; intros a; cbn [bubble_from].
  - intros _. split; [done |]. apply SSorted_cons; [apply SSorted_nil | apply Forall_nil_2].
  - destruct (l_length a <? l_length b) eqn:E.
    + destruct (bubble_from a l) as [r fl]. cbn. done.
    + specialize (IH b). destruct (bubble_from b l) as [r fl]. cbn in *.
      intros Hfl. destruct (IH Hfl) as [-> Hs]. split; [done |].
      apply Sorted_StronglySorted; [apply _ |].
      apply Sorted_cons; [by apply StronglySorted_Sorted |].
      apply HdRel_cons. unfold longer. apply Z.ltb_ge in E. lia.
Qed.

(** A pass leaves the shortest loop at the end. *)
Lemma bubble_from_last a l :
  ∃ r mn, (bubble_from a l).1 = r ++ [mn] ∧ Forall (fun x => longer x mn) (a :: l).
Proof.
  revert a. induction l as [| b l IH]; intros a; cbn [bubble_from].
  - exists [], a. split; [done |]. apply Forall_cons_2; [| apply Forall_nil_2].
    unfold longer. lia.
  - destruct (l_length a <? l_length b) eqn:E.
    + destruct (IH a) as (r & mn & Hr & Hmn).
      destruct (bubble_from a l) as [r0 fl]. cbn in *. subst r0.
      exists (b :: r), mn. split; [done |].
      apply Forall_cons in Hmn as [Ha Hl].
      apply Forall_cons_2; [done |]. apply Forall_cons_2; [| done].
      unfold longer in *. apply Z.ltb_lt in E. lia.
    + destruct (IH b) as (r & mn & Hr & Hmn).
      destruct (bubble_from b l) as [r0 fl]. cbn in *. subst r0.
      exists (a :: r), mn. split; [done |].
      apply Forall_cons in Hmn as [Hb Hl].
      apply Forall_cons_2; [| by apply Forall_cons_2].
      unfold longer in *. apply Z.ltb_ge in E. lia.
Qed.

(** A pass does not touch a finished tail. *)
Lemma bubble_from_tail a l1 l2 :
  StronglySorted longer l2 →
  (∀ x y, x ∈ a :: l1 → y ∈ l2 → longer x y) →
  bubble_from a (l1 ++ l2) = ((bubble_from a l1).1 ++ l2, (bubble_from a l1).2).
Proof.
  intros Hs. revert a. induction l1 as [| b l1 IH]; intros a Hle.
  - cbn [app bubble_from fst snd]. apply (bubble_from_sorted a l2).
    apply SSorted_cons; [done |]. apply Forall_forall. intros y Hy.
    apply Hle; [by left | done].
  - cbn [app bubble_from]. destruct (l_length a <? l_length b).
    + rewrite (IH a).
      * by destruct (bubble_from a l1).
      * intros x y Hx Hy. apply Hle; [| done].
        apply elem_of_cons in Hx as [-> | Hx]; [by left | by right; right].
    + rewrite (IH b).
      * by destruct (bubble_from b l1).
      * intros x y Hx Hy. apply Hle; [| done]. by right.
Qed.

(** After [k] passes the last [k] loops are in their final place. *)
Lemma bubble_pass_tail k l :
  (∃ l1 l2, l = l1 ++ l2 ∧ length l2 = k ∧ StronglySorted longer l2 ∧
            ∀ x y, x ∈ l1 → y ∈ l2 → longer x y) →
  (k < length l)%nat →
  ∃ l1 l2, (bubble_pass l).1 = l1 ++ l2 ∧ length l2 = S k ∧
           StronglySorted longer l2 ∧ ∀ x y, x ∈ l1 → y ∈ l2 → longer x y.
Proof.
  intros (l1 & l2 & -> & Hk & Hs & Hle) Hlt.
  destruct l1 as [| a l1]; [cbn in Hlt; lia |].
  cbn [app bubble_pass]. rewrite (bubble_from_tail a l1 l2 Hs Hle). cbn [fst].
  destruct (bubble_from_last a l1) as (r & mn & Hr & Hmn).
  pose proof (bubble_from_perm a l1) as Hp. rewrite Hr in Hp |- *.
  rewrite Forall_forall in Hmn.
  assert (mn ∈ a :: l1) as Hin by (rewrite <- Hp; apply elem_of_app; right; by left).
  exists r, (mn :: l2). split; [by rewrite <- app_assoc |]. split; [cbn; lia |].
  split.
  - apply SSorted_cons; [done |]. apply Forall_forall. intros y Hy. by apply Hle.
  - intros x y Hx Hy.
    assert (x ∈ a :: l1) as Hx' by (rewrite <- Hp; apply elem_of_app; by left).
    apply elem_of_cons in Hy as [-> | Hy]; [by apply Hmn | by apply Hle].
Qed.

Lemma bubble_pass_perm l : (bubble_pass l).1 ≡ₚ l.
Proof. destruct l as [| a l]; [done |]. apply bubble_from_perm. Qed.

Lemma bubble_outer_perm p l : bubble_outer p l ≡ₚ l.
Proof.
  revert l. induction p as [| p IH]; intros l; cbn [bubble_outer]; [done |].
  pose proof (bubble_pass_perm l) as Hp.
  destruct (bubble_pass l) as [r fl]. cbn in Hp.
  destruct fl; [by rewrite IH | done].
Qed.

Lemma bubble_outer_sorted p k l :
  (∃ l1 l2, l = l1 ++ l2 ∧ length l2 = k ∧ StronglySorted longer l2 ∧
            ∀ x y, x ∈ l1 → y ∈ l2 → longer x y) →
  (length l ≤ k + p)%nat →
  StronglySorted longer (bubble_outer p l).
Proof.
  revert k l. induction p as [| p IH]; intros k l Hk Hlen; cbn [bubble_outer].
  - destruct Hk as (l1 & l2 & -> & Hk & Hs & _).
    rewrite length_app in Hlen. destruct l1; [done | cbn in Hlen; lia].
  - destruct (bubble_pass l) as [r fl] eqn:E. destruct fl.
    + destruct (decide (k < length l)%nat) as [Hlt | Hge].
      * apply (IH (S k)).
        -- pose proof (bubble_pass_tail k l Hk Hlt) as H. by rewrite E in H.
        -- pose proof (bubble_pass_perm l) as Hp. rewrite E in Hp. cbn in Hp.
           rewrite Hp. lia.
      * destruct Hk as (l1 & l2 & -> & Hk & Hs & _).
        rewrite length_app in Hge. destruct l1; [| cbn in Hge; lia].
        cbn [app] in E. destruct l2 as [| a l2]; [cbn in E; congruence |].
        cbn [bubble_pass] in E. rewrite (bubble_from_sorted a l2 Hs) in E. congruence.
    + destruct l as [| a l]; [cbn in E; injection E as <-; apply SSorted_nil |].
      cbn [bubble_pass] in E.
      destruct (bubble_from_no_swap a l) as [Hr Hs]; [by rewrite E |].
      rewrite E in Hr. cbn in Hr. by subst r.
Qed.

(** [_bubble_sort] puts the loops in descending order of length. *)
Lemma bubble_sort_sorted l : StronglySorted longer (bubble_sort l) ∧ bubble_sort l ≡ₚ l.
Proof.
  split; [| apply bubble_outer_perm].
  apply (bubble_outer_sorted (length l) 0 l); [| lia].
  exists l, []. split; [by rewrite app_nil_r |]. split; [done |].
  split; [apply SSorted_nil |]. intros x y _ Hy. by apply elem_of_nil in Hy.
Qed.
(** ** The tracer reads, and writes nothing *)

Lemma bind_assoc {A B C} (c : M A) (k : A → M B) (k' : B → M C) m :
  (x ← (y ← c; k y); k' x) m = (y ← c; x ← k y; k' x) m.
Proof. unfold mbind, M_bind, bind. by destruct (c m). Qed.

Lemma read_only_walk_loop rot fuel :
  (∀ h, read_only (rot h)) → ∀ he ne, read_only (walk_loop rot fuel he ne).
Proof.
  intros Hrot. induction fuel as [| fuel IH]; intros he ne; cbn [walk_loop].
  - destruct ne; [by intros m | ro].
  - destruct ne; [| ro]. apply read_only_bind; [apply Hrot | intros ne'; apply IH].
Qed.

Lemma read_only_walk_fuel : read_only walk_fuel.
Proof. intros m. reflexivity. Qed.

Lemma most_ccw_in_interior m a x :
  hv m !! a = Some x → v_boundary x = false →
  most_ccw_in_halfedge (Some a) m = Ok (v_halfedge x) m.
Proof.
  intros Hx Hb. unfold most_ccw_in_halfedge.
  rewrite (bind_Ok _ _ _ _ _ (rdV_Ok _ _ _ Hx)). by rewrite Hb.
Qed.

Lemma read_only_most_ccw_out_halfedge v : read_only (most_ccw_out_halfedge v).
Proof.
  intros m. unfold most_ccw_out_halfedge.
  destruct v as [a |]; [| done].
  destruct (hv m !! a) as [x |] eqn:Hx;
    [| unfold mbind, M_bind, bind, rdV; by rewrite Hx].
  rewrite (bind_Ok _ _ _ _ _ (rdV_Ok _ _ _ Hx)).
  destruct (v_boundary x) eqn:Hb; cbn [negb].
  - apply read_only_bind; [ro |]. intros he.
    apply read_only_bind; [ro |]. intros ne.
    apply read_only_bind; [apply read_only_walk_fuel |]. intros fuel.
    apply read_only_walk_loop. intros h. ro.
  - rewrite (bind_Ok _ _ _ _ _ (most_ccw_in_interior m a x Hx Hb)).
    apply read_only_dual.
Qed.

Lemma read_only_most_clw_out_halfedge v : read_only (most_clw_out_halfedge v).
Proof.
  unfold most_clw_out_halfedge. apply read_only_bind; [ro |]. intros x.
  destruct (negb (v_boundary x)).
  - apply read_only_bind; [apply read_only_most_ccw_out_halfedge |]. intros h. ro.
  - apply read_only_bind; [ro |]. intros he.
    apply read_only_bind; [ro |]. intros ne.
    apply read_only_bind; [apply read_only_walk_fuel |]. intros fuel.
    apply read_only_walk_loop. intros h. ro.
Qed.

Lemma boundary_next_Ok m h h' :
  boundary_next m h = Some h' →
  (v ← target h; most_clw_out_halfedge v) m = Ok h' m.
Proof.
  intros H. apply read_only_val; [| exact H].
  apply read_only_bind; [ro |]. intros v. apply read_only_most_clw_out_halfedge.
Qed.

Lemma length_of_Some m h z :
  length_of m h = Some z →
  ∃ a x y, h = Some a ∧ hh m !! a = Some x ∧ edge_at m (h_edge x) = Some y ∧
           e_length y = z.
Proof.
  unfold length_of. destruct h as [a |]; [| done]. rewrite halfedge_at_Some.
  destruct (hh m !! a) as [x |] eqn:Hx; [| done]. cbn.
  destruct (edge_at m (h_edge x)) as [y |] eqn:Hy; [| done]. cbn.
  intros [= <-]. by exists a, x, y.
Qed.

(** ** The [do ... while] of the [CLoop] constructor *)

Lemma trace_loop_chain m pH l :
  ∀ fuel he hs len,
    chain m he l → l ≠ [] → last l = Some pH → pH ∉ removelast l →
    Forall (fun h => is_Some (length_of m h)) l → (length l ≤ fuel)%nat →
    trace_loop fuel pH he hs len m = Ok (hs ++ l, len + total_length m l) m.
Proof.
  induction l as [| h' l IH]; intros fuel he hs len Hc Hne Hlast Hnot Hlen Hfuel;
    [done |].
  destruct fuel as [| fuel]; [cbn in Hfuel; lia |].
  destruct Hc as [Hn Hc]. apply Forall_cons in Hlen as [[z Hz] Hlen].
  destruct (length_of_Some m h' z Hz) as (a & x & y & -> & Hx & Hy & <-).
  cbn [trace_loop].
  rewrite <- bind_assoc. rewrite (bind_Ok _ _ _ _ _ (boundary_next_Ok m he _ Hn)).
  assert (edge_of (Some a) m = Ok (h_edge x) m) as He.
  { unfold edge_of. by rewrite (bind_Ok _ _ _ _ _ (rdH_Ok _ _ _ Hx)). }
  rewrite (bind_Ok _ _ _ _ _ He).
  assert (rdE (h_edge x) m = Ok y m) as Hr.
  { destruct (h_edge x) as [e |]; [| done]. by apply rdE_Ok. }
  rewrite (bind_Ok _ _ _ _ _ Hr).
  cbn [total_length]. rewrite Hz. cbn [default].
  destruct l as [| h2 l].
  - cbn in Hlast. injection Hlast as <-. rewrite ptr_eqb_refl. cbn [negb].
    cbn [total_length]. by rewrite Z.add_0_r.
  - assert (Some a ≠ pH) as Hd.
    { intros <-. apply Hnot. cbn. by left. }
    apply ptr_eqb_false in Hd. rewrite Hd. cbn [negb].
    rewrite (IH fuel (Some a) (hs ++ [Some a]) (len + e_length y)); try done.
    + rewrite <- app_assoc. cbn [app]. by rewrite Z.add_assoc.
    + intros Hin. apply Hnot. cbn. right. exact Hin.
    + cbn in Hfuel |- *. lia.
Qed.
(** ** The candidate set *)

Lemma ptr_ltb_irrefl x : ptr_ltb x x = false.
Proof. destruct x as [a |]; [apply Pos.ltb_irrefl | done]. Qed.

Lemma ptr_ltb_trans x y z : ptr_ltb x y = true → ptr_ltb y z = true → ptr_ltb x z = true.
Proof.
  destruct x as [a |], y as [b |], z as [c |]; cbn; try done.
  rewrite !Pos.ltb_lt. lia.
Qed.

Lemma ptr_ltb_total x y : ptr_ltb x y = false → x ≠ y → ptr_ltb y x = true.
Proof.
  destruct x as [a |], y as [b |]; cbn; try done.
  rewrite Pos.ltb_ge, Pos.ltb_lt. intros H Hne.
  assert (a ≠ b) by congruence. lia.
Qed.

Lemma elem_of_set_insert x h s : x ∈ set_insert h s ↔ x = h ∨ x ∈ s.
Proof.
  induction s as [| y s IH]; cbn [set_insert].
  - rewrite list_elem_of_singleton. split; [by left | intros [? | H]; [done |]].
    by apply elem_of_nil in H.
  - destruct (ptr_eqb h y) eqn:E.
    + apply ptr_eqb_true in E as ->. split; [by right |].
      intros [-> | H]; [by left | done].
    + destruct (ptr_ltb h y).
      * by rewrite elem_of_cons.
      * rewrite !elem_of_cons, IH. tauto.
Qed.

Lemma set_insert_sorted h s :
  StronglySorted (fun p q => ptr_ltb p q = true) s →
  StronglySorted (fun p q => ptr_ltb p q = true) (set_insert h s).
Proof.
  induction s as [| y s IH]; intros Hs; cbn [set_insert].
  - apply SSorted_cons; [apply SSorted_nil | apply Forall_nil_2].
  - apply StronglySorted_inv in Hs as [Hs Hy].
    destruct (ptr_eqb h y) eqn:E; [by apply SSorted_cons |].
    apply ptr_eqb_false in E.
    destruct (ptr_ltb h y) eqn:L.
    + apply SSorted_cons; [by apply SSorted_cons |].
      apply Forall_cons_2; [done |].
      eapply Forall_impl; [exact Hy |]. intros z Hz. by eapply ptr_ltb_trans.
    + apply SSorted_cons; [by apply IH |].
      apply Forall_forall. intros z [-> | Hz]%elem_of_set_insert.
      * by apply ptr_ltb_total.
      * rewrite Forall_forall in Hy. by apply Hy.
Qed.

Lemma sorted_NoDup s :
  StronglySorted (fun p q => ptr_ltb p q = true) s → NoDup s.
Proof.
  induction s as [| y s IH]; intros Hs; [apply NoDup_nil_2 |].
  apply StronglySorted_inv in Hs as [Hs Hy].
  apply NoDup_cons_2; [| by apply IH].
  intros Hin. rewrite Forall_forall in Hy. specialize (Hy y Hin).
  by rewrite ptr_ltb_irrefl in Hy.
Qed.

Lemma foldl_set_insert_elem l : ∀ s x,
  x ∈ foldl (fun s h => set_insert h s) s l ↔ x ∈ l ∨ x ∈ s.
Proof.
  induction l as [| h l IH]; intros s x; cbn [foldl].
  - split; [by right | intros [H | H]; [by apply elem_of_nil in H | done]].
  - rewrite IH, elem_of_set_insert, elem_of_cons. tauto.
Qed.

Lemma foldl_set_insert_sorted l : ∀ s,
  StronglySorted (fun p q => ptr_ltb p q = true) s →
  StronglySorted (fun p q => ptr_ltb p q = true)
                 (foldl (fun s h => set_insert h s) s l).
Proof.
  induction l as [| h l IH]; intros s Hs; cbn [foldl]; [done |].
  by apply IH, set_insert_sorted.
Qed.

(** The seeding loop: one candidate per boundary edge of the edge list. *)
Lemma collect_boundary_hes_run m edges : ∀ s,
  Forall (fun e => is_Some (edge_at m e)) edges →
  collect_boundary_hes edges s m =
    Ok (foldl (fun s h => set_insert h s) s (omap (seed_of m) edges)) m.
Proof.
  induction edges as [| e edges IH]; intros s Hl; [done |].
  apply Forall_cons in Hl as [[y Hy] Hl].
  change (omap (seed_of m) (e :: edges))
    with (match seed_of m e with
          | Some h => h :: omap (seed_of m) edges
          | None => omap (seed_of m) edges
          end).
  assert (seed_of m e =
            if ptr_eqb (e_halfedge0 y) NULL || ptr_eqb (e_halfedge1 y) NULL
            then Some (e_halfedge0 y) else None) as ->
    by (unfold seed_of; by rewrite Hy).
  assert (rdE e m = Ok y m) as Hr.
  { destruct e as [a |]; [by apply rdE_Ok | done]. }
  assert (edge_boundary e m =
            Ok (ptr_eqb (e_halfedge0 y) NULL || ptr_eqb (e_halfedge1 y) NULL) m) as Hb
    by (unfold edge_boundary; by rewrite (bind_Ok _ _ _ _ _ Hr)).
  assert (halfedge0 e m = Ok (e_halfedge0 y) m) as H0
    by (unfold halfedge0; by rewrite (bind_Ok _ _ _ _ _ Hr)).
  cbn [collect_boundary_hes]. rewrite (bind_Ok _ _ _ _ _ Hb).
  destruct (ptr_eqb (e_halfedge0 y) None || ptr_eqb (e_halfedge1 y) None);
    cbn [negb foldl].
  - rewrite (bind_Ok _ _ _ _ _ H0). apply IH, Hl.
  - apply IH, Hl.
Qed.

Lemma candidates_seeds m :
  NoDup (seeds m) →
  foldl (fun s h => set_insert h s) [] (seeds m) ≡ₚ seeds m.
Proof.
  intros Hnd. apply NoDup_Permutation; [| done |].
  - apply sorted_NoDup, foldl_set_insert_sorted, SSorted_nil.
  - intros x. rewrite foldl_set_insert_elem. split; [| by left].
    intros [H | H]; [done | by apply elem_of_nil in H].
Qed.
(** ** The half-edges after a candidate come back to it *)

Lemma repeated_entry {A} `{EqDecision A} (l : list A) :
  ¬ NoDup l → ∃ i j x, (i < j)%nat ∧ l !! i = Some x ∧ l !! j = Some x.
Proof.
  induction l as [| a l IH]; intros Hn; [destruct Hn; apply NoDup_nil_2 |].
  destruct (decide (a ∈ l)) as [Hin | Hnin].
  - apply list_elem_of_lookup_1 in Hin as [j Hj]. exists 0%nat, (S j), a.
    split; [lia | done].
  - destruct IH as (i & j & x & Hij & Hi & Hj).
    { intros Hnd. apply Hn. by apply NoDup_cons_2. }
    exists (S i), (S j), x. split; [lia | done].
Qed.

Section Orbit.
Variable m : Mesh.
Hypothesis Ht : traceable m.

(** The half-edge after [h], or [h] itself where there is none. *)
Local Abbreviation nxt := (fun h : ptr => default h (boundary_next m h)).
Local Abbreviation it := (fun (k : nat) (h : ptr) => Nat.iter k nxt h).

Lemma nxt_seed h : h ∈ seeds m → boundary_next m h = Some (nxt h) ∧ nxt h ∈ seeds m.
Proof.
  intros Hh. destruct (tr_next m Ht h Hh) as (h' & Hn & Hin).
  cbn beta. by rewrite Hn.
Qed.

Lemma nxt_inj h1 h2 : h1 ∈ seeds m → h2 ∈ seeds m → nxt h1 = nxt h2 → h1 = h2.
Proof.
  intros H1 H2 He. apply (tr_inj m Ht h1 h2 H1 H2).
  destruct (nxt_seed h1 H1) as [-> _]. destruct (nxt_seed h2 H2) as [-> _].
  by f_equal.
Qed.

Lemma it_seed k h : h ∈ seeds m → it k h ∈ seeds m.
Proof.
  intros Hh. induction k as [| k IH]; [done |].
  cbn [Nat.iter]. by apply nxt_seed.
Qed.

Lemma it_cancel k h1 h2 :
  h1 ∈ seeds m → h2 ∈ seeds m → it k h1 = it k h2 → h1 = h2.
Proof.
  intros H1 H2. induction k as [| k IH]; [done |].
  cbn [Nat.iter]. intros He. apply IH.
  apply nxt_inj; [by apply it_seed | by apply it_seed | done].
Qed.

(** Some step brings [h] back. *)
Lemma it_returns h :
  h ∈ seeds m → ∃ k, (0 < k ≤ length (seeds m))%nat ∧ it k h = h.
Proof.
  intros Hh. set (n := length (seeds m)).
  set (L := (fun k => it k h) <$> seq 0 (S n)).
  assert (¬ NoDup L) as Hn.
  { intros Hnd.
    assert (L ⊆+ seeds m) as Hsub.
    { apply NoDup_submseteq; [done |]. intros x Hx.
      apply list_elem_of_fmap in Hx as (k & -> & _). by apply it_seed. }
    apply submseteq_length in Hsub. unfold L in Hsub.
    rewrite length_fmap, length_seq in Hsub. fold n in Hsub. lia. }
  destruct (repeated_entry L Hn) as (i & j & x & Hij & Hi & Hj).
  unfold L in Hi, Hj. rewrite list_lookup_fmap in Hi, Hj.
  destruct (seq 0 (S n) !! i) as [i' |] eqn:Ei; [| done].
  destruct (seq 0 (S n) !! j) as [j' |] eqn:Ej; [| done].
  apply lookup_seq in Ei as [-> Hi']. apply lookup_seq in Ej as [-> Hj'].
  change (Some (it i h) = Some x) in Hi. change (Some (it j h) = Some x) in Hj.
  injection Hi as Hi. injection Hj as Hj.
  exists (j - i)%nat. split; [lia |].
  apply (it_cancel i); [by apply it_seed | done |].
  cbn beta. rewrite <- Nat.iter_add.
  replace (i + (j - i))%nat with j by lia. by rewrite Hi, Hj.
Qed.

(** The first step that brings [h] back. *)
Lemma it_first_return h :
  h ∈ seeds m →
  ∃ k, (0 < k ≤ length (seeds m))%nat ∧ it k h = h ∧
       ∀ j, (0 < j < k)%nat → it j h ≠ h.
Proof.
  intros Hh. destruct (it_returns h Hh) as (k & [Hk0 Hkn] & Hk).
  revert Hk0 Hkn Hk. induction k as [k IH] using lt_wf_ind. intros Hk0 Hkn Hk.
  destruct (decide (Exists (fun j => it j h = h) (seq 1 (k - 1)))) as [He | Hne].
  - apply Exists_exists in He as (j & Hj & Hjh). apply elem_of_seq in Hj.
    apply (IH j); [lia | lia | lia | done].
  - exists k. split; [done |]. split; [done |]. intros j Hj Hjh.
    apply Hne. apply Exists_exists. exists j. split; [| done].
    apply elem_of_seq. lia.
Qed.

Lemma chain_iterates h s c :
  h ∈ seeds m → chain m (it s h) ((fun j => it j h) <$> seq (S s) c).
Proof.
  intros Hh. revert s. induction c as [| c IH]; intros s; [done |].
  cbn [seq fmap list_fmap chain]. split; [| apply IH].
  cbn [Nat.iter]. apply nxt_seed. by apply it_seed.
Qed.

(** The loop of a candidate: what the tracer pushes when started from it. *)
Lemma loop_of_seed h :
  h ∈ seeds m →
  ∃ l, chain m h l ∧ l ≠ [] ∧ last l = Some h ∧ (h ∉ removelast l) ∧
       NoDup l ∧ (∀ x, x ∈ l → x ∈ seeds m) ∧
       (length l ≤ length (seeds m))%nat.
Proof.
  intros Hh. destruct (it_first_return h Hh) as (k & [Hk0 Hkn] & Hk & Hmin).
  exists ((fun j => it j h) <$> seq 1 k).
  assert (seq 1 k = seq 1 (k - 1) ++ [k]) as Hseq.
  { replace k with (S (k - 1)) at 1 by lia. rewrite seq_S. f_equal. f_equal. lia. }
  split; [apply (chain_iterates h 0 k Hh) |].
  split; [destruct k; [lia | done] |].
  split; [rewrite Hseq, fmap_app; cbn [fmap list_fmap]; rewrite last_snoc;
          by f_equal |].
  split.
  { rewrite Hseq, fmap_app. cbn [fmap list_fmap]. rewrite removelast_last.
    intros Hin. apply list_elem_of_fmap in Hin as (j & Hj & Hin).
    apply elem_of_seq in Hin. apply (Hmin j); [lia | done]. }
  split.
  { apply NoDup_fmap_2_strong; [| apply NoDup_seq].
    intros i j Hi Hj He. apply elem_of_seq in Hi, Hj.
    destruct (decide (i = j)) as [| Hne]; [done | exfalso].
    assert (∀ a b, (1 ≤ a < b)%nat → (b ≤ k)%nat → it a h = it b h → False) as Hlt.
    { intros a b Hab Hb Hab'. apply (Hmin (b - a)%nat); [lia |].
      apply (it_cancel a); [by apply it_seed | done |].
      cbn beta. rewrite <- Nat.iter_add.
      replace (a + (b - a))%nat with b by lia. by rewrite Hab'. }
    destruct (decide (i < j)%nat).
    - apply (Hlt i j); [lia | lia | done].
    - apply (Hlt j i); [lia | lia | done]. }
  split.
  { intros x Hx. apply list_elem_of_fmap in Hx as (j & -> & _). by apply it_seed. }
  rewrite length_fmap, length_seq. lia.
Qed.
End Orbit.
(** ** The [while] loop of the [CBoundary] constructor *)

Lemma chain_first m h l x :
  chain m h l → l !! 0%nat = Some x → boundary_next m h = Some x.
Proof. destruct l as [| y l]; [done |]. intros [Hn _] [= <-]. done. Qed.

Lemma chain_step m h l i x y :
  chain m h l → l !! i = Some x → l !! S i = Some y → boundary_next m x = Some y.
Proof.
  revert h i. induction l as [| z l IH]; intros h i Hc Hx Hy; [done |].
  destruct Hc as [_ Hc]. destruct i as [| i].
  - injection Hx as ->. by apply (chain_first m x l y).
  - by apply (IH z i).
Qed.

Lemma elem_of_foldl_erase (l : list ptr) : ∀ (s : list ptr) y,
  y ∈ foldl (fun s x => set_erase x s) s l ↔ y ∈ s ∧ y ∉ l.
Proof.
  induction l as [| x l IH]; intros s y; cbn [foldl].
  - split; [intros H; split; [done | apply not_elem_of_nil] | by intros [H _]].
  - rewrite IH. unfold set_erase. rewrite list_elem_of_filter, not_elem_of_cons. tauto.
Qed.

Lemma NoDup_foldl_erase (l : list ptr) : ∀ s : list ptr,
  NoDup s → NoDup (foldl (fun s x => set_erase x s) s l).
Proof.
  induction l as [| x l IH]; intros s Hs; cbn [foldl]; [done |].
  apply IH. by apply NoDup_filter.
Qed.

Lemma seeds_size m :
  NoDup (seeds m) → (∀ h, h ∈ seeds m → is_Some (length_of m h)) →
  (length (seeds m) ≤ size (hh m))%nat.
Proof.
  intros Hnd Hlive. rewrite <- (length_map_to_list (hh m)).
  rewrite <- (length_fmap (fun kv => Some kv.1) (map_to_list (hh m))).
  apply submseteq_length, NoDup_submseteq; [done |].
  intros h Hh. destruct (Hlive h Hh) as [z Hz].
  destruct (length_of_Some m h z Hz) as (a & x & y & -> & Hx & _).
  apply list_elem_of_fmap. exists (a, x). split; [done |].
  by apply elem_of_map_to_list.
Qed.

Section TraceAll.
Variable m : Mesh.
Hypothesis Ht : traceable m.

(** The [CLoop] constructor on a candidate. *)
Lemma CLoop_trace_seed h :
  h ∈ seeds m →
  ∃ L, CLoop_trace h m = Ok L m ∧ traced m L ∧ l_pHalfedge L = h ∧
       NoDup (l_halfedges L) ∧ (∀ x, x ∈ l_halfedges L → x ∈ seeds m).
Proof.
  intros Hh.
  destruct (loop_of_seed m Ht h Hh) as (l & Hc & Hne & Hlast & Hnot & Hnd & Hsub & Hlen).
  exists (mkLoop (total_length m l) h l []).
  split; [| by repeat split].
  assert (Forall (fun x => is_Some (length_of m x)) l) as Hlive.
  { apply Forall_forall. intros x Hx. apply (tr_length m Ht), Hsub, Hx. }
  assert (length l ≤ S (size (hh m)))%nat as Hfuel.
  { pose proof (seeds_size m (tr_nodup m Ht) (tr_length m Ht)). lia. }
  assert (walk_fuel m = Ok (S (size (hh m))) m) as Hw by reflexivity.
  unfold CLoop_trace. rewrite (bind_Ok _ _ _ _ _ Hw).
  by rewrite (bind_Ok _ _ _ _ _
                (trace_loop_chain m h l (S (size (hh m))) h [] 0 Hc Hne Hlast Hnot
                   Hlive Hfuel)).
Qed.

(** A traced loop holds [x] exactly when it holds the half-edge after [x]. *)
Lemma loop_closed h l x x' :
  h ∈ seeds m → chain m h l → last l = Some h →
  (∀ y, y ∈ l → y ∈ seeds m) →
  x ∈ seeds m → boundary_next m x = Some x' →
  x ∈ l ↔ x' ∈ l.
Proof.
  intros Hh Hc Hlast Hsub Hx Hn. rewrite last_lookup in Hlast. split.
  - intros Hin. apply list_elem_of_lookup_1 in Hin as [i Hi].
    destruct (l !! S i) as [y |] eqn:Ey.
    + pose proof (chain_step m h l i x y Hc Hi Ey) as Hy.
      assert (x' = y) as -> by congruence. by eapply list_elem_of_lookup_2.
    + apply lookup_ge_None in Ey. pose proof (lookup_lt_Some _ _ _ Hi) as Hlt.
      assert (i = pred (length l)) as -> by lia.
      assert (x = h) as -> by congruence.
      destruct (l !! 0%nat) as [y |] eqn:E0.
      * pose proof (chain_first m h l y Hc E0) as Hy.
        assert (x' = y) as -> by congruence. by eapply list_elem_of_lookup_2.
      * apply lookup_ge_None in E0. lia.
  - intros Hin. apply list_elem_of_lookup_1 in Hin as [i Hi].
    destruct i as [| i].
    + pose proof (chain_first m h l x' Hc Hi) as Hy.
      assert (x = h) as ->.
      { apply (tr_inj m Ht); [done | done | congruence]. }
      by eapply list_elem_of_lookup_2.
    + destruct (l !! i) as [p |] eqn:Ep.
      * pose proof (chain_step m h l i p x' Hc Ep Hi) as Hy.
        assert (p ∈ l) as Hp by (by eapply list_elem_of_lookup_2).
        assert (x = p) as ->.
        { apply (tr_inj m Ht); [done | by apply Hsub | congruence]. }
        done.
      * apply lookup_ge_None in Ep. apply lookup_lt_Some in Hi. lia.
Qed.

(** What is after a half-edge of a closed set is in the set. *)
Lemma chain_in (S : list ptr) h l :
  (∀ x x', x ∈ seeds m → boundary_next m x = Some x' → x ∈ S ↔ x' ∈ S) →
  chain m h l → h ∈ seeds m → h ∈ S → (∀ y, y ∈ l → y ∈ seeds m) →
  ∀ y, y ∈ l → y ∈ S.
Proof.
  intros Hcl. revert h. induction l as [| z l IH]; intros h Hc Hh HS Hsub y Hy;
    [by apply elem_of_nil in Hy |].
  destruct Hc as [Hn Hc].
  assert (z ∈ S) as Hz by (by apply (Hcl h z Hh Hn)).
  apply elem_of_cons in Hy as [-> | Hy]; [done |].
  apply (IH z Hc); [apply Hsub; by left | done | | done].
  intros y' Hy'. apply Hsub. by right.
Qed.

(** The loops traced from a set of candidates that is closed under "the
    half-edge after" hold each of them once. *)
Lemma trace_all_spec fuel : ∀ (S : list ptr) loops,
  NoDup S → (∀ x, x ∈ S → x ∈ seeds m) →
  (∀ x x', x ∈ seeds m → boundary_next m x = Some x' → x ∈ S ↔ x' ∈ S) →
  (length S < fuel)%nat →
  ∃ new, trace_all fuel S loops m = Ok (loops ++ new) m ∧
         Forall (traced m) new ∧ concat (l_halfedges <$> new) ≡ₚ S.
Proof.
  induction fuel as [| fuel IH]; intros S loops Hnd Hsub Hcl Hlen; [lia |].
  destruct S as [| h S].
  { exists []. split; [by rewrite app_nil_r |]. split; [apply Forall_nil_2 | done]. }
  assert (h ∈ seeds m) as Hh by (apply Hsub; by left).
  destruct (CLoop_trace_seed h Hh) as (L & Hrun & HL & Hstart & HndL & HsubL).
  pose proof HL as (Hc & Hlast & _). rewrite Hstart in Hc, Hlast.
  set (S2 := foldl (fun s x => set_erase x s) (h :: S) (l_halfedges L)).
  assert (∀ y, y ∈ l_halfedges L → y ∈ h :: S) as HLS.
  { apply (chain_in (h :: S) h); try done. by left. }
  assert (h ∈ l_halfedges L) as HhL.
  { rewrite last_lookup in Hlast. by eapply list_elem_of_lookup_2. }
  destruct (IH S2 (loops ++ [L])) as (new & Hnew & Htr & Hperm).
  - by apply NoDup_foldl_erase.
  - intros x [Hx _]%elem_of_foldl_erase. by apply Hsub.
  - intros x x' Hx Hn. unfold S2. rewrite !elem_of_foldl_erase.
    rewrite (Hcl x x' Hx Hn).
    rewrite (loop_closed h (l_halfedges L) x x' Hh Hc Hlast HsubL Hx Hn). done.
  - assert (S2 ⊆+ S) as Hle.
    { apply NoDup_submseteq; [by apply NoDup_foldl_erase |].
      intros x [Hx Hnx]%elem_of_foldl_erase.
      apply elem_of_cons in Hx as [-> | Hx]; done. }
    apply submseteq_length in Hle. cbn in Hlen. lia.
  - exists (L :: new). split; [| split].
    + cbn [trace_all]. rewrite (bind_Ok _ _ _ _ _ Hrun). fold S2.
      rewrite Hnew. by rewrite <- app_assoc.
    + by apply Forall_cons_2.
    + cbn [fmap list_fmap concat]. rewrite Hperm.
      apply NoDup_Permutation; [| done |].
      * apply NoDup_app. split; [done |]. split; [| by apply NoDup_foldl_erase].
        intros x Hx [_ Hnx]%elem_of_foldl_erase. done.
      * intros x. rewrite elem_of_app. unfold S2. rewrite elem_of_foldl_erase.
        split.
        -- intros [Hx | [Hx _]]; [by apply HLS | done].
        -- intros Hx. destruct (decide (x ∈ l_halfedges L)); [by left | by right].
Qed.
End TraceAll.

(** ** C7: the [CBoundary] constructor *)


Lemma quad_mesh_traceable : traceable quad_mesh.
Proof.
  assert (seeds quad_mesh = [Some 2; Some 3; Some 4; Some 6]%positive) as Hs
    by (vm_compute; reflexivity).
  split.
  - vm_compute m_edges.
    repeat (apply Forall_cons_2; [vm_compute; by eexists |]). apply Forall_nil_2.
  - rewrite Hs. apply (bool_decide_unpack _). vm_compute. exact I.
  - rewrite Hs. intros h Hh.
    repeat (apply elem_of_cons in Hh as [-> | Hh]; [vm_compute; by eexists |]).
    by apply elem_of_nil in Hh.
  - rewrite Hs. intros h Hh.
    repeat (apply elem_of_cons in Hh as [-> | Hh];
            [eexists; split; [vm_compute; reflexivity |];
             apply (bool_decide_unpack _); vm_compute; exact I |]).
    by apply elem_of_nil in Hh.
  - rewrite Hs. intros h1 h2 H1 H2.
    repeat (apply elem_of_cons in H1 as [-> | H1]);
      try (by apply elem_of_nil in H1);
      repeat (apply elem_of_cons in H2 as [-> | H2]);
      try (by apply elem_of_nil in H2);
      vm_compute; congruence.
Qed.


(** * Further properties of the code *)

(** ** [_bubble_sort] *)


(** ** The seeding loop of [CBoundary] *)

(** X2.  When every entry of the edge list is a live edge, the seeding
    loop of the [CBoundary] constructor returns, changes nothing, and its
    set holds, each once, the slot-0 pointers of the boundary edges of
    the list and nothing else. *)
Theorem collect_boundary_hes_candidates m :
  Forall (fun e => is_Some (edge_at m e)) (m_edges m) →
  ∃ cands, collect_boundary_hes (m_edges m) [] m = Ok cands m ∧
           NoDup cands ∧ ∀ h, h ∈ cands ↔ h ∈ seeds m.
Proof.
  intros Hl. eexists. split; [apply (collect_boundary_hes_run m _ [] Hl) |].
  fold (seeds m). split.
  - apply sorted_NoDup, foldl_set_insert_sorted, SSorted_nil.
  - intros h. rewrite foldl_set_insert_elem. split; [| by left].
    intros [H | H]; [done | by apply elem_of_nil in H].
Qed.

Lemma collect_boundary_hes_candidates_witness :
  ∃ cands, collect_boundary_hes (m_edges quad_mesh) [] quad_mesh = Ok cands quad_mesh ∧
           NoDup cands ∧ ∀ h, h ∈ cands ↔ h ∈ seeds quad_mesh.
Proof.
  apply (collect_boundary_hes_candidates quad_mesh).
  vm_compute m_edges.
  repeat (apply Forall_cons_2; [vm_compute; by eexists |]). apply Forall_nil_2.
Defined.

(** ** The out-half-edge queries *)

(** X3.  [most_clw_out_halfedge] and [most_ccw_out_halfedge] write
    nothing: when they return, the mesh is as it was, the vertex's
    representative half-edge included. *)
Theorem out_halfedge_queries_read_only (v : ptr) (m : Mesh) :
  (∀ h m', most_clw_out_halfedge v m = Ok h m' → m' = m) ∧
  (∀ h m', most_ccw_out_halfedge v m = Ok h m' → m' = m).
Proof.
  split; intros h m' H.
  - pose proof (read_only_most_clw_out_halfedge v m) as Hr. by rewrite H in Hr.
  - pose proof (read_only_most_ccw_out_halfedge v m) as Hr. by rewrite H in Hr.
Qed.

(** ** [edge(v0, v1)] *)

Lemma find_edge_sym m v0 v1 l : find_edge v0 v1 l m = find_edge v1 v0 l m.
Proof.
  induction l as [| e l IH]; [done |]. cbn [find_edge].
  unfold mbind, M_bind, bind.
  destruct (halfedge0 e m) as [pH m1 | | |] eqn:E0; try done.
  pose proof (read_only_halfedge0 e m) as R0. rewrite E0 in R0. subst m1.
  destruct (source pH m) as [s m1 | | |] eqn:Es; try done.
  pose proof (read_only_source pH m) as Rs. rewrite Es in Rs. subst m1.
  destruct (target pH m) as [t m1 | | |] eqn:Et; try done.
  pose proof (read_only_target pH m) as Rt. rewrite Et in Rt. subst m1.
  destruct (ptr_eqb s v0 && ptr_eqb t v1), (ptr_eqb s v1 && ptr_eqb t v0);
    try done.
Qed.

(** X4.  [edge(v0, v1)] changes nothing.  An edge it returns sits in the
    candidate list of the vertex with the smaller id ([v1] on a tie), and
    its slot-0 half-edge runs from [v0] to [v1] or from [v1] to [v0];
    no entry of the list before it does. *)
Theorem edge_sound m v0 v1 e :
  val (edge v0 v1 m) = Some (Some e) →
  edge v0 v1 m = Ok (Some e) m ∧
  joins m (Some e) v0 v1 ∧
  ∃ pV x l1 l2,
    val (smaller_id v0 v1 m) = Some (Some pV) ∧ hv m !! pV = Some x ∧
    v_ledges x = l1 ++ Some e :: l2 ∧
    Forall (fun e' => ¬ joins m e' v0 v1) l1.
Proof.
  intros Hv. split; [by apply read_only_val; [apply read_only_edge |] |].
  destruct (edge_inv m v0 v1 e Hv)
    as (a1 & a2 & x1 & x2 & pV & x & l1 & l2 & -> & -> & H1 & H2 & HpV & Hx & Hl
        & _ & Hn & Hj).
  split; [done |]. exists pV, x, l1, l2. split; [| done].
  rewrite (smaller_id_Ok m a1 a2 x1 x2 H1 H2). cbn. rewrite HpV.
  by destruct (v_id x1 <? v_id x2).
Qed.

Lemma edge_sound_witness :
  edge (Some 1%positive) (Some 3%positive) quad_mesh = Ok (Some 1%positive) quad_mesh ∧
  joins quad_mesh (Some 1%positive) (Some 1%positive) (Some 3%positive) ∧
  ∃ pV x l1 l2,
    val (smaller_id (Some 1%positive) (Some 3%positive) quad_mesh) = Some (Some pV) ∧
    hv quad_mesh !! pV = Some x ∧
    v_ledges x = l1 ++ Some 1%positive :: l2 ∧
    Forall (fun e' => ¬ joins quad_mesh e' (Some 1%positive) (Some 3%positive)) l1.
Proof.
  apply (edge_sound quad_mesh (Some 1%positive) (Some 3%positive) 1).
  vm_compute. reflexivity.
Defined.

(** X5.  For two live vertices with different ids the order of the
    arguments of [edge] does not matter. *)
Theorem edge_symmetric m v0 v1 x0 x1 :
  vertex_at m v0 = Some x0 → vertex_at m v1 = Some x1 → v_id x0 ≠ v_id x1 →
  edge v0 v1 m = edge v1 v0 m.
Proof.
  intros H0 H1 Hne.
  destruct v0 as [a0 |]; [| done]. destruct v1 as [a1 |]; [| done].
  rewrite vertex_at_Some in H0, H1. unfold edge.
  rewrite (bind_Ok _ _ _ _ _ (smaller_id_Ok m a0 a1 x0 x1 H0 H1)).
  rewrite (bind_Ok _ _ _ _ _ (smaller_id_Ok m a1 a0 x1 x0 H1 H0)).
  destruct (v_id x0 <? v_id x1) eqn:E01, (v_id x1 <? v_id x0) eqn:E10;
    try (apply Z.ltb_lt in E01); try (apply Z.ltb_lt in E10);
    try (apply Z.ltb_ge in E01); try (apply Z.ltb_ge in E10); try lia.
  - rewrite !(bind_Ok _ _ _ _ _ (rdV_Ok _ _ _ H0)). apply find_edge_sym.
  - rewrite !(bind_Ok _ _ _ _ _ (rdV_Ok _ _ _ H1)). apply find_edge_sym.
Qed.

Lemma edge_symmetric_witness :
  edge (Some 1%positive) (Some 3%positive) quad_mesh
  = edge (Some 3%positive) (Some 1%positive) quad_mesh.
Proof.
  eapply (edge_symmetric quad_mesh (Some 1%positive) (Some 3%positive)).
  - vm_compute. reflexivity.
  - vm_compute. reflexivity.
  - vm_compute. discriminate.
Defined.

(** ** The id-to-vertex map *)

(** X6.  [create_vertex] on an id the map does not bind allocates a vertex
    that carries the id, appends it to the vertex list and registers it:
    [vertex(id)] then returns it. *)
Theorem create_vertex_fresh_id m id :
  m_map_vert m !! id = None →
  ∃ v m', create_vertex id m = Ok (Some v) m' ∧
          hv m !! v = None ∧
          v_id <$> hv m' !! v = Some id ∧
          m_verts m' = m_verts m ++ [Some v] ∧
          vertex id m' = Ok (Some v) m'.
Proof.
  intros Hid. unfold create_vertex.
  exists (fresh (dom (hv m))). eexists. split.
  - unfold new_CVertex, wrV, rdV. munfold. cbn. rewrite lookup_insert_eq. cbn.
    reflexivity.
  - split; [apply not_elem_of_dom, is_fresh |]. cbn.
    split; [by rewrite lookup_insert_eq |]. split; [done |].
    unfold vertex. munfold. cbn. unfold map_insert_new. rewrite Hid.
    by rewrite lookup_insert_eq.
Qed.

Lemma create_vertex_fresh_id_witness :
  ∃ v m', create_vertex 7 quad_mesh = Ok (Some v) m' ∧
          hv quad_mesh !! v = None ∧
          v_id <$> hv m' !! v = Some 7 ∧
          m_verts m' = m_verts quad_mesh ++ [Some v] ∧
          vertex 7 m' = Ok (Some v) m'.
Proof. apply (create_vertex_fresh_id quad_mesh 7). vm_compute. reflexivity. Defined.

(** X7.  [vertex(id)] on an id the map does not bind returns [NULL] and
    binds the id to [NULL]; a [create_vertex(id)] after it allocates a
    vertex but cannot register it, and [vertex(id)] goes on returning
    [NULL]. *)
Theorem vertex_missing_id_blocks_create_vertex m id :
  m_map_vert m !! id = None →
  ∃ m1, vertex id m = Ok NULL m1 ∧
        m_map_vert m1 !! id = Some NULL ∧
        ∃ v m2, create_vertex id m1 = Ok (Some v) m2 ∧
                num_vertices m2 = S (num_vertices m) ∧
                vertex id m2 = Ok NULL m2.
Proof.
  intros Hid. eexists. split.
  - unfold vertex. munfold. cbn. rewrite Hid. reflexivity.
  - cbn. split; [by rewrite lookup_insert_eq |].
    exists (fresh (dom (hv m))). eexists. split.
    + unfold create_vertex, new_CVertex, wrV, rdV. munfold. cbn.
      rewrite lookup_insert_eq. cbn. reflexivity.
    + cbn. unfold num_vertices. split; [rewrite length_app; cbn; lia |].
      unfold vertex. munfold. cbn. unfold map_insert_new.
      rewrite !lookup_insert_eq. reflexivity.
Qed.

Lemma vertex_missing_id_blocks_create_vertex_witness :
  ∃ m1, vertex 7 quad_mesh = Ok NULL m1 ∧
        m_map_vert m1 !! 7 = Some NULL ∧
        ∃ v m2, create_vertex 7 m1 = Ok (Some v) m2 ∧
                num_vertices m2 = S (num_vertices quad_mesh) ∧
                vertex 7 m2 = Ok NULL m2.
Proof.
  apply (vertex_missing_id_blocks_create_vertex quad_mesh 7). vm_compute. reflexivity.
Defined.

(** ** [splitFace] on a triangle with a boundary edge *)

Lemma bind_Ok_inv {A B} (c : M A) (k : A → M B) m b m' :
  (c ≫= k) m = Ok b m' → ∃ a m1, c m = Ok a m1 ∧ k a m1 = Ok b m'.
Proof.
  unfold mbind, M_bind, bind. destruct (c m) as [a m1 | | |]; try done.
  intros H. by exists a, m1.
Qed.

Lemma straight_ret {A} (a : A) : straight (mret a).
Proof. by intros m. Qed.
Lemma straight_bind {A B} (c : M A) (k : A → M B) :
  straight c → (∀ a, straight (k a)) → straight (c ≫= k).
Proof.
  intros Hc Hk m. unfold mbind, M_bind, bind. specialize (Hc m).
  destruct (c m) as [a m1 | | |]; try done. apply Hk.
Qed.
Lemma straight_fault {A} : straight (@fault A).
Proof. by intros m. Qed.
Lemma straight_get : straight get.
Proof. by intros m. Qed.
Lemma straight_modify f : straight (modify f).
Proof. by intros m. Qed.
Lemma straight_rdV p : straight (rdV p).
Proof. intros m. unfold rdV. destruct p as [a |]; [| done]. by destruct (hv m !! a). Qed.
Lemma straight_rdE p : straight (rdE p).
Proof. intros m. unfold rdE. destruct p as [a |]; [| done]. by destruct (he m !! a). Qed.
Lemma straight_rdF p : straight (rdF p).
Proof. intros m. unfold rdF. destruct p as [a |]; [| done]. by destruct (hf m !! a). Qed.
Lemma straight_rdH p : straight (rdH p).
Proof. intros m. unfold rdH. destruct p as [a |]; [| done]. by destruct (hh m !! a). Qed.
Lemma straight_new_CVertex : straight new_CVertex.
Proof. by intros m. Qed.
Lemma straight_new_CEdge : straight new_CEdge.
Proof. by intros m. Qed.
Lemma straight_new_CFace : straight new_CFace.
Proof. by intros m. Qed.
Lemma straight_new_CHalfEdge : straight new_CHalfEdge.
Proof. by intros m. Qed.
Lemma straight_for_each {X} (l : list X) body :
  (∀ x, straight (body x)) → straight (for_each l body).
Proof.
  intros Hb. induction l as [| x l IH]; cbn [for_each]; [apply straight_ret |].
  apply straight_bind; [apply Hb | by intros _].
Qed.

Create HintDb straight.
#[export] Hint Resolve straight_ret straight_fault straight_get straight_modify
  straight_rdV straight_rdE straight_rdF straight_rdH straight_new_CVertex
  straight_new_CEdge straight_new_CFace straight_new_CHalfEdge : straight.
#[export] Hint Extern 1 (straight (mbind _ _)) =>
  apply straight_bind; [| intros ?] : straight.
#[export] Hint Extern 1 (straight (for_each _ _)) =>
  apply straight_for_each; intros ? : straight.
#[export] Hint Extern 2 (straight (match ?x with _ => _ end)) => destruct x : straight.
#[export] Hint Extern 2 (straight (if ?x then _ else _)) => destruct x : straight.
#[export] Hint Extern 3 (straight (let '(_, _) := ?x in _)) => destruct x : straight.

Ltac straight_go := auto 80 with straight.

Lemma straight_wrV p f : straight (wrV p f).
Proof. unfold wrV. straight_go. Qed.
Lemma straight_wrE p f : straight (wrE p f).
Proof. unfold wrE. straight_go. Qed.
Lemma straight_wrF p f : straight (wrF p f).
Proof. unfold wrF. straight_go. Qed.
Lemma straight_wrH p f : straight (wrH p f).
Proof. unfold wrH. straight_go. Qed.
#[export] Hint Resolve straight_wrV straight_wrE straight_wrF straight_wrH : straight.

Lemma straight_next h : straight (next h).
Proof. unfold next. straight_go. Qed.
Lemma straight_target h : straight (target h).
Proof. unfold target. straight_go. Qed.
Lemma straight_edge_of h : straight (edge_of h).
Proof. unfold edge_of. straight_go. Qed.
Lemma straight_dual h : straight (dual h).
Proof. unfold dual, other. straight_go. Qed.
Lemma straight_create_vertex id : straight (create_vertex id).
Proof. unfold create_vertex. straight_go. Qed.
Lemma straight_incr_vertex_id : straight incr_vertex_id.
Proof. unfold incr_vertex_id. straight_go. Qed.
Lemma straight_incr_face_id : straight incr_face_id.
Proof. unfold incr_face_id. straight_go. Qed.
#[export] Hint Resolve straight_next straight_target straight_edge_of straight_dual
  straight_create_vertex straight_incr_vertex_id straight_incr_face_id : straight.
Lemma straight_new_triangle : straight new_triangle.
Proof. unfold new_triangle. straight_go. Qed.
Lemma straight_new_edge_listed : straight new_edge_listed.
Proof. unfold new_edge_listed. straight_go. Qed.
Lemma straight_attach_halfedge_to_edge a b e : straight (attach_halfedge_to_edge a b e).
Proof. unfold attach_halfedge_to_edge. straight_go. Qed.
#[export] Hint Resolve straight_new_triangle straight_new_edge_listed
  straight_attach_halfedge_to_edge : straight.

Lemma straight_splitFace f : straight (splitFace f).
Proof.
  unfold splitFace.
  repeat first [ apply straight_bind; [solve [straight_go] | intros ?]
               | match goal with |- straight (let '(_, _) := ?x in _) => destruct x end
               | solve [straight_go] ].
Qed.
Lemma wrH_NULL f m r m' : wrH NULL f m ≠ Ok r m'.
Proof. done. Qed.

Lemma attach_NULL a e m r m' : attach_halfedge_to_edge a NULL e m ≠ Ok r m'.
Proof.
  unfold attach_halfedge_to_edge. intros H.
  apply bind_Ok_inv in H as (? & ? & _ & H).
  apply bind_Ok_inv in H as (? & ? & _ & H).
  apply bind_Ok_inv in H as (? & ? & _ & H).
  by apply wrH_NULL in H.
Qed.

(** What [splitFace] has done when it reads the face: the half-edge,
    edge and face stores are as at the start. *)
Lemma splitFace_prologue m id pV m1 m2 :
  incr_vertex_id m = Ok id m1 → create_vertex id m1 = Ok pV m2 →
  hh m2 = hh m ∧ he m2 = he m ∧ hf m2 = hf m.
Proof.
  unfold incr_vertex_id. munfold. unfold get.
  destruct (bool_decide (m_vertex_id m = INT_MAX)); [done |].
  unfold modify. intros [= <- <-].
  unfold create_vertex, new_CVertex, wrV, rdV. munfold. cbn.
  rewrite lookup_insert_eq. cbn. by intros [= <- <-].
Qed.

Lemma val_Ok_ro {A} (c : M A) m a m' :
  read_only c → c m = Ok a m' → m' = m ∧ val (c m) = Some a.
Proof.
  intros Hr H. specialize (Hr m). rewrite H in Hr. subst. by rewrite H.
Qed.

Lemma splitFace_boundary_never_Ok m f h0 h1 h2 d0 d1 d2 :
  f_halfedge <$> hf m !! f = Some (Some h0) →
  val (next (Some h0) m) = Some (Some h1) →
  val (next (Some h1) m) = Some (Some h2) →
  val (dual (Some h0) m) = Some d0 →
  val (dual (Some h1) m) = Some d1 →
  val (dual (Some h2) m) = Some d2 →
  d0 = NULL ∨ d1 = NULL ∨ d2 = NULL →
  ∀ p m', splitFace (Some f) m ≠ Ok p m'.
Proof.
  intros Hf Hn0 Hn1 Hd0 Hd1 Hd2 Hnull p m' Hrun. unfold splitFace in Hrun.
  apply bind_Ok_inv in Hrun as (id & m1 & Hid & Hrun).
  apply bind_Ok_inv in Hrun as (pV & m2 & HpV & Hrun).
  destruct (splitFace_prologue m id pV m1 m2 Hid HpV) as (Hhh & Hhe & Hhf).
  assert (∀ h, val (next h m2) = val (next h m)) as Enext.
  { intros h. rewrite !val_next. unfold halfedge_at. by rewrite Hhh. }
  assert (∀ h, val (dual h m2) = val (dual h m)) as Edual.
  { intros h. rewrite !val_dual. unfold halfedge_at, edge_at. by rewrite Hhh, Hhe. }
  apply bind_Ok_inv in Hrun as (a0 & m3 & Ha0 & Hrun).
  assert (m3 = m2 ∧ a0 = Some h0) as [-> ->].
  { apply bind_Ok_inv in Ha0 as (fx & mf & Hfx & Hret).
    unfold rdF in Hfx. rewrite Hhf in Hfx.
    destruct (hf m !! f) as [fx' |]; [| done]. cbn in Hf.
    injection Hfx as <- <-. injection Hret as <- <-. split; [done | congruence]. }
  apply bind_Ok_inv in Hrun as (a1 & m3 & Ha1 & Hrun).
  apply val_Ok_ro in Ha1 as [-> Ha1]; [| ro]. rewrite Enext, Hn0 in Ha1.
  injection Ha1 as <-.
  apply bind_Ok_inv in Hrun as (a2 & m3 & Ha2 & Hrun).
  apply val_Ok_ro in Ha2 as [-> Ha2]; [| ro]. rewrite Enext, Hn1 in Ha2.
  injection Ha2 as <-.
  apply bind_Ok_inv in Hrun as (v0 & m3 & Hv0 & Hrun).
  apply val_Ok_ro in Hv0 as [-> _]; [| ro].
  apply bind_Ok_inv in Hrun as (eg0 & m3 & He0 & Hrun).
  apply val_Ok_ro in He0 as [-> _]; [| ro].
  apply bind_Ok_inv in Hrun as (hs0 & m3 & Hs0 & Hrun).
  apply val_Ok_ro in Hs0 as [-> Hs0]; [| ro]. rewrite Edual, Hd0 in Hs0.
  injection Hs0 as <-.
  apply bind_Ok_inv in Hrun as (v1 & m3 & Hv1 & Hrun).
  apply val_Ok_ro in Hv1 as [-> _]; [| ro].
  apply bind_Ok_inv in Hrun as (eg1 & m3 & He1 & Hrun).
  apply val_Ok_ro in He1 as [-> _]; [| ro].
  apply bind_Ok_inv in Hrun as (hs1 & m3 & Hs1 & Hrun).
  apply val_Ok_ro in Hs1 as [-> Hs1]; [| ro]. rewrite Edual, Hd1 in Hs1.
  injection Hs1 as <-.
  apply bind_Ok_inv in Hrun as (v2 & m3 & Hv2 & Hrun).
  apply val_Ok_ro in Hv2 as [-> _]; [| ro].
  apply bind_Ok_inv in Hrun as (eg2 & m3 & He2 & Hrun).
  apply val_Ok_ro in He2 as [-> _]; [| ro].
  apply bind_Ok_inv in Hrun as (hs2 & m3 & Hs2 & Hrun).
  apply val_Ok_ro in Hs2 as [-> Hs2]; [| ro]. rewrite Edual, Hd2 in Hs2.
  injection Hs2 as <-.
  apply bind_Ok_inv in Hrun as ([? [[n1 n2] n3]] & m3 & _ & Hrun).
  apply bind_Ok_inv in Hrun as ([? [[n4 n5] n6]] & m4 & _ & Hrun).
  apply bind_Ok_inv in Hrun as (e0 & m5 & _ & Hrun).
  apply bind_Ok_inv in Hrun as (e1 & m6 & _ & Hrun).
  apply bind_Ok_inv in Hrun as (e2 & m7 & _ & Hrun).
  apply bind_Ok_inv in Hrun as (? & m8 & _ & Hrun).
  apply bind_Ok_inv in Hrun as (? & m9 & _ & Hrun).
  apply bind_Ok_inv in Hrun as (? & m10 & _ & Hrun).
  apply bind_Ok_inv in Hrun as (? & m11 & A0 & Hrun).
  apply bind_Ok_inv in Hrun as (? & m12 & A1 & Hrun).
  apply bind_Ok_inv in Hrun as (? & m13 & A2 & Hrun).
  destruct Hnull as [-> | [-> | ->]].
  - by apply attach_NULL in A0.
  - by apply attach_NULL in A1.
  - by apply attach_NULL in A2.
Qed.

(** X11.  Let [f] be a live face whose half-edges [h0], [h0->next()],
    [h0->next()->next()] are live with live edges.  If one of the three
    has no dual (its edge is a boundary edge), [splitFace f] does not
    return: it writes through the [NULL] dual in
    [__attach_halfedge_to_edge]. *)
Theorem splitFace_boundary_edge_faults m f h0 h1 h2 d0 d1 d2 :
  f_halfedge <$> hf m !! f = Some (Some h0) →
  val (next (Some h0) m) = Some (Some h1) →
  val (next (Some h1) m) = Some (Some h2) →
  val (dual (Some h0) m) = Some d0 →
  val (dual (Some h1) m) = Some d1 →
  val (dual (Some h2) m) = Some d2 →
  d0 = NULL ∨ d1 = NULL ∨ d2 = NULL →
  splitFace (Some f) m = Fault.
Proof.
  intros Hf Hn0 Hn1 Hd0 Hd1 Hd2 Hnull.
  pose proof (splitFace_boundary_never_Ok m f h0 h1 h2 d0 d1 d2
                Hf Hn0 Hn1 Hd0 Hd1 Hd2 Hnull) as Hno.
  pose proof (straight_splitFace (Some f) m) as Hs.
  destruct (splitFace (Some f) m) as [p m' | | |]; try done.
  destruct (Hno p m' eq_refl).
Qed.

Lemma splitFace_boundary_edge_faults_witness :
  splitFace (Some 2%positive) quad_mesh = Fault.
Proof.
  eapply (splitFace_boundary_edge_faults quad_mesh 2).
  - vm_compute. reflexivity.
  - vm_compute. reflexivity.
  - vm_compute. reflexivity.
  - vm_compute. reflexivity.
  - vm_compute. reflexivity.
  - vm_compute. reflexivity.
  - vm_compute. auto.
Defined.
(** ** [splitFace] keeps the invariants *)

Lemma wf_prev_next m a x p xp :
  well_formed m → hh m !! a = Some x → h_prev x = Some p → hh m !! p = Some xp →
  h_next xp = Some a.
Proof.
  intros Hwf Ha Hp Hxp.
  destruct (wf_triangle m a x Hwf Ha)
    as (n & n2 & xn & xn2 & Hn & Hn2 & F1 & F2 & F3 & F4 & F5 & F6 & _).
  assert (n2 = p) as -> by congruence. congruence.
Qed.

(** Invariant 2 at an interior half-edge, as lookups. *)
Lemma wf_dual_verts m a x d :
  well_formed m → hh m !! a = Some x → val (dual (Some a) m) = Some (Some d) →
  ∃ xd pa pd xpa xpd,
    hh m !! d = Some xd ∧ h_prev x = Some pa ∧ h_prev xd = Some pd ∧
    hh m !! pa = Some xpa ∧ hh m !! pd = Some xpd ∧
    h_vertex x = h_vertex xpd ∧ h_vertex xd = h_vertex xpa.
Proof.
  intros Hwf Ha Hd.
  destruct (wf_dual_slots m a x d Hwf Ha Hd)
    as (e & y & xd & He & Hy & Hxd & Hed & Hne & _ & [[S0 S1] | [S0 S1]]).
  - destruct (wf_pair m e y a d Hwf Hy S0 S1)
      as (xa & xd' & pa & pd & xpa & xpd & A1 & A2 & A3 & A4 & A5 & A6 & A7 & A8).
    assert (xa = x) as -> by congruence. assert (xd' = xd) as -> by congruence.
    by exists xd, pa, pd, xpa, xpd.
  - destruct (wf_pair m e y d a Hwf Hy S0 S1)
      as (xd' & xa & pd & pa & xpd & xpa & A1 & A2 & A3 & A4 & A5 & A6 & A7 & A8).
    assert (xa = x) as -> by congruence. assert (xd' = xd) as -> by congruence.
    by exists xd, pa, pd, xpa, xpd.
Qed.

(** Invariant 2 at an edge, from lookups. *)
Lemma dual_at_intro m e :
  (∀ y a d, he m !! e = Some y → e_halfedge0 y = Some a → e_halfedge1 y = Some d →
     ∃ xa xd pa pd xpa xpd,
       hh m !! a = Some xa ∧ hh m !! d = Some xd ∧
       h_edge xa = Some e ∧ h_edge xd = Some e ∧ a ≠ d ∧
       h_prev xa = Some pa ∧ h_prev xd = Some pd ∧
       hh m !! pa = Some xpa ∧ hh m !! pd = Some xpd ∧
       h_vertex xa = h_vertex xpd ∧ h_vertex xd = h_vertex xpa) →
  dual_at m e.
Proof.
  intros H y a d Hy S0 S1.
  destruct (H y a d Hy S0 S1)
    as (xa & xd & pa & pd & xpa & xpd & A & D & Ea & Ed & Hne & Pa & Pd & XPa & XPd
        & V1 & V2).
  rewrite !val_dual, !val_target, !val_source, !halfedge_at_Some, A, D. cbn.
  rewrite Ea, Ed, Pa, Pd, !edge_at_Some, !halfedge_at_Some, Hy, XPa, XPd. cbn.
  rewrite S0, S1, ptr_eqb_refl.
  rewrite (proj2 (ptr_eqb_false (Some d) (Some a))) by congruence.
  split; [done |]. split; [done |]. split.
  - exists (h_vertex xa). split; [done |]. by rewrite V1.
  - exists (h_vertex xd). split; [done |]. by rewrite V2.
Qed.
Section SplitFaceInvariants.
Variable m : Mesh.
Variables f h0 h1 h2 hs0 hs1 hs2 v0 v1 v2 eg0 eg1 eg2 : positive.
Variables x0 x1 x2 xs0 xs1 xs2 : CHalfEdge.
Variables y0 y1 y2 : CEdge.
Variables xv0 xv1 xv2 : CVertex.
Variables pV n1 n2 n3 n4 n5 n6 f1 f2 e0 e1 e2 : positive.
Hypothesis Hwf : well_formed m.
Hypothesis Hpre :
  splitFace_pre m f h0 h1 h2 hs0 hs1 hs2 v0 v1 v2 eg0 eg1 eg2
                x0 x1 x2 xs0 xs1 xs2 y0 y1 y2 xv0 xv1 xv2.
Hypothesis Hfresh : splitFace_fresh m pV n1 n2 n3 n4 n5 n6 f1 f2 e0 e1 e2.

Local Abbreviation m' :=
  (splitFace_state m h0 h1 h2 hs0 hs1 hs2 v0 v1 v2 eg0 eg1 eg2
     x0 x1 x2 xs0 xs1 xs2 y0 y1 y2 xv0 xv1 xv2
     pV n1 n2 n3 n4 n5 n6 f1 f2 e0 e1 e2).

Ltac sg_open :=
  let Hp := fresh "Hp" in let Hq := fresh "Hq" in
  pose proof Hpre as Hp; pose proof Hfresh as Hq;
  destruct Hp as (Hf & (H0 & H1 & H2) & (E0 & V0 & P0 & N0) & (E1 & V1 & P1 & N1)
        & (E2 & V2 & P2 & N2) & (Y0 & Y1 & Y2) & (D0 & D1 & D2)
        & (S0 & S1 & S2) & (SE0 & SE1 & SE2) & (XV0 & XV1 & XV2)
        & Hdh & Hde & Hdv);
  destruct Hq as (FV & (FF1 & FF2 & FFne) & (FH & FHd) & (FE & FEd));
  nodup_facts Hdh; nodup_facts Hde; nodup_facts Hdv;
  nodup_facts FHd; nodup_facts FEd;
  forall_facts FH; forall_facts FE;
  repeat match goal with
         | Hn : ?s !! ?a = None, Hb : ?s !! ?b = Some _ |- _ =>
             lazymatch goal with
             | _ : a ≠ b |- _ => fail
             | _ : b ≠ a |- _ => fail
             | _ => pose proof (lookup_None_Some_ne s a b _ Hn Hb)
             end
         end.

Ltac sg_lookup :=
  unfold splitFace_state, splitFace_hh, splitFace_he, splitFace_hv, splitFace_hf;
  st_simpl; lkg.

(** A half-edge of the result is one of the six new ones or was there. *)
Lemma splitFace_hh_old_or_new a :
  is_Some (hh m' !! a) → a ∈ [n1; n2; n3; n4; n5; n6] ∨ is_Some (hh m !! a).
Proof.
  intros Ha. sg_open.
  destruct (decide (a ∈ [n1; n2; n3; n4; n5; n6])) as [? | Hn]; [by left | right].
  repeat (apply not_elem_of_cons in Hn as [? Hn]).
  destruct (decide (a ∈ [h0; h1; h2; hs0; hs1; hs2])) as [Hi | Hi].
  - repeat (apply elem_of_cons in Hi as [-> | Hi]; [by eexists |]).
    by apply elem_of_nil in Hi.
  - repeat (apply not_elem_of_cons in Hi as [? Hi]).
    revert Ha. unfold splitFace_state, splitFace_hh. st_simpl.
    by rewrite !lookup_insert_ne by ne.
Qed.

(** An old half-edge keeps [prev] and [next]; it keeps its target unless
    it is [h1], and its whole record outside the face and its
    neighbours. *)
Lemma splitFace_hh_links a x :
  hh m !! a = Some x →
  ∃ x', hh m' !! a = Some x' ∧ h_prev x' = h_prev x ∧ h_next x' = h_next x ∧
        (a ≠ h1 → h_vertex x' = h_vertex x) ∧
        (a ∉ [h0; h1; h2; hs0; hs1; hs2] → x' = x).
Proof.
  intros Ha. sg_open.
  assert (∀ l : list positive, a ∈ a :: l) as Hin by (intros l; by left).
  destruct (decide (a = h0)) as [-> | ?];
    [assert (x = x0) as -> by congruence; eexists; split; [sg_lookup |];
     repeat split; try done; intros Hn; destruct Hn; repeat first [by left | right] |].
  destruct (decide (a = h1)) as [-> | ?];
    [assert (x = x1) as -> by congruence; eexists; split; [sg_lookup |];
     repeat split; try done; intros Hn; destruct Hn; repeat first [by left | right] |].
  destruct (decide (a = h2)) as [-> | ?];
    [assert (x = x2) as -> by congruence; eexists; split; [sg_lookup |];
     repeat split; try done; try (intros _; fld_simpl; by rewrite V2);
     intros Hn; destruct Hn; repeat first [by left | right] |].
  destruct (decide (a = hs0)) as [-> | ?];
    [assert (x = xs0) as -> by congruence; eexists; split; [sg_lookup |];
     repeat split; try done; intros Hn; destruct Hn; repeat first [by left | right] |].
  destruct (decide (a = hs1)) as [-> | ?];
    [assert (x = xs1) as -> by congruence; eexists; split; [sg_lookup |];
     repeat split; try done; intros Hn; destruct Hn; repeat first [by left | right] |].
  destruct (decide (a = hs2)) as [-> | ?];
    [assert (x = xs2) as -> by congruence; eexists; split; [sg_lookup |];
     repeat split; try done; intros Hn; destruct Hn; repeat first [by left | right] |].
  exists x. split; [sg_lookup | done].
Qed.

Lemma splitFace_cycle_old a x : hh m !! a = Some x → cycle_at m' a.
Proof.
  intros Ha.
  destruct (wf_triangle m a x Hwf Ha)
    as (n & p & xn & xp & Hn & Hp & F1 & F2 & F3 & F4 & F5 & F6 & M1 & M2 & M3).
  destruct (splitFace_hh_links a x Ha) as (x' & Hx' & Px & Nx & _).
  destruct (splitFace_hh_links n xn Hn) as (xn' & Hxn' & Pn & Nn & _).
  destruct (splitFace_hh_links p xp Hp) as (xp' & Hxp' & Pp & Np & _).
  apply cycle_at_lookup. exists n, p, p, x', xn', xp', xp'.
  repeat split; try done; congruence.
Qed.

Lemma splitFace_next_prev_cycle : next_prev_cycle m'.
Proof.
  intros a Ha. destruct (splitFace_hh_old_or_new a Ha) as [Hnew | [x Hx]];
    [| by eapply splitFace_cycle_old].
  clear Ha. sg_open. apply cycle_at_lookup.
  repeat (apply elem_of_cons in Hnew as [-> | Hnew]);
    [ exists n2, n3, n3 | exists n3, n1, n1 | exists n1, n2, n2
    | exists n5, n6, n6 | exists n6, n4, n4 | exists n4, n5, n5
    | by apply elem_of_nil in Hnew ];
    eexists _, _, _, _;
    (split; [sg_lookup |]); (split; [sg_lookup |]); (split; [sg_lookup |]);
    (split; [sg_lookup |]); repeat split; try reflexivity; ne.
Qed.
Lemma splitFace_duals :
  val (dual (Some h0) m) = Some (Some hs0) ∧
  val (dual (Some h1) m) = Some (Some hs1) ∧
  val (dual (Some h2) m) = Some (Some hs2).
Proof.
  sg_open. rewrite !val_dual, !halfedge_at_Some, H0, H1, H2. cbn.
  rewrite E0, E1, E2, !edge_at_Some, Y0, Y1, Y2. cbn. by rewrite D0, D1, D2.
Qed.

Lemma splitFace_dual_eg0 : dual_at m' eg0.
Proof.
  pose proof splitFace_duals as (Hd & _ & _). sg_open.
  destruct (wf_dual_verts m h0 x0 hs0 Hwf H0 Hd)
    as (xd & pa & pd & xpa & xpd & A1 & A2 & A3 & A4 & A5 & A6 & A7).
  assert (xd = xs0) as -> by congruence.
  assert (pa = h2) as -> by congruence. assert (xpa = x2) as -> by congruence.
  assert (pd ≠ h1) as Hpd.
  { intros ->. pose proof (wf_prev_next m hs0 xs0 h1 xpd Hwf S0 A3 A5) as Hnx.
    assert (xpd = x1) as -> by congruence. congruence. }
  destruct (splitFace_hh_links pd xpd A5) as (xpd' & B1 & _ & _ & B2 & _).
  apply dual_at_intro. intros y a d Hy Sa Sd.
  assert (he m' !! eg0 = Some (mkEdge (Some h0) (Some hs0) (e_length y0))) as Hy'
    by sg_lookup.
  rewrite Hy' in Hy. injection Hy as <-. injection Sa as <-. injection Sd as <-.
  eexists _, _, h2, pd, _, xpd'.
  split; [sg_lookup |]. split; [sg_lookup |].
  split; [reflexivity |]. split; [reflexivity |]. split; [ne |].
  split; [fld_simpl; exact P0 |]. split; [fld_simpl; exact A3 |].
  split; [sg_lookup |]. split; [exact B1 |].
  fld_simpl. rewrite B2 by done. split; [exact A6 | by rewrite A7].
Qed.

Lemma splitFace_dual_eg1 : dual_at m' eg1.
Proof.
  pose proof splitFace_duals as (_ & Hd & _). sg_open.
  destruct (wf_dual_verts m h1 x1 hs1 Hwf H1 Hd)
    as (xd & pa & pd & xpa & xpd & A1 & A2 & A3 & A4 & A5 & A6 & A7).
  assert (xd = xs1) as -> by congruence.
  assert (pa = h0) as -> by congruence. assert (xpa = x0) as -> by congruence.
  assert (pd ≠ h1) as Hpd.
  { intros ->. pose proof (wf_prev_next m hs1 xs1 h1 xpd Hwf S1 A3 A5) as Hnx.
    assert (xpd = x1) as -> by congruence. congruence. }
  destruct (splitFace_hh_links pd xpd A5) as (xpd' & B1 & _ & _ & B2 & _).
  apply dual_at_intro. intros y a d Hy Sa Sd.
  assert (he m' !! eg1 = Some (mkEdge (Some n2) (Some hs1) (e_length y1))) as Hy'
    by sg_lookup.
  rewrite Hy' in Hy. injection Hy as <-. injection Sa as <-. injection Sd as <-.
  eexists _, _, n1, pd, _, xpd'.
  split; [sg_lookup |]. split; [sg_lookup |].
  split; [reflexivity |]. split; [reflexivity |]. split; [ne |].
  split; [reflexivity |]. split; [fld_simpl; exact A3 |].
  split; [sg_lookup |]. split; [exact B1 |].
  fld_simpl. rewrite B2 by done. split; [by rewrite <- A6 | by rewrite A7].
Qed.

Lemma splitFace_dual_eg2 : dual_at m' eg2.
Proof.
  pose proof splitFace_duals as (_ & _ & Hd). sg_open.
  destruct (wf_dual_verts m h2 x2 hs2 Hwf H2 Hd)
    as (xd & pa & pd & xpa & xpd & A1 & A2 & A3 & A4 & A5 & A6 & A7).
  assert (xd = xs2) as -> by congruence.
  assert (pa = h1) as -> by congruence. assert (xpa = x1) as -> by congruence.
  assert (pd ≠ h1) as Hpd.
  { intros ->. pose proof (wf_prev_next m hs2 xs2 h1 xpd Hwf S2 A3 A5) as Hnx.
    assert (xpd = x1) as -> by congruence. congruence. }
  destruct (splitFace_hh_links pd xpd A5) as (xpd' & B1 & _ & _ & B2 & _).
  apply dual_at_intro. intros y a d Hy Sa Sd.
  assert (he m' !! eg2 = Some (mkEdge (Some n6) (Some hs2) (e_length y2))) as Hy'
    by sg_lookup.
  rewrite Hy' in Hy. injection Hy as <-. injection Sa as <-. injection Sd as <-.
  eexists _, _, n5, pd, _, xpd'.
  split; [sg_lookup |]. split; [sg_lookup |].
  split; [reflexivity |]. split; [reflexivity |]. split; [ne |].
  split; [reflexivity |]. split; [fld_simpl; exact A3 |].
  split; [sg_lookup |]. split; [exact B1 |].
  fld_simpl. rewrite B2 by done. split; [by rewrite <- A6 | by rewrite A7].
Qed.

Lemma splitFace_dual_new : dual_at m' e0 ∧ dual_at m' e1 ∧ dual_at m' e2.
Proof.
  sg_open. split; [| split]; apply dual_at_intro; intros y a d Hy Sa Sd.
  - assert (he m' !! e0 = Some (mkEdge (Some h1) (Some n1) 0)) as Hy' by sg_lookup.
    rewrite Hy' in Hy. injection Hy as <-. injection Sa as <-. injection Sd as <-.
    eexists _, _, h0, n3, _, _.
    split; [sg_lookup |]. split; [sg_lookup |].
    split; [reflexivity |]. split; [reflexivity |]. split; [ne |].
    split; [fld_simpl; exact P1 |]. split; [reflexivity |].
    split; [sg_lookup |]. split; [sg_lookup |].
    fld_simpl. by rewrite V0.
  - assert (he m' !! e1 = Some (mkEdge (Some n3) (Some n5) 0)) as Hy' by sg_lookup.
    rewrite Hy' in Hy. injection Hy as <-. injection Sa as <-. injection Sd as <-.
    eexists _, _, n2, n4, _, _.
    split; [sg_lookup |]. split; [sg_lookup |].
    split; [reflexivity |]. split; [reflexivity |]. split; [ne |].
    split; [reflexivity |]. split; [reflexivity |].
    split; [sg_lookup |]. split; [sg_lookup |]. done.
  - assert (he m' !! e2 = Some (mkEdge (Some h2) (Some n4) 0)) as Hy' by sg_lookup.
    rewrite Hy' in Hy. injection Hy as <-. injection Sa as <-. injection Sd as <-.
    eexists _, _, h1, n6, _, _.
    split; [sg_lookup |]. split; [sg_lookup |].
    split; [reflexivity |]. split; [reflexivity |]. split; [ne |].
    split; [fld_simpl; exact P2 |]. split; [reflexivity |].
    split; [sg_lookup |]. split; [sg_lookup |]. done.
Qed.
(** A half-edge on an edge other than the three of the face is none of
    the six the call rewrites. *)
Lemma splitFace_off_face e a x :
  hh m !! a = Some x → h_edge x = Some e → e ∉ [eg0; eg1; eg2] →
  a ∉ [h0; h1; h2; hs0; hs1; hs2].
Proof.
  intros Ha He Hn. sg_open.
  repeat (apply not_elem_of_cons in Hn as [? Hn]).
  repeat (apply not_elem_of_cons; split; [intros ->; congruence |]).
  apply not_elem_of_nil.
Qed.

Lemma splitFace_dual_other e y :
  he m !! e = Some y → e ∉ [eg0; eg1; eg2] → dual_at m' e.
Proof.
  intros Hy Hn. apply dual_at_intro. intros y' a d Hy' Sa Sd.
  assert (he m' !! e = Some y) as Hy''.
  { sg_open. repeat (apply not_elem_of_cons in Hn as [? Hn]). sg_lookup. }
  assert (y' = y) as -> by congruence.
  destruct (wf_pair m e y a d Hwf Hy Sa Sd)
    as (xa & xd & pa & pd & xpa & xpd & A1 & A2 & A3 & A4 & A5 & A6 & A7 & A8).
  destruct (wf_slot m Hwf e y a Hy (or_introl Sa)) as (xa' & Ha' & Ea).
  destruct (wf_slot m Hwf e y d Hy (or_intror Sd)) as (xd' & Hd' & Ed).
  assert (xa' = xa) as -> by congruence. assert (xd' = xd) as -> by congruence.
  destruct (wf_slots_ne m Hwf e y Hy) as [_ Hne]; [congruence |].
  pose proof (splitFace_off_face e a xa A1 Ea Hn) as Oa.
  pose proof (splitFace_off_face e d xd A2 Ed Hn) as Od.
  destruct (splitFace_hh_links a xa A1) as (xa' & Ba & _ & _ & _ & Bae).
  destruct (splitFace_hh_links d xd A2) as (xd' & Bd & _ & _ & _ & Bde).
  rewrite (Bae Oa) in Ba. rewrite (Bde Od) in Bd. clear xa' xd' Bae Bde.
  assert (∀ b xb p xp, hh m !! b = Some xb → b ∉ [h0; h1; h2; hs0; hs1; hs2] →
            h_prev xb = Some p → hh m !! p = Some xp → p ≠ h1) as Hp.
  { intros b xb p xp Hb Ob Pb Hxp ->.
    pose proof (wf_prev_next m b xb h1 xp Hwf Hb Pb Hxp) as Hnx.
    sg_open. assert (xp = x1) as -> by congruence. congruence. }
  destruct (splitFace_hh_links pa xpa A5) as (xpa' & Bpa & _ & _ & Vpa & _).
  destruct (splitFace_hh_links pd xpd A6) as (xpd' & Bpd & _ & _ & Vpd & _).
  exists xa, xd, pa, pd, xpa', xpd'.
  repeat split; try done; try congruence.
  - rewrite Vpd; [done |]. by eapply (Hp d xd pd xpd).
  - rewrite Vpa; [done |]. by eapply (Hp a xa pa xpa).
Qed.

Lemma splitFace_dual_pairing : dual_pairing m'.
Proof.
  intros e [y' Hy'].
  destruct (decide (e ∈ [e0; e1; e2; eg0; eg1; eg2])) as [Hi | Hi].
  - destruct splitFace_dual_new as (D0 & D1 & D2).
    repeat (apply elem_of_cons in Hi as [-> | Hi]); try done.
    + apply splitFace_dual_eg0.
    + apply splitFace_dual_eg1.
    + apply splitFace_dual_eg2.
    + by apply elem_of_nil in Hi.
  - assert (he m !! e = Some y') as Hy.
    { revert Hy'. repeat (apply not_elem_of_cons in Hi as [? Hi]).
      unfold splitFace_state, splitFace_he. st_simpl.
      by rewrite !lookup_insert_ne by ne. }
    apply (splitFace_dual_other e y' Hy).
    repeat (apply not_elem_of_cons in Hi as [? Hi]).
    repeat (apply not_elem_of_cons; split; [done |]). apply not_elem_of_nil.
Qed.

Lemma splitFace_core_invariants : core_invariants m'.
Proof. split; [apply splitFace_next_prev_cycle | apply splitFace_dual_pairing]. Qed.
(** An old edge is one of the three of the face, now rewritten, or keeps
    its record. *)
Lemma splitFace_he_cases e y' :
  he m' !! e = Some y' →
  e ∈ [e0; e1; e2; eg0; eg1; eg2] ∨ ((e ∉ [eg0; eg1; eg2]) ∧ he m !! e = Some y').
Proof.
  intros Hy'.
  destruct (decide (e ∈ [e0; e1; e2; eg0; eg1; eg2])) as [Hi | Hi]; [by left | right].
  repeat (apply not_elem_of_cons in Hi as [? Hi]). split.
  - repeat (apply not_elem_of_cons; split; [done |]). apply not_elem_of_nil.
  - revert Hy'. unfold splitFace_state, splitFace_he. st_simpl.
    by rewrite !lookup_insert_ne by ne.
Qed.

Lemma splitFace_he_other' e y :
  he m !! e = Some y → e ∉ [eg0; eg1; eg2] → he m' !! e = Some y.
Proof.
  intros Hy Hn. sg_open. repeat (apply not_elem_of_cons in Hn as [? Hn]). sg_lookup.
Qed.

(** The half-edges on the three edges of the face are the six of the
    face and its neighbours. *)
Lemma splitFace_on_face a x :
  hh m !! a = Some x → a ∉ [h0; h1; h2; hs0; hs1; hs2] →
  ∃ e y, h_edge x = Some e ∧ he m !! e = Some y ∧ (e ∉ [eg0; eg1; eg2]) ∧
         (e_halfedge0 y = Some a ∨ e_halfedge1 y = Some a).
Proof.
  intros Ha Hn.
  destruct (wf_edge_of m Hwf a x Ha) as (e & y & He & Hy & Hs).
  exists e, y. split; [done |]. split; [done |]. split; [| done].
  pose proof splitFace_duals as (Hd0 & Hd1 & Hd2). sg_open.
  destruct (wf_dual_slots m h0 x0 hs0 Hwf H0 Hd0)
    as (ea & ya & _ & Ea & Ya & _ & _ & _ & _ & Ca).
  destruct (wf_dual_slots m h1 x1 hs1 Hwf H1 Hd1)
    as (eb & yb & _ & Eb & Yb & _ & _ & _ & _ & Cb).
  destruct (wf_dual_slots m h2 x2 hs2 Hwf H2 Hd2)
    as (ec & yc & _ & Ec & Yc & _ & _ & _ & _ & Cc).
  assert (ea = eg0) as -> by congruence. assert (eb = eg1) as -> by congruence.
  assert (ec = eg2) as -> by congruence.
  repeat (apply not_elem_of_cons in Hn as [? Hn]).
  repeat (apply not_elem_of_cons; split;
          [intros ->;
           repeat match goal with
                  | H : he m !! ?k = Some ?u, H' : he m !! ?k = Some ?w |- _ =>
                      assert (u = w) as -> by congruence; clear H'
                  end;
           intuition congruence |]).
  apply not_elem_of_nil.
Qed.

(** The records of the twelve half-edges and six edges the call writes. *)
Lemma splitFace_hh_at :
  hh m' !! n1 = Some (mkHalfEdge (Some e0) (Some f1) (Some v0) (Some n3) (Some n2)) ∧
  hh m' !! n2 = Some (mkHalfEdge (Some eg1) (Some f1) (Some v1) (Some n1) (Some n3)) ∧
  hh m' !! n3 = Some (mkHalfEdge (Some e1) (Some f1) (Some pV) (Some n2) (Some n1)) ∧
  hh m' !! n4 = Some (mkHalfEdge (Some e2) (Some f2) (Some pV) (Some n6) (Some n5)) ∧
  hh m' !! n5 = Some (mkHalfEdge (Some e1) (Some f2) (Some v1) (Some n4) (Some n6)) ∧
  hh m' !! n6 = Some (mkHalfEdge (Some eg2) (Some f2) (Some v2) (Some n5) (Some n4)) ∧
  hh m' !! h0 = Some (with_h_edge (Some eg0) x0) ∧
  hh m' !! h1 = Some (with_h_vertex (Some pV) (with_h_edge (Some e0) x1)) ∧
  hh m' !! h2 = Some (with_h_vertex (Some v2) (with_h_edge (Some e2) x2)) ∧
  hh m' !! hs0 = Some (with_h_edge (Some eg0) xs0) ∧
  hh m' !! hs1 = Some (with_h_edge (Some eg1) xs1) ∧
  hh m' !! hs2 = Some (with_h_edge (Some eg2) xs2).
Proof. sg_open. repeat (split; [sg_lookup |]). sg_lookup. Qed.

Lemma splitFace_he_at :
  he m' !! e0 = Some (mkEdge (Some h1) (Some n1) 0) ∧
  he m' !! e1 = Some (mkEdge (Some n3) (Some n5) 0) ∧
  he m' !! e2 = Some (mkEdge (Some h2) (Some n4) 0) ∧
  he m' !! eg0 = Some (mkEdge (Some h0) (Some hs0) (e_length y0)) ∧
  he m' !! eg1 = Some (mkEdge (Some n2) (Some hs1) (e_length y1)) ∧
  he m' !! eg2 = Some (mkEdge (Some n6) (Some hs2) (e_length y2)).
Proof. sg_open. repeat (split; [sg_lookup |]). sg_lookup. Qed.

Ltac sg_records :=
  let R := fresh "R" in
  pose proof splitFace_hh_at as R;
  destruct R as (? & ? & ? & ? & ? & ? & ? & ? & ? & ? & ? & ?);
  pose proof splitFace_he_at as R;
  destruct R as (? & ? & ? & ? & ? & ?).
Ltac sg_this :=
  repeat match goal with
         | R : ?s !! ?k = Some _, Hx : ?s !! ?k = Some ?x |- _ =>
             is_var x; rewrite R in Hx; injection Hx as <-
         end.

Lemma splitFace_wf_edge_of a x :
  hh m' !! a = Some x →
  ∃ e y, h_edge x = Some e ∧ he m' !! e = Some y ∧
         (e_halfedge0 y = Some a ∨ e_halfedge1 y = Some a).
Proof.
  intros Hx.
  destruct (decide (a ∈ [n1; n2; n3; n4; n5; n6; h0; h1; h2; hs0; hs1; hs2]))
    as [Hi | Hi].
  - sg_records.
    repeat (apply elem_of_cons in Hi as [-> | Hi]);
      try (by apply elem_of_nil in Hi);
      sg_this; eexists _, _;
      (split; [reflexivity |]); (split; [eassumption |]);
      first [by left | by right].
  - assert (hh m !! a = Some x) as Ha.
    { revert Hx. repeat (apply not_elem_of_cons in Hi as [? Hi]).
      unfold splitFace_state, splitFace_hh. st_simpl.
      by rewrite !lookup_insert_ne by ne. }
    destruct (splitFace_on_face a x Ha) as (e & y & He & Hy & Hn & Hs).
    { repeat (apply not_elem_of_cons in Hi as [? Hi]).
      repeat (apply not_elem_of_cons; split; [done |]). apply not_elem_of_nil. }
    exists e, y. split; [done |]. split; [| done].
    by apply splitFace_he_other'.
Qed.
Lemma splitFace_wf_slot e y a :
  he m' !! e = Some y → e_halfedge0 y = Some a ∨ e_halfedge1 y = Some a →
  ∃ x, hh m' !! a = Some x ∧ h_edge x = Some e.
Proof.
  intros Hy Hs. destruct (splitFace_he_cases e y Hy) as [Hi | [Hn Hy0]].
  - sg_records.
    repeat (apply elem_of_cons in Hi as [-> | Hi]);
      try (by apply elem_of_nil in Hi);
      sg_this; destruct Hs as [Hs | Hs]; injection Hs as <-;
      eexists; (split; [eassumption | reflexivity]).
  - destruct (wf_slot m Hwf e y a Hy0 Hs) as (x & Hx & He).
    pose proof (splitFace_off_face e a x Hx He Hn) as Oa.
    destruct (splitFace_hh_links a x Hx) as (x' & Hx' & _ & _ & _ & Heq).
    rewrite (Heq Oa) in Hx'. by exists x.
Qed.

Lemma splitFace_wf_slots_ne e y :
  he m' !! e = Some y → e_halfedge1 y ≠ None →
  e_halfedge0 y ≠ None ∧ e_halfedge0 y ≠ e_halfedge1 y.
Proof.
  intros Hy Hs. destruct (splitFace_he_cases e y Hy) as [Hi | [Hn Hy0]].
  - sg_open. sg_records.
    repeat (apply elem_of_cons in Hi as [-> | Hi]);
      try (by apply elem_of_nil in Hi);
      sg_this; (split; [done |]); fld_simpl; intros [= ?]; congruence.
  - by apply (wf_slots_ne m Hwf e y).
Qed.

(** A live vertex stays live. *)
Lemma splitFace_hv_live v : is_Some (hv m !! v) → is_Some (hv m' !! v).
Proof.
  intros Hv. unfold splitFace_state, splitFace_hv. st_simpl.
  repeat (apply lookup_insert_is_Some'; right). done.
Qed.

Lemma splitFace_hv_corners :
  is_Some (hv m' !! pV) ∧ is_Some (hv m' !! v0) ∧ is_Some (hv m' !! v1) ∧
  is_Some (hv m' !! v2) ∧ pV ≠ v0 ∧ pV ≠ v1 ∧ pV ≠ v2.
Proof.
  sg_open.
  split; [eexists; sg_lookup |]. split; [eexists; sg_lookup |].
  split; [eexists; sg_lookup |]. split; [eexists; sg_lookup |].
  repeat split; ne.
Qed.

Lemma splitFace_hh_cases a x' :
  hh m' !! a = Some x' →
  a ∈ [n1; n2; n3; n4; n5; n6; h0; h1; h2; hs0; hs1; hs2] ∨
  ((a ∉ [n1; n2; n3; n4; n5; n6; h0; h1; h2; hs0; hs1; hs2]) ∧ hh m !! a = Some x').
Proof.
  intros Hx.
  destruct (decide (a ∈ [n1; n2; n3; n4; n5; n6; h0; h1; h2; hs0; hs1; hs2]))
    as [Hi | Hi]; [by left | right]. split; [done |].
  revert Hx. repeat (apply not_elem_of_cons in Hi as [? Hi]).
  unfold splitFace_state, splitFace_hh. st_simpl.
  by rewrite !lookup_insert_ne by ne.
Qed.

Lemma splitFace_wf_target a x :
  hh m' !! a = Some x → ∃ v, h_vertex x = Some v ∧ is_Some (hv m' !! v).
Proof.
  intros Hx. destruct splitFace_hv_corners as (LP & L0 & L1 & L2 & _).
  assert (∀ b xb, hh m !! b = Some xb →
            ∃ v, h_vertex xb = Some v ∧ is_Some (hv m' !! v)) as Hold.
  { intros b xb Hb. destruct (wf_target m Hwf b xb Hb) as (v & Hv & Hl).
    exists v. split; [done |]. by apply splitFace_hv_live. }
  destruct (splitFace_hh_cases a x Hx) as [Hi | [_ Ha]]; [| by eapply Hold].
  sg_open. sg_records.
  repeat (apply elem_of_cons in Hi as [-> | Hi]);
    try (by apply elem_of_nil in Hi);
    sg_this; fld_simpl;
    first [ by eexists; split; [reflexivity |]
          | by eapply Hold ].
Qed.
Lemma splitFace_wf_no_loop a x p xp :
  hh m' !! a = Some x → h_prev x = Some p → hh m' !! p = Some xp →
  h_vertex xp ≠ h_vertex x.
Proof.
  intros Hx Hp Hxp. destruct splitFace_hv_corners as (_ & _ & _ & _ & Q0 & Q1 & Q2).
  destruct (decide (a ∈ [n1; n2; n3; n4; n5; n6; h1; h2])) as [Hi | Hi].
  - sg_open. sg_records.
    repeat (apply elem_of_cons in Hi as [-> | Hi]);
      try (by apply elem_of_nil in Hi);
      sg_this; cbn [h_prev with_h_vertex with_h_edge] in Hp; rewrite ?P1, ?P2 in Hp; injection Hp as <-;
      sg_this; fld_simpl; rewrite ?V0, ?V1, ?V2; congruence.
  - assert (a ≠ h1 ∧ a ≠ h2) as [Na1 Na2].
    { split; intros ->; apply Hi; repeat first [by left | right]. }
    assert (is_Some (hh m !! a)) as [xa Ha].
    { destruct (splitFace_hh_old_or_new a (ex_intro _ _ Hx)) as [Hnew | Hold]; [| done].
      destruct Hi. repeat (apply elem_of_cons in Hnew as [-> | Hnew]);
        try (by apply elem_of_nil in Hnew); repeat first [by left | right]. }
    destruct (splitFace_hh_links a xa Ha) as (x' & Hx' & Pa & _ & Va & _).
    assert (x' = x) as -> by congruence.
    destruct (wf_triangle m a xa Hwf Ha)
      as (n & q & xn & xq & Hn & Hq & F1 & F2 & F3 & F4 & F5 & F6 & _).
    assert (q = p) as -> by congruence.
    assert (p ≠ h1) as Np.
    { intros ->. sg_open. assert (xq = x1) as -> by congruence. congruence. }
    destruct (splitFace_hh_links p xq Hq) as (xp' & Hxp' & _ & _ & Vp & _).
    assert (xp' = xp) as -> by congruence.
    rewrite Va, Vp by done.
    apply (wf_no_loop m Hwf a xa p xq Ha F2 Hq).
Qed.

Lemma splitFace_wf_listed e : e ∈ m_edges m' → is_Some (edge_at m' e).
Proof.
  intros He. change (m_edges m') with (m_edges m ++ [Some e0; Some e1; Some e2]) in He.
  destruct splitFace_he_at as (R0 & R1 & R2 & R3 & R4 & R5).
  apply elem_of_app in He as [He | He].
  - destruct (wf_listed m Hwf e He) as [y Hy].
    destruct e as [e |]; [| done]. rewrite edge_at_Some in Hy |- *.
    destruct (decide (e ∈ [eg0; eg1; eg2])) as [Hi | Hi].
    + repeat (apply elem_of_cons in Hi as [-> | Hi]);
        try (by apply elem_of_nil in Hi); by eexists.
    + exists y. by apply splitFace_he_other'.
  - repeat (apply elem_of_cons in He as [-> | He]);
      try (by apply elem_of_nil in He); rewrite edge_at_Some; by eexists.
Qed.

Lemma splitFace_well_formed : well_formed m'.
Proof.
  split.
  - apply splitFace_next_prev_cycle.
  - apply splitFace_dual_pairing.
  - apply splitFace_wf_edge_of.
  - apply splitFace_wf_slot.
  - apply splitFace_wf_slots_ne.
  - apply splitFace_wf_target.
  - apply splitFace_wf_no_loop.
  - apply splitFace_wf_listed.
Qed.
End SplitFaceInvariants.
(** X9.  [splitFace] on an interior triangle of a well-formed mesh (every
    half-edge of the face has a dual, and the id counters leave room)
    returns, and the mesh it leaves is well-formed again: invariants 1 and
    2 hold at every half-edge and edge, every half-edge sits in a slot of
    its edge, every listed edge is live. *)
Theorem splitFace_keeps_well_formed m f h0 h1 h2 :
  well_formed m →
  f_halfedge <$> hf m !! f = Some (Some h0) →
  val (next (Some h0) m) = Some (Some h1) →
  val (next (Some h1) m) = Some (Some h2) →
  (∀ h, h ∈ [h0; h1; h2] → ∃ d, val (dual (Some h) m) = Some (Some d)) →
  m_vertex_id m < INT_MAX → m_face_id m + 1 < INT_MAX →
  ∃ p m', splitFace (Some f) m = Ok (Some p) m' ∧
          well_formed m' ∧ core_invariants m'.
Proof.
  intros Hwf Hf Hn0 Hn1 Hint Hvid Hfid.
  destruct (splitFace_pre_of_wf m f h0 h1 h2 Hwf Hf Hn0 Hn1 Hint)
    as (hs0 & hs1 & hs2 & v0 & v1 & v2 & eg0 & eg1 & eg2 & x0 & x1 & x2
        & xs0 & xs1 & xs2 & y0 & y1 & y2 & xv0 & xv1 & xv2 & Hpre).
  destruct (splitFace_runs m f h0 h1 h2 hs0 hs1 hs2 v0 v1 v2 eg0 eg1 eg2
              x0 x1 x2 xs0 xs1 xs2 y0 y1 y2 xv0 xv1 xv2 Hpre)
    as (pV & n1 & n2 & n3 & n4 & n5 & n6 & f1 & f2 & e0 & e1 & e2 & Hfresh & Hrun);
    [unfold INT_MAX in *; lia .. |].
  eexists pV, _. split; [exact Hrun |].
  pose proof (splitFace_well_formed m f h0 h1 h2 hs0 hs1 hs2 v0 v1 v2 eg0 eg1 eg2
                x0 x1 x2 xs0 xs1 xs2 y0 y1 y2 xv0 xv1 xv2
                pV n1 n2 n3 n4 n5 n6 f1 f2 e0 e1 e2 Hwf Hpre Hfresh) as W.
  split; [exact W |]. split; [apply (wf_cycle _ W) | apply (wf_dual _ W)].
Qed.

Lemma splitFace_keeps_well_formed_witness :
  ∃ p m', splitFace (Some 2%positive) tetrahedron = Ok (Some p) m' ∧
          well_formed m' ∧ core_invariants m'.
Proof.
  apply (splitFace_keeps_well_formed tetrahedron 2 6 4 5).
  - exact tetrahedron_well_formed.
  - vm_compute; reflexivity.
  - vm_compute; reflexivity.
  - vm_compute; reflexivity.
  - intros h Hh.
    repeat (apply elem_of_cons in Hh as [-> | Hh];
            [eexists; vm_compute; reflexivity |]).
    by apply elem_of_nil in Hh.
  - vm_compute; reflexivity.
  - vm_compute; reflexivity.
Defined.

Lemma val_vertex_halfedge m v :
  val (vertex_halfedge v m) = v_halfedge <$> vertex_at m v.
Proof.
  unfold vertex_halfedge. rewrite val_bind by ro. rewrite val_rdV.
  by destruct (vertex_at m v).
Qed.

(** X10.  What [splitFace] registers.  The new vertex carries the id
    [m_vertex_id + 1] whether or not that id is taken: when the id map
    binds it already, [vertex(id)] goes on returning the old binding and
    the new vertex cannot be looked up.  The two new faces are appended to
    [m_faces] but not entered in the face id map, and the six new
    half-edges are not appended to [m_halfedges].  Each corner and the new
    vertex end up with a representative half-edge that targets them. *)
Theorem splitFace_bookkeeping m f h0 h1 h2 v0 v1 v2 :
  well_formed m →
  f_halfedge <$> hf m !! f = Some (Some h0) →
  val (next (Some h0) m) = Some (Some h1) →
  val (next (Some h1) m) = Some (Some h2) →
  val (target (Some h0) m) = Some (Some v0) →
  val (target (Some h1) m) = Some (Some v1) →
  val (target (Some h2) m) = Some (Some v2) →
  (∀ h, h ∈ [h0; h1; h2] → ∃ d, val (dual (Some h) m) = Some (Some d)) →
  m_vertex_id m < INT_MAX → m_face_id m + 1 < INT_MAX →
  ∃ p m',
    splitFace (Some f) m = Ok (Some p) m' ∧
    hv m !! p = None ∧
    v_id <$> hv m' !! p = Some (m_vertex_id m + 1) ∧
    m_vertex_id m' = m_vertex_id m + 1 ∧ m_face_id m' = m_face_id m + 2 ∧
    (∀ q, m_map_vert m !! (m_vertex_id m + 1) = Some q →
          vertex (m_vertex_id m + 1) m' = Ok q m') ∧
    (m_map_vert m !! (m_vertex_id m + 1) = None →
     vertex (m_vertex_id m + 1) m' = Ok (Some p) m') ∧
    m_map_face m' = m_map_face m ∧ m_halfedges m' = m_halfedges m ∧
    Forall (fun v => ∃ h, val (vertex_halfedge (Some v) m') = Some (Some h) ∧
                          val (target (Some h) m') = Some (Some v))
           [p; v0; v1; v2].
Proof.
  intros Hwf Hf Hn0 Hn1 Ht0 Ht1 Ht2 Hint Hvid Hfid.
  destruct (splitFace_pre_of_wf m f h0 h1 h2 Hwf Hf Hn0 Hn1 Hint)
    as (hs0 & hs1 & hs2 & w0 & w1 & w2 & eg0 & eg1 & eg2 & x0 & x1 & x2
        & xs0 & xs1 & xs2 & y0 & y1 & y2 & xv0 & xv1 & xv2 & Hpre).
  assert (w0 = v0 ∧ w1 = v1 ∧ w2 = v2) as (-> & -> & ->).
  { destruct Hpre as (_ & (H0 & H1 & H2) & (_ & V0 & _) & (_ & V1 & _)
                      & (_ & V2 & _) & _).
    rewrite val_target, halfedge_at_Some in Ht0, Ht1, Ht2.
    rewrite H0 in Ht0. rewrite H1 in Ht1. rewrite H2 in Ht2.
    cbn in Ht0, Ht1, Ht2. repeat split; congruence. }
  destruct (splitFace_runs m f h0 h1 h2 hs0 hs1 hs2 v0 v1 v2 eg0 eg1 eg2
              x0 x1 x2 xs0 xs1 xs2 y0 y1 y2 xv0 xv1 xv2 Hpre)
    as (pV & n1 & n2 & n3 & n4 & n5 & n6 & f1 & f2 & e0 & e1 & e2 & Hfresh & Hrun);
    [unfold INT_MAX in *; lia .. |].
  eexists pV, _. split; [exact Hrun |].
  pose proof (splitFace_hh_at m f h0 h1 h2 hs0 hs1 hs2 v0 v1 v2 eg0 eg1 eg2
                x0 x1 x2 xs0 xs1 xs2 y0 y1 y2 xv0 xv1 xv2
                pV n1 n2 n3 n4 n5 n6 f1 f2 e0 e1 e2 Hpre Hfresh)
    as (_ & R2 & _ & _ & _ & R6 & R7 & R8 & _).
  pose proof Hfresh as (FV & _).
  pose proof Hpre as (_ & _ & (_ & V0 & _) & _ & _ & _ & _ & _ & _
                      & (XV0 & XV1 & XV2) & _ & _ & Hdv).
  pose proof (lookup_None_Some_ne _ pV v0 _ FV XV0).
  pose proof (lookup_None_Some_ne _ pV v1 _ FV XV1).
  pose proof (lookup_None_Some_ne _ pV v2 _ FV XV2).
  nodup_facts Hdv.
  split; [exact FV |].
  split.
  { unfold splitFace_state, splitFace_hv. st_simpl. by rewrite lookup_insert_eq. }
  split; [reflexivity |]. split; [cbn; lia |].
  split.
  { intros q Hq. unfold vertex. munfold. cbn [get m_map_vert splitFace_state].
    unfold map_insert_new. by rewrite Hq, Hq. }
  split.
  { intros Hq. unfold vertex. munfold. cbn [get m_map_vert splitFace_state].
    unfold map_insert_new. by rewrite Hq, lookup_insert_eq. }
  split; [reflexivity |]. split; [reflexivity |].
  assert (∀ m' v x h xh t, hv m' !! v = Some x → v_halfedge x = Some h →
            hh m' !! h = Some xh → h_vertex xh = Some t → t = v →
            ∃ h, val (vertex_halfedge (Some v) m') = Some (Some h) ∧
                 val (target (Some h) m') = Some (Some v)) as Hrep.
  { intros m' v x h xh t Hv Hh Hxh Ht ->. exists h.
    rewrite val_vertex_halfedge, val_target, vertex_at_Some, halfedge_at_Some.
    rewrite Hv, Hxh. cbn. by rewrite Hh, Ht. }
  repeat apply Forall_cons_2; [| | | | apply Forall_nil_2].
  - eapply (Hrep _ pV _ h1);
      [unfold splitFace_state, splitFace_hv; st_simpl; lkg
      | reflexivity | exact R8 | reflexivity | reflexivity].
  - eapply (Hrep _ v0 _ h0);
      [unfold splitFace_state, splitFace_hv; st_simpl; lkg
      | reflexivity | exact R7 | exact V0 | reflexivity].
  - eapply (Hrep _ v1 _ n2);
      [unfold splitFace_state, splitFace_hv; st_simpl; lkg
      | reflexivity | exact R2 | reflexivity | reflexivity].
  - eapply (Hrep _ v2 _ n6);
      [unfold splitFace_state, splitFace_hv; st_simpl; lkg
      | reflexivity | exact R6 | reflexivity | reflexivity].
Qed.

Lemma splitFace_bookkeeping_witness :
  ∃ p m',
    splitFace (Some 2%positive) tetrahedron = Ok (Some p) m' ∧
    hv tetrahedron !! p = None ∧
    v_id <$> hv m' !! p = Some (m_vertex_id tetrahedron + 1) ∧
    m_vertex_id m' = m_vertex_id tetrahedron + 1 ∧
    m_face_id m' = m_face_id tetrahedron + 2 ∧
    (∀ q, m_map_vert tetrahedron !! (m_vertex_id tetrahedron + 1) = Some q →
          vertex (m_vertex_id tetrahedron + 1) m' = Ok q m') ∧
    (m_map_vert tetrahedron !! (m_vertex_id tetrahedron + 1) = None →
     vertex (m_vertex_id tetrahedron + 1) m' = Ok (Some p) m') ∧
    m_map_face m' = m_map_face tetrahedron ∧
    m_halfedges m' = m_halfedges tetrahedron ∧
    Forall (fun v => ∃ h, val (vertex_halfedge (Some v) m') = Some (Some h) ∧
                          val (target (Some h) m') = Some (Some v))
           [p; 4; 1; 3]%positive.
Proof.
  apply (splitFace_bookkeeping tetrahedron 2 6 4 5 4 1 3).
  - exact tetrahedron_well_formed.
  - vm_compute; reflexivity.
  - vm_compute; reflexivity.
  - vm_compute; reflexivity.
  - vm_compute; reflexivity.
  - vm_compute; reflexivity.
  - vm_compute; reflexivity.
  - intros h Hh.
    repeat (apply elem_of_cons in Hh as [-> | Hh];
            [eexists; vm_compute; reflexivity |]).
    by apply elem_of_nil in Hh.
  - vm_compute; reflexivity.
  - vm_compute; reflexivity.
Defined.

(** ** [create_face] on live vertices *)

Lemma create_face_frame nd m vs id :
  Forall (fun v => is_Some (vertex_at m v)) vs →
  (∀ a x, hv m !! a = Some x → Forall (scannable m) (v_ledges x)) →
  wpa (create_face nd vs id)
      (fun p m' =>
         ∃ f, p = Some f ∧ hf m !! f = None ∧ m_faces m' = m_faces m ++ [Some f] ∧
              grows m m')
      (fun m' =>
         nd = false ∧
         ∃ f, hf m !! f = None ∧ m_faces m' = m_faces m ++ [Some f]) m.
Proof.
  intros Hvs Hscan. unfold create_face.
  apply wpa_bind, wp_wpa, wp_new_CFace. intros a Ha.
  apply wpa_bind, wp_wpa. eapply wp_wrF; [st_red; apply lookup_insert_eq |].
  apply wpa_bind, wp_wpa, wp_modify.
  apply wpa_bind, wp_wpa, wp_modify.
  pose proof (building_init m a id (map_insert_new id (Some a)) Ha) as B0.
  apply wpa_bind, wp_wpa.
  eapply wp_mono; [apply (create_face_halfedges_spec m _ _ vs [] _ Hvs B0) |].
  intros hes m1 [B1 Hlen]. cbn [length Nat.add] in Hlen. cbv zeta.
  apply wpa_bind, wp_wpa.
  eapply wp_mono; [apply (link_next_prev m _ _ hes m1 B1) |].
  intros [] m2 [B2 HP2].
  apply wpa_bind, wp_wpa.
  eapply wp_mono; [apply (link_face m _ _ hes m2 B2 HP2) |].
  intros [] m3 [B3 HP3].
  pose proof (bd_grows _ _ _ _ _ B3) as G3.
  assert (Forall (fun h => ∃ b, h = Some b ∧ hh m !! b = None) hes) as Hfresh.
  { eapply Forall_impl; [exact (bd_hes _ _ _ _ _ B3) |].
    intros h (b & -> & Hb & _). by exists b. }
  assert (linking vs hes m3) as K3.
  { split.
    - eapply Forall_impl; [exact Hvs |]. intros v. by apply grows_vertex_at.
    - rewrite Forall_forall in HP3 |- *. intros h Hh.
      destruct (HP3 h Hh) as (b & x & -> & Hx & Hp).
      destruct (building_hes_live m _ _ hes m3 _ B3 Hp) as (p & xp & Hp' & Hxp).
      apply source_lookup. by exists b, x, p, xp.
    - intros b x' Hb. destruct (bd_lists _ _ _ _ _ B3 b x' Hb) as (x & Hx & ->).
      eapply Forall_impl; [exact (Hscan b x Hx) |]. intros e'.
      by apply grows_scannable. }
  apply wpa_bind.
  eapply wpa_mono;
    [apply (connect_edges nd m (m_faces m ++ [Some a]) vs hes id (eq_sym Hlen) Hfresh m3
              G3 K3 (bd_faces _ _ _ _ _ B3)) | | ].
  - intros [] m4 (G4 & F4 & _). apply wpa_ret. by exists a.
  - intros m4 [Hnd F4]. split; [done |]. by exists a.
Qed.

(** X8.  Let every vertex of [vs] be live and every candidate list be one
    the scan can read.  Then [create_face] neither faults nor loops: it
    returns the new face, appended to [m_faces], or (only when compiled
    without [NDEBUG]) stops at the assertion on an occupied edge.  When it
    returns, the half-edges that were there have their records
    unchanged, the vertices keep their ids, candidate lists are only
    appended to, and no edge loses a half-edge from a slot. *)
Theorem create_face_runs nd m vs id :
  Forall (fun v => is_Some (vertex_at m v)) vs →
  (∀ a x, hv m !! a = Some x → Forall (scannable m) (v_ledges x)) →
  (∃ f m', create_face nd vs id m = Ok (Some f) m' ∧
           hf m !! f = None ∧ m_faces m' = m_faces m ++ [Some f] ∧ grows m m') ∨
  (nd = false ∧
   ∃ f m', create_face nd vs id m = Abort m' ∧
           hf m !! f = None ∧ m_faces m' = m_faces m ++ [Some f]).
Proof.
  intros Hvs Hscan.
  pose proof (create_face_frame nd m vs id Hvs Hscan) as H. unfold wpa in H.
  destruct (create_face nd vs id m) as [p m' | m' | |]; try done.
  - left. destruct H as (f & -> & H). by exists f, m'.
  - right. destruct H as (Hnd & f & H). split; [done |]. by exists f, m'.
Qed.

Lemma create_face_runs_witness :
  (∃ f m', create_face true [Some 1; Some 4; Some 3]%positive 3 quad_mesh
             = Ok (Some f) m' ∧
           hf quad_mesh !! f = None ∧ m_faces m' = m_faces quad_mesh ++ [Some f] ∧
           grows quad_mesh m') ∨
  (true = false ∧
   ∃ f m', create_face true [Some 1; Some 4; Some 3]%positive 3 quad_mesh = Abort m' ∧
           hf quad_mesh !! f = None ∧ m_faces m' = m_faces quad_mesh ++ [Some f]).
Proof.
  apply (create_face_runs true quad_mesh [Some 1; Some 4; Some 3]%positive 3).
  - repeat (apply Forall_cons_2; [vm_compute; by eexists |]). apply Forall_nil_2.
  - refine (store_all_records _ _ _). vm_compute map_to_list.
    repeat first [apply Forall_nil_2 | apply Forall_cons_2; [cbv [uncurry fst snd] |]];
      (apply scannable_lookup; eexists _, _, _, _, _, _;
       repeat split; vm_compute; reflexivity).
Defined.
(** ** [splitEdge] next to the boundary *)

Lemma bind_fault {A B} (c : M A) (k : A → M B) m :
  straight c → (∀ a m1, c m = Ok a m1 → k a m1 = Fault) → (c ≫= k) m = Fault.
Proof.
  intros Hc Hk. unfold mbind, M_bind, bind. specialize (Hc m).
  destruct (c m) as [a m1 | | |]; try done. by apply Hk.
Qed.

Lemma straight_halfedge0 e : straight (halfedge0 e).
Proof. unfold halfedge0. straight_go. Qed.
Lemma straight_halfedge1 e : straight (halfedge1 e).
Proof. unfold halfedge1. straight_go. Qed.
Lemma straight_face_of h : straight (face_of h).
Proof. unfold face_of. straight_go. Qed.
#[export] Hint Resolve straight_halfedge0 straight_halfedge1 straight_face_of : straight.

Lemma attach_NULL_fault {B} a e (k : unit → M B) m :
  (attach_halfedge_to_edge a NULL e ≫= k) m = Fault.
Proof.
  apply bind_fault; [straight_go |]. intros r m1 H. by apply attach_NULL in H.
Qed.

Lemma attach_step {B} a b e (k : unit → M B) m :
  (∀ m1, k tt m1 = Fault) → (attach_halfedge_to_edge a b e ≫= k) m = Fault.
Proof. intros Hk. apply bind_fault; [straight_go |]. intros [] m1 _. apply Hk. Qed.

Ltac fstep := apply bind_fault; [solve [straight_go] | intros ? ? ?].
Ltac fread H := apply val_Ok_ro in H as [-> H]; [| solve [ro]].

(** X12.  [splitEdge] needs an interior edge whose two triangles have no
    boundary edge: if slot 1 of the edge is empty, or one of the four
    other half-edges of the two triangles has no dual, the call does not
    return, with and without [NDEBUG]: it reads or writes through
    [NULL]. *)
Theorem splitEdge_boundary_faults nd m e y h0 h1 h2 h3 h4 h5 d1 d2 d4 d5 :
  he m !! e = Some y → e_halfedge0 y = Some h0 →
  val (next (Some h0) m) = Some (Some h1) →
  val (next (Some h1) m) = Some (Some h2) →
  e_halfedge1 y = NULL ∨
  (e_halfedge1 y = Some h3 ∧
   val (next (Some h3) m) = Some (Some h4) ∧
   val (next (Some h4) m) = Some (Some h5) ∧
   val (dual (Some h1) m) = Some d1 ∧ val (dual (Some h2) m) = Some d2 ∧
   val (dual (Some h4) m) = Some d4 ∧ val (dual (Some h5) m) = Some d5 ∧
   (d1 = NULL ∨ d2 = NULL ∨ d4 = NULL ∨ d5 = NULL)) →
  splitEdge nd (Some e) m = Fault.
Proof.
  intros Hy S0 Hn0 Hn1 Hcase. unfold splitEdge.
  apply bind_fault; [solve [straight_go] | intros id m1 Hid].
  apply bind_fault; [solve [straight_go] | intros pV m2 HpV].
  destruct (splitFace_prologue m id pV m1 m2 Hid HpV) as (Hhh & Hhe & Hhf).
  assert (∀ h, val (next h m2) = val (next h m)) as Enext.
  { intros h. rewrite !val_next. unfold halfedge_at. by rewrite Hhh. }
  assert (∀ h, val (dual h m2) = val (dual h m)) as Edual.
  { intros h. rewrite !val_dual. unfold halfedge_at, edge_at. by rewrite Hhh, Hhe. }
  assert (val (halfedge0 (Some e) m2) = Some (Some h0)) as E0.
  { rewrite val_halfedge0, edge_at_Some, Hhe, Hy. cbn. by rewrite S0. }
  assert (val (halfedge1 (Some e) m2) = Some (e_halfedge1 y)) as E1.
  { by rewrite val_halfedge1, edge_at_Some, Hhe, Hy. }
  fstep. fread H. rewrite E0 in H. injection H as <-.
  fstep. fread H. rewrite Enext, Hn0 in H. injection H as <-.
  fstep. fread H. rewrite Enext, Hn1 in H. injection H as <-.
  fstep. fread H. rewrite E1 in H. injection H as <-.
  destruct Hcase as [-> | (S1 & Hn3 & Hn4 & D1 & D2 & D4 & D5 & Hnull)]; [done |].
  rewrite S1.
  fstep. fread H. rewrite Enext, Hn3 in H. injection H as <-.
  fstep. fread H. rewrite Enext, Hn4 in H. injection H as <-.
  fstep. fread H. clear H. fstep. fread H. clear H.
  fstep. fread H. clear H. fstep. fread H. clear H. fstep. fread H. clear H.
  fstep. fread H. clear H. fstep. fread H. clear H.
  fstep. fread H. rewrite Edual, D1 in H. injection H as <-.
  fstep. fread H. clear H. fstep. fread H. clear H.
  fstep. fread H. rewrite Edual, D2 in H. injection H as <-.
  fstep. fread H. clear H. fstep. fread H. clear H. fstep. fread H. clear H.
  fstep. fread H. clear H. fstep. fread H. clear H.
  fstep. fread H. rewrite Edual, D4 in H. injection H as <-.
  fstep. fread H. clear H. fstep. fread H. clear H.
  fstep. fread H. rewrite Edual, D5 in H. injection H as <-.
  apply bind_fault; [solve [straight_go] | intros [f2 [[h6 h7] h8]] m3 _].
  apply bind_fault; [solve [straight_go] | intros [f3 [[h9 h10] h11]] m4 _].
  fstep. fstep. fstep.
  apply attach_step. intros ?. apply attach_step. intros ?.
  apply attach_step. intros ?. apply attach_step. intros ?.
  destruct Hnull as [-> | [-> | [-> | ->]]].
  - apply attach_NULL_fault.
  - apply attach_step. intros ?. apply attach_step. intros ?.
    apply attach_NULL_fault.
  - apply attach_step. intros ?. apply attach_step. intros ?.
    apply attach_step. intros ?. apply attach_NULL_fault.
  - apply attach_step. intros ?. apply attach_NULL_fault.
Qed.

Lemma splitEdge_boundary_faults_witness :
  splitEdge false (Some 1%positive) quad_mesh = Fault.
Proof.
  eapply (splitEdge_boundary_faults false quad_mesh 1).
  - vm_compute. reflexivity.
  - vm_compute. reflexivity.
  - vm_compute. reflexivity.
  - vm_compute. reflexivity.
  - right. repeat split; try (vm_compute; reflexivity). vm_compute. auto.
Defined.
(** ** The in-half-edge queries on a boundary vertex *)

Lemma rot_path_ext rot1 rot2 h l :
  (∀ h, rot1 h = rot2 h) → rot_path rot1 h l → rot_path rot2 h l.
Proof.
  intros He. revert h. induction l as [| a l IH]; intros h; cbn [rot_path].
  - by rewrite He.
  - rewrite He. intros [H1 H2]. split; [done | by apply IH].
Qed.

Lemma rot_path_det rot h l1 l2 : rot_path rot h l1 → rot_path rot h l2 → l1 = l2.
Proof.
  revert h l2. induction l1 as [| a l1 IH]; intros h [| b l2]; cbn [rot_path]; try done.
  - intros H1 [H2 _]. congruence.
  - intros [H1 _] H2. congruence.
  - intros [H1 P1] [H2 P2]. assert (a = b) as -> by congruence.
    f_equal. by eapply IH.
Qed.

Lemma rot_path_suffix rot h l1 a l2 :
  rot_path rot h (l1 ++ a :: l2) → rot_path rot (Some a) l2.
Proof.
  revert h. induction l1 as [| b l1 IH]; intros h; cbn [rot_path app].
  - by intros [_ H].
  - intros [_ H]. by eapply IH.
Qed.

(** A rotation that reaches [NULL] passes no half-edge twice. *)
Lemma rot_path_NoDup rot h l : rot_path rot h l → NoDup l.
Proof.
  revert h. induction l as [| a l IH]; intros h; [constructor |].
  intros [_ H]. apply NoDup_cons. split; [| by eapply IH].
  intros Hin. apply list_elem_of_split in Hin as (l1 & l2 & ->).
  pose proof (rot_path_suffix rot _ l1 a l2 H) as H2.
  pose proof (rot_path_det rot _ _ _ H H2) as Heq.
  apply (f_equal length) in Heq. rewrite length_app in Heq. cbn in Heq. lia.
Qed.

Lemma rot_path_size rot m h l :
  (∀ a r, rot (Some a) = Some r → is_Some (hh m !! a)) →
  rot_path rot h l → (length l ≤ size (hh m))%nat.
Proof.
  intros Hlive Hp. pose proof (rot_path_NoDup rot h l Hp) as Hnd.
  rewrite <- (length_map_to_list (hh m)).
  rewrite <- (length_fmap fst (map_to_list (hh m))).
  apply submseteq_length, NoDup_submseteq; [done |].
  intros a Ha.
  assert (∃ r, rot (Some a) = Some r) as [r Hr].
  { apply list_elem_of_split in Ha as (l1 & l2 & ->).
    apply rot_path_suffix in Hp. destruct l2; cbn in Hp; [by eexists |].
    destruct Hp as [Hp _]. by eexists. }
  destruct (Hlive a r Hr) as [x Hx].
  apply list_elem_of_fmap. exists (a, x). split; [done |].
  by apply elem_of_map_to_list.
Qed.

Lemma seated_twice v x h1 h2 m :
  seated v (with_v_halfedge h1 x) h2 (seated v x h1 m) = seated v x h2 m.
Proof.
  unfold seated, set_hv. cbn. f_equal. by rewrite insert_insert_eq.
Qed.

Lemma seated_same v x m :
  hv m !! v = Some x → seated v x (v_halfedge x) m = m.
Proof.
  intros Hx. unfold seated, set_hv. destruct m, x. cbn in *. f_equal.
  by apply insert_id.
Qed.

Section SeatLoop.
Variable rot : ptr → M ptr.
Hypothesis rot_ro : ∀ h, read_only (rot h).
Hypothesis rot_frame : ∀ h g m, val (rot h (set_hv g m)) = val (rot h m).

Lemma seat_loop_path v l :
  ∀ fuel m x he,
    hv m !! v = Some x → (length l ≤ fuel)%nat →
    match l with
    | [] => he = NULL
    | a :: l' => he = Some a ∧ rot_path (fun h => val (rot h m)) (Some a) l'
    end →
    seat_loop rot fuel (Some v) he m =
      Ok tt (match last l with Some b => seated v x (Some b) m | None => m end).
Proof.
  induction l as [| a l IH]; intros fuel m x he Hx Hfuel Hp.
  - subst he. by destruct fuel.
  - destruct Hp as [-> Hp]. destruct fuel as [| fuel]; [cbn in Hfuel; lia |].
    cbn [seat_loop].
    assert (wrV (Some v) (with_v_halfedge (Some a)) m = Ok tt (seated v x (Some a) m))
      as Hw.
    { unfold wrV, rdV, seated. munfold. rewrite Hx. reflexivity. }
    rewrite (bind_Ok _ _ _ _ _ Hw).
    assert (∃ he', rot (Some a) (seated v x (Some a) m) = Ok he' (seated v x (Some a) m) ∧
                   match l with
                   | [] => he' = NULL
                   | b :: l' => he' = Some b ∧
                       rot_path (fun h => val (rot h (seated v x (Some a) m))) (Some b) l'
                   end) as (he' & Hr & Hp').
    { assert (∀ h, val (rot h m) = val (rot h (seated v x (Some a) m))) as Hfr
        by (intros h; symmetry; apply rot_frame).
      destruct l as [| b l']; cbn [rot_path] in Hp.
      - exists NULL. split; [| done]. apply read_only_val; [apply rot_ro |].
        by rewrite <- Hfr.
      - destruct Hp as [Hp1 Hp2]. exists (Some b). split.
        + apply read_only_val; [apply rot_ro |]. by rewrite <- Hfr.
        + split; [done |].
          exact (rot_path_ext (fun h => val (rot h m)) _ _ _ Hfr Hp2). }
    rewrite (bind_Ok _ _ _ _ _ Hr).
    rewrite (IH fuel _ (with_v_halfedge (Some a) x) he');
      [| unfold seated; cbn; apply lookup_insert_eq | cbn in Hfuel; lia | exact Hp'].
    destruct l as [| b l']; [done |].
    change (last (a :: b :: l')) with (last (b :: l')).
    destruct (last (b :: l')) as [c |] eqn:El; [by rewrite seated_twice |].
    by apply last_None in El.
Qed.
End SeatLoop.
Lemma val_ccw_rotate_about_target m h :
  val (ccw_rotate_about_target h m) =
    d ← val (dual h m);
    match d with Some _ => val (prev d m) | None => Some NULL end.
Proof.
  unfold ccw_rotate_about_target. rewrite val_bind by ro.
  destruct (val (dual h m)) as [[d |] |]; done.
Qed.
Lemma val_clw_rotate_about_target m h :
  val (clw_rotate_about_target h m) = n ← val (next h m); val (dual n m).
Proof. unfold clw_rotate_about_target. by rewrite val_bind by ro. Qed.
Lemma val_ccw_rotate_about_source m h :
  val (ccw_rotate_about_source h m) = p ← val (prev h m); val (dual p m).
Proof. unfold ccw_rotate_about_source. by rewrite val_bind by ro. Qed.
Lemma val_clw_rotate_about_source m h :
  val (clw_rotate_about_source h m) =
    d ← val (dual h m);
    match d with Some _ => val (next d m) | None => Some NULL end.
Proof.
  unfold clw_rotate_about_source. rewrite val_bind by ro.
  destruct (val (dual h m)) as [[d |] |]; done.
Qed.

(** The rotations read half-edges and edges only. *)
Lemma ccw_rotate_about_target_frame h g m :
  val (ccw_rotate_about_target h (set_hv g m)) = val (ccw_rotate_about_target h m).
Proof.
  rewrite !val_ccw_rotate_about_target, !val_dual.
  change (halfedge_at (set_hv g m)) with (halfedge_at m).
  change (edge_at (set_hv g m)) with (edge_at m).
  destruct (halfedge_at m h) as [x |]; [cbn | done].
  destruct (edge_at m (h_edge x)) as [y |]; [cbn | done].
  destruct (if ptr_eqb h (e_halfedge0 y) then e_halfedge1 y else e_halfedge0 y);
    [| done].
  by rewrite !val_prev.
Qed.
Lemma clw_rotate_about_target_frame h g m :
  val (clw_rotate_about_target h (set_hv g m)) = val (clw_rotate_about_target h m).
Proof.
  rewrite !val_clw_rotate_about_target, !val_next.
  change (halfedge_at (set_hv g m)) with (halfedge_at m).
  destruct (halfedge_at m h) as [x |]; [cbn | done].
  by rewrite !val_dual.
Qed.

Lemma rot_live_ccw_target m a r :
  val (ccw_rotate_about_target (Some a) m) = Some r → is_Some (hh m !! a).
Proof.
  rewrite val_ccw_rotate_about_target, val_dual, halfedge_at_Some.
  by destruct (hh m !! a).
Qed.
Lemma rot_live_clw_target m a r :
  val (clw_rotate_about_target (Some a) m) = Some r → is_Some (hh m !! a).
Proof.
  rewrite val_clw_rotate_about_target, val_next, halfedge_at_Some.
  by destruct (hh m !! a).
Qed.

Lemma walk_fuel_Ok m : walk_fuel m = Ok (S (size (hh m))) m.
Proof. reflexivity. Qed.

Lemma seat_query rot m v x l :
  (∀ h, read_only (rot h)) →
  (∀ h g m, val (rot h (set_hv g m)) = val (rot h m)) →
  (∀ a r, val (rot (Some a) m) = Some r → is_Some (hh m !! a)) →
  hv m !! v = Some x →
  rot_path (fun h => val (rot h m)) (v_halfedge x) l →
  (he ← rot (v_halfedge x);
   fuel ← walk_fuel;
   seat_loop rot fuel (Some v) he;;
   vertex_halfedge (Some v)) m
  = Ok (rot_end (v_halfedge x) l) (seated v x (rot_end (v_halfedge x) l) m).
Proof.
  intros Hro Hfr Hlive Hx Hp.
  pose proof (rot_path_size _ m _ l Hlive Hp) as Hsz.
  assert (∃ he, rot (v_halfedge x) m = Ok he m ∧
                match l with
                | [] => he = NULL
                | a :: l' => he = Some a ∧ rot_path (fun h => val (rot h m)) (Some a) l'
                end) as (he & Hr & Hp').
  { destruct l as [| a l']; cbn [rot_path] in Hp.
    - exists NULL. split; [by apply read_only_val | done].
    - destruct Hp as [Hp1 Hp2]. exists (Some a). split; [by apply read_only_val | done]. }
  rewrite (bind_Ok _ _ _ _ _ Hr), (bind_Ok _ _ _ _ _ (walk_fuel_Ok m)).
  rewrite (bind_Ok _ _ _ _ _
             (seat_loop_path rot Hro Hfr v l (S (size (hh m))) m x he Hx
                ltac:(lia) Hp')).
  unfold rot_end. destruct (last l) as [b |].
  - unfold vertex_halfedge, rdV, seated. munfold. cbn. by rewrite lookup_insert_eq.
  - rewrite (seated_same v x m Hx).
    unfold vertex_halfedge, rdV. munfold. by rewrite Hx.
Qed.

(** X13.  On a boundary vertex [v], [most_ccw_in_halfedge] and
    [most_clw_in_halfedge] are not pure queries: they rotate from the
    representative half-edge of [v] until the rotation yields [NULL],
    store the half-edge they stop at as the new representative of [v],
    and return it; nothing else changes. *)
Theorem in_halfedge_queries_reseat m v x l1 l2 :
  hv m !! v = Some x → v_boundary x = true →
  rot_path (fun h => val (ccw_rotate_about_target h m)) (v_halfedge x) l1 →
  rot_path (fun h => val (clw_rotate_about_target h m)) (v_halfedge x) l2 →
  most_ccw_in_halfedge (Some v) m
    = Ok (rot_end (v_halfedge x) l1) (seated v x (rot_end (v_halfedge x) l1) m) ∧
  most_clw_in_halfedge (Some v) m
    = Ok (rot_end (v_halfedge x) l2) (seated v x (rot_end (v_halfedge x) l2) m).
Proof.
  intros Hx Hb H1 H2. split.
  - unfold most_ccw_in_halfedge. rewrite (bind_Ok _ _ _ _ _ (rdV_Ok m v x Hx)).
    rewrite Hb. cbn [negb].
    apply seat_query;
      [ intros h; ro | apply ccw_rotate_about_target_frame
      | apply rot_live_ccw_target | done | done ].
  - unfold most_clw_in_halfedge. rewrite (bind_Ok _ _ _ _ _ (rdV_Ok m v x Hx)).
    rewrite Hb. cbn [negb].
    apply seat_query;
      [ intros h; ro | apply clw_rotate_about_target_frame
      | apply rot_live_clw_target | done | done ].
Qed.

Lemma in_halfedge_queries_reseat_witness :
  most_ccw_in_halfedge (Some 1%positive) quad_mesh
    = Ok (Some 4%positive) quad_mesh ∧
  ∃ x, hv quad_mesh !! 1%positive = Some x ∧
       most_clw_in_halfedge (Some 1%positive) quad_mesh
         = Ok (Some 1%positive) (seated 1 x (Some 1%positive) quad_mesh).
Proof.
  assert (∃ x, hv quad_mesh !! 1%positive = Some x ∧ v_boundary x = true ∧
               v_halfedge x = Some 4%positive) as (x & Hx & Hb & Hh)
    by (eexists; vm_compute; repeat split).
  destruct (in_halfedge_queries_reseat quad_mesh 1 x [] [1%positive] Hx Hb)
    as [H1 H2].
  - rewrite Hh. vm_compute. reflexivity.
  - rewrite Hh. split; vm_compute; reflexivity.
  - rewrite Hh in H1, H2. unfold rot_end in H1, H2. cbn [last] in H1, H2.
    split.
    + rewrite H1. f_equal. rewrite <- Hh. by apply seated_same.
    + exists x. by split.
Defined.

(** ** The out-half-edge queries on a boundary vertex *)

Lemma rot_end_cons h a l : rot_end h (a :: l) = rot_end (Some a) l.
Proof.
  unfold rot_end. destruct l as [| b l]; [done |].
  change (last (a :: b :: l)) with (last (b :: l)).
  destruct (last (b :: l)) eqn:E; [done |]. by apply last_None in E.
Qed.

Lemma walk_loop_path rot l :
  (∀ h, read_only (rot h)) →
  ∀ fuel m he ne,
    (length l ≤ fuel)%nat →
    match l with
    | [] => ne = NULL
    | a :: l' => ne = Some a ∧ rot_path (fun h => val (rot h m)) (Some a) l'
    end →
    walk_loop rot fuel he ne m = Ok (rot_end he l) m.
Proof.
  intros Hro. induction l as [| a l IH]; intros fuel m he ne Hfuel Hp.
  - subst ne. by destruct fuel.
  - destruct Hp as [-> Hp]. destruct fuel as [| fuel]; [cbn in Hfuel; lia |].
    cbn [walk_loop]. rewrite rot_end_cons.
    assert (∃ ne', rot (Some a) m = Ok ne' m ∧
                   match l with
                   | [] => ne' = NULL
                   | b :: l' => ne' = Some b ∧
                       rot_path (fun h => val (rot h m)) (Some b) l'
                   end) as (ne' & Hr & Hp').
    { destruct l as [| b l']; cbn [rot_path] in Hp.
      - exists NULL. split; [by apply read_only_val | done].
      - destruct Hp as [Hp1 Hp2]. exists (Some b).
        split; [by apply read_only_val | done]. }
    rewrite (bind_Ok _ _ _ _ _ Hr). apply IH; [cbn in Hfuel; lia | done].
Qed.

Lemma walk_query rot m h0 he l :
  (∀ h, read_only (rot h)) →
  (∀ a r, val (rot (Some a) m) = Some r → is_Some (hh m !! a)) →
  val (next h0 m) = Some he →
  rot_path (fun h => val (rot h m)) he l →
  (he ← next h0; ne ← rot he; fuel ← walk_fuel; walk_loop rot fuel he ne) m
  = Ok (rot_end he l) m.
Proof.
  intros Hro Hlive Hn Hp.
  pose proof (rot_path_size _ m _ l Hlive Hp) as Hsz.
  rewrite (bind_Ok _ _ _ _ _ (read_only_val _ m he (read_only_next h0) Hn)).
  assert (∃ ne, rot he m = Ok ne m ∧
                match l with
                | [] => ne = NULL
                | a :: l' => ne = Some a ∧ rot_path (fun h => val (rot h m)) (Some a) l'
                end) as (ne & Hr & Hp').
  { destruct l as [| a l']; cbn [rot_path] in Hp.
    - exists NULL. split; [by apply read_only_val | done].
    - destruct Hp as [Hp1 Hp2]. exists (Some a). split; [by apply read_only_val | done]. }
  rewrite (bind_Ok _ _ _ _ _ Hr), (bind_Ok _ _ _ _ _ (walk_fuel_Ok m)).
  apply walk_loop_path; [done | lia | done].
Qed.

Lemma rot_live_ccw_source m a r :
  val (ccw_rotate_about_source (Some a) m) = Some r → is_Some (hh m !! a).
Proof.
  rewrite val_ccw_rotate_about_source, val_prev, halfedge_at_Some.
  by destruct (hh m !! a).
Qed.
Lemma rot_live_clw_source m a r :
  val (clw_rotate_about_source (Some a) m) = Some r → is_Some (hh m !! a).
Proof.
  rewrite val_clw_rotate_about_source, val_dual, halfedge_at_Some.
  by destruct (hh m !! a).
Qed.

(** X14.  On a boundary vertex [v] whose representative half-edge has
    the successor [he], [most_ccw_out_halfedge] and
    [most_clw_out_halfedge] return the half-edge at which the rotation
    about the source, started from [he], first yields [NULL] ([he] itself
    when it does so at once), and leave the mesh as it is. *)
Theorem out_halfedge_queries_boundary m v x he l1 l2 :
  hv m !! v = Some x → v_boundary x = true →
  val (next (v_halfedge x) m) = Some he →
  rot_path (fun h => val (ccw_rotate_about_source h m)) he l1 →
  rot_path (fun h => val (clw_rotate_about_source h m)) he l2 →
  most_ccw_out_halfedge (Some v) m = Ok (rot_end he l1) m ∧
  most_clw_out_halfedge (Some v) m = Ok (rot_end he l2) m.
Proof.
  intros Hx Hb Hn H1 H2. split.
  - unfold most_ccw_out_halfedge. rewrite (bind_Ok _ _ _ _ _ (rdV_Ok m v x Hx)).
    rewrite Hb. cbn [negb].
    apply walk_query; [intros h; ro | apply rot_live_ccw_source | done | done].
  - unfold most_clw_out_halfedge. rewrite (bind_Ok _ _ _ _ _ (rdV_Ok m v x Hx)).
    rewrite Hb. cbn [negb].
    apply walk_query; [intros h; ro | apply rot_live_clw_source | done | done].
Qed.

Lemma out_halfedge_queries_boundary_witness :
  most_ccw_out_halfedge (Some 1%positive) quad_mesh = Ok (Some 5%positive) quad_mesh ∧
  most_clw_out_halfedge (Some 1%positive) quad_mesh = Ok (Some 2%positive) quad_mesh.
Proof.
  assert (∃ x, hv quad_mesh !! 1%positive = Some x ∧ v_boundary x = true ∧
               v_halfedge x = Some 4%positive) as (x & Hx & Hb & Hh)
    by (eexists; vm_compute; repeat split).
  apply (out_halfedge_queries_boundary quad_mesh 1 x (Some 5%positive) []
           [2%positive] Hx Hb).
  - rewrite Hh. vm_compute. reflexivity.
  - vm_compute. reflexivity.
  - split; vm_compute; reflexivity.
Defined.

(** ** [CLoop::divide] *)

Section Divide.
Variable nd : bool.
Variable m : Mesh.
Variable markers : list ptr.
Variable m0 : ptr.
Hypothesis Hm0 : markers !! 0%nat = Some m0.

Lemma idx_Ok (l : list ptr) i p (m1 : Mesh) : l !! i = Some p → idx l i m1 = Ok p m1.
Proof. intros H. unfold idx. by rewrite H. Qed.

Lemma divide_rotate_step pH rest fuel n s :
  val (source pH m) = Some s →
  divide_rotate (S fuel) (pH :: rest) markers n m =
    if ptr_eqb s m0 then Ok (pH :: rest, n) m
    else if (length (rest ++ [pH]) <? S n)%nat then Ok (rest ++ [pH], S n) m
         else divide_rotate fuel (rest ++ [pH]) markers (S n) m.
Proof.
  intros Hs. cbn [divide_rotate].
  rewrite (bind_Ok _ _ _ _ _ (read_only_val _ m s (read_only_source pH) Hs)).
  rewrite (bind_Ok _ _ _ _ _ (idx_Ok markers 0 m0 m Hm0)).
  destruct (ptr_eqb s m0); [done |].
  by destruct (length (rest ++ [pH]) <? S n)%nat.
Qed.

(** The rotation stops at the first half-edge out of the first marker. *)
Lemma divide_rotate_finds a :
  ∀ hb r n fuel,
    Forall (starts_off m m0) a → val (source hb m) = Some m0 →
    (length a < fuel)%nat → (n + length a ≤ length (a ++ hb :: r))%nat →
    divide_rotate fuel (a ++ hb :: r) markers n m
    = Ok (hb :: r ++ a, (n + length a)%nat) m.
Proof.
  induction a as [| x a IH]; intros hb r n fuel Ha Hb Hfuel Hn.
  - destruct fuel as [| fuel]; [cbn in Hfuel; lia |].
    cbn [app]. rewrite (divide_rotate_step hb r fuel n m0 Hb), ptr_eqb_refl.
    cbn. by rewrite app_nil_r, Nat.add_0_r.
  - apply Forall_cons in Ha as [(s & Hs & Hne) Ha].
    destruct fuel as [| fuel]; [cbn in Hfuel; lia |].
    cbn [app]. rewrite (divide_rotate_step x _ fuel n s Hs).
    rewrite (proj2 (ptr_eqb_false s m0)) by done.
    assert ((length ((a ++ hb :: r) ++ [x]) <? S n)%nat = false) as ->.
    { apply Nat.ltb_ge. cbn in Hn. rewrite !length_app in *. cbn in *. lia. }
    rewrite <- app_assoc. cbn [app].
    rewrite (IH hb (r ++ [x]) (S n) fuel Ha Hb); [| cbn in Hfuel; lia |].
    + rewrite <- app_assoc. cbn. do 3 f_equal. lia.
    + cbn in Hn. rewrite !length_app in *. cbn in *. rewrite length_app. cbn. lia.
Qed.

(** With no half-edge out of the first marker the rotation gives up
    after one more round than the queue is long. *)
Lemma divide_rotate_gives_up fuel :
  ∀ q n,
    q ≠ [] → Forall (starts_off m m0) q →
    (n ≤ length q)%nat → (length q + 1 - n ≤ fuel)%nat →
    ∃ q', divide_rotate fuel q markers n m = Ok (q', S (length q)) m ∧
          length q' = length q.
Proof.
  induction fuel as [| fuel IH]; intros q n Hq Hall Hn Hfuel; [lia |].
  destruct q as [| x r]; [done |].
  pose proof Hall as Hall'. apply Forall_cons in Hall' as [(s & Hs & Hne) Hr].
  rewrite (divide_rotate_step x r fuel n s Hs).
  rewrite (proj2 (ptr_eqb_false s m0)) by done.
  assert (length (r ++ [x]) = length (x :: r)) as Hlen
    by (rewrite length_app; cbn; lia).
  destruct (length (r ++ [x]) <? S n)%nat eqn:E.
  - apply Nat.ltb_lt in E. exists (r ++ [x]). split; [| done].
    do 2 f_equal. rewrite Hlen in E. cbn in *. lia.
  - apply Nat.ltb_ge in E.
    destruct (IH (r ++ [x]) (S n)) as (q' & Hrun & Hq').
    + by destruct r.
    + apply Forall_app. split; [done |]. apply Forall_singleton. by exists s.
    + done.
    + rewrite Hlen. cbn in *. lia.
    + exists q'. rewrite Hrun, Hq', Hlen. done.
Qed.
End Divide.

(** X15.  When no half-edge of the loop starts at the first marker,
    [divide] writes [CLoop::divide: can not find the starting vertex] and
    returns with the loop as it was: no segment is added. *)
Theorem divide_no_start nd m L markers m0 :
  markers !! 0%nat = Some m0 →
  l_halfedges L ≠ [] →
  Forall (starts_off m m0) (l_halfedges L) →
  divide nd L markers m
  = Ok L (printed "CLoop::divide: can not find the starting vertex " m).
Proof.
  intros Hm0 Hne Hall. unfold divide.
  destruct (divide_rotate_gives_up m markers m0 Hm0 (S (S (length (l_halfedges L))))
              (l_halfedges L) 0 Hne Hall ltac:(lia) ltac:(lia)) as (q' & Hrun & Hlen).
  rewrite (bind_Ok _ _ _ _ _ Hrun). rewrite Hlen.
  rewrite (proj2 (Nat.ltb_lt _ _)) by lia.
  reflexivity.
Qed.

Lemma divide_no_start_witness :
  divide false quad_loop [Some 7%positive] quad_mesh
  = Ok quad_loop (printed "CLoop::divide: can not find the starting vertex " quad_mesh).
Proof.
  apply (divide_no_start false quad_mesh quad_loop [Some 7%positive] (Some 7%positive)).
  - reflexivity.
  - vm_compute. discriminate.
  - vm_compute l_halfedges.
    repeat (apply Forall_cons_2; [eexists; split; [vm_compute; reflexivity | discriminate] |]).
    apply Forall_nil_2.
Defined.
Section DivideSegments.
Variable nd : bool.
Variable m : Mesh.
Variable markers : list ptr.

(** The inner loop takes a segment off the queue. *)
Lemma divide_take_run to rest :
  ∀ ph hes queue fuel,
    run_to m to ph rest → (length rest < fuel)%nat →
    divide_take fuel ph to hes (rest ++ queue) m
    = Ok (Some (hes ++ rest, queue)) m.
Proof.
  induction rest as [| ph' rest IH]; intros ph hes queue fuel Hrun Hfuel;
    (destruct fuel as [| fuel]; [cbn in Hfuel; lia |]); cbn [divide_take run_to] in *.
  - rewrite (bind_Ok _ _ _ _ _ (read_only_val _ m to (read_only_target ph) Hrun)).
    rewrite ptr_eqb_refl. cbn. by rewrite app_nil_r.
  - destruct Hrun as [(t & Ht & Hne) Hrun].
    rewrite (bind_Ok _ _ _ _ _ (read_only_val _ m t (read_only_target ph) Ht)).
    rewrite (proj2 (ptr_eqb_false t to)) by done. cbn [negb app].
    rewrite (IH ph' (hes ++ [ph']) queue fuel Hrun); [| cbn in Hfuel; lia].
    by rewrite <- app_assoc.
Qed.

(** The outer loop takes the segments off the queue one after the
    other. *)
Lemma divide_segments_run segs rest :
  ∀ i acc,
    (∀ j seg, segs !! j = Some seg →
       ∃ from to, markers !! (i + j)%nat = Some from ∧
                  markers !! ((i + j + 1) mod length markers)%nat = Some to ∧
                  segment_to m from to seg) →
    divide_segments nd (seq i (length segs)) markers (concat segs ++ rest) acc m
    = Ok (acc ++ segs) m.
Proof.
  induction segs as [| seg segs IH]; intros i acc Hsegs.
  - cbn. by rewrite app_nil_r.
  - destruct (Hsegs 0%nat seg eq_refl) as (from & to & Hfrom & Hto & ph & rest0 & -> & Hs & Hrun).
    rewrite Nat.add_0_r in Hfrom, Hto.
    cbn [length seq concat app divide_segments]. rewrite <- !app_assoc.
    cbn [app divide_segments].
    assert (assert_ nd (s ← source ph; mi ← idx markers i; mret (ptr_eqb s mi)) m
            = Ok tt m) as Ha.
    { unfold assert_. destruct nd; [done |].
      assert ((s ← source ph; mi ← idx markers i; mret (ptr_eqb s mi)) m = Ok true m)
        as Hc.
      { rewrite (bind_Ok _ _ _ _ _ (read_only_val _ m from (read_only_source ph) Hs)).
        rewrite (bind_Ok _ _ _ _ _ (idx_Ok markers i from m Hfrom)).
        by rewrite ptr_eqb_refl. }
      by rewrite (bind_Ok _ _ _ _ _ Hc). }
    rewrite (bind_Ok _ _ _ _ _ Ha).
    rewrite (bind_Ok _ _ _ _ _ (idx_Ok markers _ to m Hto)).
    rewrite (bind_Ok _ _ _ _ _
               (divide_take_run to rest0 ph [ph] (concat segs ++ rest)
                  (S (length (rest0 ++ concat segs ++ rest))) Hrun
                  ltac:(rewrite length_app; lia))).
    cbn [app]. rewrite (IH (S i) (acc ++ [ph :: rest0])).
    + by rewrite <- app_assoc.
    + intros j seg' Hj. specialize (Hsegs (S j) seg' Hj).
      destruct Hsegs as (from' & to' & H1 & H2 & H3). exists from', to'.
      replace (S i + j)%nat with (i + S j)%nat by lia. done.
Qed.
End DivideSegments.

(** X16.  Let the loop be [a ++ b], where no half-edge of [a] starts at
    the first marker, and let the rotated loop [b ++ a] begin with the
    segments [segs], one per marker, segment [i] starting at marker [i]
    and running up to its first half-edge into marker [(i + 1) mod n].
    Then [divide] returns, with and without [NDEBUG], changes nothing in
    the mesh and appends exactly the segments [segs], in order, to the
    segments of the loop. *)
Theorem divide_finds_segments nd m L markers a b segs rest :
  l_halfedges L = a ++ b → b ++ a = concat segs ++ rest →
  length segs = length markers → markers ≠ [] →
  (∀ m0, markers !! 0%nat = Some m0 → Forall (starts_off m m0) a) →
  (∀ i seg, segs !! i = Some seg →
     ∃ from to, markers !! i = Some from ∧
                markers !! ((i + 1) mod length markers)%nat = Some to ∧
                segment_to m from to seg) →
  divide nd L markers m
  = Ok (mkLoop (l_length L) (l_pHalfedge L) (l_halfedges L) (l_segments L ++ segs)) m.
Proof.
  intros Hq Hrot Hlen Hne Ha Hsegs. unfold divide.
  destruct markers as [| m0 mk] eqn:Em; [done |]. rewrite <- Em in *.
  assert (markers !! 0%nat = Some m0) as Hm0 by (by rewrite Em).
  destruct segs as [| seg0 segs']; [by rewrite Em in Hlen |].
  destruct (Hsegs 0%nat seg0 eq_refl)
    as (from & to & Hfrom & _ & hb & r0 & -> & Hs & _).
  assert (from = m0) as -> by congruence.
  specialize (Ha m0 Hm0).
  destruct b as [| hb' b'].
  { cbn in Hrot. destruct a as [| x a']; [done |].
    injection Hrot as -> _. apply Forall_cons in Ha as [(s & Hs' & Hn) _]. congruence. }
  assert (hb' = hb) as -> by (cbn in Hrot; congruence).
  rewrite Hq.
  rewrite (bind_Ok _ _ _ _ _
             (divide_rotate_finds m markers m0 Hm0 a hb b' 0
                (S (S (length (a ++ hb :: b'))))
                Ha Hs ltac:(rewrite length_app; lia)
                ltac:(rewrite length_app; cbn; lia))).
  assert ((length (hb :: b' ++ a) <? 0 + length a)%nat = false) as ->.
  { apply Nat.ltb_ge. cbn. rewrite !length_app. lia. }
  change (hb :: b' ++ a) with ((hb :: b') ++ a). rewrite Hrot, <- Hlen.
  rewrite (bind_Ok _ _ _ _ _
             (divide_segments_run nd m markers ((hb :: r0) :: segs') rest 0
                (l_segments L) Hsegs)).
  reflexivity.
Qed.

Lemma divide_finds_segments_witness :
  divide false quad_loop [Some 3; Some 1]%positive quad_mesh
  = Ok (mkLoop (l_length quad_loop) (l_pHalfedge quad_loop) (l_halfedges quad_loop)
          (l_segments quad_loop ++
             [[Some 6; Some 4]; [Some 2; Some 3]]%positive)) quad_mesh.
Proof.
  apply (divide_finds_segments false quad_mesh quad_loop [Some 3; Some 1]%positive
           [Some 3%positive] [Some 6; Some 4; Some 2]%positive
           [[Some 6; Some 4]; [Some 2; Some 3]]%positive []).
  - reflexivity.
  - reflexivity.
  - reflexivity.
  - discriminate.
  - intros m0 [= <-]. apply Forall_singleton. eexists.
    split; [vm_compute; reflexivity | discriminate].
  - intros [| [| i]] seg [= <-].
    + exists (Some 3%positive), (Some 1%positive).
      split; [reflexivity |]. split; [reflexivity |].
      eexists _, _. split; [reflexivity |]. split; [vm_compute; reflexivity |].
      split; [eexists; split; [vm_compute; reflexivity | discriminate] |].
      vm_compute. reflexivity.
    + exists (Some 1%positive), (Some 3%positive).
      split; [reflexivity |]. split; [reflexivity |].
      eexists _, _. split; [reflexivity |]. split; [vm_compute; reflexivity |].
      split; [eexists; split; [vm_compute; reflexivity | discriminate] |].
      vm_compute. reflexivity.
Defined.
Section DivideGivesUp.
Variable nd : bool.
Variable m : Mesh.
Variable markers : list ptr.

(** The inner loop on a queue that does not reach the marker. *)
Lemma divide_take_exhausts to rest :
  ∀ ph hes fuel,
    Forall (ends_off m to) (ph :: rest) → (length rest < fuel)%nat →
    divide_take fuel ph to hes rest m
    = Ok None (printed "CLoop::divide error" m).
Proof.
  induction rest as [| ph' rest IH]; intros ph hes fuel Hall Hfuel;
    (destruct fuel as [| fuel]; [cbn in Hfuel; lia |]); cbn [divide_take];
    apply Forall_cons in Hall as [(t & Ht & Hne) Hall];
    rewrite (bind_Ok _ _ _ _ _ (read_only_val _ m t (read_only_target ph) Ht));
    rewrite (proj2 (ptr_eqb_false t to)) by done; cbn [negb].
  - reflexivity.
  - apply IH; [done | cbn in Hfuel; lia].
Qed.

Lemma divide_segments_gives_up segs ph tail extra :
  ∀ i acc,
    (∀ j seg, segs !! j = Some seg →
       ∃ from to, markers !! (i + j)%nat = Some from ∧
                  markers !! ((i + j + 1) mod length markers)%nat = Some to ∧
                  segment_to m from to seg) →
    (∃ from to, markers !! (i + length segs)%nat = Some from ∧
                markers !! ((i + length segs + 1) mod length markers)%nat = Some to ∧
                val (source ph m) = Some from ∧
                Forall (ends_off m to) (ph :: tail)) →
    divide_segments nd (seq i (length segs + S extra)) markers
                    (concat segs ++ ph :: tail) acc m
    = Ok (acc ++ segs) (printed "CLoop::divide error" m).
Proof.
  induction segs as [| seg segs IH]; intros i acc Hsegs Hlast.
  - destruct Hlast as (from & to & Hfrom & Hto & Hs & Hall).
    cbn [length] in Hfrom, Hto. rewrite Nat.add_0_r in Hfrom, Hto.
    cbn [length Nat.add seq concat app divide_segments].
    assert (assert_ nd (s ← source ph; mi ← idx markers i; mret (ptr_eqb s mi)) m
            = Ok tt m) as Ha.
    { unfold assert_. destruct nd; [done |].
      assert ((s ← source ph; mi ← idx markers i; mret (ptr_eqb s mi)) m = Ok true m)
        as Hc.
      { rewrite (bind_Ok _ _ _ _ _ (read_only_val _ m from (read_only_source ph) Hs)).
        rewrite (bind_Ok _ _ _ _ _ (idx_Ok markers i from m Hfrom)).
        by rewrite ptr_eqb_refl. }
      by rewrite (bind_Ok _ _ _ _ _ Hc). }
    rewrite (bind_Ok _ _ _ _ _ Ha).
    rewrite (bind_Ok _ _ _ _ _ (idx_Ok markers _ to m Hto)).
    rewrite (bind_Ok _ _ _ _ _
               (divide_take_exhausts to tail ph [ph] (S (length tail)) Hall ltac:(lia))).
    cbn. by rewrite app_nil_r.
  - destruct (Hsegs 0%nat seg eq_refl)
      as (from & to & Hfrom & Hto & ph0 & rest0 & -> & Hs & Hrun).
    rewrite Nat.add_0_r in Hfrom, Hto.
    cbn [length Nat.add seq concat app divide_segments]. rewrite <- !app_assoc.
    cbn [app divide_segments].
    assert (assert_ nd (s ← source ph0; mi ← idx markers i; mret (ptr_eqb s mi)) m
            = Ok tt m) as Ha.
    { unfold assert_. destruct nd; [done |].
      assert ((s ← source ph0; mi ← idx markers i; mret (ptr_eqb s mi)) m = Ok true m)
        as Hc.
      { rewrite (bind_Ok _ _ _ _ _ (read_only_val _ m from (read_only_source ph0) Hs)).
        rewrite (bind_Ok _ _ _ _ _ (idx_Ok markers i from m Hfrom)).
        by rewrite ptr_eqb_refl. }
      by rewrite (bind_Ok _ _ _ _ _ Hc). }
    rewrite (bind_Ok _ _ _ _ _ Ha).
    rewrite (bind_Ok _ _ _ _ _ (idx_Ok markers _ to m Hto)).
    rewrite (bind_Ok _ _ _ _ _
               (divide_take_run m to rest0 ph0 [ph0] (concat segs ++ ph :: tail)
                  (S (length (rest0 ++ concat segs ++ ph :: tail))) Hrun
                  ltac:(rewrite length_app; lia))).
    cbn [app]. rewrite (IH (S i) (acc ++ [ph0 :: rest0])).
    + by rewrite <- app_assoc.
    + intros j seg' Hj. specialize (Hsegs (S j) seg' Hj).
      destruct Hsegs as (from' & to' & H1 & H2 & H3). exists from', to'.
      replace (S i + j)%nat with (i + S j)%nat by lia. done.
    + destruct Hlast as (from' & to' & H1 & H2 & H3). exists from', to'.
      cbn [length] in H1, H2.
      replace (S i + length segs)%nat with (i + S (length segs))%nat by lia. done.
Qed.
End DivideGivesUp.

(** X17.  Let the rotated loop begin with complete segments [segs] for the
    first markers, followed by half-edges [ph :: tail] that start at the
    next marker but never reach the marker after it.  Then [divide]
    writes [CLoop::divide error] and returns; the complete segments stay
    appended to the segments of the loop, the unfinished one is dropped. *)
Theorem divide_marker_not_reached nd m L markers a b segs ph tail :
  l_halfedges L = a ++ b → b ++ a = concat segs ++ ph :: tail →
  (length segs < length markers)%nat →
  (∀ m0, markers !! 0%nat = Some m0 →
         Forall (starts_off m m0) a ∧ ∃ hb b', b = hb :: b' ∧ val (source hb m) = Some m0) →
  (∀ i seg, segs !! i = Some seg →
     ∃ from to, markers !! i = Some from ∧
                markers !! ((i + 1) mod length markers)%nat = Some to ∧
                segment_to m from to seg) →
  (∃ from to, markers !! length segs = Some from ∧
              markers !! ((length segs + 1) mod length markers)%nat = Some to ∧
              val (source ph m) = Some from ∧
              Forall (ends_off m to) (ph :: tail)) →
  divide nd L markers m
  = Ok (mkLoop (l_length L) (l_pHalfedge L) (l_halfedges L) (l_segments L ++ segs))
       (printed "CLoop::divide error" m).
Proof.
  intros Hq Hrot Hlen Ha Hsegs Hlast. unfold divide.
  destruct markers as [| m0 mk] eqn:Em; [cbn in Hlen; lia |]. rewrite <- Em in *.
  assert (markers !! 0%nat = Some m0) as Hm0 by (by rewrite Em).
  destruct (Ha m0 Hm0) as (Hoff & hb & b' & -> & Hs).
  rewrite Hq.
  rewrite (bind_Ok _ _ _ _ _
             (divide_rotate_finds m markers m0 Hm0 a hb b' 0
                (S (S (length (a ++ hb :: b'))))
                Hoff Hs ltac:(rewrite length_app; lia)
                ltac:(rewrite length_app; cbn; lia))).
  assert ((length (hb :: b' ++ a) <? 0 + length a)%nat = false) as ->.
  { apply Nat.ltb_ge. cbn. rewrite !length_app. lia. }
  change (hb :: b' ++ a) with ((hb :: b') ++ a). rewrite Hrot.
  replace (length markers) with (length segs + S (length markers - S (length segs)))%nat
    at 1 by lia.
  rewrite (bind_Ok _ _ _ _ _
             (divide_segments_gives_up nd m markers segs ph tail _ 0
                (l_segments L) Hsegs Hlast)).
  reflexivity.
Qed.

Lemma divide_marker_not_reached_witness :
  divide false quad_loop [Some 3; Some 1; Some 7]%positive quad_mesh
  = Ok (mkLoop (l_length quad_loop) (l_pHalfedge quad_loop) (l_halfedges quad_loop)
          (l_segments quad_loop ++ [[Some 6; Some 4]]%positive))
       (printed "CLoop::divide error" quad_mesh).
Proof.
  apply (divide_marker_not_reached false quad_mesh quad_loop
           [Some 3; Some 1; Some 7]%positive
           [Some 3%positive] [Some 6; Some 4; Some 2]%positive
           [[Some 6; Some 4]]%positive (Some 2%positive) [Some 3%positive]).
  - reflexivity.
  - reflexivity.
  - cbn. lia.
  - intros m0 [= <-]. split.
    + apply Forall_singleton. eexists. split; [vm_compute; reflexivity | discriminate].
    + eexists _, _. split; [reflexivity | vm_compute; reflexivity].
  - intros [| i] seg [= <-].
    exists (Some 3%positive), (Some 1%positive).
    split; [reflexivity |]. split; [reflexivity |].
    eexists _, _. split; [reflexivity |]. split; [vm_compute; reflexivity |].
    split; [eexists; split; [vm_compute; reflexivity | discriminate] |].
    vm_compute. reflexivity.
  - exists (Some 1%positive), (Some 7%positive).
    split; [reflexivity |]. split; [reflexivity |]. split; [vm_compute; reflexivity |].
    repeat (apply Forall_cons_2;
            [eexists; split; [vm_compute; reflexivity | discriminate] |]).
    apply Forall_nil_2.
Defined.

(** ** [swapEdge] and [swapable] on an interior edge *)

Ltac invert_run H :=
  repeat (apply bind_Ok_inv in H as (? & ? & ? & H); cbv zeta in H).

(** X18.  On an edge whose slot 1 holds a half-edge neither [swapEdge]
    nor [swapable] completes, with or without [NDEBUG]: both walk the
    adjacency vector of a vertex through a reference of list type. *)
Theorem swap_interior_never_returns nd m e h :
  val (halfedge1 e m) = Some (Some h) →
  (∀ r m', swapEdge nd e m ≠ Ok r m') ∧ (∀ r m', swapable nd e m ≠ Ok r m').
Proof.
  intros Hh.
  assert (∀ s m1, halfedge0 e m = Ok s m1 →
            m1 = m ∧ halfedge1 e m = Ok (Some h) m) as Hpre.
  { intros s m1 H0. apply val_Ok_ro in H0 as [-> _]; [| ro].
    split; [done |]. apply read_only_val; [ro | done]. }
  split; intros r m' Hrun.
  - unfold swapEdge in Hrun.
    apply bind_Ok_inv in Hrun as (s & m1 & H0 & Hrun).
    destruct (Hpre s m1 H0) as [-> H1]. rewrite (bind_Ok _ _ _ _ _ H1) in Hrun.
    cbn [ptr_eqb] in Hrun. rewrite ptr_eqb_Some_None in Hrun.
    invert_run Hrun.
    match goal with X : cast_list_elements _ _ = Ok _ _ |- _ => discriminate X end.
  - unfold swapable in Hrun.
    apply bind_Ok_inv in Hrun as (s & m1 & H0 & Hrun).
    destruct (Hpre s m1 H0) as [-> H1]. rewrite (bind_Ok _ _ _ _ _ H1) in Hrun.
    rewrite ptr_eqb_Some_None in Hrun.
    invert_run Hrun.
    match goal with X : cast_list_elements _ _ = Ok _ _ |- _ => discriminate X end.
Qed.

Lemma swap_interior_never_returns_witness :
  (∀ r m', swapEdge true (Some 1%positive) tetrahedron ≠ Ok r m') ∧
  (∀ r m', swapable true (Some 1%positive) tetrahedron ≠ Ok r m').
Proof.
  apply (swap_interior_never_returns true tetrahedron (Some 1%positive) 1%positive).
  vm_compute. reflexivity.
Defined.
